(* ===== verification/_CoqProject ===== *)
-Q . S2P
Prelude.v
MachineInt.v
Text.v
Resp.v
Pmr.v
Value.v
Hasher.v
KeyStore.v
Shard.v
Router.v
Aof.v
Command.v
Codec.v
Spec.v
Refinement.v
ServerBuilder.v
Recovery.v
TimingWheel.v
WorkerPool.v
Concurrency.v
Interleaving.v
RateLimiter.v
Pipeline.v
Reactor.v
Startup.v
Server.v
Responses.v
Framing.v
Scheduler.v
Program.v
ProgramInv.v
Shutdown.v
ProgramScheduler.v
PubSub.v
Instances.v
EngineTheorems.v
PersistenceTheorems.v
NetworkTheorems.v
ConcurrencyTheorems.v
ProgramTheorems.v
