(* ===== verification/Prelude.v ===== *)
(** * InMemoryDB: a verification development

    InMemoryDB ([src/app]) is a Redis-like key-value server: a reactor thread
    reads request lines from sockets, a pipeline parses them into commands and
    queues them, worker threads execute them on a sharded in-memory store, and
    the reactor sends the responses back in the order of the requests.  Changes
    are logged to an append-only file that is replayed at the next start.  This
    library models the C++ code as executable definitions and proves what makes
    its parts, and their composition, correct.

    ** The parts and their files

    Foundations
    - [Prelude]: the state-and-exception monad [SE] in which code that throws is
      written, [preserves]/[silent]/[commits] (frame and strong exception
      guarantee), strings as byte sequences, tactics and hint databases.
    - [MachineInt]: machine words as [Z] with wrap-around written out.
    - [Text]: [>>] tokenizing, [getline], [to_string], [stoll], [stoull],
      what text mode makes of a file.
    - [Resp]: the reply format, with a reference decoder.

    The engine
    - [Pmr] ([memory/pmr_allocator]): the tracking memory resource and the arena,
      with the sequences of requests a client may make.
    - [Value] ([memory/variant_type]): values, time to live, expiry.
    - [Hasher] ([engine/hasher], [murmur_hash3]): the hash, and MurmurHash3
      written independently of it.
    - [KeyStore]: the contract of a store as a class of operations and laws.
    - [Shard] ([engine/shard]) and [Router] ([engine/hasher], [ShardRouter]): the
      two instances of the contract.
    - [Command] ([core/command]): the nine commands, [execute], [serialize], the
      factory.
    - [Spec]: the key-value specification, a step relation on a finite map;
      [Refinement]: [execute] implements it, through the map [view] the readers
      see.
    - [Codec]: which commands survive being written and parsed again.

    Persistence and expiry
    - [Aof] ([daemons/aof_logger]): the logger, its flush thread, the lines it
      writes through the buffer of the stream, and shutdown, as interleaved steps.
    - [ServerBuilder] ([core/server_builder], [main]): configuration, memory-limit
      parsing, replay of the file, read in text mode, and boot.  [Recovery]: the log of a run replays to the same
      map.
    - [TimingWheel] ([daemons/timing_wheel]): scheduling and sweeping over any
      [KeyStore].

    The network side
    - [WorkerPool] ([core/worker_pool]): the bounded queue, the completion queue,
      the worker loop ([worker_step]) and its clients ([pool_step]).
    - [Concurrency] ([core/command]): commands cut where they release the shard
      lock.  [Interleaving]: the worker loop over these pieces, with the flush
      thread and the shutdown of the logger ([conc_step]).
    - [RateLimiter] ([network/rate_limiter]): [allow], and the token bucket behind
      the statement that switches it off.  [Pipeline] ([network/pipeline]): the
      handler chain.
    - [Reactor] ([network/reactor]): connections, framing, sequence numbers,
      reassembly, backpressure, one definition per member function.  [Startup]:
      the listening socket, opened and closed.
    - [Server]: reactor and workers together; [reactor_step] is the loop of
      [Reactor::start] cut at each access to the pool, [server_step] interleaves
      it with the workers.  [Responses]: the invariant that follows every request
      from its line to its response.  [Framing]: what holds of the lines in every
      run, and that a run to a [regular] state is one of regular states.  [Scheduler]: the same steps computed from a
      script of labels.
    - [PubSub] ([network/pubsub_broker]): the broker, which no other code uses.

    The program
    - [Program] ([core/server_builder], [build_and_run]; [main]): [launch] boots and
      starts the threads; [prog_step] interleaves the main thread with its
      shutdown sequence, the signal handler, the reactor thread from the opening
      of its socket on, the workers with commands cut at their unlocking, the
      flush thread and the sweeper.  The parts are those of [Startup], [Server],
      [Interleaving] and [TimingWheel], put side by side.
    - [ProgramInv]: what holds in every reachable state; each run projects to runs
      of the parts, and one history serves both the clients and the log.
      [Shutdown]: measures for the threads that were told to stop, and the states
      from which [main] can return.  [ProgramScheduler]: steps from labels.

    [Instances] gives a concrete allocator and container library on which the
    model runs.  The theorems are in [EngineTheorems], [PersistenceTheorems],
    [NetworkTheorems], [ConcurrencyTheorems] and [ProgramTheorems].

    ** What the theorems show

    - The engine: every command is a step of the specification, replies are
      well-formed and logged exactly when they report a change (C1); the types of
      keys (C35); no run uses more than the arenas and the byte count is the sum of
      the live blocks (C10, C11); last write wins (C13); every outcome of building
      the router, routing and hashing (C16-C18).
    - The server: the tasks executed form one sequential history of the
      specification, and responses reach each client in order and decode to the
      replies that history has for its lines (C2); no request is lost or answered
      twice (C15); framing does not depend on packets (C19); the limits hold
      (C25); reassembly, termination of the read loop (C28, C29); the pool inside
      the server is the pool (C37); the rate limit that is switched off (C22).
    - The program, over all its threads: from launch on, clients and log see one
      history, a run of the specification from the replayed engine (C3); a
      shutdown loses no accepted task and no line (C5); from every reachable state
      [main] can return, but for one race (C6); a stopped reactor ends (C34);
      what a launch comes to (C23).
    - Persistence: text round trips (C7); the file is always a prefix of the log and
      at most a part of one more line (C8); recovery (C4); the wheel (C24); memory limits (C20).
      Publish/subscribe: C38-C40.
    - Concurrent workers: commands are linearizable in the order of their locks
      (C9); the log holds the lines of that order, [SET] and [DEL] possibly late
      (C12); taking the program down and starting it again on its file restores the
      map with one worker or without [SET] and [DEL] (C21), but not in general (C26); the finer model implements the pool
      (C31), so what is proved of the pool and the server over any executor
      applies to its replies.
    - Some theorems state behaviour the documentation does not promise: a signal
      that comes early hangs the program (C33), a port in use ends it without a
      shutdown (C36), lines lost to backpressure (C30), pipelined commands
      reordered (C27), responses delivered to the next owner of a socket number
      (C32), values reverted by a restart (C26), expired keys revived by one
      (C14); and four lemmas: a byte 26 that ends the replay
      ([byte_26_ends_replay]), a cut line replayed as another command
      ([torn_line_replayed]), pauses lifted too early ([pause_survives_iff]), a
      wheel that is never scheduled on ([wheel_idle]).

    ** Conventions and bounds

    - Time is a parameter: nanoseconds of the steady clock, read at each call.
    - Library code is a parameter with stated laws: the memory resources under
      the tracker ([ArenaChain]; for C11 also that they serve no block above 2^63 - 1
      bytes, [BoundedResource]), the allocations of the [std::pmr] containers
      ([PmrLib], whose requests are [size_t] values), container capacities
      ([ContainerLayout]), the order in which [unsubscribe_all] visits the channels.
      The contents of the containers are in the model.
    - The heap is an input of the router's constructor ([Heap]: what it serves of
      the array of pointers, the shards and their buffers), so that [length_error],
      [bad_alloc] and the arena's exception are outcomes of [launch].
    - Sockets are inputs: what [accept], [recv], [send] and [WSAPoll] return.
    - The file is the string [disk].  The stream may pass on any part of what it
      holds at any moment ([spill]), so a crash of the process can leave a cut line;
      [text_in] is what a stream opened without [ios::binary] reads on Windows: CR LF
      becomes LF and the byte 26 ends the file.  The recovery theorems (C4, C14, C21)
      assume commands without that byte ([replayable]).
    - Loops with fuel: text extraction uses the length of the input, the read
      loop the length of the read buffer, the flush loop the size of the
      reassembly buffer; each iteration consumes one unit and lemmas show that
      more fuel changes nothing.  Other loops are structural.
    - C2, C3 and C15 are about runs in which no socket number is accepted twice and
      no client issues 2^64 requests: their hypotheses say so of the state reached,
      and [regular_run] carries it back over the run.  C32 shows what happens
      without the first.  Every other theorem on runs, C19, C25 and C37 among them,
      is about all runs.

    ** Not modelled

    - The banner and the messages printed, stream write errors, the creation of
      threads and the allocations outside the router failing, what the operating
      system loses of a file when the machine stops, [do_is_equal] (it compares addresses), options of the
      listening socket.
    - [Server] runs a command as one step; the gap in which SET and DEL have
      released the shard lock but not yet logged is in [Interleaving] and
      [Program], whose workers implement the pool [Server] uses.  Data races on
      the unlocked counter reads are outside the model.
    - The assertion on the shard count is taken as enabled ([NDEBUG] not defined).
    - Signals before [std::signal] was called have the default effect and end the
      process; the model starts when the threads have been started.
    - Left for later: the token bucket over time, and a bound on how many commands a
      cut file can lose. *)

From Stdlib Require Import ZArith Lia.
From stdpp Require Export base tactics list gmap strings fin_maps.

(** ** Notation scope, hint databases, tactics *)

Declare Scope db_scope.
Delimit Scope db_scope with db.

Create HintDb preserves discriminated.
Create HintDb db discriminated.
Create Rewrite HintDb str.

(** Case analysis on the tests the code performs. *)
Ltac case_test :=
  match goal with
  | |- context [if ?b then _ else _] => let E := fresh "E" in destruct b eqn:E
  | |- context [match ?b with _ => _ end] => let E := fresh "E" in destruct b eqn:E
  end.

(** Turns boolean tests in the hypotheses into propositions. *)
Ltac bool_to_prop :=
  repeat match goal with
  | H : (_ <? _)%Z = true |- _ => apply Z.ltb_lt in H
  | H : (_ <? _)%Z = false |- _ => apply Z.ltb_ge in H
  | H : (_ <=? _)%Z = true |- _ => apply Z.leb_le in H
  | H : (_ <=? _)%Z = false |- _ => apply Z.leb_gt in H
  | H : (_ =? _)%Z = true |- _ => apply Z.eqb_eq in H
  | H : (_ =? _)%Z = false |- _ => apply Z.eqb_neq in H
  | H : (_ && _) = true |- _ => apply andb_true_iff in H as [? ?]
  | H : (_ && _) = false |- _ => apply andb_false_iff in H
  | H : (_ || _) = false |- _ => apply orb_false_iff in H as [? ?]
  | H : (_ || _) = true |- _ => apply orb_true_iff in H
  | H : negb _ = true |- _ => apply negb_true_iff in H
  | H : negb _ = false |- _ => apply negb_false_iff in H
  end.

(** ** State and exceptions

    [SE S E A] is a computation over the state [S] that returns an [A] or
    throws an [E]; the state reached when the exception is thrown is kept, as
    in C++ after unwinding. *)

Inductive result (E A : Type) :=
| Normal (a : A)
| Throw (e : E).
Arguments Normal {E A} a.
Arguments Throw {E A} e.

(** [std::runtime_error] *)
Inductive runtime_error := RuntimeError (what : string).

Definition SE (S E A : Type) : Type := S → result E A * S.

Section SE_ops.
Context {S E : Type}.

#[global] Instance SE_ret : MRet (SE S E) := λ A a s, (Normal a, s).

#[global] Instance SE_bind : MBind (SE S E) := λ A B k m s,
  match m s with
  | (Normal a, s') => k a s'
  | (Throw e, s') => (Throw e, s')
  end.

Definition throw {A} (e : E) : SE S E A := λ s, (Throw e, s).
Definition get_state : SE S E S := λ s, (Normal s, s).
Definition modify (f : S → S) : SE S E unit := λ s, (Normal tt, f s).
Definition try_catch {A} (m : SE S E A) (h : E → SE S E A) : SE S E A := λ s,
  match m s with
  | (Normal a, s') => (Normal a, s')
  | (Throw e, s') => h e s'
  end.

(** A computation that lets no exception out, as a function; [d] is returned on
    an exception, and is never used where [nothrow] holds. *)
Definition noexcept {A} (d : A) (m : SE S E A) (s : S) : A * S :=
  match m s with
  | (Normal a, s') => (a, s')
  | (Throw _, s') => (d, s')
  end.

Definition nothrow {A} (m : SE S E A) : Prop := ∀ s, ∃ a s', m s = (Normal a, s').
End SE_ops.

Lemma noexcept_state {S E A} (d : A) (m : SE S E A) s : (noexcept d m s).2 = (m s).2.
Proof. unfold noexcept. by destruct (m s) as [[a|e] s']. Qed.

(** [preserves R m]: every run of [m], normal or not, relates the state before
    and the state after by [R]. *)
Definition preserves {S E A : Type} (R : relation S) (m : SE S E A) : Prop :=
  ∀ s, R s (m s).2.

Section preserves_lemmas.
Context {S E : Type} (R : relation S) `{!PreOrder R}.

Lemma preserves_ret {A} (a : A) : preserves (E := E) R (mret a).
Proof. intros s. simpl. reflexivity. Qed.

Lemma preserves_throw {A} (e : E) : preserves (A := A) R (throw e).
Proof. intros s. simpl. reflexivity. Qed.

Lemma preserves_get : preserves (E := E) R get_state.
Proof. intros s. simpl. reflexivity. Qed.

Lemma preserves_modify f : (∀ s, R s (f s)) → preserves (E := E) R (modify f).
Proof. intros H s. apply H. Qed.

Lemma preserves_bind {A B} (m : SE S E A) (k : A → SE S E B) :
  preserves R m → (∀ a, preserves R (k a)) → preserves R (m ≫= k).
Proof.
  intros Hm Hk s. unfold mbind, SE_bind. specialize (Hm s).
  destruct (m s) as [[a|e] s']; simpl in *; [|done].
  etrans; [exact Hm|apply Hk].
Qed.

Lemma preserves_try {A} (m : SE S E A) h :
  preserves R m → (∀ e, preserves R (h e)) → preserves R (try_catch m h).
Proof.
  intros Hm Hh s. unfold try_catch. specialize (Hm s).
  destruct (m s) as [[a|e] s']; simpl in *; [done|].
  etrans; [exact Hm|apply Hh].
Qed.
End preserves_lemmas.

#[export] Hint Resolve preserves_ret preserves_throw preserves_get preserves_modify
  preserves_bind preserves_try : preserves.

(** [silent obs m]: whatever its outcome, [m] does not change what [obs] sees. *)
Definition silent {S E A O : Type} (obs : S → O) (m : SE S E A) : Prop :=
  ∀ s, obs (m s).2 = obs s.

(** [commits obs m s a o]: a normal run of [m] from [s] returns [a] and leaves
    the observation [o]; a run that throws leaves the observation of [s]: the
    strong exception guarantee. *)
Definition commits {S E A O : Type} (obs : S → O) (m : SE S E A) (s : S) (a : A) (o : O) : Prop :=
  match m s with
  | (Normal a', s') => a' = a ∧ obs s' = o
  | (Throw _, s') => obs s' = obs s
  end.

Section commits_lemmas.
Context {S E O : Type} (obs : S → O).

Lemma commits_ret {A} (a : A) s : commits (E := E) obs (mret a) s a (obs s).
Proof. by split. Qed.

Lemma commits_silent {B} (m : SE S E unit) (k : unit → SE S E B) s b o :
  silent obs m →
  (∀ s', obs s' = obs s → commits obs (k tt) s' b o) → commits obs (m ≫= k) s b o.
Proof.
  intros Hm Hk. unfold commits, mbind, SE_bind. specialize (Hm s).
  destruct (m s) as [[[]|e] s1]; simpl in Hm; [|done].
  specialize (Hk s1 Hm). unfold commits in Hk.
  destruct (k tt s1) as [[b'|e] s2]; [done|congruence].
Qed.

Lemma commits_get {A B} (g : S → A) (k : A → SE S E B) s b o :
  commits obs (k (g s)) s b o → commits obs ((λ s, (Normal (g s), s)) ≫= k) s b o.
Proof. done. Qed.

(** The last observable changes: nothing throws after them. *)
Lemma commits_last {A B} (m : SE S E A) (k : A → SE S E B) s a s1 b s' o :
  m s = (Normal a, s1) → k a s1 = (Normal b, s') → obs s' = o → commits obs (m ≫= k) s b o.
Proof. intros H1 H2 Ho. unfold commits, mbind, SE_bind. by rewrite H1, H2. Qed.

Lemma commits_try {A} (m : SE S E A) (err : E → A) s a o :
  commits obs m s a o →
  ∃ r s', try_catch m (λ e, mret (err e)) s = (Normal r, s') ∧
    (r = a ∧ obs s' = o ∨ (∃ e, r = err e) ∧ obs s' = obs s).
Proof.
  unfold commits, try_catch. destruct (m s) as [[a'|e] s1].
  - intros [-> <-]. eexists _, _. split; [done|]. by left.
  - intros H. eexists _, _. split; [done|]. right. eauto.
Qed.
End commits_lemmas.

(** Rewrites with the equations between observations. *)
Ltac rewrite_obs :=
  repeat match goal with H : ?obs _ = ?obs _ |- _ => rewrite H; clear H end.

(** Applies [commits_try] to the [try] block of the goal. *)
Ltac try_block obs err :=
  lazymatch goal with
  | |- context [try_catch ?m _ ?s = (_, _)] =>
    let r := fresh "r" in let s' := fresh "s'" in
    let Hr := fresh "Hr" in let H := fresh "H" in
    edestruct (commits_try obs m err s) as (r & s' & Hr & H);
    [|exists r, s'; split; [exact Hr|]]
  end.

(** ** Lists *)

(** The elements a list's members hold, when one member changes. *)
Lemma list_bind_insert {A B} (h : A → list B) (l : list A) i w w' :
  l !! i = Some w → (<[i := w']> l ≫= h) ++ h w ≡ₚ (l ≫= h) ++ h w'.
Proof.
  intros Hi. rewrite insert_take_drop by (by eapply lookup_lt_Some).
  rewrite <-(take_drop_middle l i w Hi) at 3. rewrite !bind_app. cbn [mbind list_bind].
  rewrite <-!(assoc_L (++)). solve_Permutation.
Qed.

(** A sum over a list of which one member changes. *)
Lemma sum_list_with_insert {A} (h : A → nat) (l : list A) i w w' :
  l !! i = Some w → (sum_list_with h (<[i := w']> l) + h w = sum_list_with h l + h w')%nat.
Proof.
  revert i. induction l as [|x l IH]; intros [|i] Hi; simpl in *; try done.
  - injection Hi as ->. lia.
  - specialize (IH i Hi). lia.
Qed.

(** ** Measures *)

(** Pairs in lexicographic order. *)
Definition lex_lt (p q : nat * nat) : Prop := (p.1 < q.1)%nat ∨ p.1 = q.1 ∧ (p.2 < q.2)%nat.

Lemma lex_lt_wf : well_founded lex_lt.
Proof.
  assert (∀ a b, Acc lex_lt (a, b)) as H; [|by intros [a b]].
  induction a as [a IHa] using lt_wf_ind. induction b as [b IHb] using lt_wf_ind.
  constructor. intros [a' b'] [Hlt|[He Hlt]]; simpl in *; [by apply IHa|subst a'; by apply IHb].
Qed.

(** ** Runs of step relations *)

Section runs.
Context {A B : Type} (R : relation A) (Q : relation B).

(** What every step keeps, every run keeps. *)
Lemma rtc_invariant (P : A → Prop) x y :
  (∀ x y, R x y → P x → P y) → rtc R x y → P x → P y.
Proof. intros Hstep. induction 1; eauto. Qed.

(** Steps that project, under an invariant, to runs of another relation. *)
Lemma rtc_project_inv (P : A → Prop) (f : A → B) x y :
  (∀ x y, R x y → P x → P y ∧ rtc Q (f x) (f y)) → rtc R x y → P x → P y ∧ rtc Q (f x) (f y).
Proof.
  intros Hstep. induction 1 as [x|x y z Hxy _ IH]; intros Hx; [by split; [|apply rtc_refl]|].
  destruct (Hstep x y Hxy Hx) as [Hy Hq]. destruct (IH Hy) as [Hz Hq']. split; [done|by etrans].
Qed.

Lemma rtc_project (f : A → B) x y :
  (∀ x y, R x y → rtc Q (f x) (f y)) → rtc R x y → rtc Q (f x) (f y).
Proof. intros Hstep H. apply (rtc_project_inv (λ _, True)); auto. Qed.

(** Where a measure decreases along steps that can be taken, a run ends. *)
Lemma rtc_halts {M} (lt : relation M) (measure : A → M) (P Halted : A → Prop) :
  well_founded lt →
  (∀ x, P x → Halted x ∨ ∃ y, R x y ∧ P y ∧ lt (measure y) (measure x)) →
  ∀ x, P x → ∃ y, rtc R x y ∧ P y ∧ Halted y.
Proof.
  intros Hwf Hstep. assert (∀ m x, m = measure x → P x → ∃ y, rtc R x y ∧ P y ∧ Halted y) as H; [|eauto].
  intros m. induction (Hwf m) as [m _ IH]. intros x -> Hx.
  destruct (Hstep x Hx) as [|(y & Hs & Hy & Hlt)]; [exists x; split_and!; done|].
  destruct (IH _ Hlt y eq_refl Hy) as (z & Hr & ?). exists z. split; [by eapply rtc_l|done].
Qed.
End runs.

(** ** Strings as byte sequences *)

(** Carriage return, line feed, blank; ["\r\n"]. *)
Definition CR : Ascii.ascii := Ascii.ascii_of_nat 13.
Definition LF : Ascii.ascii := Ascii.ascii_of_nat 10.
Abbreviation SP := (Ascii.Ascii false false false false false true false false).
Definition crlf : string := String CR (String LF EmptyString).

Fixpoint string_forall (p : Ascii.ascii → bool) (s : string) : bool :=
  match s with
  | EmptyString => true
  | String c s => p c && string_forall p s
  end.

Fixpoint string_concat (l : list string) : string :=
  match l with
  | [] => EmptyString
  | s :: l => s +:+ string_concat l
  end.

Fixpoint string_drop (n : nat) (s : string) : string :=
  match n, s with
  | S n, String _ s => string_drop n s
  | _, _ => s
  end.

Fixpoint string_take (n : nat) (s : string) : string :=
  match n, s with
  | S n, String c s => String c (string_take n s)
  | _, _ => EmptyString
  end.

Lemma string_app_assoc (a b c : string) : a +:+ b +:+ c = (a +:+ b) +:+ c.
Proof. induction a; simpl; [done|]. unfold String.app in *. simpl. by f_equal. Qed.

Lemma string_app_nil_r (a : string) : a +:+ EmptyString = a.
Proof. induction a; [done|]. unfold String.app in *. simpl. by f_equal. Qed.

Lemma string_app_cons c (a b : string) : String c a +:+ b = String c (a +:+ b).
Proof. done. Qed.

Lemma string_app_empty (b : string) : EmptyString +:+ b = b.
Proof. done. Qed.

Lemma string_length_app (a b : string) :
  String.length (a +:+ b) = String.length a + String.length b.
Proof. induction a; [done|]. rewrite string_app_cons. simpl. lia. Qed.

Lemma string_forall_app p (a b : string) :
  string_forall p (a +:+ b) = string_forall p a && string_forall p b.
Proof. induction a; [done|]. rewrite string_app_cons. simpl. rewrite IHa. by rewrite andb_assoc. Qed.

Lemma string_concat_app l1 l2 :
  string_concat (l1 ++ l2) = string_concat l1 +:+ string_concat l2.
Proof. induction l1; [done|]. simpl. rewrite IHl1. apply string_app_assoc. Qed.

Lemma string_app_inv_head (a b c : string) : a +:+ b = a +:+ c → b = c.
Proof. intros H. by apply (inj (String.append a)) in H. Qed.

Lemma string_take_drop n s : string_take n s +:+ string_drop n s = s.
Proof.
  revert s. induction n as [|n IH]; intros [|x s]; try done. simpl.
  rewrite string_app_cons. by rewrite IH.
Qed.

(** [a] is a prefix of [s]. *)
Definition string_prefix (a s : string) : Prop := ∃ rest, s = a +:+ rest.

Lemma string_app_nil_inv (a b : string) : a +:+ b = EmptyString → a = EmptyString ∧ b = EmptyString.
Proof. by destruct a, b. Qed.

#[export] Hint Rewrite <- string_app_assoc : str.
#[export] Hint Rewrite string_app_cons string_app_empty string_app_nil_r : str.
