(* ===== verification/MachineInt.v ===== *)
(** * Machine integers: [uint32_t], [size_t]/[uint64_t], [int64_t]

    Unsigned arithmetic of C++ wraps; the values are kept as [Z] and every
    operation that can leave the range goes through [u32] or [u64].  Signed
    64-bit arithmetic does not wrap in C++ (overflow is undefined), so signed
    operations are written on [Z] and [in_i64] states that they stay in range. *)

From S2P Require Import Prelude.

Local Open Scope Z_scope.

Definition u8 (z : Z) : Z := z mod 2 ^ 8.
Definition u32 (z : Z) : Z := z mod 2 ^ 32.
Definition u64 (z : Z) : Z := z mod 2 ^ 64.
Definition int64_min : Z := - 2 ^ 63.
Definition int64_max : Z := 2 ^ 63 - 1.
Definition in_i64 (z : Z) : bool := (int64_min <=? z) && (z <=? int64_max).

(** Conversion of an unsigned value to [int] (two's complement, C++20). *)
Definition to_int32 (z : Z) : Z :=
  let m := u32 z in if m <? 2 ^ 31 then m else m - 2 ^ 32.

Definition byte_of_ascii (c : Ascii.ascii) : Z := Z.of_N (Ascii.N_of_ascii c).

Fixpoint bytes_of_string (s : string) : list Z :=
  match s with
  | EmptyString => []
  | String c s => byte_of_ascii c :: bytes_of_string s
  end.

Definition is_u32 (z : Z) : Prop := 0 <= z < 2 ^ 32.
Definition is_u64 (z : Z) : Prop := 0 <= z < 2 ^ 64.

Lemma u32_range z : is_u32 (u32 z).
Proof. unfold is_u32, u32. apply Z.mod_pos_bound. lia. Qed.

Lemma u64_range z : is_u64 (u64 z).
Proof. unfold is_u64, u64. apply Z.mod_pos_bound. lia. Qed.

Lemma u32_small z : is_u32 z → u32 z = z.
Proof. intros. by apply Z.mod_small. Qed.

Lemma u64_small z : is_u64 z → u64 z = z.
Proof. intros. by apply Z.mod_small. Qed.

Lemma u64_le z : 0 <= z → u64 z <= z.
Proof. intros. unfold u64. apply Z.mod_le; lia. Qed.

Lemma in_i64_spec z : in_i64 z = true ↔ - 2 ^ 63 <= z < 2 ^ 63.
Proof.
  unfold in_i64, int64_min, int64_max. rewrite andb_true_iff, !Z.leb_le. lia.
Qed.

Lemma length_bytes_of_string s : length (bytes_of_string s) = String.length s.
Proof. induction s; simpl; congruence. Qed.

Lemma byte_of_ascii_range c : 0 <= byte_of_ascii c < 256.
Proof.
  unfold byte_of_ascii. pose proof (Ascii.N_ascii_bounded c). lia.
Qed.

Lemma byte_of_ascii_inj c d : byte_of_ascii c = byte_of_ascii d → c = d.
Proof.
  unfold byte_of_ascii. intros H. apply N2Z.inj in H.
  by rewrite <-(Ascii.ascii_N_embedding c), H, Ascii.ascii_N_embedding.
Qed.

Lemma bytes_of_string_range s : Forall (λ b, 0 <= b < 256) (bytes_of_string s).
Proof. induction s; constructor; [apply byte_of_ascii_range|done]. Qed.

(** The powers of two of the byte positions as numerals, for [lia]. *)
Ltac norm_pow :=
  change (2 ^ 8) with 256 in *; change (2 ^ 16) with 65536 in *;
  change (2 ^ 24) with 16777216 in *.

(** ** Bit facts shared by the hash and the mask *)

Lemma testbit_u32_high z i : is_u32 z → 32 <= i → Z.testbit z i = false.
Proof.
  intros Hz Hi. rewrite <-(u32_small z Hz). unfold u32.
  apply Z.mod_pow2_bits_high. lia.
Qed.

(** A nonnegative number whose bits from 32 on are zero is a [uint32_t]. *)
Lemma is_u32_of_bits z :
  0 <= z → (∀ i, 32 <= i → Z.testbit z i = false) → is_u32 z.
Proof.
  intros Hz Hb. split; [done|].
  destruct (decide (z = 0)) as [->|]; [lia|].
  apply Z.log2_lt_pow2; [lia|].
  destruct (Z.lt_ge_cases (Z.log2 z) 32) as [?|Hge]; [done|].
  specialize (Hb _ Hge). rewrite Z.bit_log2 in Hb; [done|lia].
Qed.

Lemma is_u32_lxor a b : is_u32 a → is_u32 b → is_u32 (Z.lxor a b).
Proof.
  intros Ha Hb. apply is_u32_of_bits.
  { apply Z.lxor_nonneg. unfold is_u32 in *. lia. }
  intros i Hi. by rewrite Z.lxor_spec, !testbit_u32_high.
Qed.

Lemma is_u32_lor a b : is_u32 a → is_u32 b → is_u32 (Z.lor a b).
Proof.
  intros Ha Hb. apply is_u32_of_bits.
  { apply Z.lor_nonneg. unfold is_u32 in *. lia. }
  intros i Hi. by rewrite Z.lor_spec, !testbit_u32_high.
Qed.

Lemma is_u32_shiftr a n : 0 <= n → is_u32 a → is_u32 (Z.shiftr a n).
Proof.
  intros Hn [Ha1 Ha2]. rewrite Z.shiftr_div_pow2 by done.
  assert (0 < 2 ^ n) by (apply Z.pow_pos_nonneg; lia). split.
  - apply Z.div_pos; lia.
  - apply Z.le_lt_trans with a; [|done]. apply Z.div_le_upper_bound; nia.
Qed.

#[export] Hint Resolve u32_range u64_range is_u32_lxor is_u32_lor : db.
