(* ===== verification/Text.v ===== *)
(** * Text functions of the C++ library the program uses

    [std::toupper], [operator>>] on [std::istringstream], [std::getline],
    [std::to_string], [std::stoll] and [std::stoull], on byte strings in the
    "C" locale. *)

From Stdlib Require Import DecimalString DecimalZ DecimalPos.
From S2P Require Import Prelude MachineInt.

Local Open Scope Z_scope.

(** ** Characters *)

Definition char_code (c : Ascii.ascii) : nat := Ascii.nat_of_ascii c.

(** C [isspace]: [\t \n \v \f \r] and the blank. *)
Definition isspace (c : Ascii.ascii) : bool :=
  let n := char_code c in
  ((9 <=? n) && (n <=? 13) || (n =? 32))%nat.

Definition toupper (c : Ascii.ascii) : Ascii.ascii :=
  let n := char_code c in
  if ((97 <=? n) && (n <=? 122))%nat then Ascii.ascii_of_nat (n - 32) else c.

Fixpoint to_upper (s : string) : string :=
  match s with
  | EmptyString => EmptyString
  | String c s => String (toupper c) (to_upper s)
  end.

Definition non_space (s : string) : bool := string_forall (λ c, negb (isspace c)) s.
Definition is_LF (c : Ascii.ascii) : bool := Ascii.eqb c LF.
Definition is_CR (c : Ascii.ascii) : bool := Ascii.eqb c CR.

(** The byte 26, Ctrl-Z. *)
Definition is_SUB (c : Ascii.ascii) : bool := Ascii.eqb c (Ascii.ascii_of_nat 26).

(** ** A file read in text mode

    The program runs on Windows and opens the file it replays without
    [std::ios::binary]: the C library then turns CR LF into LF, and takes the
    byte 26 as the end of the file. *)
Fixpoint text_in (s : string) : string :=
  match s with
  | EmptyString => EmptyString
  | String c s' =>
    if is_SUB c then EmptyString
    else if is_CR c && match s' with String d _ => is_LF d | EmptyString => false end then text_in s'
    else String c (text_in s')
  end.

Definition has_no_SUB (s : string) : bool := string_forall (λ c, negb (is_SUB c)) s.

(** ** Extraction loops: [while (stream >> x)] and [while (getline(stream, x))]

    One extraction takes the rest of the stream and returns the extracted text
    and what is left, or nothing when the stream fails. *)

Fixpoint while_extract (extract : string → option (string * string))
    (fuel : nat) (s : string) : list string :=
  match fuel with
  | O => []
  | S fuel =>
    match extract s with
    | None => []
    | Some (t, rest) => t :: while_extract extract fuel rest
    end
  end.

Definition extract_all (extract : string → option (string * string)) (s : string) : list string :=
  while_extract extract (S (String.length s)) s.

Fixpoint skip_ws (s : string) : string :=
  match s with
  | String c s' => if isspace c then skip_ws s' else s
  | EmptyString => EmptyString
  end.

(** [(longest prefix without p, rest starting at the first p)] *)
Fixpoint break_at (p : Ascii.ascii → bool) (s : string) : string * string :=
  match s with
  | EmptyString => (EmptyString, EmptyString)
  | String c s' =>
    if p c then (EmptyString, s)
    else let '(a, b) := break_at p s' in (String c a, b)
  end.

(** [iss >> token] *)
Definition stream_extract (s : string) : option (string * string) :=
  match skip_ws s with
  | EmptyString => None
  | s' => Some (break_at isspace s')
  end.

(** [while (iss >> token) tokens.push_back(token)] *)
Definition tokenize (line : string) : list string := extract_all stream_extract line.

(** [std::getline(file, line)]: the delimiter is consumed and not stored; the
    extraction fails when nothing is left. *)
Definition getline (s : string) : option (string * string) :=
  match s with
  | EmptyString => None
  | _ =>
    let '(line, rest) := break_at is_LF s in
    Some (line, match rest with String _ rest' => rest' | EmptyString => EmptyString end)
  end.

Definition getlines (s : string) : list string := extract_all getline s.

(** ** Decimal numbers *)

Definition to_string (z : Z) : string := NilZero.string_of_int (Z.to_int z).

Definition digit (c : Ascii.ascii) : option Z :=
  let n := char_code c in
  if ((48 <=? n) && (n <=? 57))%nat then Some (Z.of_nat n - 48) else None.

Fixpoint digits_acc (acc : Z) (s : string) : Z :=
  match s with
  | EmptyString => acc
  | String c s' =>
    match digit c with
    | Some d => digits_acc (10 * acc + d) s'
    | None => acc
    end
  end.

(** At least one digit, else no conversion ([std::invalid_argument]). *)
Definition parse_digits (s : string) : option Z :=
  match s with
  | EmptyString => None
  | String c _ => if digit c is Some _ then Some (digits_acc 0 s) else None
  end.

(** Optional sign: [(negative, rest)]. *)
Definition parse_sign (s : string) : bool * string :=
  match s with
  | String c s' =>
    if (char_code c =? 45)%nat then (true, s')
    else if (char_code c =? 43)%nat then (false, s') else (false, s)
  | EmptyString => (false, s)
  end.

(** [std::stoll]: [None] when it throws ([std::invalid_argument] or
    [std::out_of_range]).  Characters after the number are ignored. *)
Definition stoll (s : string) : option Z :=
  let '(neg, s) := parse_sign (skip_ws s) in
  match parse_digits s with
  | None => None
  | Some v => let z := if (neg : bool) then - v else v in if in_i64 z then Some z else None
  end.

(** [std::stoull]: a leading minus sign negates modulo 2^64, as [strtoull] does. *)
Definition stoull (s : string) : option Z :=
  let '(neg, s) := parse_sign (skip_ws s) in
  match parse_digits s with
  | None => None
  | Some v => if v <? 2 ^ 64 then Some (if (neg : bool) then u64 (- v) else v) else None
  end.

(** ** Extraction loops: the fuel is enough *)

Section extraction.
Variable extract : string → option (string * string).
Hypothesis extract_shrinks : ∀ s t r, extract s = Some (t, r) → (String.length r < String.length s)%nat.

Lemma while_extract_fuel n m s :
  (String.length s < n)%nat → (String.length s < m)%nat →
  while_extract extract n s = while_extract extract m s.
Proof using extract_shrinks.
  revert m s. induction n as [|n IH]; intros [|m] s Hn Hm; try lia.
  simpl. destruct (extract s) as [[t r]|] eqn:E; [|done].
  apply extract_shrinks in E. f_equal. apply IH; lia.
Qed.

Lemma extract_all_unfold s :
  extract_all extract s =
  match extract s with None => [] | Some (t, r) => t :: extract_all extract r end.
Proof using extract_shrinks.
  unfold extract_all at 1. cbn [while_extract].
  destruct (extract s) as [[t r]|] eqn:E; [|done].
  f_equal. apply extract_shrinks in E. apply while_extract_fuel; lia.
Qed.
End extraction.

Lemma skip_ws_length s : (String.length (skip_ws s) <= String.length s)%nat.
Proof. induction s; simpl; [lia|]. destruct (isspace a); simpl; lia. Qed.

Lemma break_at_app p s : (break_at p s).1 +:+ (break_at p s).2 = s.
Proof.
  induction s as [|c s IH]; [done|]. simpl. destruct (p c); [done|].
  destruct (break_at p s). simpl in *. by rewrite string_app_cons, IH.
Qed.

Lemma break_at_length p s :
  (String.length (break_at p s).1 + String.length (break_at p s).2 = String.length s)%nat.
Proof. by rewrite <-string_length_app, break_at_app. Qed.

Lemma break_at_prefix p s : string_forall (λ c, negb (p c)) (break_at p s).1 = true.
Proof.
  induction s as [|c s IH]; [done|]. simpl. destruct (p c) eqn:E; [done|].
  destruct (break_at p s). simpl in *. by rewrite E.
Qed.

Lemma break_at_found p s c t :
  string_forall (λ c, negb (p c)) s = true → p c = true →
  break_at p (s +:+ String c t) = (s, String c t).
Proof.
  intros Hs Hc. induction s as [|d s IH]; simpl in *.
  { by rewrite Hc. }
  bool_to_prop. rewrite H. by rewrite IH.
Qed.

Lemma break_at_stop p s l c t : break_at p s = (l, String c t) → p c = true.
Proof.
  revert l. induction s as [|d s IH]; intros l; simpl; [done|].
  destruct (p d) eqn:E; [by intros [= _ <- _]|].
  destruct (break_at p s) as [l' s']. intros [= _ ->]. by eapply IH.
Qed.

Lemma break_at_end p s :
  string_forall (λ c, negb (p c)) s = true → break_at p s = (s, EmptyString).
Proof.
  intros Hs. induction s as [|d s IH]; simpl in *; [done|].
  bool_to_prop. rewrite H. by rewrite IH.
Qed.

Lemma stream_extract_shrinks s t r :
  stream_extract s = Some (t, r) → (String.length r < String.length s)%nat.
Proof.
  unfold stream_extract. pose proof (skip_ws_length s).
  destruct (skip_ws s) as [|c s'] eqn:E; [done|]. intros [= Hb].
  assert (isspace c = false) as Hc.
  { clear -E. induction s as [|d s IH]; [done|]. simpl in E.
    destruct (isspace d) eqn:Hd; [by apply IH|]. by simplify_eq. }
  rewrite Hc in Hb. pose proof (break_at_length isspace s') as Hl.
  destruct (break_at isspace s'). simplify_eq/=. lia.
Qed.

Lemma getline_shrinks s t r : getline s = Some (t, r) → (String.length r < String.length s)%nat.
Proof.
  unfold getline. destruct s as [|c s]; [done|].
  pose proof (break_at_length is_LF (String c s)) as Hl.
  destruct (break_at is_LF (String c s)) as [a b]. intros [= <- <-].
  destruct b; simpl in *; lia.
Qed.

Lemma tokenize_unfold s :
  tokenize s = match stream_extract s with None => [] | Some (t, r) => t :: tokenize r end.
Proof. apply extract_all_unfold, stream_extract_shrinks. Qed.

Lemma getlines_unfold s :
  getlines s = match getline s with None => [] | Some (t, r) => t :: getlines r end.
Proof. apply extract_all_unfold, getline_shrinks. Qed.

(** ** Tokens *)

Definition is_token (s : string) : bool :=
  match s with EmptyString => false | _ => non_space s end.

Lemma skip_ws_non_space c s : isspace c = false → skip_ws (String c s) = String c s.
Proof. intros H. simpl. by rewrite H. Qed.

Lemma stream_extract_token t rest :
  is_token t = true →
  stream_extract (t +:+ String SP rest) = Some (t, String SP rest).
Proof.
  unfold stream_extract, is_token. destruct t as [|c t]; [done|]. intros H.
  pose proof H as H'. unfold non_space in H. simpl in H. bool_to_prop.
  rewrite string_app_cons, skip_ws_non_space by done.
  f_equal. rewrite <-string_app_cons. by apply break_at_found.
Qed.

Lemma stream_extract_last t : is_token t = true → stream_extract t = Some (t, EmptyString).
Proof.
  unfold stream_extract, is_token. destruct t as [|c t]; [done|]. intros H.
  pose proof H as H'. unfold non_space in H. simpl in H. bool_to_prop.
  rewrite skip_ws_non_space by done. f_equal. by apply break_at_end.
Qed.

Lemma tokenize_skip_space s : tokenize (String SP s) = tokenize s.
Proof. rewrite !tokenize_unfold. by unfold stream_extract. Qed.

Lemma tokenize_cons t rest :
  is_token t = true → tokenize (t +:+ String SP rest) = t :: tokenize rest.
Proof.
  intros H. rewrite tokenize_unfold, stream_extract_token by done.
  by rewrite tokenize_skip_space.
Qed.

Lemma tokenize_one t : is_token t = true → tokenize t = [t].
Proof.
  intros H. by rewrite tokenize_unfold, stream_extract_last.
Qed.

(** Every extracted token is nonempty and has no white space. *)
Lemma stream_extract_is_token s t r : stream_extract s = Some (t, r) → is_token t = true.
Proof.
  unfold stream_extract. destruct (skip_ws s) as [|c s'] eqn:E; [done|]. intros [= Hb].
  assert (isspace c = false) as Hc.
  { clear -E. induction s as [|d s IH]; [done|]. simpl in E.
    destruct (isspace d) eqn:Hd; [by apply IH|]. by simplify_eq. }
  pose proof (break_at_prefix isspace (String c s')) as Hp.
  simpl in Hp. rewrite Hc in Hb, Hp. destruct (break_at isspace s'). by simplify_eq.
Qed.

Lemma tokenize_tokens s : Forall (λ t, is_token t = true) (tokenize s).
Proof.
  remember (String.length s) as n eqn:Hn. revert s Hn.
  induction n as [n IH] using lt_wf_ind. intros s ->.
  rewrite tokenize_unfold. destruct (stream_extract s) as [[t r]|] eqn:E; [|constructor].
  constructor; [by eapply stream_extract_is_token|].
  eapply IH; [|done]. by eapply stream_extract_shrinks.
Qed.

(** ** Lines *)

Definition has_no_LF (s : string) : bool := string_forall (λ c, negb (is_LF c)) s.

Lemma getlines_app line rest :
  has_no_LF line = true → getlines (line +:+ String LF rest) = line :: getlines rest.
Proof.
  intros H. rewrite getlines_unfold. unfold getline.
  rewrite break_at_found by done.
  destruct line as [|c line]; [by rewrite string_app_empty|by rewrite string_app_cons].
Qed.

(** What [AofLogger] writes for a list of lines is read back by [getline]. *)
Lemma getlines_concat lines :
  Forall (λ l, has_no_LF l = true) lines →
  getlines (string_concat (map (λ l, l +:+ String LF EmptyString) lines)) = lines.
Proof.
  induction 1 as [|l lines Hl _ IH]; [done|]. simpl.
  autorewrite with str. rewrite getlines_app by done. by rewrite IH.
Qed.

(** Bytes that text mode leaves alone. *)
Lemma text_in_plain s : string_forall (λ c, negb (is_CR c) && negb (is_SUB c)) s = true → text_in s = s.
Proof.
  induction s as [|c s IH]; [done|]. simpl. intros [[Hc Hs]%andb_prop H]%andb_prop. bool_to_prop.
  rewrite Hs, Hc. simpl. by rewrite IH.
Qed.

(** Nothing after a byte 26 is read. *)
Lemma text_in_SUB a b :
  text_in (a +:+ String (Ascii.ascii_of_nat 26) b) = text_in (a +:+ String (Ascii.ascii_of_nat 26) EmptyString).
Proof.
  induction a as [|c a IH]; [done|]. rewrite !string_app_cons. simpl. rewrite IH. by destruct a.
Qed.

Lemma string_forall_impl (p q : Ascii.ascii → bool) s :
  (∀ c, p c = true → q c = true) → string_forall p s = true → string_forall q s = true.
Proof.
  intros H. induction s as [|c s IH]; [done|]. simpl. intros [Hc Hs]%andb_prop. by rewrite H, IH.
Qed.

Lemma non_space_no_LF s : non_space s = true → has_no_LF s = true.
Proof.
  unfold non_space, has_no_LF. induction s as [|c s IH]; [done|]. simpl.
  rewrite !andb_true_iff. intros [H1 H2]. split; [|by apply IH].
  destruct (is_LF c) eqn:E; [|done]. by apply Ascii.eqb_eq in E as ->.
Qed.

Lemma is_token_non_space s : is_token s = true → non_space s = true.
Proof. by destruct s. Qed.

(** ** Decimal round trip *)

(** Value of a digit sequence read from the left. *)
Fixpoint uint_value (acc : Z) (d : Decimal.uint) : Z :=
  match d with
  | Decimal.Nil => acc
  | Decimal.D0 d => uint_value (10 * acc + 0) d
  | Decimal.D1 d => uint_value (10 * acc + 1) d
  | Decimal.D2 d => uint_value (10 * acc + 2) d
  | Decimal.D3 d => uint_value (10 * acc + 3) d
  | Decimal.D4 d => uint_value (10 * acc + 4) d
  | Decimal.D5 d => uint_value (10 * acc + 5) d
  | Decimal.D6 d => uint_value (10 * acc + 6) d
  | Decimal.D7 d => uint_value (10 * acc + 7) d
  | Decimal.D8 d => uint_value (10 * acc + 8) d
  | Decimal.D9 d => uint_value (10 * acc + 9) d
  end.

Lemma of_uint_acc_value d p : Zpos (Pos.of_uint_acc d p) = uint_value (Zpos p) d.
Proof. revert p. induction d; intros p; cbn [Pos.of_uint_acc uint_value]; [done|..]; rewrite IHd; f_equal; lia. Qed.

Lemma of_uint_value d : Z.of_uint d = uint_value 0 d.
Proof.
  unfold Z.of_uint. induction d; cbn [Pos.of_uint uint_value]; [done|..];
  [exact IHd|..]; simpl Z.of_N; rewrite of_uint_acc_value; f_equal; lia.
Qed.

(** Reading the digits of [d] followed by something that is not a digit. *)
Definition stops (s : string) : bool :=
  match s with EmptyString => true | String c _ => negb (bool_decide (is_Some (digit c))) end.

Lemma digits_acc_stop acc s : stops s = true → digits_acc acc s = acc.
Proof.
  destruct s as [|c s]; [done|]. unfold stops. intros H. apply negb_true_iff, bool_decide_eq_false in H.
  simpl. destruct (digit c); [|done]. by destruct H.
Qed.

Lemma digits_acc_uint d acc rest :
  stops rest = true →
  digits_acc acc (NilEmpty.string_of_uint d +:+ rest) = uint_value acc d.
Proof.
  intros Hr. revert acc. induction d; intros acc; [by apply digits_acc_stop|..]; simpl; apply IHd.
Qed.

Lemma parse_digits_uint d rest :
  d ≠ Decimal.Nil → stops rest = true →
  parse_digits (NilEmpty.string_of_uint d +:+ rest) = Some (uint_value 0 d).
Proof.
  intros Hd Hr. unfold parse_digits.
  rewrite <-(digits_acc_uint d 0 rest Hr).
  by destruct d.
Qed.

(** The decimal text of a nonnegative number. *)
Definition nat_digits (z : Z) : string := NilEmpty.string_of_uint (N.to_uint (Z.to_N z)).

Lemma parse_digits_nat z rest :
  0 <= z → stops rest = true → parse_digits (nat_digits z +:+ rest) = Some z.
Proof.
  intros Hz Hr. unfold nat_digits. rewrite parse_digits_uint; [|by destruct (Z.to_N z) as [|p]; [|apply DecimalPos.Unsigned.to_uint_nonnil]|done].
  rewrite <-of_uint_value. unfold Z.of_uint.
  change (Pos.of_uint (N.to_uint (Z.to_N z))) with (N.of_uint (N.to_uint (Z.to_N z))).
  rewrite DecimalN.Unsigned.of_to. f_equal. lia.
Qed.

Lemma to_string_nonneg z : 0 <= z → to_string z = nat_digits z.
Proof.
  intros Hz. unfold to_string, nat_digits. destruct z as [|p|p]; [done| |lia].
  simpl. pose proof (DecimalPos.Unsigned.to_uint_nonnil p).
  by destruct (Pos.to_uint p).
Qed.

Lemma to_string_neg z : z < 0 → to_string z = String (Ascii.ascii_of_nat 45) (nat_digits (- z)).
Proof.
  intros Hz. unfold to_string, nat_digits. destruct z as [|p|p]; [lia|lia|].
  simpl. pose proof (DecimalPos.Unsigned.to_uint_nonnil p).
  by destruct (Pos.to_uint p).
Qed.

(** Digits are neither blanks nor signs. *)
Definition is_digit (c : Ascii.ascii) : bool := bool_decide (is_Some (digit c)).

Lemma digits_of_uint d : string_forall is_digit (NilEmpty.string_of_uint d) = true.
Proof. induction d; simpl; [done|..]; rewrite IHd; done. Qed.

Lemma nat_digits_digits z : string_forall is_digit (nat_digits z) = true.
Proof. apply digits_of_uint. Qed.

Lemma nat_digits_head z : ∃ c s, nat_digits z = String c s ∧ is_digit c = true.
Proof.
  pose proof (nat_digits_digits z) as H. unfold nat_digits in *.
  assert (N.to_uint (Z.to_N z) ≠ Decimal.Nil) as Hn.
  { destruct (Z.to_N z) as [|p]; [done|]. apply DecimalPos.Unsigned.to_uint_nonnil. }
  destruct (N.to_uint (Z.to_N z)); [done|..]; simpl in H; bool_to_prop; eauto.
Qed.

Lemma is_digit_code c : is_digit c = true → (48 ≤ char_code c ≤ 57)%nat.
Proof.
  unfold is_digit, digit. intros H%bool_decide_eq_true.
  destruct (_ && _) eqn:E; [|by destruct H].
  apply andb_true_iff in E as [?%Nat.leb_le ?%Nat.leb_le]. lia.
Qed.

Lemma is_digit_not_space c : is_digit c = true → isspace c = false.
Proof.
  intros H%is_digit_code. unfold isspace. apply orb_false_iff.
  split; [apply andb_false_iff; right; apply Nat.leb_gt|apply Nat.eqb_neq]; lia.
Qed.

Lemma parse_sign_digit c s : is_digit c = true → parse_sign (String c s) = (false, String c s).
Proof.
  intros H%is_digit_code. simpl.
  rewrite (proj2 (Nat.eqb_neq _ 45)), (proj2 (Nat.eqb_neq _ 43)); [done|lia|lia].
Qed.

(** The number prefix of [stoll] and [stoull] on the text of a number. *)
Lemma parse_signed_to_string z rest :
  stops rest = true →
  (let '(neg, s) := parse_sign (skip_ws (to_string z +:+ rest)) in
   v ← parse_digits s; Some ((neg : bool), v)) = Some (bool_decide (z < 0), Z.abs z).
Proof.
  intros Hr. destruct (decide (z < 0)) as [Hz|Hz].
  - rewrite to_string_neg by done. rewrite bool_decide_eq_true_2 by done.
    rewrite string_app_cons, skip_ws_non_space by done.
    change (parse_sign (String (Ascii.ascii_of_nat 45) (nat_digits (- z) +:+ rest)))
      with (true, nat_digits (- z) +:+ rest).
    cbv beta iota. rewrite parse_digits_nat by (done || lia). simpl. do 2 f_equal. lia.
  - rewrite to_string_nonneg by lia. rewrite bool_decide_eq_false_2 by done.
    destruct (nat_digits_head z) as (c & s & Hs & Hc).
    pose proof (parse_digits_nat z rest ltac:(lia) Hr) as Hp.
    rewrite Hs in *. rewrite string_app_cons in *.
    rewrite skip_ws_non_space, parse_sign_digit by auto using is_digit_not_space.
    rewrite Hp. simpl. do 2 f_equal. lia.
Qed.

Lemma stoll_to_string_app z rest :
  in_i64 z = true → stops rest = true → stoll (to_string z +:+ rest) = Some z.
Proof.
  intros Hz Hr. pose proof (parse_signed_to_string z rest Hr) as H. unfold stoll.
  destruct (parse_sign _) as [neg s]. destruct (parse_digits s) as [v|]; [|done].
  simplify_eq/=. replace (if bool_decide (z < 0) then - Z.abs z else Z.abs z) with z.
  { by rewrite Hz. }
  case_bool_decide; lia.
Qed.

Lemma to_string_non_space z : non_space (to_string z) = true.
Proof.
  assert (∀ s, string_forall is_digit s = true → non_space s = true) as Hd.
  { unfold non_space. induction s as [|c s IH]; [done|]. simpl. rewrite !andb_true_iff.
    intros [H1 H2]. by rewrite is_digit_not_space, IH. }
  destruct (decide (0 <= z)).
  - rewrite to_string_nonneg by done. apply Hd, nat_digits_digits.
  - rewrite to_string_neg by lia. exact (Hd _ (nat_digits_digits (- z))).
Qed.

Lemma to_string_is_token z : is_token (to_string z) = true.
Proof.
  pose proof (to_string_non_space z). unfold is_token. destruct (to_string z) eqn:E; [|done].
  destruct (decide (0 <= z)).
  - rewrite to_string_nonneg in E by done. destruct (nat_digits_head z) as (? & ? & ? & _). congruence.
  - by rewrite to_string_neg in E by lia.
Qed.
