(* ===== verification/Resp.v ===== *)
(** * RESP replies

    The wire format of the replies the commands build by string concatenation
    ([src/core/command.cpp], [src/network/pubsub_broker.cpp]), and a reference
    decoder for it.  The decoder is the specification of what a client reads:
    a reply is well delimited when the decoder returns it together with exactly
    the bytes that follow it. *)

From S2P Require Import Prelude MachineInt Text.

Local Open Scope Z_scope.

Inductive reply :=
| RSimple (s : string)
| RError (s : string)
| RInteger (z : Z)
| RBulk (s : option string)
| RArray (l : list string).

#[export] Instance reply_eq_dec : EqDecision reply.
Proof. solve_decision. Defined.

Definition str_size (s : string) : Z := Z.of_nat (String.length s).

Definition encode_bulk (s : string) : string :=
  "$" +:+ to_string (str_size s) +:+ crlf +:+ s +:+ crlf.

Definition encode (r : reply) : string :=
  match r with
  | RSimple s => "+" +:+ s +:+ crlf
  | RError s => "-" +:+ s +:+ crlf
  | RInteger z => ":" +:+ to_string z +:+ crlf
  | RBulk None => "$-1" +:+ crlf
  | RBulk (Some s) => encode_bulk s
  | RArray l => "*" +:+ to_string (Z.of_nat (length l)) +:+ crlf +:+ string_concat (map encode_bulk l)
  end.

(** ** Reference decoder *)


Definition expect_crlf (s : string) : option string :=
  match s with
  | String c (String d rest) => if Ascii.eqb c CR && Ascii.eqb d LF then Some rest else None
  | _ => None
  end.

Definition take_line (s : string) : option (string * string) :=
  let '(l, s') := break_at is_CR s in
  rest ← expect_crlf s'; Some (l, rest).

Definition parse_number (s : string) : option Z :=
  let '(neg, s) := parse_sign s in
  v ← parse_digits s; Some (if (neg : bool) then - v else v).

Fixpoint take_bytes (n : nat) (s : string) : option (string * string) :=
  match n, s with
  | O, _ => Some (EmptyString, s)
  | S n, String c s => '(a, b) ← take_bytes n s; Some (String c a, b)
  | S _, EmptyString => None
  end.

Definition is_char (n : nat) (c : Ascii.ascii) : bool := (char_code c =? n)%nat.

(** After the ["$"]. *)
Definition decode_bulk_body (s : string) : option (option string * string) :=
  '(l, s) ← take_line s;
  n ← parse_number l;
  if n <? 0 then Some (None, s)
  else '(b, s) ← take_bytes (Z.to_nat n) s; rest ← expect_crlf s; Some (Some b, rest).

Fixpoint decode_bulks (n : nat) (s : string) : option (list string * string) :=
  match n with
  | O => Some ([], s)
  | S n =>
    match s with
    | String c s =>
      if is_char 36 c then
        '(b, s) ← decode_bulk_body s; b ← b;
        '(l, s) ← decode_bulks n s; Some (b :: l, s)
      else None
    | EmptyString => None
    end
  end.

Definition decode (s : string) : option (reply * string) :=
  match s with
  | EmptyString => None
  | String c s =>
    if is_char 43 c then '(l, s) ← take_line s; Some (RSimple l, s)
    else if is_char 45 c then '(l, s) ← take_line s; Some (RError l, s)
    else if is_char 58 c then '(l, s) ← take_line s; n ← parse_number l; Some (RInteger n, s)
    else if is_char 36 c then '(b, s) ← decode_bulk_body s; Some (RBulk b, s)
    else if is_char 42 c then
      '(l, s) ← take_line s; n ← parse_number l;
      '(l, s) ← decode_bulks (Z.to_nat n) s; Some (RArray l, s)
    else None
  end.

(** All the replies of a stream, as many as it holds. *)
Fixpoint decode_stream (fuel : nat) (s : string) : list reply :=
  match fuel with
  | O => []
  | S fuel =>
    match decode s with
    | Some (r, rest) => r :: decode_stream fuel rest
    | None => []
    end
  end.

(** Texts of status replies have no carriage return. *)
Definition one_line (s : string) : bool := string_forall (λ c, negb (is_CR c)) s.

Definition wf_reply (r : reply) : bool :=
  match r with
  | RSimple s | RError s => one_line s
  | _ => true
  end.

(** ** Lemmas *)

Lemma take_line_app l rest : one_line l = true → take_line (l +:+ crlf +:+ rest) = Some (l, rest).
Proof.
  intros H. unfold take_line, crlf. rewrite string_app_cons.
  by rewrite break_at_found.
Qed.

Lemma digits_one_line s : string_forall is_digit s = true → one_line s = true.
Proof.
  unfold one_line. induction s as [|c s IH]; [done|]. simpl. rewrite !andb_true_iff.
  intros [H1 H2]. split; [|by apply IH]. unfold is_CR.
  destruct (Ascii.eqb c CR) eqn:E; [|done]. by apply Ascii.eqb_eq in E as ->.
Qed.

Lemma to_string_one_line z : one_line (to_string z) = true.
Proof.
  destruct (decide (0 <= z)).
  - rewrite to_string_nonneg by done. apply digits_one_line, nat_digits_digits.
  - rewrite to_string_neg by lia. exact (digits_one_line _ (nat_digits_digits (- z))).
Qed.

Lemma parse_number_to_string z : parse_number (to_string z) = Some z.
Proof.
  unfold parse_number. destruct (decide (0 <= z)) as [Hz|Hz].
  - rewrite to_string_nonneg by done. destruct (nat_digits_head z) as (c & s & Hs & Hc).
    pose proof (parse_digits_nat z EmptyString Hz eq_refl) as Hp.
    rewrite string_app_nil_r in Hp. rewrite Hs in *.
    rewrite parse_sign_digit by done. by rewrite Hp.
  - rewrite to_string_neg by lia.
    change (parse_sign _) with (true, nat_digits (- z)). cbv beta iota.
    pose proof (parse_digits_nat (- z) EmptyString ltac:(lia) eq_refl) as Hp.
    rewrite string_app_nil_r in Hp. rewrite Hp. simpl. f_equal. lia.
Qed.

Lemma take_line_number z rest :
  take_line (to_string z +:+ crlf +:+ rest) = Some (to_string z, rest).
Proof. apply take_line_app, to_string_one_line. Qed.

Lemma take_bytes_app s rest : take_bytes (String.length s) (s +:+ rest) = Some (s, rest).
Proof. induction s; [done|]. rewrite string_app_cons. simpl. by rewrite IHs. Qed.

Lemma expect_crlf_app rest : expect_crlf (crlf +:+ rest) = Some rest.
Proof. done. Qed.

#[export] Hint Rewrite take_line_number take_bytes_app expect_crlf_app parse_number_to_string : str.

Lemma decode_bulk_body_app s rest :
  decode_bulk_body (to_string (str_size s) +:+ crlf +:+ s +:+ crlf +:+ rest) = Some (Some s, rest).
Proof.
  unfold decode_bulk_body. rewrite take_line_number. cbn [mbind option_bind].
  rewrite parse_number_to_string. cbn [mbind option_bind].
  unfold str_size. rewrite (proj2 (Z.ltb_ge _ _)) by lia.
  rewrite Nat2Z.id, take_bytes_app. cbn [mbind option_bind].
  by rewrite expect_crlf_app.
Qed.

Lemma encode_bulk_app s rest :
  encode_bulk s +:+ rest = String (Ascii.ascii_of_nat 36) (to_string (str_size s) +:+ crlf +:+ s +:+ crlf +:+ rest).
Proof. unfold encode_bulk. by autorewrite with str. Qed.

Lemma decode_bulks_app l rest :
  decode_bulks (length l) (string_concat (map encode_bulk l) +:+ rest) = Some (l, rest).
Proof.
  induction l as [|s l IH]; [done|]. cbn [map string_concat length decode_bulks].
  rewrite <-string_app_assoc, encode_bulk_app. cbn [is_char].
  change (is_char 36 (Ascii.ascii_of_nat 36)) with true. cbv iota.
  rewrite decode_bulk_body_app. cbn [mbind option_bind].
  by rewrite IH.
Qed.

(** What follows a reply is left untouched, so replies can be pipelined. *)
Lemma decode_encode_app r rest :
  wf_reply r = true → decode (encode r +:+ rest) = Some (r, rest).
Proof.
  intros Hr. destruct r as [s|s|z|[s|]|l].
  - cbn [encode]. rewrite <-!string_app_assoc.
    change (decode _) with ('(l, s) ← take_line (s +:+ crlf +:+ rest); Some (RSimple l, s)).
    by rewrite take_line_app.
  - cbn [encode]. rewrite <-!string_app_assoc.
    change (decode _) with ('(l, s) ← take_line (s +:+ crlf +:+ rest); Some (RError l, s)).
    by rewrite take_line_app.
  - cbn [encode]. rewrite <-!string_app_assoc.
    change (decode _) with ('(l, s) ← take_line (to_string z +:+ crlf +:+ rest);
      n ← parse_number l; Some (RInteger n, s)).
    rewrite take_line_number. cbn [mbind option_bind]. by rewrite parse_number_to_string.
  - cbn [encode]. rewrite encode_bulk_app.
    change (decode _) with ('(b, s) ← decode_bulk_body (to_string (str_size s) +:+ crlf +:+ s +:+ crlf +:+ rest);
      Some (RBulk b, s)).
    by rewrite decode_bulk_body_app.
  - done.
  - cbn [encode]. rewrite <-!string_app_assoc.
    change (decode _) with ('(l', s) ← take_line (to_string (Z.of_nat (length l)) +:+ crlf +:+
        string_concat (map encode_bulk l) +:+ rest);
      n ← parse_number l'; '(l', s) ← decode_bulks (Z.to_nat n) s; Some (RArray l', s)).
    rewrite take_line_number. cbn [mbind option_bind]. rewrite parse_number_to_string.
    cbn [mbind option_bind]. rewrite Nat2Z.id. by rewrite decode_bulks_app.
Qed.

Lemma decode_stream_encode rs fuel :
  forallb wf_reply rs = true → (length rs <= fuel)%nat →
  decode_stream fuel (string_concat (map encode rs)) = rs.
Proof.
  revert fuel. induction rs as [|r rs IH]; intros fuel Hwf Hf; cbn [map string_concat].
  { by destruct fuel. }
  destruct fuel as [|fuel]; [simpl in Hf; lia|]. cbn [decode_stream].
  simpl in Hwf. bool_to_prop. rewrite decode_encode_app by done.
  f_equal. apply IH; [done|simpl in Hf; lia].
Qed.
