(* ===== verification/Pmr.v ===== *)
(** * The PMR arena ([include/memory/pmr_allocator.h], [src/memory/pmr_allocator.cpp])

    [TrackingMemoryResource] counts the bytes it hands out and refuses requests
    past its capacity; [PmrArena] owns the resource chain
    tracker -> pool -> monotonic -> buffer.

    The pool and monotonic resources belong to the C++ library.  How they carve
    the buffer is implementation-defined, so they are the parameter [MemoryResource]
    of the model: a state and partial allocation, [None] standing for
    [std::bad_alloc].  [utilization] is computed in IEEE binary64 arithmetic,
    with the library's [SpecFloat] operations. *)

From Stdlib Require Import SpecFloat.
From S2P Require Import Prelude MachineInt.

Local Open Scope Z_scope.

(** ** Binary64 *)

Definition double_of_size (z : Z) : spec_float := binary_normalize 53 1024 z 0 false.
Definition double_div (x y : spec_float) : spec_float := SFdiv 53 1024 x y.
Definition double_ge (x y : spec_float) : bool := SFleb y x.

(** [1.0], and [0.85] rounded to the nearest double. *)
Definition double_one : spec_float := double_of_size 1.
Definition SOFT_LIMIT_RATIO : spec_float := S754_finite false 7656119366529843 (-53).

(** ** Upstream resources *)

(** [upstream_->allocate(bytes, alignment)] and [upstream_->deallocate(p, bytes, alignment)]. *)
Class MemoryResource (U : Type) := {
  up_allocate : U → Z → Z → option (Z * U);
  up_deallocate : U → Z → Z → Z → U;
}.

(** The chain pool -> monotonic -> buffer, built over a buffer of the given size;
    [chain_built]: the constructors asked the buffer for nothing it could not serve. *)
Class ArenaChain (U : Type) := {
  chain_resource :: MemoryResource U;
  chain_init : Z → U;
  chain_built : Z → bool;
}.

(** ** TrackingMemoryResource *)

(** [class OomException : public runtime_error] *)
Inductive OomException := Oom (what : string).

Definition oom_what : string := "(error) OOM command not allowed when used memory > 'maxmemory'".

Record TrackingMemoryResource (U : Type) := Tracker {
  upstream_ : U;
  bytes_used_ : Z;
  capacity_ : Z;
}.
Arguments Tracker {U} _ _ _.
Arguments upstream_ {U} _.
Arguments bytes_used_ {U} _.
Arguments capacity_ {U} _.

Section tracker.
Context {U : Type} `{!MemoryResource U}.
Implicit Types t : TrackingMemoryResource U.

Definition tracker_make (upstream : U) (capacity : Z) : TrackingMemoryResource U :=
  Tracker upstream 0 capacity.

Definition utilization t : spec_float :=
  if capacity_ t =? 0 then double_one
  else double_div (double_of_size (bytes_used_ t)) (double_of_size (capacity_ t)).

Definition is_soft_limit_reached t : bool := double_ge (utilization t) SOFT_LIMIT_RATIO.

Definition is_hard_limit_reached t : bool := capacity_ t <=? bytes_used_ t.

Definition do_allocate (bytes alignment : Z) : SE (TrackingMemoryResource U) OomException Z :=
  λ t,
    if capacity_ t <? u64 (bytes_used_ t + bytes) then (Throw (Oom oom_what), t)
    else
      match up_allocate (upstream_ t) bytes alignment with
      | Some (p, u) => (Normal p, Tracker u (u64 (bytes_used_ t + bytes)) (capacity_ t))
      | None => (Throw (Oom oom_what), t)
      end.

Definition do_deallocate (p bytes alignment : Z) : SE (TrackingMemoryResource U) OomException unit :=
  λ t,
    (Normal tt,
     Tracker (up_deallocate (upstream_ t) p bytes alignment)
       (if bytes <=? bytes_used_ t then bytes_used_ t - bytes else 0) (capacity_ t)).
End tracker.

(** The tracker is itself a memory resource: what [arena.resource()] returns. *)
#[export] Instance tracking_resource {U} `{!MemoryResource U} :
  MemoryResource (TrackingMemoryResource U) := {
  up_allocate := λ t bytes alignment,
    match do_allocate bytes alignment t with
    | (Normal p, t') => Some (p, t')
    | (Throw _, _) => None
    end;
  up_deallocate := λ t p bytes alignment, (do_deallocate p bytes alignment t).2;
}.

(** ** PmrArena *)

(** [std::length_error], [std::bad_alloc], the tracker's exception *)
Inductive alloc_error := LengthError | BadAlloc | ArenaOom (e : OomException).

(** [max_size()] of a vector of bytes: the largest [ptrdiff_t]. *)
Definition max_bytes : Z := 2 ^ 63 - 1.

Record PmrArena (U : Type) := Arena {
  arena_capacity_ : Z;
  tracker_ : TrackingMemoryResource U;
}.
Arguments Arena {U} _ _.
Arguments arena_capacity_ {U} _.
Arguments tracker_ {U} _.

Section arena.
Context {U : Type} `{!ArenaChain U}.
Implicit Types a : PmrArena U.

(** The chain over a buffer of [capacity_bytes]. *)
Definition arena_over (capacity_bytes : Z) : PmrArena U :=
  Arena capacity_bytes (tracker_make (chain_init capacity_bytes) capacity_bytes).

(** The constructor: [buffer_(capacity_bytes)] throws when the size is above
    [max_size()] or when the heap does not serve it (an empty vector asks for none),
    the pool's when the buffer, with no resource behind it, cannot serve it. *)
Definition PmrArena_make (heap : Z → bool) (capacity_bytes : Z) : result alloc_error (PmrArena U) :=
  if max_bytes <? capacity_bytes then Throw LengthError
  else if ((capacity_bytes =? 0) || heap capacity_bytes) && chain_built capacity_bytes
  then Normal (arena_over capacity_bytes)
  else Throw BadAlloc.

Definition arena_bytes_used a : Z := bytes_used_ (tracker_ a).
Definition arena_capacity a : Z := arena_capacity_ a.
Definition arena_utilization a : spec_float := utilization (tracker_ a).
Definition arena_soft_limit a : bool := is_soft_limit_reached (tracker_ a).
Definition arena_hard_limit a : bool := is_hard_limit_reached (tracker_ a).
End arena.

(** ** What a client of the resource does

    A library container working on [arena.resource()] is a program that asks
    for blocks, gets an address or the exception, and gives blocks back. *)

Inductive mem_prog (L : Type) :=
| Done (l : L)
| Fails (l : L) (e : OomException)
| Allocate (bytes alignment : Z) (ok : Z → mem_prog L) (oom : OomException → mem_prog L)
| Deallocate (p bytes alignment : Z) (next : mem_prog L).
Arguments Done {L} _.
Arguments Fails {L} _ _.
Arguments Allocate {L} _ _ _ _.
Arguments Deallocate {L} _ _ _ _.

Section client.
Context {U L : Type} `{!MemoryResource U}.

Fixpoint run_prog (m : mem_prog L) (t : TrackingMemoryResource U) :
    result OomException unit * L * TrackingMemoryResource U :=
  match m with
  | Done l => (Normal tt, l, t)
  | Fails l e => (Throw e, l, t)
  | Allocate b al ok oom =>
    match do_allocate b al t with
    | (Normal p, t') => run_prog (ok p) t'
    | (Throw e, t') => run_prog (oom e) t'
    end
  | Deallocate p b al next => run_prog next (do_deallocate p b al t).2
  end.
End client.

(** ** Invariant: the count stays between 0 and the capacity *)

Definition tracker_wf {U} (t : TrackingMemoryResource U) : Prop :=
  0 <= bytes_used_ t <= capacity_ t ∧ is_u64 (capacity_ t).

(** One step of the tracker keeps the capacity and the invariant. *)
Definition tracker_step {U} (t t' : TrackingMemoryResource U) : Prop :=
  capacity_ t' = capacity_ t ∧ (tracker_wf t → tracker_wf t').

#[export] Instance tracker_step_preorder {U} : PreOrder (@tracker_step U).
Proof.
  split.
  - intros t. split; auto.
  - intros t1 t2 t3 [H1 H2] [H3 H4]. split; [congruence|auto].
Qed.

Section tracker_facts.
Context {U : Type} `{!MemoryResource U}.
Implicit Types t : TrackingMemoryResource U.

Lemma preserves_do_allocate bytes alignment :
  preserves tracker_step (do_allocate (U := U) bytes alignment).
Proof.
  intros t. unfold do_allocate. destruct (_ <? _) eqn:E; [done|].
  destruct (up_allocate _ _ _) as [[p u]|]; [|done].
  split; [done|]. bool_to_prop. intros [? ?].
  split; simpl; [|done]. pose proof (u64_range (bytes_used_ t + bytes)) as []. lia.
Qed.

Lemma preserves_do_deallocate p bytes alignment :
  0 <= bytes → preserves tracker_step (do_deallocate (U := U) p bytes alignment).
Proof.
  intros Hb t. split; [done|]. intros [? ?]. split; simpl; [|done].
  destruct (_ <=? _) eqn:E; bool_to_prop; lia.
Qed.

(** A deallocation never asks for a negative size ([size_t]). *)
Inductive prog_wf {L} : mem_prog L → Prop :=
| wf_Done l : prog_wf (Done l)
| wf_Fails l e : prog_wf (Fails l e)
| wf_Allocate b al ok oom :
    is_u64 b → (∀ p, prog_wf (ok p)) → (∀ e, prog_wf (oom e)) → prog_wf (Allocate b al ok oom)
| wf_Deallocate p b al next : is_u64 b → prog_wf next → prog_wf (Deallocate p b al next).

Lemma run_prog_step {L} (m : mem_prog L) t :
  prog_wf m → tracker_step t (run_prog m t).2.
Proof.
  intros Hm. revert t. induction Hm as [| |b al ok oom Hb _ IHok _ IHoom|p b al next Hb _ IH]; intros t; simpl.
  - done.
  - done.
  - pose proof (preserves_do_allocate b al t) as Hs.
    destruct (do_allocate b al t) as [[p|e] t']; simpl in *; etrans; eauto.
  - etrans; [apply (preserves_do_deallocate p b al)|apply IH]. by destruct Hb.
Qed.

Lemma tracker_make_wf (u : U) cap : is_u64 cap → tracker_wf (tracker_make u cap).
Proof. intros [? ?]. repeat split; simpl; lia. Qed.
End tracker_facts.

(** ** The count is the sum of the live blocks *)

(** The resource behind the tracker serves no block that is larger than an
    object can be. *)
Class BoundedResource (U : Type) `{!MemoryResource U} := {
  up_allocate_bounded : ∀ (u : U) bytes alignment p u', up_allocate u bytes alignment = Some (p, u') → bytes <= max_bytes;
}.

(** A block that was served and not given back. *)
Record block := Block { blk_addr : Z; blk_bytes : Z; blk_alignment : Z }.

(** What a client may do: ask for a block, or give back the [i]-th live one. *)
Inductive request := Ask (bytes alignment : Z) | GiveBack (i : nat).

Definition request_ok (r : request) : Prop := match r with Ask bytes _ => is_u64 bytes | GiveBack _ => True end.

Definition live_bytes (live : list block) : Z := foldr (λ b n, blk_bytes b + n) 0 live.

Section accounting.
Context {U : Type} `{!MemoryResource U}.
Implicit Types t : TrackingMemoryResource U.

Definition serve_one (st : list block * TrackingMemoryResource U) (r : request) :
    list block * TrackingMemoryResource U :=
  let '(live, t) := st in
  match r with
  | Ask bytes alignment =>
    match do_allocate bytes alignment t with
    | (Normal p, t') => (live ++ [Block p bytes alignment], t')
    | (Throw _, t') => (live, t')
    end
  | GiveBack i =>
    match live !! i with
    | Some b => (delete i live, (do_deallocate (blk_addr b) (blk_bytes b) (blk_alignment b) t).2)
    | None => (live, t)
    end
  end.

Definition serve (rs : list request) (t : TrackingMemoryResource U) : list block * TrackingMemoryResource U :=
  foldl serve_one ([], t) rs.

(** The two outcomes of an allocation. *)
Inductive allocation (bytes alignment : Z) t : result OomException Z → TrackingMemoryResource U → Prop :=
| alloc_served p u :
    bytes_used_ t + bytes <= capacity_ t → up_allocate (upstream_ t) bytes alignment = Some (p, u) →
    allocation bytes alignment t (Normal p) (Tracker u (bytes_used_ t + bytes) (capacity_ t))
| alloc_refused :
    capacity_ t < bytes_used_ t + bytes ∨ up_allocate (upstream_ t) bytes alignment = None →
    allocation bytes alignment t (Throw (Oom oom_what)) t.

(** Whatever size is asked for: a sum that wraps around passes the test of the
    capacity, and the resource behind does not serve the block. *)
Lemma do_allocate_allocation `{!BoundedResource U} bytes alignment t :
  tracker_wf t → capacity_ t <= max_bytes → is_u64 bytes →
  allocation bytes alignment t (do_allocate bytes alignment t).1 (do_allocate bytes alignment t).2.
Proof.
  intros [[H0 H1] _] Hc [Hb0 Hb]. unfold do_allocate.
  assert (Hsmall : bytes <= max_bytes → u64 (bytes_used_ t + bytes) = bytes_used_ t + bytes).
  { unfold max_bytes in *. intros ?. apply u64_small. split; lia. }
  destruct (up_allocate (upstream_ t) bytes alignment) as [[p u]|] eqn:Hu.
  - rewrite Hsmall by (by eapply up_allocate_bounded).
    destruct (Z.ltb_spec (capacity_ t) (bytes_used_ t + bytes)); simpl; constructor; auto.
  - destruct (_ <? _); constructor; auto.
Qed.

Lemma live_bytes_app a b : live_bytes (a ++ b) = live_bytes a + live_bytes b.
Proof. induction a as [|x a IH]; simpl; [lia|]. rewrite IH. lia. Qed.

Lemma live_bytes_nonneg live : Forall (λ b, 0 <= blk_bytes b) live → 0 <= live_bytes live.
Proof. induction 1; simpl; lia. Qed.

(** The accounting invariant. *)
Definition accounts (cap : Z) (st : list block * TrackingMemoryResource U) : Prop :=
  bytes_used_ st.2 = live_bytes st.1 ∧ live_bytes st.1 <= cap ∧ capacity_ st.2 = cap ∧
  Forall (λ b, 0 <= blk_bytes b) st.1.

Lemma accounts_wf cap st : is_u64 cap → accounts cap st → tracker_wf st.2.
Proof.
  intros Hcap (Hu & Hl & Hc & Hb). apply live_bytes_nonneg in Hb. split; rewrite Hc; [lia|done].
Qed.

Lemma serve_one_accounts `{!BoundedResource U} cap st r :
  0 <= cap <= max_bytes → request_ok r → accounts cap st → accounts cap (serve_one st r).
Proof.
  intros Hcap Hr Ha. pose proof (accounts_wf cap st ltac:(unfold max_bytes in *; split; lia) Ha) as Hw.
  destruct st as [live t], Ha as (Hu & Hl & Hc & Hb), r as [bytes alignment|i]; simpl in *.
  - pose proof (do_allocate_allocation bytes alignment t Hw ltac:(lia) Hr) as H.
    destruct (do_allocate bytes alignment t) as [res t']. simpl in H. destruct H as [p u Hs _|_]; [|by split_and!].
    unfold accounts. simpl. rewrite live_bytes_app. simpl. destruct Hr. split_and!; [lia|lia|done|].
    apply Forall_app. by repeat constructor.
  - destruct (live !! i) as [b|] eqn:Hi; [|by split_and!]. unfold accounts. simpl. rewrite (delete_take_drop live i).
    pose proof (take_drop_middle live i b Hi) as Hlive. rewrite <-Hlive, live_bytes_app in Hu, Hl. simpl in Hu, Hl.
    rewrite <-Hlive in Hb. apply Forall_app in Hb as [Hb1 Hb2]. apply Forall_cons in Hb2 as [Hb Hb2].
    pose proof (live_bytes_nonneg _ Hb1). pose proof (live_bytes_nonneg _ Hb2).
    rewrite live_bytes_app, (proj2 (Z.leb_le _ _)) by lia. split_and!; [lia|lia|done|by apply Forall_app].
Qed.

Lemma serve_accounts `{!BoundedResource U} cap rs (u : U) :
  0 <= cap <= max_bytes → Forall request_ok rs → accounts cap (serve rs (tracker_make u cap)).
Proof.
  intros Hcap. unfold serve. assert (H0 : accounts cap ([], tracker_make u cap)) by (split_and!; simpl; (done || lia)).
  revert H0. generalize ([] : list block, tracker_make u cap). induction rs as [|r rs IH]; intros st H0 Hrs; [done|].
  apply Forall_cons in Hrs as [Hr Hrs]. simpl. by apply IH; [apply serve_one_accounts|].
Qed.
End accounting.
