(* ===== verification/Value.v ===== *)
(** * Stored values ([include/memory/variant_type.h], [src/memory/variant_type.cpp])

    [ValueVariant] is the tagged union of the four kinds of values;
    [CacheAlignedValue] adds the time stamps, the time to live and the
    tombstone.  A [steady_clock::time_point] is a count of nanoseconds, and
    every function that reads the clock takes the reading [now] as an argument. *)

From S2P Require Import Prelude MachineInt.

Local Open Scope Z_scope.

Inductive ValueVariant :=
| VString (s : string)
| VInteger (z : Z)
| VList (l : list string)
| VHash (h : gmap string string).

#[export] Instance ValueVariant_eq_dec : EqDecision ValueVariant.
Proof. solve_decision. Defined.

Inductive ValueType := TString | TInteger | TList | THash.

#[export] Instance ValueType_eq_dec : EqDecision ValueType.
Proof. solve_decision. Defined.

(** The numbers of the enumeration, equal to [data.index()]. *)
Definition ValueType_code (t : ValueType) : Z :=
  match t with TString => 0 | TInteger => 1 | TList => 2 | THash => 3 end.

Record CacheAlignedValue := CAV {
  data : ValueVariant;
  created_at : Z;
  last_accessed : Z;
  ttl_seconds : Z;
  tombstoned : bool;
}.

#[export] Instance CacheAlignedValue_eq_dec : EqDecision CacheAlignedValue.
Proof. solve_decision. Defined.

Definition default_ttl : Z := 86400.
Definition nanos_per_second : Z := 1000000000.
Definition time_point_max : Z := int64_max.

(** [CacheAlignedValue(ValueVariant value, int64_t ttl)] *)
Definition CacheAlignedValue_make (now : Z) (value : ValueVariant) (ttl : Z) : CacheAlignedValue :=
  CAV value now now ttl false.

Definition type (e : CacheAlignedValue) : ValueType :=
  match data e with
  | VString _ => TString
  | VInteger _ => TInteger
  | VList _ => TList
  | VHash _ => THash
  end.

(** [duration_cast<seconds>(d).count()]: truncation towards zero. *)
Definition duration_seconds (d : Z) : Z := Z.quot d nanos_per_second.

Definition is_expired (now : Z) (e : CacheAlignedValue) : bool :=
  if ttl_seconds e <? 0 then false
  else ttl_seconds e <=? duration_seconds (now - created_at e).

Definition touch (now : Z) (e : CacheAlignedValue) : CacheAlignedValue :=
  CAV (data e) (created_at e) now (ttl_seconds e) (tombstoned e).

Definition expiration_time (e : CacheAlignedValue) : Z :=
  if ttl_seconds e <? 0 then time_point_max
  else created_at e + ttl_seconds e * nanos_per_second.

(** ** Memory estimate

    Capacities, bucket counts and object sizes are facts of the library's
    containers: parameters. *)

Class ContainerLayout := {
  string_capacity : string → Z;
  vector_capacity : list string → Z;
  bucket_count : gmap string string → Z;
  sizeof_string : Z;
  sizeof_pointer : Z;
  sizeof_pair : Z;
  sizeof_CacheAlignedValue : Z;
}.

Section estimate.
Context `{!ContainerLayout}.

Definition list_usage (l : list string) : Z :=
  foldl (λ total s, u64 (total + string_capacity s))
    (u64 (vector_capacity l * sizeof_string)) l.

Definition hash_usage (h : gmap string string) : Z :=
  map_fold (λ k v total, u64 (total + (string_capacity k + string_capacity v + sizeof_pair)))
    (u64 (bucket_count h * sizeof_pointer)) h.

Definition dynamic_usage (v : ValueVariant) : Z :=
  match v with
  | VString s => string_capacity s
  | VInteger _ => 0
  | VList l => list_usage l
  | VHash h => hash_usage h
  end.

Definition estimated_memory_usage (e : CacheAlignedValue) : Z :=
  u64 (sizeof_CacheAlignedValue + dynamic_usage (data e)).
End estimate.

(** ** Liveness: what the readers of the code test *)

(** [!(it->second.tombstoned || it->second.is_expired())] *)
Definition live (now : Z) (e : CacheAlignedValue) : bool :=
  negb (tombstoned e || is_expired now e).

(** ** Lemmas *)

Lemma duration_seconds_mono d d' : d <= d' → duration_seconds d <= duration_seconds d'.
Proof. unfold duration_seconds, nanos_per_second. intros. apply Z.quot_le_mono; lia. Qed.

Lemma duration_seconds_ge n d : 0 <= n → 0 <= d → n <= duration_seconds d ↔ n * nanos_per_second <= d.
Proof.
  unfold duration_seconds, nanos_per_second. intros Hn Hd.
  rewrite Z.quot_div_nonneg by lia. split; intros H.
  - pose proof (Z.mul_div_le d 1000000000). lia.
  - apply Z.div_le_lower_bound; lia.
Qed.

Lemma is_expired_mono now now' e : now <= now' → is_expired now e = true → is_expired now' e = true.
Proof.
  unfold is_expired. destruct (_ <? _); [done|]. intros Hn H. bool_to_prop. apply Z.leb_le.
  pose proof (duration_seconds_mono (now - created_at e) (now' - created_at e)). lia.
Qed.

Lemma live_mono now now' e : now <= now' → live now' e = true → live now e = true.
Proof.
  unfold live. intros Hn H. bool_to_prop. rewrite H. simpl.
  destruct (is_expired now e) eqn:E; [|done].
  rewrite (is_expired_mono now now') in *; done.
Qed.

(** A value is live until its time to live has run out. *)
Lemma live_make_until now now' v ttl :
  now <= now' →
  live now' (CacheAlignedValue_make now v ttl) = bool_decide (ttl < 0 ∨ now' < now + ttl * nanos_per_second).
Proof.
  intros Hn. unfold live, is_expired. simpl. destruct (Z.ltb_spec ttl 0).
  - by rewrite bool_decide_eq_true_2 by by left.
  - simpl. destruct (Z.leb_spec ttl (duration_seconds (now' - now))) as [Hle|Hlt]; simpl; symmetry.
    + apply duration_seconds_ge in Hle; [|lia..]. apply bool_decide_eq_false_2. lia.
    + apply bool_decide_eq_true_2. right. destruct (Z.lt_ge_cases now' (now + ttl * nanos_per_second)); [done|].
      exfalso. assert (ttl <= duration_seconds (now' - now)); [|lia]. apply duration_seconds_ge; lia.
Qed.

(** A value just made is live unless its time to live is zero. *)
Lemma live_make now v ttl : live now (CacheAlignedValue_make now v ttl) = negb (ttl =? 0).
Proof.
  unfold live, is_expired, CacheAlignedValue_make. simpl. rewrite Z.sub_diag.
  change (duration_seconds 0) with 0.
  destruct (Z.ltb_spec ttl 0); destruct (Z.eqb_spec ttl 0);
    destruct (Z.leb_spec ttl 0); simpl; try done; lia.
Qed.
