(* ===== verification/Hasher.v ===== *)
(** * MurmurHash3 ([murmur_hash3] in [src/engine/hasher.cpp])

    The 32-bit hash over the bytes of the key, written with the loop over
    4-byte blocks, the tail [switch] with its fall-through and the final mix.
    [murmur3_ref] is the published algorithm as a recursion over the byte list, in
    arithmetic and with its own constants. *)

From S2P Require Import Prelude MachineInt.

Local Open Scope Z_scope.

Definition c1 : Z := 0xcc9e2d51.
Definition c2 : Z := 0x1b873593.

(** [(x << r) | (x >> (32 - r))] on [uint32_t] *)
Definition rotl32 (x r : Z) : Z := Z.lor (u32 (Z.shiftl x r)) (Z.shiftr x (32 - r)).

(** [data[i]]; the code reads inside the key only. *)
Definition byte_at (data : list Z) (i : nat) : Z := default 0 (data !! i).

(** [memcpy(&k1, &blocks[i], 4)] on a little-endian machine *)
Definition load_block (data : list Z) (i : nat) : Z :=
  Z.lor (byte_at data (4 * i))
    (Z.lor (Z.shiftl (byte_at data (4 * i + 1)) 8)
      (Z.lor (Z.shiftl (byte_at data (4 * i + 2)) 16)
        (Z.shiftl (byte_at data (4 * i + 3)) 24))).

(** [k1 *= c1; k1 = rotl(k1, 15); k1 *= c2;] *)
Definition mix_k1 (k1 : Z) : Z := u32 (rotl32 (u32 (k1 * c1)) 15 * c2).

(** [h1 ^= k1; h1 = rotl(h1, 13); h1 = h1 * 5 + 0xe6546b64;] *)
Definition mix_h1 (h1 k1 : Z) : Z := u32 (rotl32 (Z.lxor h1 k1) 13 * 5 + 0xe6546b64).

(** [for (int i = 0; i < nblocks; i++)]: [n] iterations are left. *)
Fixpoint block_loop (data : list Z) (i n : nat) (h1 : Z) : Z :=
  match n with
  | O => h1
  | S n => block_loop data (S i) n (mix_h1 h1 (mix_k1 (load_block data i)))
  end.

(** The [switch (len & 3)] with its fall-through; [off] is [nblocks * 4]. *)
Definition tail_mix (data : list Z) (off : nat) (len h1 : Z) : Z :=
  let r := Z.land len 3 in
  let k1 := 0 in
  let k1 := if 3 <=? r then Z.lxor k1 (Z.shiftl (byte_at data (off + 2)) 16) else k1 in
  let k1 := if 2 <=? r then Z.lxor k1 (Z.shiftl (byte_at data (off + 1)) 8) else k1 in
  if 1 <=? r then Z.lxor h1 (mix_k1 (Z.lxor k1 (byte_at data off))) else h1.

(** The final avalanche. *)
Definition fmix32 (h1 : Z) : Z :=
  let h1 := Z.lxor h1 (Z.shiftr h1 16) in
  let h1 := u32 (h1 * 0x85ebca6b) in
  let h1 := Z.lxor h1 (Z.shiftr h1 13) in
  let h1 := u32 (h1 * 0xc2b2ae35) in
  Z.lxor h1 (Z.shiftr h1 16).

Definition murmur_hash3 (key : string) (seed : Z) : Z :=
  let data := bytes_of_string key in
  let len := to_int32 (Z.of_nat (String.length key)) in
  let nblocks := Z.to_nat (Z.quot len 4) in
  let h1 := block_loop data 0 nblocks seed in
  let h1 := tail_mix data (nblocks * 4) len h1 in
  fmix32 (Z.lxor h1 (u32 len)).

(** ** Reference: MurmurHash3 (x86, 32 bit) over a list of bytes

    Written in arithmetic modulo [2^32] with constants of its own: nothing of the
    definitions above is used. *)

Definition word (x : Z) : Z := x mod 4294967296.

(** [r] bits leave at the top and come back at the bottom. *)
Definition rotate_left (x r : Z) : Z := word (x * 2 ^ r) + x / 2 ^ (32 - r).

(** The bytes as a little-endian number. *)
Fixpoint le_value (bytes : list Z) : Z :=
  match bytes with
  | [] => 0
  | b :: bytes => b + 256 * le_value bytes
  end.

Definition ref_scramble (k : Z) : Z := word (rotate_left (word (k * 3432918353)) 15 * 461845907).

Definition ref_step (h k : Z) : Z := word (rotate_left (Z.lxor h (ref_scramble k)) 13 * 5 + 3864292196).

Definition fold_down (h r : Z) : Z := Z.lxor h (h / 2 ^ r).

Definition ref_final (h : Z) : Z :=
  fold_down (word (fold_down (word (fold_down h 16 * 2246822507)) 13 * 3266489909)) 16.

Fixpoint murmur3_blocks (data : list Z) (h : Z) : Z :=
  match data with
  | b0 :: b1 :: b2 :: b3 :: rest => murmur3_blocks rest (ref_step h (le_value [b0; b1; b2; b3]))
  | [] => h
  | rest => Z.lxor h (ref_scramble (le_value rest))
  end.

Definition murmur3_ref (data : list Z) (seed : Z) : Z :=
  ref_final (Z.lxor (murmur3_blocks data seed) (Z.of_nat (length data))).

(** ** Ranges *)

Lemma rotl32_range x r : is_u32 x → 0 <= r <= 32 → is_u32 (rotl32 x r).
Proof. intros Hx Hr. apply is_u32_lor; [apply u32_range|apply is_u32_shiftr; [lia|done]]. Qed.

Lemma mix_k1_range k : is_u32 (mix_k1 k).
Proof. apply u32_range. Qed.

Lemma mix_h1_range h k : is_u32 (mix_h1 h k).
Proof. apply u32_range. Qed.

Lemma block_loop_range data i n h : is_u32 h → is_u32 (block_loop data i n h).
Proof. revert i h. induction n; intros i h Hh; simpl; [done|]. apply IHn, mix_h1_range. Qed.

Lemma tail_mix_range data off len h : is_u32 h → is_u32 (tail_mix data off len h).
Proof.
  intros Hh. unfold tail_mix. cbv zeta. destruct (1 <=? Z.land len 3); [|done].
  apply is_u32_lxor; [done|apply mix_k1_range].
Qed.

Lemma xorshift_range x n : 0 <= n → is_u32 x → is_u32 (Z.lxor x (Z.shiftr x n)).
Proof. intros Hn Hx. apply is_u32_lxor; [done|by apply is_u32_shiftr]. Qed.

Lemma fmix32_range h : is_u32 (fmix32 h).
Proof. unfold fmix32. cbv zeta. apply xorshift_range; [lia|apply u32_range]. Qed.

(** ** The final mix loses nothing

    A right xor-shift and the multiplication by an odd constant are undone
    step by step. *)

Definition unxorshift16 (y : Z) : Z := Z.lxor y (Z.shiftr y 16).
Definition unxorshift13 (y : Z) : Z :=
  Z.lxor y (Z.lxor (Z.shiftr y 13) (Z.shiftr y 26)).

Definition unfmix32 (h1 : Z) : Z :=
  let h1 := unxorshift16 h1 in
  let h1 := u32 (h1 * 0x7ed1b41d) in
  let h1 := unxorshift13 h1 in
  let h1 := u32 (h1 * 0xa5cb9243) in
  unxorshift16 h1.

Lemma shiftr_u32_0 x n : is_u32 x → 32 <= n → Z.shiftr x n = 0.
Proof.
  intros [? ?] Hn. apply Z.shiftr_eq_0; [done|].
  destruct (decide (x = 0)) as [->|]; [simpl; lia|]. apply Z.log2_lt_pow2; [lia|].
  pose proof (Z.pow_le_mono_r 2 32 n). lia.
Qed.

Lemma unxorshift16_ok x : is_u32 x → unxorshift16 (Z.lxor x (Z.shiftr x 16)) = x.
Proof.
  intros Hx. unfold unxorshift16. rewrite Z.shiftr_lxor, Z.shiftr_shiftr by lia.
  rewrite (shiftr_u32_0 x (16 + 16)) by (done || lia).
  by rewrite Z.lxor_0_r, Z.lxor_assoc, Z.lxor_nilpotent, Z.lxor_0_r.
Qed.

Lemma unxorshift13_ok x : is_u32 x → unxorshift13 (Z.lxor x (Z.shiftr x 13)) = x.
Proof.
  intros Hx. unfold unxorshift13. rewrite !Z.shiftr_lxor, !Z.shiftr_shiftr by lia.
  rewrite (shiftr_u32_0 x (13 + 26)) by (done || lia).
  change (13 + 13) with 26. rewrite Z.lxor_0_r.
  rewrite (Z.lxor_assoc (Z.shiftr x 13) (Z.shiftr x 26)), Z.lxor_nilpotent, Z.lxor_0_r.
  by rewrite Z.lxor_assoc, Z.lxor_nilpotent, Z.lxor_0_r.
Qed.

Lemma mul_inverse x a b : is_u32 x → u32 (a * b) = 1 → u32 (u32 (x * a) * b) = x.
Proof.
  intros Hx Hab. unfold u32 in *. rewrite Z.mul_mod_idemp_l by lia.
  rewrite <-Z.mul_assoc, <-Z.mul_mod_idemp_r, Hab by lia.
  rewrite Z.mul_1_r. by apply Z.mod_small.
Qed.

Lemma unfmix32_fmix32 h : is_u32 h → unfmix32 (fmix32 h) = h.
Proof.
  intros Hh. unfold unfmix32, fmix32. cbv zeta.
  rewrite unxorshift16_ok by apply u32_range.
  rewrite mul_inverse; [|apply xorshift_range; [lia|apply u32_range]|done].
  rewrite unxorshift13_ok by apply u32_range.
  rewrite mul_inverse; [|by apply xorshift_range|done].
  by apply unxorshift16_ok.
Qed.

(** ** The loop computes the reference *)

Lemma land_shiftl_0 a b n : 0 <= n → 0 <= a < 2 ^ n → Z.land a (Z.shiftl b n) = 0.
Proof.
  intros Hn Ha. apply Z.bits_inj'. intros i Hi.
  rewrite Z.land_spec, Z.shiftl_spec, Z.bits_0 by done.
  destruct (Z.lt_ge_cases i n).
  - rewrite (Z.testbit_neg_r b) by lia. apply andb_false_r.
  - replace (Z.testbit a i) with false; [done|]. symmetry.
    rewrite <-(Z.mod_small a (2 ^ n)) by done. by apply Z.mod_pow2_bits_high.
Qed.

Lemma lxor_shiftl a b n : 0 <= n → 0 <= a < 2 ^ n → Z.lxor a (Z.shiftl b n) = a + 2 ^ n * b.
Proof.
  intros Hn Ha. rewrite <-Z.add_nocarry_lxor by (by apply land_shiftl_0).
  rewrite Z.shiftl_mul_pow2 by done. lia.
Qed.

Lemma lor_shiftl a b n : 0 <= n → 0 <= a < 2 ^ n → Z.lor a (Z.shiftl b n) = a + 2 ^ n * b.
Proof.
  intros Hn Ha. rewrite <-Z.lxor_lor by (by apply land_shiftl_0). by apply lxor_shiftl.
Qed.

Lemma byte_at_app pre data i j :
  i = (length pre + j)%nat → byte_at (pre ++ data) i = byte_at data j.
Proof. intros ->. unfold byte_at. rewrite lookup_app_r by lia. do 2 f_equal. lia. Qed.

(** The operations of the code are those of the reference. *)
Lemma rotl32_rotate x r : is_u32 x → 0 <= r <= 32 → rotl32 x r = rotate_left x r.
Proof.
  intros [Hx0 Hx] Hr. unfold rotl32, rotate_left, word, u32.
  assert (2 ^ 32 = 2 ^ r * 2 ^ (32 - r)) as Hp by (rewrite <-Z.pow_add_r by lia; f_equal; lia).
  assert (0 < 2 ^ r) by (apply Z.pow_pos_nonneg; lia). assert (0 < 2 ^ (32 - r)) by (apply Z.pow_pos_nonneg; lia).
  rewrite Z.shiftl_mul_pow2, Z.shiftr_div_pow2 by lia. change 4294967296 with (2 ^ 32). rewrite Hp.
  rewrite (Z.mul_comm x), Z.mul_mod_distr_l by lia. rewrite Z.lor_comm, (Z.mul_comm (2 ^ r) (x mod _)).
  rewrite <-Z.shiftl_mul_pow2, lor_shiftl by (first [lia|split; [apply Z.div_pos|apply Z.div_lt_upper_bound]; lia]).
  rewrite Z.shiftl_mul_pow2 by lia. lia.
Qed.

Lemma mix_k1_scramble k : mix_k1 k = ref_scramble k.
Proof. unfold mix_k1, ref_scramble. by rewrite rotl32_rotate by (done || apply u32_range). Qed.

Lemma mix_h1_step h k : is_u32 h → mix_h1 h (mix_k1 k) = ref_step h k.
Proof.
  intros Hh. unfold mix_h1, ref_step. rewrite mix_k1_scramble.
  rewrite rotl32_rotate; [done| |done]. apply is_u32_lxor; [done|]. rewrite <-mix_k1_scramble. apply mix_k1_range.
Qed.

Lemma fmix32_final h : fmix32 h = ref_final h.
Proof. unfold fmix32, ref_final, fold_down. by rewrite !Z.shiftr_div_pow2. Qed.

Definition is_byte (b : Z) : Prop := 0 <= b < 256.

Lemma lor_bytes b0 b1 b2 b3 :
  is_byte b0 → is_byte b1 → is_byte b2 → is_byte b3 →
  Z.lor b0 (Z.lor (Z.shiftl b1 8) (Z.lor (Z.shiftl b2 16) (Z.shiftl b3 24))) = le_value [b0; b1; b2; b3].
Proof.
  unfold is_byte. intros. rewrite !Z.lor_assoc.
  rewrite (lor_shiftl b0 b1 8) by lia.
  rewrite (lor_shiftl _ b2 16) by (norm_pow; lia).
  rewrite (lor_shiftl _ b3 24) by (norm_pow; lia).
  simpl le_value. lia.
Qed.

Lemma load_block_app pre i b0 b1 b2 b3 rest :
  length pre = (4 * i)%nat → is_byte b0 → is_byte b1 → is_byte b2 → is_byte b3 →
  load_block (pre ++ b0 :: b1 :: b2 :: b3 :: rest) i = le_value [b0; b1; b2; b3].
Proof.
  intros Hp H0 H1 H2 H3. unfold load_block.
  rewrite (byte_at_app pre _ (4 * i)%nat 0), (byte_at_app pre _ (4 * i + 1)%nat 1),
    (byte_at_app pre _ (4 * i + 2)%nat 2), (byte_at_app pre _ (4 * i + 3)%nat 3) by lia.
  by apply lor_bytes.
Qed.

Lemma tail_bytes2 b0 b1 :
  is_byte b0 → Z.lxor (Z.lxor 0 (Z.shiftl b1 8)) b0 = le_value [b0; b1].
Proof.
  unfold is_byte. intros. rewrite Z.lxor_0_l, Z.lxor_comm, lxor_shiftl by lia. simpl le_value. lia.
Qed.

Lemma tail_bytes3 b0 b1 b2 :
  is_byte b0 → is_byte b1 →
  Z.lxor (Z.lxor (Z.lxor 0 (Z.shiftl b2 16)) (Z.shiftl b1 8)) b0 = le_value [b0; b1; b2].
Proof.
  unfold is_byte. intros. rewrite Z.lxor_0_l, Z.lxor_comm.
  rewrite (Z.lxor_comm (Z.shiftl b2 16)), <-Z.lxor_assoc.
  rewrite (lxor_shiftl b0 b1 8) by lia. rewrite lxor_shiftl by (norm_pow; lia). simpl le_value. lia.
Qed.

(** The tail bytes, by the number of bytes left. *)
Lemma tail_mix_app pre rest len h :
  Forall is_byte rest → (length rest < 4)%nat → Z.land len 3 = Z.of_nat (length rest) →
  tail_mix (pre ++ rest) (length pre) len h = murmur3_blocks rest h.
Proof.
  intros Hb Hl Hr. unfold tail_mix. cbv zeta. rewrite Hr.
  rewrite (byte_at_app pre rest (length pre + 2)%nat 2), (byte_at_app pre rest (length pre + 1)%nat 1),
    (byte_at_app pre rest (length pre) 0) by lia.
  destruct rest as [|b0 [|b1 [|b2 [|]]]]; simpl in Hl; try lia; unfold byte_at; simpl.
  - done.
  - rewrite mix_k1_scramble, Z.lxor_0_l. do 2 f_equal. lia.
  - rewrite mix_k1_scramble, tail_bytes2 by (by apply Forall_inv in Hb). done.
  - apply Forall_cons in Hb as [? Hb]. apply Forall_inv in Hb. by rewrite mix_k1_scramble, tail_bytes3.
Qed.

Lemma block_loop_ref n pre data len h :
  is_u32 h → Forall is_byte data → (length data / 4)%nat = n → Z.land len 3 = Z.of_nat (length data mod 4) →
  (length pre mod 4 = 0)%nat →
  tail_mix (pre ++ data) (length pre + n * 4) len (block_loop (pre ++ data) (length pre / 4) n h)
  = murmur3_blocks data h.
Proof.
  revert pre data h. induction n as [|n IH]; intros pre data h Hh Hb Hn Hl Hp.
  - assert (length data < 4)%nat.
    { pose proof (Nat.div_mod_eq (length data) 4). pose proof (Nat.mod_upper_bound (length data) 4). lia. }
    rewrite Nat.mod_small in Hl by done. simpl block_loop. rewrite Nat.add_0_r.
    by apply tail_mix_app.
  - assert (4 <= length data)%nat.
    { destruct (Nat.lt_ge_cases (length data) 4); [|done]. by rewrite Nat.div_small in Hn. }
    destruct data as [|b0 [|b1 [|b2 [|b3 rest]]]]; try (simpl in *; lia).
    repeat match goal with H : Forall _ (_ :: _) |- _ => apply Forall_cons in H as [? H] end.
    assert (length pre = 4 * (length pre / 4))%nat as Hpre.
    { pose proof (Nat.div_mod_eq (length pre) 4). lia. }
    cbn [block_loop]. rewrite load_block_app by done.
    cbn [murmur3_blocks]. rewrite <-mix_h1_step by done.
    specialize (IH (pre ++ [b0; b1; b2; b3]) rest
      (mix_h1 h (mix_k1 (le_value [b0; b1; b2; b3]))) (mix_h1_range _ _)).
    rewrite <-!app_assoc, !length_app in IH. simpl length in IH, Hn, Hl.
    replace (length pre + S n * 4)%nat with (length pre + 4 + n * 4)%nat by lia.
    replace (S (length pre / 4)) with ((length pre + 4) / 4)%nat.
    2:{ replace (length pre + 4)%nat with (length pre + 1 * 4)%nat by lia. rewrite Nat.div_add by lia. lia. }
    apply IH; [done| | |].
    + replace (S (S (S (S (length rest))))) with (length rest + 1 * 4)%nat in Hn by lia.
      rewrite Nat.div_add in Hn by lia. lia.
    + rewrite Hl. f_equal. replace (S (S (S (S (length rest))))) with (length rest + 1 * 4)%nat by lia.
      by rewrite Nat.Div0.mod_add.
    + replace (length pre + 4)%nat with (length pre + 1 * 4)%nat by lia.
      by rewrite Nat.Div0.mod_add.
Qed.

Lemma bytes_of_string_bytes s : Forall is_byte (bytes_of_string s).
Proof. exact (bytes_of_string_range s). Qed.

Lemma to_int32_small n : (Z.of_nat n < 2 ^ 31) → to_int32 (Z.of_nat n) = Z.of_nat n.
Proof.
  intros. unfold to_int32. rewrite u32_small by (split; lia).
  by rewrite (proj2 (Z.ltb_lt _ _)).
Qed.

Lemma land_3_mod n : Z.land (Z.of_nat n) 3 = Z.of_nat (n mod 4).
Proof.
  change 3 with (Z.ones 2). rewrite Z.land_ones by lia. by rewrite Nat2Z.inj_mod.
Qed.

(** The code computes the reference on keys shorter than 2^31. *)
Lemma murmur_hash3_eq_ref key seed :
  is_u32 seed → Z.of_nat (String.length key) < 2 ^ 31 →
  murmur_hash3 key seed = murmur3_ref (bytes_of_string key) seed.
Proof.
  intros Hs Hl. unfold murmur_hash3, murmur3_ref. rewrite fmix32_final, to_int32_small by done.
  rewrite length_bytes_of_string, u32_small by (split; lia). do 2 f_equal.
  replace (Z.to_nat (Z.quot (Z.of_nat (String.length key)) 4)) with (String.length key / 4)%nat.
  2:{ rewrite Z.quot_div_nonneg by lia. change 4 with (Z.of_nat 4).
      rewrite <-Nat2Z.inj_div. lia. }
  apply (block_loop_ref _ []); [done|apply bytes_of_string_bytes|..|done];
    rewrite length_bytes_of_string; [done|apply land_3_mod].
Qed.
