(* ===== verification/KeyStore.v ===== *)
(** * The key store interface

    What a shard promises to the router, and the router to the commands and to
    the timing wheel: five operations and their effect on the stored entries,
    stated with [ks_find], the entry physically stored under a key (live or
    not).  [Shard] ([Shard.v]) and [ShardRouter] ([Router.v]) are the instances;
    the theorems of this file and of [TimingWheel.v] hold for both. *)

From S2P Require Import Prelude MachineInt Text Value.

Local Open Scope Z_scope.

(** How [Shard::get] prints a value. *)
Definition value_to_string (v : ValueVariant) : string :=
  match v with
  | VString s => s
  | VInteger z => to_string z
  | VList _ => "(list)"
  | VHash _ => "(hash)"
  end.

(** [it->second.tombstoned = true] *)
Definition set_tombstoned (e : CacheAlignedValue) : CacheAlignedValue :=
  CAV (data e) (created_at e) (last_accessed e) (ttl_seconds e) true.

Class KeyStore (S : Type) := {
  ks_wf : S → Prop;
  ks_find : S → string → option CacheAlignedValue;
  ks_set : Z → string → string → Z → S → bool * S;
  ks_get : Z → string → S → option string;
  ks_del : string → S → bool * S;
  ks_exists : Z → string → S → bool;
  ks_evict_expired : Z → string → S → bool * S;
}.

(** The entry a reader sees. *)
Definition find_live {S} `{!KeyStore S} (now : Z) (s : S) (k : string) : option CacheAlignedValue :=
  e ← ks_find s k; if live now e then Some e else None.

Class KeyStoreLaws (S : Type) `{!KeyStore S} := {
  law_set now k v ttl s k' :
    ks_wf s →
    ks_find (ks_set now k v ttl s).2 k' =
    if (ks_set now k v ttl s).1 && bool_decide (k = k')
    then Some (CacheAlignedValue_make now (VString v) ttl) else ks_find s k';
  law_get now k s :
    ks_get now k s = (λ e, value_to_string (data e)) <$> find_live now s k;
  law_del_result k s :
    (ks_del k s).1 = match ks_find s k with Some e => negb (tombstoned e) | None => false end;
  law_del k s k' :
    ks_wf s →
    ks_find (ks_del k s).2 k' =
    if bool_decide (k = k') then set_tombstoned <$> ks_find s k else ks_find s k';
  law_exists now k s : ks_exists now k s = bool_decide (is_Some (find_live now s k));
  law_evict_result now k s :
    (ks_evict_expired now k s).1 =
    match ks_find s k with Some e => negb (live now e) | None => false end;
  law_evict now k s k' :
    ks_wf s →
    ks_find (ks_evict_expired now k s).2 k' =
    if bool_decide (k = k') then find_live now s k else ks_find s k';
  law_wf_set now k v ttl s : ks_wf s → ks_wf (ks_set now k v ttl s).2;
  law_wf_del k s : ks_wf s → ks_wf (ks_del k s).2;
  law_wf_evict now k s : ks_wf s → ks_wf (ks_evict_expired now k s).2;
}.

#[export] Hint Resolve law_wf_set law_wf_del law_wf_evict : db.

Section clients.
Context {S : Type} `{!KeyStore S, !KeyStoreLaws S}.
Implicit Types s : S.

Lemma find_live_set now now' k v ttl s k' :
  ks_wf s → (ks_set now k v ttl s).1 = true →
  find_live now' (ks_set now k v ttl s).2 k' =
  if bool_decide (k = k') then
    (let e := CacheAlignedValue_make now (VString v) ttl in if live now' e then Some e else None)
  else find_live now' s k'.
Proof.
  intros Hw Hb. unfold find_live at 1. rewrite law_set, Hb by done. simpl.
  by case_bool_decide.
Qed.

Lemma find_live_set_fail now now' k v ttl s k' :
  ks_wf s → (ks_set now k v ttl s).1 = false →
  find_live now' (ks_set now k v ttl s).2 k' = find_live now' s k'.
Proof. intros Hw Hb. unfold find_live. by rewrite law_set, Hb. Qed.

Lemma find_live_del now k s k' :
  ks_wf s →
  find_live now (ks_del k s).2 k' = if bool_decide (k = k') then None else find_live now s k'.
Proof.
  intros Hw. unfold find_live at 1. rewrite law_del by done. case_bool_decide; [|done].
  by destruct (ks_find s k).
Qed.

(** Eviction is invisible to readers. *)
Lemma find_live_evict now now' k s k' :
  ks_wf s → now <= now' →
  find_live now' (ks_evict_expired now k s).2 k' = find_live now' s k'.
Proof.
  intros Hw Hn. unfold find_live at 1. rewrite law_evict by done.
  case_bool_decide as Hk; [|done]. subst k'.
  unfold find_live. destruct (ks_find s k) as [e|]; [|done]. simpl.
  destruct (live now e) eqn:E; [done|]. simpl.
  destruct (live now' e) eqn:E'; [|done].
  by rewrite (live_mono now now') in E.
Qed.
End clients.
