(* ===== verification/Shard.v ===== *)
(** * A database shard ([include/engine/shard.h], [src/engine/shard.cpp])

    [Shard] owns the arena, the data map and a lock.  Every operation below is
    the body run with the shard's lock held (the code takes it on entry), so an
    operation is one atomic step of the engine.

    The [std::pmr] containers are library code: the blocks they request from
    the arena for one call are the program [lib_prog] of the parameter
    [PmrLib], whose state [L] holds whatever the library remembers between
    calls (capacities, bucket arrays, live temporaries).  The contents of the
    containers are in the model: [data_]. *)

From S2P Require Import Prelude MachineInt Text Pmr Value KeyStore.

Local Open Scope Z_scope.

(** The library calls of the source that work on the arena. *)
Inductive lib_op :=
| NewString (s : string)                                   (* pmr::string x(s, res) *)
| MapInsertOrAssign (k : string) (e : CacheAlignedValue)   (* map.insert_or_assign(k, e) *)
| MapErase (k : string)                                    (* map.erase(it) *)
| ListEmplaceBack (l : list string) (v : string)           (* list.emplace_back(v) *)
| HashSubscriptAssign (h : gmap string string) (f v : string) (* hash[f] = v *)
| ScopeExit.                                               (* destructors of the locals *)

Class PmrLib (L : Type) := {
  lib_init : mem_prog L;                (* the constructor of the map *)
  lib_prog : lib_op → L → mem_prog L;
}.

(** Sizes passed to the resource are [size_t] values. *)
Class PmrLibOk (L : Type) `{!PmrLib L} := {
  lib_init_wf : prog_wf lib_init;
  lib_prog_wf : ∀ op l, prog_wf (lib_prog op l);
}.

Record Shard (U L : Type) := MkShard {
  arena_ : PmrArena U;
  layout_ : L;
  data_ : gmap string CacheAlignedValue;
}.
Arguments MkShard {U L} _ _ _.
Arguments arena_ {U L} _.
Arguments layout_ {U L} _.
Arguments data_ {U L} _.

Section shard.
Context {U L : Type} `{!ArenaChain U, !PmrLib L}.
Abbreviation shard := (Shard U L).

(** [data_(arena_.resource())]: the empty map over an arena, and whether its
    constructor returned. *)
Definition shard_in (a : PmrArena U) : result OomException unit * shard :=
  let '(r, l, t) := run_prog lib_init (tracker_ a) in
  (r, MkShard (Arena (arena_capacity_ a) t) l ∅).

(** The shard made when nothing is refused. *)
Definition shard_over (arena_cap : Z) : shard := (shard_in (arena_over arena_cap)).2.

Definition Shard_make (heap : Z → bool) (arena_cap : Z) : result alloc_error shard :=
  match PmrArena_make heap arena_cap with
  | Normal a => match shard_in a with (Normal _, s) => Normal s | (Throw e, _) => Throw (ArenaOom e) end
  | Throw e => Throw e
  end.

(** ** Library calls on the shard's arena *)

Definition lib (op : lib_op) : SE shard OomException unit := λ s,
  let '(r, l, t) := run_prog (lib_prog op (layout_ s)) (tracker_ (arena_ s)) in
  (r, MkShard (Arena (arena_capacity_ (arena_ s)) t) l (data_ s)).

(** A call that does not throw ([erase], destructors). *)
Definition lib_noexcept (op : lib_op) : SE shard OomException unit := λ s,
  (Normal tt, (lib op s).2).

(** A block with locals: their destructors run on every exit. *)
Definition scoped {A} (m : SE shard OomException A) : SE shard OomException A := λ s,
  let '(r, s') := m s in (r, (lib ScopeExit s').2).

Definition modify_data (f : gmap string CacheAlignedValue → gmap string CacheAlignedValue) :
    SE shard OomException unit :=
  modify (λ s, MkShard (arena_ s) (layout_ s) (f (data_ s))).

Definition find (key : string) : SE shard OomException (option CacheAlignedValue) :=
  s ← get_state; mret (data_ s !! key).

(** ** Operations *)

Definition Shard_set (now : Z) (key value : string) (ttl : Z) : SE shard OomException bool :=
  s ← get_state;
  if arena_hard_limit (arena_ s) then mret false
  else
    try_catch
      (scoped (
         _ ← lib (NewString key);
         _ ← lib (NewString value);
         let entry := CacheAlignedValue_make now (VString value) ttl in
         _ ← lib (MapInsertOrAssign key entry);
         _ ← modify_data <[key := entry]>;
         mret true))
      (λ _, mret false).

Definition Shard_get (now : Z) (key : string) (s : shard) : option string :=
  match data_ s !! key with
  | None => None
  | Some e =>
    if tombstoned e || is_expired now e then None
    else Some (value_to_string (data e))
  end.

Definition Shard_del (key : string) : SE shard OomException bool :=
  it ← find key;
  match it with
  | None => mret false
  | Some e =>
    if tombstoned e then mret false
    else _ ← modify_data <[key := set_tombstoned e]>; mret true
  end.

Definition Shard_exists (now : Z) (key : string) (s : shard) : bool :=
  match data_ s !! key with
  | None => false
  | Some e => negb (is_expired now e) && negb (tombstoned e)
  end.

Definition Shard_evict_expired (now : Z) (key : string) : SE shard OomException bool :=
  it ← find key;
  match it with
  | None => mret false
  | Some e =>
    if tombstoned e || is_expired now e then
      _ ← lib_noexcept (MapErase key);
      _ ← modify_data (delete key);
      mret true
    else mret false
  end.

Definition Shard_memory_used (s : shard) : Z := arena_bytes_used (arena_ s).
Definition Shard_memory_capacity (s : shard) : Z := arena_capacity (arena_ s).
Definition Shard_is_soft_limit_reached (s : shard) : bool := arena_soft_limit (arena_ s).
Definition Shard_key_count (s : shard) : Z := Z.of_nat (base.size (data_ s)).
End shard.

(** ** Invariant: the arena's accounting, preserved by every operation *)

Definition shard_wf {U L} (s : Shard U L) : Prop := tracker_wf (tracker_ (arena_ s)).

(** What a step of the shard may do: the capacity is fixed, the accounting
    invariant is kept and only [key] changes in the data. *)
Definition shard_step {U L} (key : string) (s s' : Shard U L) : Prop :=
  arena_capacity_ (arena_ s') = arena_capacity_ (arena_ s) ∧
  tracker_step (tracker_ (arena_ s)) (tracker_ (arena_ s')) ∧
  delete key (data_ s') = delete key (data_ s).

(** A step of the library: the contents are untouched. *)
Definition lib_step {U L} (s s' : Shard U L) : Prop :=
  arena_capacity_ (arena_ s') = arena_capacity_ (arena_ s) ∧
  tracker_step (tracker_ (arena_ s)) (tracker_ (arena_ s')) ∧
  data_ s' = data_ s.

#[export] Instance shard_step_preorder {U L} key : PreOrder (@shard_step U L key).
Proof.
  split.
  - intros s. by split_and!.
  - intros s1 s2 s3 (?&?&?) (?&?&?). split_and!; [congruence|by etrans|congruence].
Qed.

#[export] Instance lib_step_preorder {U L} : PreOrder (@lib_step U L).
Proof.
  split.
  - intros s. by split_and!.
  - intros s1 s2 s3 (?&?&?) (?&?&?). split_and!; [congruence|by etrans|congruence].
Qed.

Lemma lib_step_shard_step {U L} key (s s' : Shard U L) : lib_step s s' → shard_step key s s'.
Proof. intros (?&?&?). split_and!; [done|done|congruence]. Qed.

Section shard_facts.
Context {U L : Type} `{!ArenaChain U, !PmrLib L, !PmrLibOk L}.
Abbreviation shard := (Shard U L).
Implicit Types s : shard.

(** A new shard is empty, of its arena's size and well formed. *)
Lemma shard_over_new cap :
  data_ (shard_over (U := U) (L := L) cap) = ∅ ∧
  Shard_memory_capacity (shard_over (U := U) (L := L) cap) = cap ∧
  capacity_ (tracker_ (arena_ (shard_over (U := U) (L := L) cap))) = cap ∧
  (is_u64 cap → shard_wf (shard_over (U := U) (L := L) cap)).
Proof.
  unfold shard_over, shard_in. pose proof (run_prog_step (lib_init (L := L)) (tracker_ (arena_over (U := U) cap))) as H.
  specialize (H lib_init_wf). destruct (run_prog _ _) as [[r l] t]. destruct H as [Hc Hw]. split_and!; [done..|].
  intros Hcap. by apply Hw, tracker_make_wf.
Qed.

Lemma lib_is_step op s : lib_step s (lib op s).2.
Proof.
  unfold lib. pose proof (run_prog_step (lib_prog op (layout_ s)) (tracker_ (arena_ s))) as H.
  destruct (run_prog _ _) as [[r l] t]. simpl in *. split_and!; [done| |done].
  apply H, lib_prog_wf.
Qed.

Lemma lib_data op s : data_ (lib op s).2 = data_ s.
Proof. by destruct (lib_is_step op s) as (?&?&?). Qed.

Lemma preserves_lib key op : preserves (shard_step key) (lib (U := U) op).
Proof. intros s. apply lib_step_shard_step, lib_is_step. Qed.

Lemma preserves_lib_noexcept key op : preserves (shard_step key) (lib_noexcept (U := U) op).
Proof. intros s. apply lib_step_shard_step, lib_is_step. Qed.

Lemma preserves_scoped {A} key (m : SE shard OomException A) :
  preserves (shard_step key) m → preserves (shard_step key) (scoped m).
Proof.
  intros Hm s. unfold scoped. specialize (Hm s). destruct (m s) as [r s']. simpl in *.
  etrans; [exact Hm|]. apply preserves_lib.
Qed.

Lemma preserves_modify_data key f :
  (∀ d, delete key (f d) = delete key d) → preserves (shard_step key) (modify_data (U := U) (L := L) f).
Proof. intros Hf s. split_and!; [done| |apply Hf]. simpl. reflexivity. Qed.

Lemma preserves_insert key e : preserves (shard_step key) (modify_data (U := U) (L := L) <[key := e]>).
Proof. apply preserves_modify_data. intros d. by rewrite delete_insert_eq. Qed.

Lemma preserves_delete key : preserves (shard_step key) (modify_data (U := U) (L := L) (delete key)).
Proof. apply preserves_modify_data. intros d. by rewrite delete_delete_eq. Qed.

Lemma preserves_find key k : preserves (shard_step key) (find (U := U) (L := L) k).
Proof. intros s. simpl. reflexivity. Qed.

#[local] Hint Resolve preserves_lib preserves_lib_noexcept preserves_scoped preserves_insert
  preserves_delete preserves_find : preserves.

Lemma silent_lib op : silent data_ (lib (U := U) (L := L) op).
Proof. intros s. apply lib_data. Qed.

Lemma commits_scoped {A} (m : SE shard OomException A) s a d :
  commits data_ m s a d → commits data_ (scoped m) s a d.
Proof.
  unfold commits, scoped. destruct (m s) as [[a'|e] s']; rewrite lib_data; done.
Qed.

(** Steps over the library calls at the head of the goal. *)
Ltac lib_calls := repeat (apply commits_silent; [apply silent_lib|intros ? ?]).

(** *** [Shard::set]: all or nothing *)

Lemma Shard_set_cases now key value ttl s :
  ∃ b s', Shard_set now key value ttl s = (Normal b, s') ∧
    (b = true ∧ data_ s' = <[key := CacheAlignedValue_make now (VString value) ttl]> (data_ s) ∨
     b = false ∧ data_ s' = data_ s).
Proof.
  unfold Shard_set, mbind at 1, SE_bind at 1, get_state. destruct (arena_hard_limit (arena_ s)).
  { eexists _, _. split; [done|]. by right. }
  try_block (data_ (U := U) (L := L)) (λ _ : OomException, false).
  2:{ destruct H as [[-> H]|[[e ->] H]]; [left|right]; split; [done|exact H|done|exact H]. }
  apply commits_scoped.
  lib_calls. eapply commits_last; [done|done|]. simpl. by rewrite_obs.
Qed.

Lemma preserves_Shard_set now key value ttl : preserves (shard_step key) (Shard_set (U := U) (L := L) now key value ttl).
Proof.
  unfold Shard_set. eapply preserves_bind; [apply _|auto with preserves|].
  { apply preserves_get, _. }
  intros s. destruct (arena_hard_limit _); [apply preserves_ret, _|].
  apply preserves_try; [apply _| |intros; apply preserves_ret, _].
  apply preserves_scoped.
  repeat (apply preserves_bind; [apply _|auto with preserves|intros]).
  apply preserves_ret, _.
Qed.

Lemma Shard_set_nothrow now key value ttl : nothrow (Shard_set (U := U) (L := L) now key value ttl).
Proof. intros s. destruct (Shard_set_cases now key value ttl s) as (b & s' & H & _). eauto. Qed.

(** *** [Shard::del] and [Shard::evict_expired] *)

Lemma Shard_del_eq key s :
  Shard_del key s =
  match data_ s !! key with
  | Some e => if tombstoned e then (Normal false, s)
              else (Normal true, MkShard (arena_ s) (layout_ s) (<[key := set_tombstoned e]> (data_ s)))
  | None => (Normal false, s)
  end.
Proof.
  unfold Shard_del, find, get_state, mbind, SE_bind, mret, SE_ret.
  destruct (data_ s !! key) as [e|]; [|done]. by destruct (tombstoned e).
Qed.

Lemma Shard_evict_eq now key s :
  Shard_evict_expired now key s =
  match data_ s !! key with
  | Some e =>
    if live now e then (Normal false, s)
    else let s' := (lib (MapErase key) s).2 in
         (Normal true, MkShard (arena_ s') (layout_ s') (delete key (data_ s)))
  | None => (Normal false, s)
  end.
Proof.
  unfold Shard_evict_expired, find, get_state, mbind, SE_bind, mret, SE_ret, live.
  destruct (data_ s !! key) as [e|]; [|done].
  destruct (tombstoned e || is_expired now e); [|done]. simpl.
  unfold modify_data, modify. by rewrite lib_data.
Qed.

Lemma preserves_Shard_del key : preserves (shard_step key) (Shard_del (U := U) (L := L) key).
Proof.
  intros s. rewrite Shard_del_eq. destruct (data_ s !! key) as [e|]; [|done].
  destruct (tombstoned e); [done|]. split_and!; simpl; [done|done|by rewrite delete_insert_eq].
Qed.

Lemma preserves_Shard_evict now key :
  preserves (shard_step key) (Shard_evict_expired (U := U) (L := L) now key).
Proof.
  intros s. rewrite Shard_evict_eq. destruct (data_ s !! key) as [e|]; [|done].
  destruct (live now e); [done|]. destruct (lib_is_step (MapErase key) s) as (?&?&?).
  split_and!; simpl; [done|done|by rewrite delete_delete_eq].
Qed.
End shard_facts.

(** ** A shard is a key store *)

#[export] Instance shard_key_store {U L} `{!ArenaChain U, !PmrLib L} : KeyStore (Shard U L) := {
  ks_wf := shard_wf;
  ks_find s k := data_ s !! k;
  ks_set now k v ttl := noexcept false (Shard_set now k v ttl);
  ks_get := Shard_get;
  ks_del k := noexcept false (Shard_del k);
  ks_exists := Shard_exists;
  ks_evict_expired now k := noexcept false (Shard_evict_expired now k);
}.

#[export] Instance shard_key_store_laws {U L} `{!ArenaChain U, !PmrLib L, !PmrLibOk L} :
  KeyStoreLaws (Shard U L).
Proof.
  split; simpl.
  - intros now k v ttl s k' _. unfold noexcept.
    destruct (Shard_set_cases now k v ttl s) as (b & s' & -> & [[-> Hd]|[-> Hd]]); simpl;
      rewrite Hd; [|done].
    rewrite lookup_insert. by case_bool_decide; case_decide.
  - intros now k s. unfold Shard_get, find_live, live. simpl.
    destruct (data_ s !! k) as [e|]; [|done]. simpl. by destruct (tombstoned e || is_expired now e).
  - intros k s. unfold noexcept. rewrite Shard_del_eq. destruct (data_ s !! k) as [e|]; [|done].
    by destruct (tombstoned e).
  - intros k s k' _. unfold noexcept. rewrite Shard_del_eq. destruct (data_ s !! k) as [[? ? ? ? t]|] eqn:E; simpl.
    + destruct t; simpl; [|rewrite lookup_insert; by case_bool_decide; case_decide].
      case_bool_decide; [by subst|done].
    + case_bool_decide; [by subst|done].
  - intros now k s. unfold Shard_exists, find_live, live. simpl.
    destruct (data_ s !! k) as [e|]; [|done]. simpl.
    by destruct (tombstoned e), (is_expired now e).
  - intros now k s. unfold noexcept. rewrite Shard_evict_eq. destruct (data_ s !! k) as [e|]; [|done].
    by destruct (live now e).
  - intros now k s k' _. unfold noexcept. rewrite Shard_evict_eq. unfold find_live. simpl.
    destruct (data_ s !! k) as [e|] eqn:E; simpl.
    + destruct (live now e) eqn:El; simpl.
      * case_bool_decide; [by subst|done].
      * rewrite lookup_delete. by case_bool_decide; case_decide.
    + case_bool_decide; [by subst|done].
  - intros now k v ttl s. rewrite noexcept_state. by apply (preserves_Shard_set now k v ttl s).
  - intros k s. rewrite noexcept_state. by apply (preserves_Shard_del k s).
  - intros now k s. rewrite noexcept_state. by apply (preserves_Shard_evict now k s).
Qed.
