(* ===== verification/Router.v ===== *)
(** * The shard router ([ShardRouter] in [include/engine/hasher.h], [src/engine/hasher.cpp])

    Keys go to [shards_[murmur_hash3(key) & shard_mask_]].  The constructor
    refuses (assertion) a shard count that is not a power of two and divides the
    memory evenly; what the heap serves it is an argument.  [with_shard] runs an operation on the shard of a key, as the
    four forwarding methods and the list and hash commands do. *)

From S2P Require Import Prelude MachineInt Text Pmr Value Hasher KeyStore Shard.

Local Open Scope Z_scope.

Definition DEFAULT_SHARD_COUNT : Z := 64.

Record ShardRouter (U L : Type) := MkRouter {
  shard_count_ : Z;
  shard_mask_ : Z;
  shards_ : list (Shard U L);
}.
Arguments MkRouter {U L} _ _ _.
Arguments shard_count_ {U L} _.
Arguments shard_mask_ {U L} _.
Arguments shards_ {U L} _.

(** What the heap serves while the router is built: the array of pointers, the
    object of the i-th shard, the buffer of its arena; [max_pointers] is
    [max_size()] of a vector of pointers. *)
Record Heap := MkHeap {
  max_pointers : Z;
  heap_pointers : Z → bool;
  heap_object : Z → bool;
  heap_buffer : Z → Z → bool;
}.

(** How the constructor can fail. *)
Inductive make_error := AssertionFails | DividesByZero | AllocFails (e : alloc_error).

Section router.
Context {U L : Type} `{!ArenaChain U, !PmrLib L}.
Abbreviation router := (ShardRouter U L).

(** [shards_.push_back(make_unique<Shard>(per_shard))] for the [k] shards from the
    [i]-th on. *)
Fixpoint make_shards (h : Heap) (per_shard i : Z) (k : nat) : result alloc_error (list (Shard U L)) :=
  match k with
  | O => Normal []
  | S k =>
    if heap_object h i then
      match Shard_make (heap_buffer h i) per_shard with
      | Normal s =>
        match make_shards h per_shard (i + 1) k with
        | Normal l => Normal (s :: l)
        | Throw e => Throw e
        end
      | Throw e => Throw e
      end
    else Throw BadAlloc
  end.

(** [shards_.reserve(shard_count)] and the loop. *)
Definition ShardRouter_make (h : Heap) (total_memory shard_count : Z) : result make_error router :=
  if negb (Z.land shard_count (u64 (shard_count - 1)) =? 0) then Throw AssertionFails
  else if shard_count =? 0 then Throw DividesByZero
  else
    let per_shard := Z.quot total_memory shard_count in
    if max_pointers h <? shard_count then Throw (AllocFails LengthError)
    else if negb (heap_pointers h shard_count) then Throw (AllocFails BadAlloc)
    else
      match make_shards h per_shard 0 (Z.to_nat shard_count) with
      | Normal l => Normal (MkRouter shard_count (u64 (shard_count - 1)) l)
      | Throw e => Throw (AllocFails e)
      end.

(** The router when nothing is refused. *)
Definition router_over (total_memory shard_count : Z) : router :=
  MkRouter shard_count (u64 (shard_count - 1))
    (replicate (Z.to_nat shard_count) (shard_over (Z.quot total_memory shard_count))).

Definition shard_index (r : router) (key : string) : Z :=
  Z.land (murmur_hash3 key 0) (shard_mask_ r).

(** [*shards_[shard_index(key)]].  An index out of range is undefined behaviour
    in C++; here it reads an empty shard, and [shard_index_lt] shows that no
    well-formed router gets there. *)
Definition shard_for_key (r : router) (key : string) : Shard U L :=
  default (shard_over 0) (shards_ r !! Z.to_nat (shard_index r key)).

Definition shard_count (r : router) : Z := shard_count_ r.

Definition set_shard (key : string) (r : router) (s : Shard U L) : router :=
  MkRouter (shard_count_ r) (shard_mask_ r) (<[Z.to_nat (shard_index r key) := s]> (shards_ r)).

Definition with_shard {A} (key : string) (m : SE (Shard U L) OomException A) :
    SE router OomException A := λ r,
  let '(a, s) := m (shard_for_key r key) in (a, set_shard key r s).

Definition ShardRouter_set (now : Z) (key value : string) (ttl : Z) : SE router OomException bool :=
  with_shard key (Shard_set now key value ttl).

Definition ShardRouter_get (now : Z) (key : string) (r : router) : option string :=
  Shard_get now key (shard_for_key r key).

Definition ShardRouter_del (key : string) : SE router OomException bool :=
  with_shard key (Shard_del key).

Definition ShardRouter_exists (now : Z) (key : string) (r : router) : bool :=
  Shard_exists now key (shard_for_key r key).

(** The sweeper's access: [shard_for_key(key).evict_expired(key)]. *)
Definition router_evict_expired (now : Z) (key : string) : SE router OomException bool :=
  with_shard key (Shard_evict_expired now key).

Definition router_find (r : router) (key : string) : option CacheAlignedValue :=
  data_ (shard_for_key r key) !! key.

(** ** Well-formed routers *)

Definition router_shape (r : router) : Prop :=
  (∃ p, 0 <= p < 64 ∧ shard_count_ r = 2 ^ p) ∧
  shard_mask_ r = shard_count_ r - 1 ∧
  Z.of_nat (length (shards_ r)) = shard_count_ r.

Definition router_wf (r : router) : Prop :=
  router_shape r ∧ Forall shard_wf (shards_ r).
End router.

Section router_facts.
Context {U L : Type} `{!ArenaChain U, !PmrLib L, !PmrLibOk L}.
Abbreviation router := (ShardRouter U L).
Implicit Types r : router.

Lemma mask_ones p : 2 ^ p - 1 = Z.ones p.
Proof. rewrite Z.ones_equiv. lia. Qed.

(** The mask computes the remainder by the shard count. *)
Lemma shard_index_mod r key :
  router_shape r → shard_index r key = murmur_hash3 key 0 mod shard_count_ r.
Proof.
  intros ((p & Hp & Hc) & Hm & _). unfold shard_index. rewrite Hm, Hc, mask_ones.
  by rewrite Z.land_ones by lia.
Qed.

Lemma shard_index_lt r key : router_shape r → 0 <= shard_index r key < shard_count_ r.
Proof.
  intros Hr. rewrite shard_index_mod by done. destruct Hr as ((p & Hp & ->) & _).
  apply Z.mod_pos_bound. apply Z.pow_pos_nonneg; lia.
Qed.

Lemma shard_index_in_range r key :
  router_shape r → (Z.to_nat (shard_index r key) < length (shards_ r))%nat.
Proof. intros Hr. pose proof (shard_index_lt r key Hr). destruct Hr as (_ & _ & Hl). lia. Qed.

Lemma shard_for_key_lookup r key :
  router_shape r → shards_ r !! Z.to_nat (shard_index r key) = Some (shard_for_key r key).
Proof.
  intros Hr. unfold shard_for_key.
  destruct (lookup_lt_is_Some_2 (shards_ r) (Z.to_nat (shard_index r key))) as [s ->]; [|done].
  by apply shard_index_in_range.
Qed.

Lemma shard_for_key_wf r key : router_wf r → shard_wf (shard_for_key r key).
Proof.
  intros [Hr Hs]. pose proof (shard_for_key_lookup r key Hr) as Hl.
  by eapply (proj1 (Forall_lookup _ _) Hs).
Qed.

Lemma shard_index_set_shard r key key' s : shard_index (set_shard key r s) key' = shard_index r key'.
Proof. unfold shard_index. reflexivity. Qed.

Lemma set_shard_shape key r s : router_shape r → router_shape (set_shard key r s).
Proof. intros (?&?&?). split_and!; [done|done|]. simpl. by rewrite length_insert. Qed.

Lemma set_shard_wf key r s : router_wf r → shard_wf s → router_wf (set_shard key r s).
Proof.
  intros [Hr Hs] Hw. split; [by apply set_shard_shape|].
  by apply Forall_insert.
Qed.

Lemma shard_for_key_set_shard r key key' s :
  router_shape r →
  shard_for_key (set_shard key r s) key' =
  if bool_decide (shard_index r key = shard_index r key') then s else shard_for_key r key'.
Proof.
  intros Hr. unfold shard_for_key at 1. rewrite shard_index_set_shard. unfold set_shard. simpl.
  case_bool_decide as Hi.
  - rewrite <-Hi. rewrite list_lookup_insert_eq; [done|]. by apply shard_index_in_range.
  - rewrite list_lookup_insert_ne; [done|].
    pose proof (shard_index_lt r key Hr). pose proof (shard_index_lt r key' Hr). lia.
Qed.

(** A shard stepped at [key] shows up in the router at [key] only. *)
Lemma router_find_set_shard key r s key' :
  router_shape r → shard_step key (shard_for_key r key) s →
  router_find (set_shard key r s) key' =
  if bool_decide (key = key') then data_ s !! key else router_find r key'.
Proof.
  intros Hr Hm. unfold router_find. rewrite shard_for_key_set_shard by done.
  destruct (decide (key = key')) as [->|Hk]; [by rewrite !bool_decide_eq_true_2|].
  rewrite (bool_decide_eq_false_2 (key = key')) by done.
  case_bool_decide as Hi; [|done].
  destruct Hm as (_ & _ & Hd).
  assert (shard_for_key r key' = shard_for_key r key) as -> by (unfold shard_for_key; by rewrite Hi).
  rewrite <-(lookup_delete_ne (data_ s) key key'), Hd by done. by rewrite lookup_delete_ne.
Qed.

Lemma router_find_with_shard {A} key (m : SE (Shard U L) OomException A) r key' :
  router_shape r → preserves (shard_step key) m →
  router_find (with_shard key m r).2 key' =
  if bool_decide (key = key') then data_ (m (shard_for_key r key)).2 !! key else router_find r key'.
Proof.
  intros Hr Hm. unfold with_shard. specialize (Hm (shard_for_key r key)).
  destruct (m (shard_for_key r key)) as [a s]. by apply router_find_set_shard.
Qed.

Lemma set_shard_step_wf key r s :
  router_wf r → shard_step key (shard_for_key r key) s → router_wf (set_shard key r s).
Proof.
  intros Hr (_ & [_ Hm] & _). apply set_shard_wf; [done|]. by apply Hm, shard_for_key_wf.
Qed.

Lemma with_shard_result {A} key (m : SE (Shard U L) OomException A) r :
  (with_shard key m r).1 = (m (shard_for_key r key)).1.
Proof. unfold with_shard. by destruct (m _). Qed.

Lemma with_shard_wf {A} key (m : SE (Shard U L) OomException A) r :
  router_wf r → preserves (shard_step key) m → router_wf (with_shard key m r).2.
Proof.
  intros Hr Hm. unfold with_shard. specialize (Hm (shard_for_key r key)).
  destruct (m _) as [a s]. by apply set_shard_step_wf.
Qed.

(** The capacities of the shards' arenas. *)
Definition capacities (r : router) : list (Z * Z) :=
  (λ s, (Shard_memory_capacity s, capacity_ (tracker_ (arena_ s)))) <$> shards_ r.

Lemma set_shard_capacities key r s :
  router_shape r → shard_step key (shard_for_key r key) s → capacities (set_shard key r s) = capacities r.
Proof.
  intros Hr (Hc & [Ht _] & _). unfold capacities, set_shard. simpl. rewrite list_fmap_insert.
  apply list_insert_id. rewrite list_lookup_fmap, shard_for_key_lookup by done. simpl.
  unfold Shard_memory_capacity, arena_capacity. by rewrite Hc, Ht.
Qed.

Lemma noexcept_with_shard {A} (d : A) key (m : SE (Shard U L) OomException A) r :
  noexcept d (with_shard key m) r =
  ((noexcept d m (shard_for_key r key)).1, set_shard key r (noexcept d m (shard_for_key r key)).2).
Proof. unfold noexcept, with_shard. by destruct (m _) as [[a|e] s]. Qed.

Lemma land_pred_pow2 n : 0 < n → Z.land n (n - 1) = 0 → n = 2 ^ Z.log2 n.
Proof.
  intros Hn Hl. pose proof (Z.log2_spec n Hn) as [Hlo Hhi].
  destruct (decide (n = 2 ^ Z.log2 n)) as [?|Hne]; [done|]. exfalso.
  pose proof (Z.log2_nonneg n).
  assert (Z.log2 (n - 1) = Z.log2 n) as Hlog.
  { apply Z.log2_unique; [done|]. split; lia. }
  assert (Z.testbit (Z.land n (n - 1)) (Z.log2 n) = true) as Hb.
  { rewrite Z.land_spec, Z.bit_log2 by lia. rewrite <-Hlog, Z.bit_log2; [done|].
    assert (0 < 2 ^ Z.log2 n) by (apply Z.pow_pos_nonneg; lia). lia. }
  by rewrite Hl, Z.bits_0 in Hb.
Qed.

(** The assertion lets pass the powers of two, and zero. *)
Lemma power_of_two_test n :
  is_u64 n → n ≠ 0 → Z.land n (u64 (n - 1)) = 0 ↔ ∃ p, 0 <= p ∧ n = 2 ^ p.
Proof.
  intros [Hn0 Hn] Hz. rewrite u64_small by (split; lia). split.
  - intros E. exists (Z.log2 n). split; [apply Z.log2_nonneg|]. apply land_pred_pow2; [lia|done].
  - intros (p & Hp & ->). assert (0 < 2 ^ p) by (apply Z.pow_pos_nonneg; lia).
    by rewrite mask_ones, Z.land_ones, Z.mod_same by lia.
Qed.

(** The i-th shard can be made. *)
Definition shard_served (h : Heap) (per_shard i : Z) : Prop :=
  heap_object h i = true ∧ per_shard <= max_bytes ∧ (per_shard = 0 ∨ heap_buffer h i per_shard = true) ∧
  chain_built per_shard = true ∧ (shard_in (U := U) (L := L) (arena_over per_shard)).1 = Normal tt.

Lemma Shard_make_Normal (h : Heap) cap i s :
  heap_object h i = true →
  Shard_make (U := U) (L := L) (heap_buffer h i) cap = Normal s ↔ s = shard_over cap ∧ shard_served h cap i.
Proof.
  intros Ho. unfold Shard_make, PmrArena_make, shard_served, shard_over. rewrite Ho.
  destruct (Z.ltb_spec max_bytes cap); [split; [done|intros (_ & _ & ? & _); lia]|].
  destruct (Z.eqb_spec cap 0), (heap_buffer h i cap), (chain_built cap); simpl;
    try (split; [done|intros (_ & _ & _ & [?|?] & ? & _); done]);
    (destruct (shard_in (arena_over cap)) as [[[]|x] s']; simpl;
      [split; [intros [= <-]; split_and!; auto|intros [-> _]; done]|split; [done|naive_solver]]).
Qed.

Lemma Shard_make_length (heap : Z → bool) cap :
  Shard_make (U := U) (L := L) heap cap = Throw LengthError ↔ max_bytes < cap.
Proof.
  unfold Shard_make, PmrArena_make. destruct (Z.ltb_spec max_bytes cap); [done|].
  split; [|lia]. destruct (_ && _); [|done]. by destruct (shard_in _) as [[]].
Qed.

Lemma make_shards_Normal h per i k l :
  make_shards (U := U) (L := L) h per i k = Normal l ↔
  l = replicate k (shard_over per) ∧ ∀ j, i <= j < i + Z.of_nat k → shard_served h per j.
Proof.
  revert i l. induction k as [|k IH]; intros i l.
  - simpl. split; [intros [= <-]; split; [done|lia]|by intros [-> _]].
  - cbn [make_shards replicate]. destruct (heap_object h i) eqn:Ho.
    2:{ split; [done|]. intros [_ H]. destruct (H i) as [? _]; [lia|congruence]. }
    pose proof (Shard_make_Normal h per i) as Hs.
    destruct (Shard_make (heap_buffer h i) per) as [s|e].
    2:{ split; [done|]. intros [_ H]. assert (Throw e = Normal (shard_over per)) as [=]; [|done..].
        apply Hs; [done|]. split; [done|]. apply H. lia. }
    destruct (proj1 (Hs s Ho) eq_refl) as [-> Hi]. split.
    + destruct (make_shards h per (i + 1) k) as [l'|e] eqn:E; [|done]. intros [= <-].
      apply IH in E as [-> H']. split; [done|]. intros j Hj.
      destruct (decide (j = i)) as [->|]; [done|]. apply H'. lia.
    + intros [-> H']. rewrite (proj2 (IH (i + 1) (replicate k (shard_over per)))); [done|].
      split; [done|]. intros j Hj. apply H'. lia.
Qed.

(** A size above the limit is met at the first shard. *)
Lemma make_shards_length h per i k :
  make_shards (U := U) (L := L) h per i k = Throw LengthError ↔ (0 < k)%nat ∧ heap_object h i = true ∧ max_bytes < per.
Proof.
  revert i. induction k as [|k IH]; intros i; [split; [done|lia]|].
  cbn [make_shards]. destruct (heap_object h i); [|split; [done|by intros (_ & ? & _)]].
  pose proof (Shard_make_length (heap_buffer h i) per) as Hl.
  destruct (Shard_make (heap_buffer h i) per) as [s|e].
  - assert (per <= max_bytes). { destruct (decide (max_bytes < per)) as [H|]; [by apply Hl in H|lia]. }
    specialize (IH (i + 1)). destruct (make_shards h per (i + 1) k) as [l'|e]; [split; [done|lia]|].
    split; [|intros (_ & _ & ?); lia]. intros [= ->]. destruct (proj1 IH eq_refl) as (_ & _ & ?). lia.
  - split; [intros [= ->]; split_and!; [lia|done|by apply Hl]|intros (_ & _ & H); by apply Hl in H as [= ->]].
Qed.

(** What the constructor comes to. *)
Lemma ShardRouter_make_Normal h total n r :
  is_u64 n →
  ShardRouter_make (U := U) (L := L) h total n = Normal r ↔
  r = router_over total n ∧ (∃ p, 0 <= p ∧ n = 2 ^ p) ∧ n <= max_pointers h ∧ heap_pointers h n = true ∧
  ∀ i, 0 <= i < n → shard_served h (Z.quot total n) i.
Proof.
  intros Hn. unfold ShardRouter_make. destruct (decide (n = 0)) as [->|Hz].
  { simpl. split; [done|]. intros (_ & (p & Hp & H) & _). pose proof (Z.pow_pos_nonneg 2 p). lia. }
  pose proof (power_of_two_test n Hn Hz) as Ht. rewrite (proj2 (Z.eqb_neq n 0)) by done.
  destruct (Z.eqb_spec (Z.land n (u64 (n - 1))) 0) as [E|E]; simpl.
  2:{ split; [done|]. intros (_ & H & _). by apply Ht in H. }
  destruct (Z.ltb_spec (max_pointers h) n); [split; [done|]; intros (_ & _ & ? & _); lia|].
  destruct (heap_pointers h n); [|split; [done|]; by intros (_ & _ & _ & ? & _)]. simpl.
  pose proof (make_shards_Normal h (Z.quot total n) 0 (Z.to_nat n)) as Hs. destruct Hn.
  destruct (make_shards h (Z.quot total n) 0 (Z.to_nat n)) as [l|e].
  - destruct (proj1 (Hs l) eq_refl) as [-> Hi]. split; [intros [= <-]|intros (-> & _); done].
    split_and!; [done|by apply Ht|done|done|]. intros i Hi'. apply Hi. lia.
  - split; [done|]. intros (_ & _ & _ & _ & Hi). exfalso.
    assert (Throw e = Normal (replicate (Z.to_nat n) (shard_over (Z.quot total n)))) as [=]; [|done..].
    apply Hs. split; [done|]. intros j Hj. apply Hi. lia.
Qed.

Lemma ShardRouter_make_zero h total n :
  is_u64 n → ShardRouter_make (U := U) (L := L) h total n = Throw DividesByZero ↔ n = 0.
Proof.
  intros Hn. unfold ShardRouter_make. destruct (decide (n = 0)) as [->|Hz]; [done|].
  rewrite (proj2 (Z.eqb_neq n 0)) by done. split; [|done].
  destruct (negb _); [done|]. destruct (_ <? _); [done|]. destruct (negb _); [done|]. by destruct (make_shards _ _ _ _).
Qed.

Lemma ShardRouter_make_assertion h total n :
  is_u64 n →
  ShardRouter_make (U := U) (L := L) h total n = Throw AssertionFails ↔ n ≠ 0 ∧ ¬ ∃ p, 0 <= p ∧ n = 2 ^ p.
Proof.
  intros Hn. unfold ShardRouter_make. destruct (decide (n = 0)) as [->|Hz]; [split; [done|by intros [? _]]|].
  rewrite <-(power_of_two_test n Hn Hz), (proj2 (Z.eqb_neq n 0)) by done.
  destruct (Z.eqb_spec (Z.land n (u64 (n - 1))) 0); simpl; [|done]. split; [|by intros [_ ?]].
  destruct (_ <? _); [done|]. destruct (negb _); [done|]. by destruct (make_shards _ _ _ _).
Qed.

Lemma ShardRouter_make_length h total n :
  is_u64 n →
  ShardRouter_make (U := U) (L := L) h total n = Throw (AllocFails LengthError) ↔
  (∃ p, 0 <= p ∧ n = 2 ^ p) ∧
  (max_pointers h < n ∨ heap_pointers h n = true ∧ heap_object h 0 = true ∧ max_bytes < Z.quot total n).
Proof.
  intros Hn. unfold ShardRouter_make. destruct (decide (n = 0)) as [->|Hz].
  { split; [done|]. intros [(p & Hp & H) _]. pose proof (Z.pow_pos_nonneg 2 p). lia. }
  rewrite <-(power_of_two_test n Hn Hz), (proj2 (Z.eqb_neq n 0)) by done. destruct Hn as [Hn0 _].
  destruct (Z.eqb_spec (Z.land n (u64 (n - 1))) 0); simpl; [|by split; [|intros []]].
  destruct (Z.ltb_spec (max_pointers h) n); [split; auto|].
  destruct (heap_pointers h n); simpl; [|split; [done|]; intros [_ [?|[? _]]]; [lia|done]].
  pose proof (make_shards_length h (Z.quot total n) 0 (Z.to_nat n)) as Hl.
  destruct (make_shards h (Z.quot total n) 0 (Z.to_nat n)) as [l|x].
  - split; [done|]. intros [_ [?|(_ & Ho & Hm)]]; [lia|].
    assert (Normal l = Throw LengthError) as [=]; [|done..]. apply Hl. split; [lia|done].
  - split.
    + intros [= ->]. destruct (proj1 Hl eq_refl) as (_ & ? & ?). auto.
    + intros [_ [?|(_ & Ho & Hm)]]; [lia|].
      assert (Hx := proj2 Hl ltac:(split; [lia|done])). by injection Hx as ->.
Qed.

Lemma ShardRouter_make_wf h total n r :
  is_u64 total → is_u64 n → ShardRouter_make (U := U) (L := L) h total n = Normal r → router_wf r.
Proof.
  intros Ht Hn (-> & (p & Hp & Hnp) & _)%ShardRouter_make_Normal; [|done].
  assert (0 < n) by (subst n; apply Z.pow_pos_nonneg; lia). destruct Hn, Ht.
  split; [split_and!|]; simpl.
  - exists p. split; [|done]. split; [done|]. subst n. apply (Z.pow_lt_mono_r_iff 2); lia.
  - apply u64_small. split; lia.
  - rewrite length_replicate. lia.
  - apply Forall_replicate. apply shard_over_new. split.
    + apply Z.quot_pos; lia.
    + apply Z.le_lt_trans with total; [|done]. apply Z.quot_le_upper_bound; nia.
Qed.

Lemma capacities_make h total n r :
  is_u64 n → ShardRouter_make (U := U) (L := L) h total n = Normal r →
  capacities r = replicate (Z.to_nat n) (Z.quot total n, Z.quot total n).
Proof.
  intros Hn (-> & _)%ShardRouter_make_Normal; [|done]. unfold capacities. simpl. rewrite fmap_replicate.
  by destruct (shard_over_new (U := U) (L := L) (Z.quot total n)) as (_ & -> & -> & _).
Qed.

Lemma router_find_make h total n r key :
  is_u64 n → ShardRouter_make (U := U) (L := L) h total n = Normal r → router_find r key = None.
Proof.
  intros Hn (-> & _)%ShardRouter_make_Normal; [|done]. unfold router_find, shard_for_key. simpl.
  assert (Hd : ∀ cap, data_ (shard_over (U := U) (L := L) cap) !! key = None).
  { intros cap. destruct (shard_over_new (U := U) (L := L) cap) as [-> _]. apply lookup_empty. }
  destruct (replicate _ _ !! _) as [s|] eqn:E; [|apply Hd].
  apply lookup_replicate in E as [-> _]. apply Hd.
Qed.
End router_facts.

(** ** The router is a key store *)

#[export] Instance router_key_store {U L} `{!ArenaChain U, !PmrLib L} : KeyStore (ShardRouter U L) := {
  ks_wf := router_wf;
  ks_find := router_find;
  ks_set now k v ttl := noexcept false (ShardRouter_set now k v ttl);
  ks_get := ShardRouter_get;
  ks_del k := noexcept false (ShardRouter_del k);
  ks_exists := ShardRouter_exists;
  ks_evict_expired now k := noexcept false (router_evict_expired now k);
}.

Section router_laws.
Context {U L : Type} `{!ArenaChain U, !PmrLib L, !PmrLibOk L}.
Implicit Types r : ShardRouter U L.

(** The router's laws are the shard's laws at the shard of the key. *)
Lemma router_find_noexcept (k k' : string) (m : SE (Shard U L) OomException bool) r :
  router_wf r → preserves (shard_step k) m →
  router_find (noexcept false (with_shard k m) r).2 k' =
  if bool_decide (k = k') then data_ (noexcept false m (shard_for_key r k)).2 !! k
  else router_find r k'.
Proof.
  intros Hr Hm. rewrite !noexcept_state. apply router_find_with_shard; [by destruct Hr|done].
Qed.

#[export] Instance router_key_store_laws : KeyStoreLaws (ShardRouter U L).
Proof.
  split; simpl; unfold ShardRouter_set, ShardRouter_del, router_evict_expired.
  - intros now k v ttl r k' Hr. rewrite router_find_noexcept by auto using preserves_Shard_set.
    rewrite noexcept_with_shard. simpl.
    pose proof (law_set (S := Shard U L) now k v ttl (shard_for_key r k) k (shard_for_key_wf r k Hr)) as H.
    simpl in H. destruct (decide (k = k')) as [->|Hk].
    + rewrite !bool_decide_eq_true_2 in * by done. by rewrite H.
    + rewrite !bool_decide_eq_false_2 by done. by rewrite andb_false_r.
  - intros now k r. exact (law_get now k (shard_for_key r k)).
  - intros k r. rewrite noexcept_with_shard. exact (law_del_result k (shard_for_key r k)).
  - intros k r k' Hr. rewrite router_find_noexcept by auto using preserves_Shard_del.
    case_bool_decide; [|done].
    pose proof (law_del (S := Shard U L) k (shard_for_key r k) k (shard_for_key_wf r k Hr)) as H'.
    by rewrite bool_decide_eq_true_2 in H'.
  - intros now k r. exact (law_exists now k (shard_for_key r k)).
  - intros now k r. rewrite noexcept_with_shard. exact (law_evict_result now k (shard_for_key r k)).
  - intros now k r k' Hr. rewrite router_find_noexcept by auto using preserves_Shard_evict.
    case_bool_decide; [|done].
    pose proof (law_evict (S := Shard U L) now k (shard_for_key r k) k (shard_for_key_wf r k Hr)) as H'.
    by rewrite bool_decide_eq_true_2 in H'.
  - intros. rewrite noexcept_state. by apply with_shard_wf; [|apply preserves_Shard_set].
  - intros. rewrite noexcept_state. by apply with_shard_wf; [|apply preserves_Shard_del].
  - intros. rewrite noexcept_state. by apply with_shard_wf; [|apply preserves_Shard_evict].
Qed.
End router_laws.
