(* ===== verification/Aof.v ===== *)
(** * The append-only file ([include/daemons/aof_logger.h], [src/daemons/aof_logger.cpp])

    [AofLogger] keeps two buffers: writers append to the active one under the
    mutex, the flush thread swaps the two and writes the other one without it,
    line by line through the output stream.  [disk] is the text of the file and
    [put_area] what the stream was given and has not passed on; the stream may
    pass on any number of bytes before it is flushed ([spill]), so the file can
    end in the middle of a line.

    The first part gives each member function; the second runs the logger, the
    flush thread and [shutdown] as interleaved steps, with the loop over a buffer
    cut at every line and the list of accepted commands as a ghost field. *)

From S2P Require Import Prelude Text.

Record AofLogger := MkAof {
  filepath_ : string;
  disk : string;
  put_area : string;           (* of [file_], an [std::ofstream] *)
  file_open : bool;
  buffer_a_ : list string;
  buffer_b_ : list string;
  active_is_a : bool;          (* active_buffer_ == &buffer_a_ *)
  running_ : bool;
  is_replaying_ : bool;
}.

(** The constructor, over a file that already holds [contents]. *)
Definition AofLogger_make (path contents : string) : AofLogger :=
  MkAof path contents EmptyString false [] [] true false false.

Definition active_buffer (l : AofLogger) : list string :=
  if active_is_a l then buffer_a_ l else buffer_b_ l.
Definition flush_buffer (l : AofLogger) : list string :=
  if active_is_a l then buffer_b_ l else buffer_a_ l.

(** Stores a buffer: [a] says which one. *)
Definition set_buffer (a : bool) (b : list string) (l : AofLogger) : AofLogger :=
  if a then MkAof (filepath_ l) (disk l) (put_area l) (file_open l) b (buffer_b_ l) (active_is_a l) (running_ l) (is_replaying_ l)
  else MkAof (filepath_ l) (disk l) (put_area l) (file_open l) (buffer_a_ l) b (active_is_a l) (running_ l) (is_replaying_ l).

Definition set_file (d p : string) (o : bool) (l : AofLogger) : AofLogger :=
  MkAof (filepath_ l) d p o (buffer_a_ l) (buffer_b_ l) (active_is_a l) (running_ l) (is_replaying_ l).

Definition set_running (r : bool) (l : AofLogger) : AofLogger :=
  MkAof (filepath_ l) (disk l) (put_area l) (file_open l) (buffer_a_ l) (buffer_b_ l) (active_is_a l) r (is_replaying_ l).

Definition log (command : string) (l : AofLogger) : AofLogger :=
  if running_ l then set_buffer (active_is_a l) (active_buffer l ++ [command]) l else l.

(** ** The stream *)

(** [file_ << s]; what is written to a closed stream is lost. *)
Definition put (s : string) (l : AofLogger) : AofLogger :=
  if file_open l then set_file (disk l) (put_area l +:+ s) true l else l.

(** The stream passes on [n] bytes. *)
Definition spill (n : nat) (l : AofLogger) : AofLogger :=
  set_file (disk l +:+ string_take n (put_area l)) (string_drop n (put_area l)) (file_open l) l.

(** [file_.flush()] *)
Definition stream_flush (l : AofLogger) : AofLogger :=
  set_file (disk l +:+ put_area l) EmptyString (file_open l) l.

(** [file_.close()] *)
Definition close (l : AofLogger) : AofLogger := set_file (disk l +:+ put_area l) EmptyString false l.

(** The text of lines. *)
Definition lines_text (cmds : list string) : string :=
  string_concat (map (λ c, c +:+ String LF EmptyString) cmds).

(** [file_ << cmd << "\n"] *)
Definition write_line (l : AofLogger) (cmd : string) : AofLogger := put (String LF EmptyString) (put cmd l).

(** [write_buffer_to_disk(buffer)] on buffer a or b. *)
Definition write_buffer_to_disk (a : bool) (l : AofLogger) : AofLogger :=
  let buffer := if a then buffer_a_ l else buffer_b_ l in
  match buffer with
  | [] => l
  | _ => set_buffer a [] (stream_flush (foldl write_line l buffer))
  end.

Definition flush (l : AofLogger) : AofLogger := write_buffer_to_disk (active_is_a l) l.

(** [std::swap(active_buffer_, flush_buffer_)] *)
Definition swap_buffers (l : AofLogger) : AofLogger :=
  MkAof (filepath_ l) (disk l) (put_area l) (file_open l) (buffer_a_ l) (buffer_b_ l) (negb (active_is_a l))
    (running_ l) (is_replaying_ l).

(** [*flush_buffer_] is written without the mutex. *)
Definition write_flush_buffer (l : AofLogger) : AofLogger :=
  write_buffer_to_disk (negb (active_is_a l)) l.

(** [start()] up to the creation of the thread; [can_open]: the file could be opened. *)
Definition start (can_open : bool) : SE AofLogger runtime_error unit := λ l,
  if can_open then (Normal tt, set_running true (set_file (disk l) EmptyString true l))
  else (Throw (RuntimeError ("Failed to open AOF file: " +:+ filepath_ l)), l).

Definition is_replaying (l : AofLogger) : bool := is_replaying_ l.
Definition set_replaying (v : bool) (l : AofLogger) : AofLogger :=
  MkAof (filepath_ l) (disk l) (put_area l) (file_open l) (buffer_a_ l) (buffer_b_ l) (active_is_a l) (running_ l) v.
Definition filepath (l : AofLogger) : string := filepath_ l.

(** ** The flush thread and [shutdown] *)

(** Where [flush_loop] is: at the loop test, waiting on the condition variable,
    between the swap and the write, in the loop of the write with the lines
    [todo] to go, or returned. *)
Inductive flusher_pc := FTest | FWait | FSwapped | FWriting (todo : list string) | FDone.

(** Where [shutdown] is: not called, past the exchange, past the join, in the loop
    of the final flush, past it, past the close. *)
Inductive shutdown_pc := SNone | SExchanged | SJoined | SWriting (todo : list string) | SFlushed | SClosed.

Record aof_state := AofState {
  logger : AofLogger;
  flusher : flusher_pc;
  shutdown : shutdown_pc;
  accepted : list string;     (* ghost: the commands [log] kept, in order *)
}.

(** The state after [start()] on a logger over [contents]. *)
Definition aof_started (path contents : string) : aof_state :=
  AofState (set_running true (set_file contents EmptyString true (AofLogger_make path contents))) FTest SNone [].

(** [if (buffer.empty()) return], else the loop over the lines of [buffer]. *)
Definition flush_begin (buffer : list string) : flusher_pc :=
  match buffer with [] => FTest | _ => FWriting buffer end.
Definition final_begin (buffer : list string) : shutdown_pc :=
  match buffer with [] => SFlushed | _ => SWriting buffer end.

(** [file_.flush(); buffer.clear()] on buffer a or b *)
Definition finish_write (a : bool) (l : AofLogger) : AofLogger := set_buffer a [] (stream_flush l).

Inductive aof_step : aof_state → aof_state → Prop :=
| step_log cmd l f s acc :
    aof_step (AofState l f s acc)
      (AofState (log cmd l) f s (if running_ l then acc ++ [cmd] else acc))
(** [flush_loop] *)
| step_test l s acc :
    aof_step (AofState l FTest s acc) (AofState l (if running_ l then FWait else FDone) s acc)
| step_swap l s acc :
    aof_step (AofState l FWait s acc) (AofState (swap_buffers l) FSwapped s acc)
| step_write l s acc :
    aof_step (AofState l FSwapped s acc) (AofState l (flush_begin (flush_buffer l)) s acc)
| step_write_line cmd todo l s acc :
    aof_step (AofState l (FWriting (cmd :: todo)) s acc) (AofState (write_line l cmd) (FWriting todo) s acc)
| step_write_end l s acc :
    aof_step (AofState l (FWriting []) s acc) (AofState (finish_write (negb (active_is_a l)) l) FTest s acc)
(** [shutdown] *)
| step_exchange l f acc :
    aof_step (AofState l f SNone acc) (AofState (set_running false l) f SExchanged acc)
| step_join l acc :
    aof_step (AofState l FDone SExchanged acc) (AofState l FDone SJoined acc)
| step_final_flush l f acc :
    aof_step (AofState l f SJoined acc) (AofState l f (final_begin (active_buffer l)) acc)
| step_final_line cmd todo l f acc :
    aof_step (AofState l f (SWriting (cmd :: todo)) acc) (AofState (write_line l cmd) f (SWriting todo) acc)
| step_final_end l f acc :
    aof_step (AofState l f (SWriting []) acc) (AofState (finish_write (active_is_a l) l) f SFlushed acc)
| step_close l f acc :
    aof_step (AofState l f SFlushed acc) (AofState (close l) f SClosed acc)
(** the stream, at any time *)
| step_spill n l f s acc :
    aof_step (AofState l f s acc) (AofState (spill n l) f s acc).

(** The stream writes [n] bytes. *)
Definition spill_aof (n : nat) (st : aof_state) : aof_state :=
  AofState (spill n (logger st)) (flusher st) (shutdown st) (accepted st).

Lemma spill_step n st : aof_step st (spill_aof n st).
Proof. destruct st. apply step_spill. Qed.

(** ** Lemmas on the buffers *)

Lemma lines_text_app a b : lines_text (a ++ b) = lines_text a +:+ lines_text b.
Proof. unfold lines_text. by rewrite map_app, string_concat_app. Qed.

Lemma active_set_buffer b l : active_buffer (set_buffer (active_is_a l) b l) = b.
Proof. unfold active_buffer. by destruct l as [? ? ? ? ? ? [] ? ?]. Qed.

Lemma flush_set_buffer b l : flush_buffer (set_buffer (active_is_a l) b l) = flush_buffer l.
Proof. unfold flush_buffer. by destruct l as [? ? ? ? ? ? [] ? ?]. Qed.

(** What [log] leaves alone. *)
Lemma log_frame cmd l :
  flush_buffer (log cmd l) = flush_buffer l ∧ running_ (log cmd l) = running_ l ∧
  file_open (log cmd l) = file_open l ∧ disk (log cmd l) = disk l ∧ put_area (log cmd l) = put_area l ∧
  (running_ l = false → log cmd l = l).
Proof. unfold log. destruct l as [? ? ? ? ? ? [] [] ?]; by split_and!. Qed.

(** A line that is written goes to the stream, and nothing else changes. *)
Lemma write_line_open l cmd :
  file_open l = true → write_line l cmd = set_file (disk l) (put_area l +:+ lines_text [cmd]) true l.
Proof.
  intros Ho. unfold write_line, put. rewrite Ho. simpl. unfold lines_text. simpl. by autorewrite with str.
Qed.

Lemma write_line_frame l cmd :
  active_is_a (write_line l cmd) = active_is_a l ∧ file_open (write_line l cmd) = file_open l ∧
  disk (write_line l cmd) = disk l ∧ active_buffer (write_line l cmd) = active_buffer l ∧
  flush_buffer (write_line l cmd) = flush_buffer l ∧ running_ (write_line l cmd) = running_ l ∧
  is_replaying_ (write_line l cmd) = is_replaying_ l.
Proof. unfold write_line, put. by destruct l as [? ? ? [] ? ? ? ? ?]. Qed.

Lemma write_lines_frame lines l : active_is_a (foldl write_line l lines) = active_is_a l.
Proof.
  revert l. induction lines as [|c lines IH]; intros l; [done|]. simpl. rewrite IH. apply write_line_frame.
Qed.

Lemma write_lines_open lines l :
  file_open l = true → foldl write_line l lines = set_file (disk l) (put_area l +:+ lines_text lines) true l.
Proof.
  revert l. induction lines as [|c lines IH]; intros l Ho; simpl.
  - unfold lines_text. simpl. rewrite string_app_nil_r. destruct l. simpl in Ho. by subst.
  - rewrite write_line_open, IH by done. unfold set_file. simpl. f_equal.
    by rewrite <-string_app_assoc, <-lines_text_app.
Qed.

(** What a whole write leaves, on a stream that holds nothing. *)
Lemma write_buffer_to_disk_text a l :
  file_open l = true → put_area l = EmptyString →
  disk (write_buffer_to_disk a l) = disk l +:+ lines_text (if a then buffer_a_ l else buffer_b_ l) ∧
  put_area (write_buffer_to_disk a l) = EmptyString ∧
  (if a then buffer_a_ else buffer_b_) (write_buffer_to_disk a l) = [].
Proof.
  intros Ho Hp. unfold write_buffer_to_disk. destruct a;
    [destruct (buffer_a_ l) as [|c b] eqn:E|destruct (buffer_b_ l) as [|c b] eqn:E]; simpl;
    rewrite ?Hp, ?E, ?string_app_nil_r; try (by split_and!);
    rewrite write_lines_open, write_line_open by (rewrite ?write_line_open; done); simpl;
    rewrite Hp, <-string_app_assoc, <-lines_text_app; by split_and!.
Qed.

(** ** The steps of a write make up [write_buffer_to_disk] *)

Lemma write_loop_steps todo l s acc :
  rtc aof_step (AofState l (FWriting todo) s acc) (AofState (foldl write_line l todo) (FWriting []) s acc).
Proof.
  revert l. induction todo as [|c todo IH]; intros l; [apply rtc_refl|].
  eapply rtc_l; [apply step_write_line|apply IH].
Qed.

Lemma write_steps l s acc :
  rtc aof_step (AofState l FSwapped s acc) (AofState (write_flush_buffer l) FTest s acc).
Proof.
  eapply rtc_l; [apply step_write|]. unfold flush_begin, write_flush_buffer, write_buffer_to_disk.
  fold (flush_buffer l). replace (if negb (active_is_a l) then buffer_a_ l else buffer_b_ l) with (flush_buffer l)
    by (unfold flush_buffer; by destruct (active_is_a l)).
  destruct (flush_buffer l) as [|c b] eqn:E; [apply rtc_refl|].
  etrans; [apply write_loop_steps|]. apply rtc_once.
  pose proof (step_write_end (foldl write_line l (c :: b)) s acc) as H. by rewrite write_lines_frame in H.
Qed.

Lemma final_loop_steps todo l f acc :
  rtc aof_step (AofState l f (SWriting todo) acc) (AofState (foldl write_line l todo) f (SWriting []) acc).
Proof.
  revert l. induction todo as [|c todo IH]; intros l; [apply rtc_refl|].
  eapply rtc_l; [apply step_final_line|apply IH].
Qed.

Lemma final_steps l f acc :
  rtc aof_step (AofState l f SJoined acc) (AofState (flush l) f SFlushed acc).
Proof.
  eapply rtc_l; [apply step_final_flush|]. unfold final_begin, flush, write_buffer_to_disk. fold (active_buffer l).
  destruct (active_buffer l) as [|c b] eqn:E; [apply rtc_refl|].
  etrans; [apply final_loop_steps|]. apply rtc_once.
  pose proof (step_final_end (foldl write_line l (c :: b)) f acc) as H. by rewrite write_lines_frame in H.
Qed.

(** ** The invariant *)

(** What was accepted and is in one of the two buffers. *)
Definition pending (l : AofLogger) : list string := flush_buffer l ++ active_buffer l.

(** The pending lines that the stream has not been given yet. *)
Definition unwritten (st : aof_state) : list string :=
  match flusher st, shutdown st with
  | FWriting todo, _ => todo ++ active_buffer (logger st)
  | _, SWriting todo => todo
  | _, _ => pending (logger st)
  end.

(** Everything accepted is on disk or pending.  Of the pending lines the first,
    [passed], were given to the stream, which has written [part] of their text. *)
Definition lines_inv (contents : string) (st : aof_state) : Prop :=
  ∃ written passed part, accepted st = written ++ pending (logger st) ∧
    pending (logger st) = passed ++ unwritten st ∧
    disk (logger st) = contents +:+ lines_text written +:+ part ∧
    part +:+ put_area (logger st) = lines_text passed.

Record aof_inv (contents : string) (st : aof_state) : Prop := {
  inv_lines : lines_inv contents st;
  inv_flushed : match flusher st with FSwapped | FWriting _ => True | _ => flush_buffer (logger st) = [] end;
  inv_done : flusher st = FDone → shutdown st ≠ SNone;
  inv_joined : match shutdown st with SNone | SExchanged => True | _ => flusher st = FDone end;
  inv_running : running_ (logger st) = true ↔ shutdown st = SNone;
  inv_open : shutdown st ≠ SClosed → file_open (logger st) = true;
  inv_empty : match shutdown st with SFlushed | SClosed => active_buffer (logger st) = [] | _ => True end;
}.

(** No write is in progress. *)
Definition idle (st : aof_state) : Prop :=
  match flusher st, shutdown st with FWriting _, _ | _, SWriting _ => False | _, _ => True end.

(** Then the stream holds nothing and the file ends with a whole line. *)
Lemma lines_inv_idle contents st :
  idle st → lines_inv contents st ↔
  put_area (logger st) = EmptyString ∧
  ∃ written, accepted st = written ++ pending (logger st) ∧ disk (logger st) = contents +:+ lines_text written.
Proof.
  intros Hi. unfold lines_inv. assert (unwritten st = pending (logger st)) as ->.
  { unfold idle, unwritten in *. by destruct (flusher st), (shutdown st). }
  split.
  - intros (w & p & part & Ha & Hp & Hd & Hs). symmetry in Hp.
    assert (p = []) as ->.
    { apply (f_equal length) in Hp. rewrite length_app in Hp. destruct p; [done|simpl in Hp; lia]. }
    apply string_app_nil_inv in Hs as [-> ->]. split; [done|]. exists w. by rewrite string_app_nil_r in Hd.
  - intros (Hs & w & Ha & Hd). exists w, [], EmptyString. rewrite Hs, string_app_nil_r. by split_and!.
Qed.

Lemma pending_log cmd l : running_ l = true → pending (log cmd l) = pending l ++ [cmd].
Proof.
  intros Hr. unfold log, pending. rewrite Hr, active_set_buffer, flush_set_buffer.
  by rewrite app_assoc.
Qed.

Lemma active_log cmd l : running_ l = true → active_buffer (log cmd l) = active_buffer l ++ [cmd].
Proof. intros Hr. unfold log. by rewrite Hr, active_set_buffer. Qed.

Lemma aof_inv_started path contents : aof_inv contents (aof_started path contents).
Proof.
  split; simpl; try done. apply lines_inv_idle; [done|]. split; [done|]. exists [].
  split; [done|]. symmetry. apply string_app_nil_r.
Qed.

(** ** The invariant is kept by every step *)

Lemma swap_frame l :
  disk (swap_buffers l) = disk l ∧ put_area (swap_buffers l) = put_area l ∧
  flush_buffer (swap_buffers l) = active_buffer l ∧
  active_buffer (swap_buffers l) = flush_buffer l ∧ running_ (swap_buffers l) = running_ l ∧
  file_open (swap_buffers l) = file_open l.
Proof. by destruct l as [? ? ? ? ? ? [] ? ?]. Qed.

Lemma lines_inv_log contents cmd l f s acc :
  (running_ l = true → s = SNone) →
  lines_inv contents (AofState l f s acc) →
  lines_inv contents (AofState (log cmd l) f s (if running_ l then acc ++ [cmd] else acc)).
Proof.
  intros Hs (w & p & part & Ha & Hp & Hd & Hpart). simpl in *.
  destruct (log_frame cmd l) as (_ & _ & _ & Hd' & Hp' & Hsame).
  destruct (running_ l) eqn:Hr.
  - rewrite (Hs eq_refl) in *. exists w, p, part. simpl. rewrite Hd', Hp', pending_log, Ha by done.
    split_and!; [by rewrite app_assoc| |done|done].
    rewrite Hp. unfold unwritten. simpl. rewrite pending_log, active_log by done.
    destruct f; by rewrite <-?app_assoc.
  - rewrite Hsame by done. by exists w, p, part.
Qed.

Lemma aof_inv_log contents cmd l f s acc :
  aof_inv contents (AofState l f s acc) →
  aof_inv contents (AofState (log cmd l) f s (if running_ l then acc ++ [cmd] else acc)).
Proof.
  intros [Ht Hf Hd Hj Hr Ho He]. simpl in *.
  pose proof (lines_inv_log contents cmd l f s acc (proj1 Hr) Ht) as Ht'.
  destruct (log_frame cmd l) as (H1 & H2 & H3 & _ & _ & H4).
  split; simpl; rewrite ?H1, ?H2, ?H3; try done.
  destruct s; try done; (rewrite H4; [done|]; by destruct (running_ l); [discriminate (proj1 Hr eq_refl)|]).
Qed.

(** The line at the head of the loop is given to the stream. *)
Lemma lines_inv_line contents l f f' s s' acc cmd :
  file_open l = true →
  unwritten (AofState l f s acc) = cmd :: unwritten (AofState (write_line l cmd) f' s' acc) →
  lines_inv contents (AofState l f s acc) → lines_inv contents (AofState (write_line l cmd) f' s' acc).
Proof.
  intros Ho Hu (w & p & part & Ha & Hp & Hd & Hpart). simpl in *. rewrite Hu in Hp.
  destruct (write_line_frame l cmd) as (_ & _ & Hd' & Ha' & Hf' & _).
  exists w, (p ++ [cmd]), part. simpl. rewrite Hd'. unfold pending in *. rewrite Ha', Hf'.
  split_and!; [done|by rewrite <-app_assoc|done|].
  rewrite write_line_open by done. simpl. by rewrite string_app_assoc, Hpart, <-lines_text_app.
Qed.

(** The end of a write: all the lines of the buffer are in the file. *)
Lemma lines_inv_end contents l l' f f' s s' acc p rest :
  disk l' = disk l +:+ put_area l → put_area l' = EmptyString →
  pending l = p ++ rest → pending l' = rest → unwritten (AofState l f s acc) = rest →
  idle (AofState l' f' s' acc) →
  lines_inv contents (AofState l f s acc) → lines_inv contents (AofState l' f' s' acc).
Proof.
  intros Hd' Hp' Hl Hl' Hu Hi (w & q & part & Ha & Hq & Hd & Hpart). simpl in *.
  rewrite Hu, Hl in Hq. apply app_inv_tail in Hq as <-.
  apply lines_inv_idle; [done|]. simpl. split; [done|]. exists (w ++ p).
  rewrite Hd', Hd, Hl', Ha, Hl, lines_text_app, <-Hpart. split; [by rewrite app_assoc|].
  by rewrite !string_app_assoc.
Qed.

Lemma lines_inv_spill contents n l f s acc :
  lines_inv contents (AofState l f s acc) → lines_inv contents (AofState (spill n l) f s acc).
Proof.
  intros (w & p & part & Ha & Hp & Hd & Hpart). simpl in *.
  exists w, p, (part +:+ string_take n (put_area l)). simpl.
  split_and!; [done|done| |]; rewrite ?Hd, <-?string_app_assoc; [done|]. by rewrite string_take_drop.
Qed.

(** A step that only moves a thread. *)
Lemma lines_inv_idle_move contents l l' f f' s s' acc :
  idle (AofState l f s acc) → idle (AofState l' f' s' acc) →
  disk l' = disk l → put_area l' = put_area l → pending l' = pending l →
  lines_inv contents (AofState l f s acc) → lines_inv contents (AofState l' f' s' acc).
Proof. intros Hi Hi' Hd Hp Hl. rewrite !lines_inv_idle by done. simpl. by rewrite Hd, Hp, Hl. Qed.

Lemma lines_inv_move contents l f f' s s' acc :
  unwritten (AofState l f' s' acc) = unwritten (AofState l f s acc) →
  lines_inv contents (AofState l f s acc) → lines_inv contents (AofState l f' s' acc).
Proof. intros Hu (w & p & part & ?). exists w, p, part. simpl in *. by rewrite Hu. Qed.

Lemma flush_finish l : flush_buffer (finish_write (negb (active_is_a l)) l) = [] ∧
  active_buffer (finish_write (negb (active_is_a l)) l) = active_buffer l.
Proof. by destruct l as [? ? ? ? ? ? [] ? ?]. Qed.

Lemma active_finish l : active_buffer (finish_write (active_is_a l) l) = [] ∧
  flush_buffer (finish_write (active_is_a l) l) = flush_buffer l.
Proof. by destruct l as [? ? ? ? ? ? [] ? ?]. Qed.

Lemma finish_frame a l :
  disk (finish_write a l) = disk l +:+ put_area l ∧ put_area (finish_write a l) = EmptyString ∧
  running_ (finish_write a l) = running_ l ∧ file_open (finish_write a l) = file_open l ∧
  is_replaying_ (finish_write a l) = is_replaying_ l.
Proof. by destruct a. Qed.

(** While the flush thread has not returned, [shutdown] has not got to its write. *)
Lemma not_joined f s :
  match s with SNone | SExchanged => True | _ => f = FDone end → f ≠ FDone → s = SNone ∨ s = SExchanged.
Proof. destruct s; auto; congruence. Qed.

Lemma aof_inv_test contents l s acc :
  aof_inv contents (AofState l FTest s acc) →
  aof_inv contents (AofState l (if running_ l then FWait else FDone) s acc).
Proof.
  intros [Ht Hf Hd Hj Hr Ho He]. simpl in *. destruct (not_joined _ _ Hj) as [-> | ->]; [done|..];
    split; simpl; try done; try (by destruct (running_ l)).
  rewrite (proj2 Hr eq_refl). done.
Qed.

Lemma aof_inv_swap contents l s acc :
  aof_inv contents (AofState l FWait s acc) → aof_inv contents (AofState (swap_buffers l) FSwapped s acc).
Proof.
  intros [Ht Hf Hd Hj Hr Ho He]. simpl in *. destruct (swap_frame l) as (H1 & H2 & H3 & H4 & H5 & H6).
  assert (pending (swap_buffers l) = pending l) as Hp.
  { unfold pending. by rewrite H3, H4, Hf, app_nil_r. }
  destruct (not_joined _ _ Hj) as [-> | ->]; [done|..]; split; simpl; rewrite ?H5, ?H6; try done;
    by refine (lines_inv_idle_move _ l _ FWait _ _ _ _ _ _ _ _ _ Ht).
Qed.

Lemma aof_inv_begin contents l s acc :
  aof_inv contents (AofState l FSwapped s acc) →
  aof_inv contents (AofState l (flush_begin (flush_buffer l)) s acc).
Proof.
  intros [Ht Hf Hd Hj Hr Ho He]. simpl in *. unfold flush_begin.
  destruct (not_joined _ _ Hj) as [-> | ->]; [done|..]; split; simpl; try done;
    try (by destruct (flush_buffer l)); refine (lines_inv_move _ _ _ _ _ _ _ _ Ht);
    unfold unwritten, pending; simpl; by destruct (flush_buffer l).
Qed.

Lemma aof_inv_line contents cmd todo l s acc :
  aof_inv contents (AofState l (FWriting (cmd :: todo)) s acc) →
  aof_inv contents (AofState (write_line l cmd) (FWriting todo) s acc).
Proof.
  intros [Ht Hf Hd Hj Hr Ho He]. simpl in *. destruct (write_line_frame l cmd) as (_ & H2 & _ & H4 & H5 & H6 & _).
  destruct (not_joined _ _ Hj) as [-> | ->]; [done|..]; split; simpl; rewrite ?H2, ?H6; try done;
    (eapply lines_inv_line; [by apply Ho| |exact Ht]); unfold unwritten; simpl; by rewrite H4.
Qed.

Lemma aof_inv_end contents l s acc :
  aof_inv contents (AofState l (FWriting []) s acc) →
  aof_inv contents (AofState (finish_write (negb (active_is_a l)) l) FTest s acc).
Proof.
  intros [Ht Hf Hd Hj Hr Ho He]. simpl in *.
  destruct (flush_finish l) as [H1 H2], (finish_frame (negb (active_is_a l)) l) as (H3 & H4 & H5 & H6 & _).
  destruct (not_joined _ _ Hj) as [-> | ->]; [done|..]; split; simpl; rewrite ?H5, ?H6; try done;
    (eapply (lines_inv_end _ l _ (FWriting []) _ _ _ _ (flush_buffer l) (active_buffer l)); try done;
     unfold pending; by rewrite H1, H2).
Qed.

Lemma aof_inv_exchange contents l f acc :
  aof_inv contents (AofState l f SNone acc) → aof_inv contents (AofState (set_running false l) f SExchanged acc).
Proof.
  intros [(w & p & part & Ht) Hf Hd Hj Hr Ho He]. simpl in *. split; simpl; try done; try (by apply Ho).
  - exists w, p, part. destruct Ht as (? & Hp & ? & ?). split_and!; [done| |done|done]. simpl in *.
    by destruct f.
  - intros _. by apply Ho.
Qed.

(** The final flush, by then the flush thread has returned. *)
Lemma aof_inv_final contents l f acc :
  aof_inv contents (AofState l f SJoined acc) →
  aof_inv contents (AofState l f (final_begin (active_buffer l)) acc).
Proof.
  intros [Ht Hf Hd Hj Hr Ho He]. simpl in *. subst f.
  assert (Hu : unwritten (AofState l FDone (final_begin (active_buffer l)) acc) = unwritten (AofState l FDone SJoined acc)).
  { unfold unwritten, pending. simpl. rewrite Hf. by destruct (active_buffer l). }
  pose proof (lines_inv_move _ _ _ _ _ _ _ Hu Ht) as Ht'. unfold final_begin in *.
  assert (running_ l = false) as Hrun by (destruct (running_ l); [by discriminate (proj1 Hr eq_refl)|done]).
  specialize (Ho ltac:(done)). destruct (active_buffer l) as [|c b] eqn:E; split; simpl; rewrite ?Hrun; try done.
Qed.

Lemma aof_inv_final_line contents cmd todo l f acc :
  aof_inv contents (AofState l f (SWriting (cmd :: todo)) acc) →
  aof_inv contents (AofState (write_line l cmd) f (SWriting todo) acc).
Proof.
  intros [Ht Hf Hd Hj Hr Ho He]. simpl in *. subst f.
  destruct (write_line_frame l cmd) as (_ & H2 & _ & H4 & H5 & H6 & _).
  specialize (Ho ltac:(done)).
  split; simpl; rewrite ?H2, ?H5, ?H6; try done; [by refine (lines_inv_line _ _ _ _ _ _ _ _ Ho _ Ht)|].
  split; intros H; [by discriminate (proj1 Hr H)|done].
Qed.

Lemma aof_inv_final_end contents l f acc :
  aof_inv contents (AofState l f (SWriting []) acc) →
  aof_inv contents (AofState (finish_write (active_is_a l) l) f SFlushed acc).
Proof.
  intros [Ht Hf Hd Hj Hr Ho He]. simpl in *. subst f.
  destruct (active_finish l) as [H1 H2], (finish_frame (active_is_a l) l) as (H3 & H4 & H5 & H6 & _).
  specialize (Ho ltac:(done)).
  split; simpl; rewrite ?H1, ?H2, ?H5, ?H6; try done; [|split; intros H; [by discriminate (proj1 Hr H)|done]].
  eapply (lines_inv_end _ l _ FDone _ (SWriting []) _ _ (active_buffer l) []); try done; unfold pending;
    by rewrite ?H1, ?H2, Hf, ?app_nil_r.
Qed.

Lemma aof_step_inv contents st st' : aof_step st st' → aof_inv contents st → aof_inv contents st'.
Proof.
  destruct 1 as [| | | | | | |l acc| | | |l f acc|n l f s acc];
    auto using aof_inv_log, aof_inv_test, aof_inv_swap, aof_inv_begin, aof_inv_line, aof_inv_end, aof_inv_exchange,
      aof_inv_final, aof_inv_final_line, aof_inv_final_end; intros [Ht Hf Hd Hj Hr Ho He]; simpl in *.
  - specialize (Ho ltac:(done)). split; simpl; try done. split; intros H; [by discriminate (proj1 Hr H)|done].
  - subst f. split; simpl; try done; [|split; intros H; [by discriminate (proj1 Hr H)|done]].
    apply lines_inv_idle in Ht as (Hp & w & ? & Hw); [|done]. apply lines_inv_idle; [done|]. simpl in *.
    rewrite Hp, string_app_nil_r. split; [done|]. by exists w.
  - split; simpl; try done. by apply lines_inv_spill.
Qed.

Lemma aof_reachable_inv path contents st :
  rtc aof_step (aof_started path contents) st → aof_inv contents st.
Proof.
  intros H. eapply rtc_invariant; [|exact H|apply aof_inv_started]. apply aof_step_inv.
Qed.

(** ** What the file holds *)

(** [torn] is the beginning of the first of [lines], or nothing. *)
Definition cut_line (torn : string) (lines : list string) : Prop :=
  torn = EmptyString ∨
  ∃ line rest more, lines = line :: rest ∧ more ≠ EmptyString ∧ line +:+ String LF EmptyString = torn +:+ more.

(** The file holds what it held at the start, then the first [k] of the lines
    accepted and at most a part of the next one; the lines it does not hold whole
    are still in the buffers.  While no write is in progress there is no part. *)
Definition file_holds (contents : string) (st : aof_state) : Prop :=
  ∃ k torn, disk (logger st) = contents +:+ lines_text (take k (accepted st)) +:+ torn ∧
    cut_line torn (drop k (accepted st)) ∧ drop k (accepted st) `suffix_of` pending (logger st) ∧
    (idle st → torn = EmptyString ∧ drop k (accepted st) = pending (logger st)).

Lemma cut_line_app torn a b : cut_line torn a → cut_line torn (a ++ b).
Proof. intros [|(line & rest & more & -> & H)]; [by left|right]. by exists line, (rest ++ b), more. Qed.

Lemma string_app_eq_app (a b c d : string) :
  a +:+ b = c +:+ d →
  (∃ t, a = c +:+ t ∧ t +:+ b = d) ∨ (∃ more, more ≠ EmptyString ∧ c = a +:+ more).
Proof.
  revert c. induction a as [|x a IH]; intros [|y c] H.
  - left. by exists EmptyString.
  - right. by exists (String y c).
  - left. by exists (String x a).
  - rewrite !string_app_cons in H. injection H as -> H.
    destruct (IH c H) as [(t & -> & ?)|(more & ? & ->)]; [left; exists t|right; exists more]; done.
Qed.

Lemma cut_lines part s lines :
  part +:+ s = lines_text lines →
  ∃ k torn, part = lines_text (take k lines) +:+ torn ∧ cut_line torn (drop k lines) ∧ (k <= length lines)%nat.
Proof.
  revert part. induction lines as [|line lines IH]; intros part H.
  { apply string_app_nil_inv in H as [-> _]. exists 0%nat, EmptyString. split_and!; [done|by left|simpl; lia]. }
  change (lines_text (line :: lines)) with ((line +:+ String LF EmptyString) +:+ lines_text lines) in H.
  apply string_app_eq_app in H as [(t & -> & H)|(more & Hm & H)].
  - destruct (IH t H) as (k & torn & -> & Hc & Hk). exists (S k), torn. simpl. split_and!; [|done|lia].
    unfold lines_text. simpl. by rewrite !string_app_assoc.
  - exists 0%nat, part. split_and!; [done| |simpl; lia]. right. by exists line, lines, more.
Qed.

Lemma aof_file_holds contents st : aof_inv contents st → file_holds contents st.
Proof.
  intros [Ht _ _ _ _ _ _]. destruct (decide (pending (logger st) = unwritten st)) as [Hu|Hu].
  - destruct Ht as (w & p & part & Ha & Hp & Hd & Hpart). rewrite <-Hu in Hp. symmetry in Hp.
    assert (p = []) as ->.
    { apply (f_equal length) in Hp. rewrite length_app in Hp. destruct p; [done|simpl in Hp; lia]. }
    apply string_app_nil_inv in Hpart as [-> _]. exists (length w), EmptyString.
    rewrite Ha, take_app_length, drop_app_length. split_and!; [done|by left|done|done].
  - assert (Hi : ¬ idle st).
    { intros Hi. apply Hu. unfold idle, unwritten in *. by destruct (flusher st), (shutdown st). }
    destruct Ht as (w & p & part & Ha & Hp & Hd & Hpart).
    destruct (cut_lines part _ p Hpart) as (k & torn & -> & Hc & Hk).
    exists (length w + k)%nat, torn. rewrite Hd, Ha, take_app_add, drop_app_add, lines_text_app, Hp.
    rewrite take_app_le, drop_app_le by done. rewrite <-!string_app_assoc. split_and!; [done|by apply cut_line_app| |done].
    exists (take k p). by rewrite app_assoc, take_drop.
Qed.
