(* ===== verification/Command.v ===== *)
(** * Commands ([include/core/command.h], [src/core/command.cpp])

    The nine commands, their execution against the router and the append-only
    file, their serialized form, and the factory that parses a token list. *)

From S2P Require Import Prelude MachineInt Text Resp Pmr Value KeyStore Shard Router Aof.

Local Open Scope Z_scope.

Inductive ICommand :=
| SetCommand (key value : string) (ttl : Z)
| GetCommand (key : string)
| DelCommand (key : string)
| ExistsCommand (key : string)
| PingCommand
| LPushCommand (key value : string) (ttl : Z)
| LRangeCommand (key : string) (start stop : Z)
| HSetCommand (key field value : string) (ttl : Z)
| HGetCommand (key field : string).

#[export] Instance ICommand_eq_dec : EqDecision ICommand.
Proof. solve_decision. Defined.

Definition is_write (c : ICommand) : bool :=
  match c with
  | SetCommand _ _ _ | DelCommand _ | LPushCommand _ _ _ | HSetCommand _ _ _ _ => true
  | _ => false
  end.

Definition serialize (c : ICommand) : string :=
  match c with
  | SetCommand key value ttl => "SET " +:+ key +:+ " " +:+ value +:+ " " +:+ to_string ttl
  | GetCommand key => "GET " +:+ key
  | DelCommand key => "DEL " +:+ key
  | ExistsCommand key => "EXISTS " +:+ key
  | PingCommand => "PING"
  | LPushCommand key value _ => "LPUSH " +:+ key +:+ " " +:+ value
  | LRangeCommand key start stop =>
    "LRANGE " +:+ key +:+ " " +:+ to_string start +:+ " " +:+ to_string stop
  | HSetCommand key field value _ => "HSET " +:+ key +:+ " " +:+ field +:+ " " +:+ value
  | HGetCommand key field => "HGET " +:+ key +:+ " " +:+ field
  end.

(** ** The factory *)

(** [tokens[i]]; every use is guarded by a test of [tokens.size()]. *)
Definition token (tokens : list string) (i : nat) : string := default EmptyString (tokens !! i).

Definition CommandFactory_parse (tokens : list string) : option ICommand :=
  let n := length tokens in
  let tok := token tokens in
  if (n =? 0)%nat then None
  else
    let cmd := to_upper (tok 0%nat) in
    let cmd_is name k := String.eqb cmd name && (k <=? n)%nat in
    if cmd_is "SET" 3%nat then
      let ttl := if (4 <=? n)%nat then default default_ttl (stoll (tok 3%nat)) else default_ttl in
      Some (SetCommand (tok 1%nat) (tok 2%nat) ttl)
    else if cmd_is "GET" 2%nat then Some (GetCommand (tok 1%nat))
    else if cmd_is "DEL" 2%nat then Some (DelCommand (tok 1%nat))
    else if cmd_is "EXISTS" 2%nat then Some (ExistsCommand (tok 1%nat))
    else if String.eqb cmd "PING" then Some PingCommand
    else if cmd_is "LPUSH" 3%nat then Some (LPushCommand (tok 1%nat) (tok 2%nat) default_ttl)
    else if cmd_is "LRANGE" 4%nat then
      start ← stoll (tok 2%nat); stop ← stoll (tok 3%nat);
      Some (LRangeCommand (tok 1%nat) start stop)
    else if cmd_is "HSET" 4%nat then Some (HSetCommand (tok 1%nat) (tok 2%nat) (tok 3%nat) default_ttl)
    else if cmd_is "HGET" 3%nat then Some (HGetCommand (tok 1%nat) (tok 2%nat))
    else None.

(** ** Execution *)

Definition oom_reply : string :=
  "-ERR OOM command not allowed when used memory > 'maxmemory'" +:+ crlf.
Definition wrongtype_reply : string :=
  "-WRONGTYPE Operation against a key holding the wrong kind of value" +:+ crlf.
Definition int_reply (z : Z) : string := ":" +:+ to_string z +:+ crlf.
Definition nil_reply : string := "$-1" +:+ crlf.
Definition bulk_reply (s : string) : string :=
  "$" +:+ to_string (str_size s) +:+ crlf +:+ s +:+ crlf.

Record Env (U L : Type) := MkEnv {
  router : ShardRouter U L;
  aof : option AofLogger;        (* the pointer may be null *)
}.
Arguments MkEnv {U L} _ _.
Arguments router {U L} _.
Arguments aof {U L} _.

(** [if (aof && !aof->is_replaying()) aof->log(line)] *)
Definition aof_log (line : string) (a : option AofLogger) : option AofLogger :=
  match a with
  | Some l => if negb (is_replaying l) then Some (log line l) else a
  | None => None
  end.

(** [entry.data] replaced in place, as [emplace_back] and [hash[f] = v] do. *)
Definition set_data (v : ValueVariant) (e : CacheAlignedValue) : CacheAlignedValue :=
  CAV v (created_at e) (last_accessed e) (ttl_seconds e) (tombstoned e).

Section execute.
Context {U L : Type} `{!ArenaChain U, !PmrLib L}.
Abbreviation env := (Env U L).

(** The commands that lock a shard themselves work on that shard and the logger. *)
Abbreviation locked := (Shard U L * option AofLogger)%type.

Definition on_shard {A} (m : SE (Shard U L) OomException A) : SE locked OomException A :=
  λ '(s, a), let '(r, s') := m s in (r, (s', a)).

Definition write_log (line : string) : SE locked OomException unit :=
  λ '(s, a), (Normal tt, (s, aof_log line a)).

Definition scoped_locked {A} (m : SE locked OomException A) : SE locked OomException A :=
  λ p, let '(r, p') := m p in (r, (on_shard (lib_noexcept ScopeExit) p').2).

Definition with_locked {A} (key : string) (m : SE locked OomException A) : SE env OomException A :=
  λ e, let '(r, (s, a)) := m (shard_for_key (router e) key, aof e) in
       (r, MkEnv (set_shard key (router e) s) a).

Definition on_router {A} (m : SE (ShardRouter U L) OomException A) : SE env OomException A :=
  λ e, let '(r, ro) := m (router e) in (r, MkEnv ro (aof e)).

Definition env_log (line : string) : SE env OomException unit :=
  λ e, (Normal tt, MkEnv (router e) (aof_log line (aof e))).

Definition SetCommand_execute (now : Z) (key value : string) (ttl : Z) : SE env OomException string :=
  ok ← on_router (ShardRouter_set now key value ttl);
  if (ok : bool) then
    _ ← env_log (serialize (SetCommand key value ttl)); mret ("+OK" +:+ crlf)
  else mret oom_reply.

Definition GetCommand_execute (now : Z) (key : string) (e : env) : string :=
  match ShardRouter_get now key (router e) with
  | None => nil_reply
  | Some v => bulk_reply v
  end.

Definition DelCommand_execute (key : string) : SE env OomException string :=
  ok ← on_router (ShardRouter_del key);
  let removed := if (ok : bool) then 1 else 0 in
  _ ← (if (ok : bool) then env_log (serialize (DelCommand key)) else mret tt);
  mret (int_reply removed).

Definition ExistsCommand_execute (now : Z) (key : string) (e : env) : string :=
  int_reply (if ShardRouter_exists now key (router e) then 1 else 0).

Definition LPushCommand_body (now : Z) (key value : string) (ttl : Z) : SE locked OomException string :=
  let line := serialize (LPushCommand key value ttl) in
  '(s, _) ← get_state;
  if arena_hard_limit (arena_ s) then mret oom_reply
  else
    try_catch
      (scoped_locked (
         _ ← on_shard (lib (NewString key));
         it ← on_shard (find key);
         match (if it is Some e then if negb (tombstoned e) && negb (is_expired now e) then it else None
                else None) with
         | Some e =>
           match data e with
           | VList l =>
             _ ← on_shard (lib (ListEmplaceBack l value));
             _ ← on_shard (modify_data <[key := set_data (VList (l ++ [value])) e]>);
             _ ← write_log line;
             mret (int_reply (Z.of_nat (length (l ++ [value]))))
           | _ => mret wrongtype_reply
           end
         | None =>
           _ ← on_shard (lib (ListEmplaceBack [] value));
           let entry := CacheAlignedValue_make now (VList [value]) ttl in
           _ ← on_shard (lib (MapInsertOrAssign key entry));
           _ ← on_shard (modify_data <[key := entry]>);
           _ ← write_log line;
           mret (int_reply 1)
         end))
      (λ _, mret oom_reply).

Definition LPushCommand_execute (now : Z) (key value : string) (ttl : Z) : SE env OomException string :=
  with_locked key (LPushCommand_body now key value ttl).

(** The index arithmetic of [LRANGE]: [(s, e)] after normalisation. *)
Definition lrange_bounds (len start stop : Z) : Z * Z :=
  let s := if start <? 0 then start + len else start in
  let e := if stop <? 0 then stop + len else stop in
  let s := if s <? 0 then 0 else s in
  let e := if len <=? e then len - 1 else e in
  (s, e).

(** [for (int64_t i = s; i <= e; i++) result += ...]: [n] elements from [i] on. *)
Fixpoint lrange_loop (l : list string) (i n : nat) (result : string) : string :=
  match n with
  | O => result
  | S n => lrange_loop l (S i) n (result +:+ bulk_reply (default EmptyString (l !! i)))
  end.

Definition lrange_reply (l : list string) (start stop : Z) : string :=
  let len := Z.of_nat (length l) in
  let '(s, e) := lrange_bounds len start stop in
  if e <? s then "*0" +:+ crlf
  else
    let count := e - s + 1 in
    lrange_loop l (Z.to_nat s) (Z.to_nat count) ("*" +:+ to_string count +:+ crlf).

Definition LRangeCommand_execute (now : Z) (key : string) (start stop : Z) (e : env) : string :=
  match data_ (shard_for_key (router e) key) !! key with
  | None => "*0" +:+ crlf
  | Some v =>
    if tombstoned v || is_expired now v then "*0" +:+ crlf
    else
      match data v with
      | VList l => lrange_reply l start stop
      | _ => wrongtype_reply
      end
  end.

Definition HSetCommand_body (now : Z) (key field value : string) (ttl : Z) : SE locked OomException string :=
  let line := serialize (HSetCommand key field value ttl) in
  '(s, _) ← get_state;
  if arena_hard_limit (arena_ s) then mret oom_reply
  else
    try_catch
      (scoped_locked (
         _ ← on_shard (lib (NewString key));
         it ← on_shard (find key);
         match (if it is Some e then if negb (tombstoned e) && negb (is_expired now e) then it else None
                else None) with
         | Some e =>
           match data e with
           | VHash h =>
             _ ← on_shard (lib (NewString field));
             let is_new := bool_decide (h !! field = None) in
             _ ← on_shard (lib (NewString value));
             _ ← on_shard (lib (HashSubscriptAssign h field value));
             _ ← on_shard (modify_data <[key := set_data (VHash (<[field := value]> h)) e]>);
             _ ← write_log line;
             mret (int_reply (if (is_new : bool) then 1 else 0))
           | _ => mret wrongtype_reply
           end
         | None =>
           _ ← on_shard (lib (NewString value));
           _ ← on_shard (lib (NewString field));
           _ ← on_shard (lib (HashSubscriptAssign ∅ field value));
           let entry := CacheAlignedValue_make now (VHash {[field := value]}) ttl in
           _ ← on_shard (lib (MapInsertOrAssign key entry));
           _ ← on_shard (modify_data <[key := entry]>);
           _ ← write_log line;
           mret (int_reply 1)
         end))
      (λ _, mret oom_reply).

Definition HSetCommand_execute (now : Z) (key field value : string) (ttl : Z) : SE env OomException string :=
  with_locked key (HSetCommand_body now key field value ttl).

Definition HGetCommand_execute (now : Z) (key field : string) (e : env) : string :=
  match data_ (shard_for_key (router e) key) !! key with
  | None => nil_reply
  | Some v =>
    if tombstoned v || is_expired now v then nil_reply
    else
      match data v with
      | VHash h =>
        match h !! field with
        | None => nil_reply
        | Some x => bulk_reply x
        end
      | _ => wrongtype_reply
      end
  end.

(** A read: the reply, the state unchanged. *)
Definition reads (f : env → string) : SE env OomException string := λ e, (Normal (f e), e).

(** [command->execute(router, aof)] *)
Definition execute (now : Z) (c : ICommand) : SE env OomException string :=
  match c with
  | SetCommand key value ttl => SetCommand_execute now key value ttl
  | GetCommand key => reads (GetCommand_execute now key)
  | DelCommand key => DelCommand_execute key
  | ExistsCommand key => reads (ExistsCommand_execute now key)
  | PingCommand => mret ("+PONG" +:+ crlf)
  | LPushCommand key value ttl => LPushCommand_execute now key value ttl
  | LRangeCommand key start stop => reads (LRangeCommand_execute now key start stop)
  | HSetCommand key field value ttl => HSetCommand_execute now key field value ttl
  | HGetCommand key field => reads (HGetCommand_execute now key field)
  end.
End execute.
