(* ===== verification/Codec.v ===== *)
(** * Commands as text

    A line of the append-only file (or of a client) goes through [tokenize] and
    [CommandFactory_parse].  This file relates that to [serialize]: the commands
    that come out of the factory are exactly the ones whose text parses back. *)

From S2P Require Import Prelude MachineInt Text Value Command.

Local Open Scope Z_scope.

(** What the factory guarantees of a command built from white-space separated tokens. *)
Definition command_wf (c : ICommand) : bool :=
  match c with
  | SetCommand key value ttl => is_token key && is_token value && in_i64 ttl
  | GetCommand key | DelCommand key | ExistsCommand key => is_token key
  | PingCommand => true
  | LPushCommand key value ttl => is_token key && is_token value && (ttl =? default_ttl)
  | LRangeCommand key start stop => is_token key && in_i64 start && in_i64 stop
  | HSetCommand key field value ttl =>
    is_token key && is_token field && is_token value && (ttl =? default_ttl)
  | HGetCommand key field => is_token key && is_token field
  end.

(** The tokens of a serialized command. *)
Definition command_tokens (c : ICommand) : list string :=
  match c with
  | SetCommand key value ttl => ["SET"; key; value; to_string ttl]
  | GetCommand key => ["GET"; key]
  | DelCommand key => ["DEL"; key]
  | ExistsCommand key => ["EXISTS"; key]
  | PingCommand => ["PING"]
  | LPushCommand key value _ => ["LPUSH"; key; value]
  | LRangeCommand key start stop => ["LRANGE"; key; to_string start; to_string stop]
  | HSetCommand key field value _ => ["HSET"; key; field; value]
  | HGetCommand key field => ["HGET"; key; field]
  end.

(** Words joined with one blank. *)
Fixpoint join (ws : list string) : string :=
  match ws with
  | [] => EmptyString
  | [w] => w
  | w :: ws => w +:+ String SP (join ws)
  end.

Lemma tokenize_join ws : Forall (λ w, is_token w = true) ws → tokenize (join ws) = ws.
Proof.
  induction 1 as [|w ws Hw Hws IH]; [done|].
  destruct ws as [|w' ws]; [by apply tokenize_one|].
  change (join (w :: w' :: ws)) with (w +:+ String SP (join (w' :: ws))).
  rewrite tokenize_cons by done. by rewrite IH.
Qed.

Lemma serialize_join c : serialize c = join (command_tokens c).
Proof. by destruct c. Qed.

Lemma command_tokens_are_tokens c :
  command_wf c = true → Forall (λ w, is_token w = true) (command_tokens c).
Proof.
  intros H. destruct c; simpl in *; bool_to_prop; repeat constructor;
    first [done|apply to_string_is_token].
Qed.

Lemma tokenize_serialize c : command_wf c = true → tokenize (serialize c) = command_tokens c.
Proof. intros H. rewrite serialize_join. by apply tokenize_join, command_tokens_are_tokens. Qed.

Lemma stoll_to_string z : in_i64 z = true → stoll (to_string z) = Some z.
Proof.
  intros H. rewrite <-(string_app_nil_r (to_string z)). by apply stoll_to_string_app.
Qed.

Lemma parse_command_tokens c :
  command_wf c = true → CommandFactory_parse (command_tokens c) = Some c.
Proof.
  intros H. destruct c; simpl in H; bool_to_prop; try reflexivity; subst; try reflexivity.
  - unfold CommandFactory_parse. cbn -[stoll to_string].
    by rewrite stoll_to_string.
  - unfold CommandFactory_parse. cbn -[stoll to_string].
    by rewrite !stoll_to_string.
Qed.

Lemma parse_serialize c :
  command_wf c = true → CommandFactory_parse (tokenize (serialize c)) = Some c.
Proof. intros H. rewrite tokenize_serialize by done. by apply parse_command_tokens. Qed.

(** ** What the factory builds *)

Lemma stoll_in_i64 s z : stoll s = Some z → in_i64 z = true.
Proof.
  unfold stoll. destruct (parse_sign _) as [neg s']. destruct (parse_digits s'); [|done].
  destruct (in_i64 _) eqn:E; [|done]. by intros [= <-].
Qed.

Lemma token_is_token tokens i :
  Forall (λ t, is_token t = true) tokens → (i < length tokens)%nat → is_token (token tokens i) = true.
Proof.
  intros Ht Hi. unfold token. destruct (lookup_lt_is_Some_2 tokens i Hi) as [t E].
  rewrite E. by eapply (proj1 (Forall_lookup _ _) Ht).
Qed.

Lemma parse_wf tokens c :
  Forall (λ t, is_token t = true) tokens → CommandFactory_parse tokens = Some c → command_wf c = true.
Proof.
  intros Ht. unfold CommandFactory_parse.
  destruct (length tokens =? 0)%nat eqn:E0; [done|].
  repeat (match goal with |- context [if ?b then _ else _] => destruct b eqn:? end);
    rewrite ?andb_true_iff, ?Nat.leb_le in *; destruct_and?; intros Hc; simplify_option_eq;
    rewrite ?andb_true_iff; split_and?;
    try (by eapply stoll_in_i64); try (apply token_is_token; [done|lia]); try done.
  destruct (stoll _) as [z|] eqn:Hz; [by eapply stoll_in_i64|done].
Qed.

(** Every command a client or the file can produce is well formed. *)
Lemma parse_line_wf line c : CommandFactory_parse (tokenize line) = Some c → command_wf c = true.
Proof. apply parse_wf, tokenize_tokens. Qed.

(** The text holds no white space but blanks. *)
Lemma serialize_blanks c :
  command_wf c = true → string_forall (λ x, negb (isspace x) || Ascii.eqb x SP) (serialize c) = true.
Proof.
  intros H. rewrite serialize_join. apply command_tokens_are_tokens in H.
  assert (Hw : ∀ w, is_token w = true → string_forall (λ x, negb (isspace x) || Ascii.eqb x SP) w = true).
  { intros w. intros Hn%is_token_non_space. revert Hn. apply string_forall_impl. by intros x ->. }
  induction H as [|w ws Hw' Hws IH]; [done|].
  destruct ws as [|w' ws]; [by apply Hw|].
  change (join (w :: w' :: ws)) with (w +:+ String SP (join (w' :: ws))).
  rewrite string_forall_app, Hw by done. exact IH.
Qed.

Lemma serialize_no_LF c : command_wf c = true → has_no_LF (serialize c) = true.
Proof.
  intros H%serialize_blanks. revert H. apply string_forall_impl. intros x. unfold is_LF.
  destruct (Ascii.eqb_spec x LF) as [->|]; done.
Qed.

(** Text mode leaves the lines of such commands alone, if no byte 26 is in them. *)
Lemma text_in_lines cs :
  Forall (λ c, command_wf c = true) cs → Forall (λ c, has_no_SUB (serialize c) = true) cs →
  text_in (string_concat (map (λ c, serialize c +:+ String LF EmptyString) cs))
  = string_concat (map (λ c, serialize c +:+ String LF EmptyString) cs).
Proof.
  intros Hw Hs. apply text_in_plain. induction Hw as [|c cs Hc _ IH]; [done|].
  apply Forall_cons in Hs as [H Hs]. simpl. rewrite !string_forall_app, (IH Hs), andb_true_r. simpl. rewrite andb_true_r.
  apply serialize_blanks in Hc. unfold has_no_SUB in H. revert Hc H.
  generalize (serialize c). induction s as [|x s IHs]; [done|]. simpl.
  intros [Hx Ha]%andb_prop [Hy Hb]%andb_prop. rewrite Hy, (IHs Ha Hb), !andb_true_r. unfold is_CR.
  destruct (Ascii.eqb_spec x CR) as [->|]; done.
Qed.
