(* ===== verification/Spec.v ===== *)
(** * The key-value specification

    What the commands promise, without shards, arenas, time stamps, tombstones
    or locks: a finite map from keys to values and, for each command, the
    replies it may give and the map it leaves.  [Refinement.v] shows that
    [execute] implements it. *)

From S2P Require Import Prelude MachineInt Text Resp Value KeyStore Command.

Local Open Scope Z_scope.

Abbreviation kv := (gmap string ValueVariant).

(** A value stored with a time to live of zero is expired at once. *)
Definition kv_set (ttl : Z) (k : string) (v : ValueVariant) (m : kv) : kv :=
  if ttl =? 0 then delete k m else <[k := v]> m.

Definition oom_text : string := "ERR OOM command not allowed when used memory > 'maxmemory'".
Definition wrongtype_text : string :=
  "WRONGTYPE Operation against a key holding the wrong kind of value".

(** Elements [start .. stop] of a list, both ends included, negative indices
    counted from the end. *)
Definition list_slice (l : list string) (start stop : Z) : list string :=
  let len := Z.of_nat (length l) in
  let s := Z.max 0 (if start <? 0 then start + len else start) in
  let e := Z.min (len - 1) (if stop <? 0 then stop + len else stop) in
  take (Z.to_nat (e - s + 1)) (drop (Z.to_nat s) l).

Definition is_list (v : ValueVariant) : bool := if v is VList _ then true else false.
Definition is_hash (v : ValueVariant) : bool := if v is VHash _ then true else false.

(** The commands that store data and may be refused for lack of memory. *)
Definition may_oom (c : ICommand) : bool :=
  match c with
  | SetCommand _ _ _ | LPushCommand _ _ _ | HSetCommand _ _ _ _ => true
  | _ => false
  end.

Inductive spec_step : ICommand → kv → reply → kv → Prop :=
| spec_set k v ttl m :
    spec_step (SetCommand k v ttl) m (RSimple "OK") (kv_set ttl k (VString v) m)
| spec_get k m :
    spec_step (GetCommand k) m (RBulk (value_to_string <$> m !! k)) m
| spec_del k m x :
    m !! k = Some x → spec_step (DelCommand k) m (RInteger 1) (delete k m)
| spec_del_absent k m n :
    (* 1 when an expired entry was not swept yet *)
    m !! k = None → n = 0 ∨ n = 1 → spec_step (DelCommand k) m (RInteger n) m
| spec_exists k m :
    spec_step (ExistsCommand k) m (RInteger (if m !! k is Some _ then 1 else 0)) m
| spec_ping m :
    spec_step PingCommand m (RSimple "PONG") m
| spec_lpush_new k v ttl m :
    m !! k = None → spec_step (LPushCommand k v ttl) m (RInteger 1) (kv_set ttl k (VList [v]) m)
| spec_lpush k v ttl m l :
    m !! k = Some (VList l) →
    spec_step (LPushCommand k v ttl) m (RInteger (Z.of_nat (length l) + 1)) (<[k := VList (l ++ [v])]> m)
| spec_lpush_wrong k v ttl m x :
    m !! k = Some x → is_list x = false →
    spec_step (LPushCommand k v ttl) m (RError wrongtype_text) m
| spec_lrange k a b m l :
    m !! k = Some (VList l) → spec_step (LRangeCommand k a b) m (RArray (list_slice l a b)) m
| spec_lrange_absent k a b m :
    m !! k = None → spec_step (LRangeCommand k a b) m (RArray []) m
| spec_lrange_wrong k a b m x :
    m !! k = Some x → is_list x = false →
    spec_step (LRangeCommand k a b) m (RError wrongtype_text) m
| spec_hset_new k f v ttl m :
    m !! k = None →
    spec_step (HSetCommand k f v ttl) m (RInteger 1) (kv_set ttl k (VHash {[f := v]}) m)
| spec_hset k f v ttl m h :
    m !! k = Some (VHash h) →
    spec_step (HSetCommand k f v ttl) m (RInteger (if h !! f is Some _ then 0 else 1))
      (<[k := VHash (<[f := v]> h)]> m)
| spec_hset_wrong k f v ttl m x :
    m !! k = Some x → is_hash x = false →
    spec_step (HSetCommand k f v ttl) m (RError wrongtype_text) m
| spec_hget k f m h :
    m !! k = Some (VHash h) → spec_step (HGetCommand k f) m (RBulk (h !! f)) m
| spec_hget_absent k f m :
    m !! k = None → spec_step (HGetCommand k f) m (RBulk None) m
| spec_hget_wrong k f m x :
    m !! k = Some x → is_hash x = false →
    spec_step (HGetCommand k f) m (RError wrongtype_text) m
| spec_oom c m :
    may_oom c = true → spec_step c m (RError oom_text) m.

(** Which replies stand for a change that goes to the append-only file. *)
Definition logged (c : ICommand) (r : reply) : bool :=
  match c, r with
  | SetCommand _ _ _, RSimple _ => true
  | DelCommand _, RInteger n => n =? 1
  | (LPushCommand _ _ _ | HSetCommand _ _ _ _), RInteger _ => true
  | _, _ => false
  end.

(** A command that is not logged changes nothing. *)
Lemma spec_not_logged c m r m' : spec_step c m r m' → logged c r = false → m' = m.
Proof. by destruct 1. Qed.

(** Only the key of the command changes. *)
Definition command_key (c : ICommand) : option string :=
  match c with
  | SetCommand k _ _ | GetCommand k | DelCommand k | ExistsCommand k
  | LPushCommand k _ _ | LRangeCommand k _ _ | HSetCommand k _ _ _ | HGetCommand k _ => Some k
  | PingCommand => None
  end.

Lemma spec_frame c m r m' k :
  spec_step c m r m' → command_key c ≠ Some k → m' !! k = m !! k.
Proof.
  destruct 1; simpl; intros Hk; try done; unfold kv_set; try case_match;
    rewrite ?lookup_insert_ne, ?lookup_delete_ne by congruence; done.
Qed.
