(* ===== verification/Refinement.v ===== *)
(** * The commands implement the specification

    [models now e m]: at the instant [now] the readers of the engine see exactly
    the map [m].  [execute_refines] is the simulation: every command, in every
    state, gives a reply and a successor state allowed by [Spec.spec_step], and
    logs exactly the changes. *)

From S2P Require Import Prelude MachineInt Text Resp Pmr Value KeyStore Shard Router Aof Command Spec.

Local Open Scope Z_scope.

(** ** Bodies that run with the shard locked *)

Section locked.
Context {U L : Type} `{!ArenaChain U, !PmrLib L, !PmrLibOk L}.
Abbreviation locked := (Shard U L * option AofLogger)%type.

(** What is observed of a locked shard and the logger. *)
Definition locked_obs (p : locked) : gmap string CacheAlignedValue * option AofLogger :=
  (data_ p.1, p.2).

Definition locked_step (key : string) (p p' : locked) : Prop := shard_step key p.1 p'.1.

#[export] Instance locked_step_preorder key : PreOrder (locked_step key).
Proof. split; [intros p; by unfold locked_step|intros p q r; unfold locked_step; by etrans]. Qed.

Lemma silent_on_shard op : silent locked_obs (on_shard (lib (U := U) (L := L) op)).
Proof.
  intros [s a]. unfold on_shard. pose proof (lib_data op s) as H.
  destruct (lib op s) as [r s']. simpl in *. unfold locked_obs. simpl. by rewrite H.
Qed.

Lemma commits_scoped_locked {A} (m : SE locked OomException A) p a o :
  commits locked_obs m p a o → commits locked_obs (scoped_locked m) p a o.
Proof.
  unfold commits, scoped_locked. destruct (m p) as [r [s x]].
  unfold on_shard, lib_noexcept, locked_obs. simpl. by rewrite lib_data.
Qed.

Lemma preserves_on_shard {A} key (m : SE (Shard U L) OomException A) :
  preserves (shard_step key) m → preserves (locked_step key) (on_shard m).
Proof.
  intros Hm [s a]. unfold on_shard. specialize (Hm s). by destruct (m s).
Qed.

Lemma preserves_write_log key line : preserves (locked_step key) (write_log (U := U) (L := L) line).
Proof. intros [s a]. unfold locked_step. simpl. reflexivity. Qed.

Lemma preserves_scoped_locked {A} key (m : SE locked OomException A) :
  preserves (locked_step key) m → preserves (locked_step key) (scoped_locked m).
Proof.
  intros Hm p. unfold scoped_locked. specialize (Hm p). destruct (m p) as [r p']. simpl in *.
  etrans; [exact Hm|]. apply preserves_on_shard, preserves_lib_noexcept.
Qed.

(** The entry found by [find], filtered as the commands do. *)
Lemma commits_find {B} key (k : option CacheAlignedValue → SE locked OomException B) p b o :
  commits locked_obs (k (data_ p.1 !! key)) p b o →
  commits locked_obs (on_shard (find key) ≫= k) p b o.
Proof. by destruct p. Qed.

Definition live_entry (now : Z) (it : option CacheAlignedValue) : option CacheAlignedValue :=
  if it is Some e then if negb (tombstoned e) && negb (is_expired now e) then it else None else None.

Lemma live_entry_find now (s : Shard U L) k : live_entry now (data_ s !! k) = find_live now s k.
Proof.
  unfold live_entry, find_live, live. simpl. destruct (data_ s !! k) as [e|]; [|done]. simpl.
  by destruct (tombstoned e), (is_expired now e).
Qed.

(** The result of a body: the reply, the data and the logger. *)
Definition body_ends (m : SE locked OomException string) (p : locked)
    (r : reply) (d : gmap string CacheAlignedValue) (a : option AofLogger) : Prop :=
  ∃ p', m p = (Normal (encode r), p') ∧ locked_obs p' = (d, a).

(** A body ends with its committed result or refuses for lack of memory. *)
Definition body_or_oom (m : SE locked OomException string) (p : locked)
    (r : reply) (d : gmap string CacheAlignedValue) (a : option AofLogger) : Prop :=
  body_ends m p r d a ∨ body_ends m p (RError oom_text) (data_ p.1) p.2.

(** The frame of the two bodies: the limit test, then the [try] block. *)
Lemma guard_body m s x r d a :
  commits locked_obs m (s, x) (encode r) (d, a) →
  body_or_oom
    ('(s', _) ← get_state;
     if arena_hard_limit (arena_ s') then mret oom_reply
     else try_catch (scoped_locked m) (λ _, mret oom_reply)) (s, x) r d a.
Proof.
  intros Hm%commits_scoped_locked. unfold body_or_oom, body_ends.
  change (mbind _ get_state (s, x)) with
    ((if arena_hard_limit (arena_ s) then mret oom_reply
      else try_catch (scoped_locked m) (λ _, mret oom_reply)) (s, x)).
  destruct (arena_hard_limit (arena_ s)).
  { right. by exists (s, x). }
  destruct (commits_try locked_obs _ (λ _, oom_reply) _ _ _ Hm) as (y & p' & Hy & [[-> Ho]|[[_ ->] Ho]]).
  - left. by exists p'.
  - right. by exists p'.
Qed.

Ltac locked_calls :=
  repeat first
    [ apply commits_silent; [apply silent_on_shard|intros ? ?]
    | apply commits_find ].

(** The data seen after silent calls. *)
Lemma locked_obs_eq (p q : locked) : locked_obs p = locked_obs q → data_ p.1 = data_ q.1 ∧ p.2 = q.2.
Proof. unfold locked_obs. by intros [= -> ->]. Qed.

Lemma commits_insert_log key e line r p q :
  locked_obs p = locked_obs q →
  commits locked_obs
    (_ ← on_shard (modify_data (U := U) (L := L) <[key := e]>); _ ← write_log line; mret (encode r))
    p (encode r) (<[key := e]> (data_ q.1), aof_log line q.2).
Proof.
  intros [H1 H2]%locked_obs_eq. destruct p as [s a]. eapply commits_last; [done|done|].
  unfold locked_obs. simpl in *. by rewrite H1, H2.
Qed.

Lemma commits_unchanged r p q :
  locked_obs p = locked_obs q →
  commits (E := OomException) locked_obs (mret (encode r)) p (encode r) (data_ q.1, q.2).
Proof. by split. Qed.

(** Replaces the entry found after silent calls by the one known at the start. *)
Ltac find_entry :=
  lazymatch goal with
  | Hf : live_entry ?now (data_ ?s !! ?key) = ?o |- context [data_ ?p.1 !! ?key] =>
    lazymatch goal with
    | H : locked_obs p = _ |- _ =>
      let H1 := fresh "H" in
      assert (data_ p.1 = data_ s) as H1 by (apply locked_obs_eq in H as [H1 _]; exact H1);
      match goal with |- context [match ?x with Some _ => _ | None => _ end] =>
        change x with (live_entry now (data_ p.1 !! key)) end;
      rewrite H1, Hf
    end
  end.

(** *** LPUSH *)

Lemma LPush_body_ends now key value ttl p :
  let line := serialize (LPushCommand key value ttl) in
  let m := LPushCommand_body now key value ttl in
  match find_live now p.1 key with
  | None =>
    body_or_oom m p (RInteger 1)
      (<[key := CacheAlignedValue_make now (VList [value]) ttl]> (data_ p.1)) (aof_log line p.2)
  | Some e =>
    match data e with
    | VList l =>
      body_or_oom m p (RInteger (Z.of_nat (length l) + 1))
        (<[key := set_data (VList (l ++ [value])) e]> (data_ p.1)) (aof_log line p.2)
    | _ => body_or_oom m p (RError wrongtype_text) (data_ p.1) p.2
    end
  end.
Proof.
  intros line m. destruct p as [s a]. unfold m. cbn [fst snd].
  destruct (find_live now s key) as [e|] eqn:Hf; rewrite <-live_entry_find in Hf;
    [destruct (data e) as [| |l|] eqn:Hd|]; apply guard_body; locked_calls;
    find_entry; rewrite ?Hd; locked_calls.
  1,2,4: apply (commits_unchanged (RError wrongtype_text) _ (s, a)); congruence.
  - replace (Z.of_nat (length l) + 1) with (Z.of_nat (length (l ++ [value]))) by (rewrite length_app; simpl; lia).
    apply (commits_insert_log _ _ _ (RInteger (Z.of_nat (length (l ++ [value])))) _ (s, a)). congruence.
  - apply (commits_insert_log _ _ _ (RInteger 1) _ (s, a)). congruence.
Qed.

(** *** HSET *)

Lemma HSet_body_ends now key field value ttl p :
  let line := serialize (HSetCommand key field value ttl) in
  let m := HSetCommand_body now key field value ttl in
  match find_live now p.1 key with
  | None =>
    body_or_oom m p (RInteger 1)
      (<[key := CacheAlignedValue_make now (VHash {[field := value]}) ttl]> (data_ p.1)) (aof_log line p.2)
  | Some e =>
    match data e with
    | VHash h =>
      body_or_oom m p (RInteger (if h !! field is Some _ then 0 else 1))
        (<[key := set_data (VHash (<[field := value]> h)) e]> (data_ p.1)) (aof_log line p.2)
    | _ => body_or_oom m p (RError wrongtype_text) (data_ p.1) p.2
    end
  end.
Proof.
  intros line m. destruct p as [s a]. unfold m. cbn [fst snd].
  destruct (find_live now s key) as [e|] eqn:Hf; rewrite <-live_entry_find in Hf;
    [destruct (data e) as [| | |h] eqn:Hd|]; apply guard_body; locked_calls;
    find_entry; rewrite ?Hd; locked_calls.
  1-3: apply (commits_unchanged (RError wrongtype_text) _ (s, a)); congruence.
  - replace (if bool_decide (h !! field = None) then 1 else 0)
      with (if h !! field is Some _ then 0 else 1) by (destruct (h !! field); done).
    apply (commits_insert_log _ _ _ (RInteger (if h !! field is Some _ then 0 else 1)) _ (s, a)). congruence.
  - apply (commits_insert_log _ _ _ (RInteger 1) _ (s, a)). congruence.
Qed.

(** *** Both bodies change the data at the key only *)

Ltac locked_preserves :=
  repeat first
    [ apply preserves_scoped_locked
    | apply preserves_try; [apply _| |intros ?]
    | apply preserves_bind; [apply _| |intros ?]
    | apply preserves_write_log
    | apply preserves_get, _
    | apply preserves_ret, _
    | apply preserves_on_shard; first [apply preserves_lib|apply preserves_find|apply preserves_insert]
    | case_match ].

Lemma preserves_LPush_body now key value ttl :
  preserves (locked_step key) (LPushCommand_body (U := U) (L := L) now key value ttl).
Proof. unfold LPushCommand_body. locked_preserves. Qed.

Lemma preserves_HSet_body now key field value ttl :
  preserves (locked_step key) (HSetCommand_body (U := U) (L := L) now key field value ttl).
Proof. unfold HSetCommand_body. locked_preserves. Qed.
End locked.

(** ** The reply of LRANGE *)

Lemma lrange_loop_eq l i n acc :
  (i + n <= length l)%nat →
  lrange_loop l i n acc = acc +:+ string_concat (map encode_bulk (take n (drop i l))).
Proof.
  revert i acc. induction n as [|n IH]; intros i acc Hl; cbn [lrange_loop].
  { by rewrite take_0, string_app_nil_r. }
  rewrite IH by lia.
  destruct (lookup_lt_is_Some_2 l i) as [x Hx]; [lia|].
  rewrite Hx. rewrite (drop_S l x i Hx). cbn [take map string_concat default].
  by rewrite <-string_app_assoc.
Qed.

Lemma lrange_reply_eq l start stop :
  lrange_reply l start stop = encode (RArray (list_slice l start stop)).
Proof.
  unfold lrange_reply, lrange_bounds, list_slice. cbv zeta.
  set (len := Z.of_nat (length l)).
  set (s1 := if start <? 0 then start + len else start).
  set (e1 := if stop <? 0 then stop + len else stop).
  replace (if s1 <? 0 then 0 else s1) with (Z.max 0 s1) by (destruct (Z.ltb_spec s1 0); lia).
  replace (if len <=? e1 then len - 1 else e1) with (Z.min (len - 1) e1)
    by (destruct (Z.leb_spec len e1); lia).
  set (s := Z.max 0 s1). set (e := Z.min (len - 1) e1).
  destruct (Z.ltb_spec e s).
  - replace (Z.to_nat (e - s + 1)) with 0%nat by lia. by rewrite take_0.
  - rewrite lrange_loop_eq by lia. cbn [encode].
    rewrite length_take, length_drop. rewrite <-!string_app_assoc.
    do 3 f_equal. lia.
Qed.

(** ** The simulation *)

Section simulation.
Context {U L : Type} `{!ArenaChain U, !PmrLib L, !PmrLibOk L}.
Abbreviation env := (Env U L).
Implicit Types e : env.

Definition env_wf e : Prop := router_wf (router e).

(** At [now], the readers of [e] see the map [m]. *)
Definition models (now : Z) e (m : kv) : Prop :=
  ∀ k, m !! k = data <$> find_live now (router e) k.

(** The map the readers of [e] see at [now]: over all keys stored in the shards. *)
Definition all_data (shards : list (Shard U L)) : gmap string CacheAlignedValue :=
  foldr (λ s m, data_ s ∪ m) ∅ shards.

Definition view (now : Z) e : kv :=
  map_imap (λ k _, data <$> find_live now (router e) k) (all_data (shards_ (router e))).

Lemma all_data_lookup shards i s k :
  shards !! i = Some s → is_Some (data_ s !! k) → is_Some (all_data shards !! k).
Proof.
  revert i. induction shards as [|s0 shards IH]; intros [|i] Hs Hk; simpl in *; try done.
  - injection Hs as <-. rewrite lookup_union_is_Some. by left.
  - rewrite lookup_union_is_Some. right. by eapply IH.
Qed.

Lemma models_view now e : env_wf e → models now e (view now e).
Proof.
  intros [Hw _] k. unfold view. rewrite map_lookup_imap.
  destruct (all_data (shards_ (router e)) !! k) as [x|] eqn:Hk; [done|]. simpl.
  unfold find_live. simpl. unfold router_find.
  destruct (data_ (shard_for_key (router e) k) !! k) as [y|] eqn:Hy; [|done].
  destruct (all_data_lookup _ _ _ k (shard_for_key_lookup (router e) k Hw)) as [? ?]; [eauto|congruence].
Qed.

(** [models] determines the map. *)
Lemma models_is_view now e m : env_wf e → models now e m → m = view now e.
Proof.
  intros Hw Hm. apply map_eq. intros k. by rewrite (Hm k), (models_view now e Hw k).
Qed.

Lemma models_put now e m key s a ent :
  env_wf e → models now e m →
  shard_step key (shard_for_key (router e) key) s →
  data_ s = <[key := ent]> (data_ (shard_for_key (router e) key)) →
  models now (MkEnv (set_shard key (router e) s) a)
    (if live now ent then <[key := data ent]> m else delete key m).
Proof.
  intros [Hw _] Hm Hs Hd k. unfold find_live. simpl.
  rewrite (router_find_set_shard key _ s k Hw Hs).
  case_bool_decide as Hk.
  - subst k. rewrite Hd, lookup_insert_eq. simpl.
    destruct (live now ent); by rewrite ?lookup_insert_eq, ?lookup_delete_eq.
  - specialize (Hm k). unfold find_live in Hm. simpl in Hm. rewrite <-Hm.
    destruct (live now ent); by rewrite ?lookup_insert_ne, ?lookup_delete_ne.
Qed.

Lemma models_same now e m key s a :
  env_wf e → models now e m →
  shard_step key (shard_for_key (router e) key) s →
  data_ s = data_ (shard_for_key (router e) key) →
  models now (MkEnv (set_shard key (router e) s) a) m.
Proof.
  intros [Hw _] Hm Hs Hd k. unfold find_live. simpl.
  rewrite (router_find_set_shard key _ s k Hw Hs), Hd.
  specialize (Hm k). case_bool_decide as Hk; [by subst k|done].
Qed.

(** What [execute] achieves. *)
Definition refines (now : Z) (c : ICommand) e (m : kv) : Prop :=
  ∃ r e' m',
    execute now c e = (Normal (encode r), e') ∧ wf_reply r = true ∧
    spec_step c m r m' ∧ models now e' m' ∧ env_wf e' ∧
    aof e' = (if logged c r then aof_log (serialize c) (aof e) else aof e).

(** A command that only reads refines the specification when its reply does. *)
Lemma reads_refines now c e m f r :
  execute now c = reads f → f e = encode r → wf_reply r = true → logged c r = false →
  env_wf e → models now e m → spec_step c m r m → refines now c e m.
Proof.
  intros Hx Hf Hr Hl Hw Hm Hs. exists r, e, m. rewrite Hx. unfold reads. rewrite Hf, Hl.
  by split_and!.
Qed.

(** The result of a locked body at the router. *)
Lemma body_refines now c e m m' key body r s a :
  execute now c = with_locked key body →
  env_wf e → preserves (locked_step key) body →
  body (shard_for_key (router e) key, aof e) = (Normal (encode r), (s, a)) →
  wf_reply r = true → spec_step c m r m' →
  (shard_step key (shard_for_key (router e) key) s →
   models now (MkEnv (set_shard key (router e) s) a) m') →
  a = (if logged c r then aof_log (serialize c) (aof e) else aof e) →
  refines now c e m.
Proof.
  intros Hx Hw Hp Hb Hr Hs Hm Ha.
  specialize (Hp (shard_for_key (router e) key, aof e)). rewrite Hb in Hp.
  exists r, (MkEnv (set_shard key (router e) s) a), m'. rewrite Hx. unfold with_locked.
  rewrite Hb. split_and!; [done|done|done|by apply Hm|by apply set_shard_step_wf|done].
Qed.

Lemma body_or_oom_refines now c e m m' key body r d a :
  execute now c = with_locked key body →
  env_wf e → models now e m → preserves (locked_step key) body →
  body_or_oom body (shard_for_key (router e) key, aof e) r d a →
  wf_reply r = true → spec_step c m r m' → may_oom c = true → logged c (RError oom_text) = false →
  (∀ s, shard_step key (shard_for_key (router e) key) s → data_ s = d →
    models now (MkEnv (set_shard key (router e) s) a) m') →
  a = (if logged c r then aof_log (serialize c) (aof e) else aof e) →
  refines now c e m.
Proof.
  intros Hx Hw Hm Hp [([s x] & Hb & Ho)|([s x] & Hb & Ho)] Hr Hs Hoom Hl Hd Ha;
    unfold locked_obs in Ho; simpl in Ho; injection Ho as Ho ->.
  - eapply body_refines; eauto.
  - eapply (body_refines now c e m m); eauto; [by constructor|intros; by apply models_same|by rewrite Hl].
Qed.

Lemma set_refines now key value ttl e m :
  env_wf e → models now e m → refines now (SetCommand key value ttl) e m.
Proof.
  intros Hw Hm. unfold refines. simpl.
  unfold SetCommand_execute, on_router, ShardRouter_set, with_shard, mbind, SE_bind.
  pose proof (preserves_Shard_set now key value ttl (shard_for_key (router e) key)) as Hs.
  destruct (Shard_set_cases now key value ttl (shard_for_key (router e) key))
    as (b & s' & Hr & Hb). rewrite Hr in *. simpl in Hs.
  destruct Hb as [[-> Hd]|[-> Hd]].
  - exists (RSimple "OK"), (MkEnv (set_shard key (router e) s') (aof_log (serialize (SetCommand key value ttl)) (aof e))),
      (kv_set ttl key (VString value) m).
    split_and!; [done|done|constructor| |by apply set_shard_step_wf|done].
    pose proof (models_put now e m key s' (aof_log (serialize (SetCommand key value ttl)) (aof e)) _ Hw Hm Hs Hd) as H.
    rewrite live_make in H. unfold kv_set. by destruct (ttl =? 0).
  - exists (RError oom_text), (MkEnv (set_shard key (router e) s') (aof e)), m.
    split_and!; [done|done|by constructor|by apply models_same|by apply set_shard_step_wf|done].
Qed.

Lemma models_lookup now e m key :
  models now e m → m !! key = data <$> find_live now (shard_for_key (router e) key) key.
Proof. intros Hm. apply Hm. Qed.

Lemma get_refines now key e m :
  env_wf e → models now e m → refines now (GetCommand key) e m.
Proof.
  intros Hw Hm. eapply (reads_refines _ _ _ _ _ (RBulk (value_to_string <$> m !! key))); try done.
  2: constructor.
  unfold GetCommand_execute, ShardRouter_get.
  change (Shard_get now key (shard_for_key (router e) key)) with (ks_get now key (shard_for_key (router e) key)).
  rewrite law_get, (models_lookup now e m key Hm).
  by destruct (find_live now _ key).
Qed.

Lemma exists_refines now key e m :
  env_wf e → models now e m → refines now (ExistsCommand key) e m.
Proof.
  intros Hw Hm. eapply (reads_refines _ _ _ _ _ (RInteger (if m !! key is Some _ then 1 else 0))); try done.
  2: constructor.
  unfold ExistsCommand_execute, ShardRouter_exists.
  change (Shard_exists now key (shard_for_key (router e) key)) with (ks_exists now key (shard_for_key (router e) key)).
  rewrite law_exists, (models_lookup now e m key Hm).
  by destruct (find_live now _ key).
Qed.

Lemma find_live_Some now (s : Shard U L) key v :
  find_live now s key = Some v → data_ s !! key = Some v ∧ live now v = true.
Proof.
  unfold find_live. simpl. destruct (data_ s !! key) as [x|]; [|done]. simpl.
  destruct (live now x) eqn:E; [|done]. by intros [= ->].
Qed.

Lemma find_live_test now (s : Shard U L) key {A} (d : A) (f : CacheAlignedValue → A) :
  match data_ s !! key with
  | None => d
  | Some v => if tombstoned v || is_expired now v then d else f v
  end = match find_live now s key with None => d | Some v => f v end.
Proof.
  unfold find_live, live. simpl. destruct (data_ s !! key) as [x|]; [|done]. simpl.
  by destruct (tombstoned x || is_expired now x).
Qed.

Lemma lrange_refines now key start stop e m :
  env_wf e → models now e m → refines now (LRangeCommand key start stop) e m.
Proof.
  intros Hw Hm. pose proof (models_lookup now e m key Hm) as Hl.
  assert (LRangeCommand_execute now key start stop e =
    match find_live now (shard_for_key (router e) key) key with
    | None => encode (RArray [])
    | Some v => match data v with VList l => encode (RArray (list_slice l start stop))
                | _ => encode (RError wrongtype_text) end
    end) as Hx.
  { unfold LRangeCommand_execute. rewrite find_live_test.
    destruct (find_live _ _ _) as [v|]; [|done]. destruct (data v); try done. apply lrange_reply_eq. }
  destruct (find_live now _ key) as [v|]; [destruct (data v) eqn:Hv|]; simpl in Hl; rewrite ?Hv in Hl;
    eapply reads_refines; try done; try exact Hx; try done; by econstructor.
Qed.

Lemma hget_refines now key field e m :
  env_wf e → models now e m → refines now (HGetCommand key field) e m.
Proof.
  intros Hw Hm. pose proof (models_lookup now e m key Hm) as Hl.
  assert (HGetCommand_execute now key field e =
    match find_live now (shard_for_key (router e) key) key with
    | None => encode (RBulk None)
    | Some v => match data v with VHash h => encode (RBulk (h !! field))
                | _ => encode (RError wrongtype_text) end
    end) as Hx.
  { unfold HGetCommand_execute. rewrite find_live_test.
    destruct (find_live _ _ _) as [v|]; [|done]. by destruct (data v). }
  destruct (find_live now _ key) as [v|]; [destruct (data v) eqn:Hv|]; simpl in Hl; rewrite ?Hv in Hl;
    eapply reads_refines; try done; try exact Hx; try done; by econstructor.
Qed.

Lemma models_del now e m key s a :
  env_wf e → models now e m →
  shard_step key (shard_for_key (router e) key) s →
  find_live now s key = None →
  models now (MkEnv (set_shard key (router e) s) a) (delete key m).
Proof.
  intros [Hw _] Hm Hs Hf k. unfold find_live. simpl.
  rewrite (router_find_set_shard key _ s k Hw Hs).
  case_bool_decide as Hk.
  - subst k. unfold find_live in Hf. simpl in Hf. by rewrite Hf, lookup_delete_eq.
  - rewrite lookup_delete_ne by done. apply Hm.
Qed.

Lemma del_refines now key e m :
  env_wf e → models now e m → refines now (DelCommand key) e m.
Proof.
  intros Hw Hm. pose proof (models_lookup now e m key Hm) as Hl.
  pose proof (preserves_Shard_del (U := U) (L := L) key (shard_for_key (router e) key)) as Hs.
  unfold refines. simpl. unfold DelCommand_execute, on_router, ShardRouter_del, with_shard, mbind, SE_bind.
  rewrite Shard_del_eq in *. unfold find_live in Hl. simpl in Hl.
  destruct (data_ (shard_for_key (router e) key) !! key) as [x|] eqn:Hx; simpl in *.
  1: destruct (tombstoned x) eqn:Ht; simpl in *.
  2: { (* a stored entry, live or expired, is tombstoned *)
    exists (RInteger 1). eexists. exists (delete key m).
    split_and!; [reflexivity|done| | |by apply set_shard_step_wf|done].
    2: { apply models_del; [done|done|exact Hs|]. unfold find_live. simpl. by rewrite lookup_insert_eq. }
    destruct (live now x); [by eapply spec_del|].
    rewrite (delete_id m) by done. apply spec_del_absent; [done|by right]. }
  all: exists (RInteger 0); eexists; exists m.
  - unfold live in Hl. rewrite Ht in Hl. simpl in Hl.
    split_and!; [reflexivity|done|apply spec_del_absent; [done|by left]|by apply models_same|
      by apply set_shard_step_wf|done].
  - split_and!; [reflexivity|done|apply spec_del_absent; [done|by left]|by apply models_same|
      by apply set_shard_step_wf|done].
Qed.

Lemma live_set_data now v x : live now (set_data v x) = live now x.
Proof. done. Qed.

(** A stored entry is replaced in place, keeping its time stamps. *)
Lemma models_set_data now e m key s a v x :
  env_wf e → models now e m →
  find_live now (shard_for_key (router e) key) key = Some x →
  shard_step key (shard_for_key (router e) key) s →
  data_ s = <[key := set_data v x]> (data_ (shard_for_key (router e) key)) →
  models now (MkEnv (set_shard key (router e) s) a) (<[key := v]> m).
Proof.
  intros Hw Hm [_ Hx]%find_live_Some Hs Hd.
  pose proof (models_put now e m key s a _ Hw Hm Hs Hd) as H. by rewrite live_set_data, Hx in H.
Qed.

Lemma models_make now e m key s a v ttl :
  env_wf e → models now e m →
  shard_step key (shard_for_key (router e) key) s →
  data_ s = <[key := CacheAlignedValue_make now v ttl]> (data_ (shard_for_key (router e) key)) →
  models now (MkEnv (set_shard key (router e) s) a) (kv_set ttl key v m).
Proof.
  intros Hw Hm Hs Hd. pose proof (models_put now e m key s a _ Hw Hm Hs Hd) as H.
  rewrite live_make in H. unfold kv_set. by destruct (ttl =? 0).
Qed.

Lemma lpush_refines now key value ttl e m :
  env_wf e → models now e m → refines now (LPushCommand key value ttl) e m.
Proof.
  intros Hw Hm. pose proof (models_lookup now e m key Hm) as Hl.
  pose proof (LPush_body_ends now key value ttl (shard_for_key (router e) key, aof e)) as Hb.
  cbn [fst snd] in Hb.
  destruct (find_live now (shard_for_key (router e) key) key) as [x|] eqn:Hx;
    [destruct (data x) eqn:Hv|]; simpl in Hl; rewrite ?Hv in Hl;
    (eapply body_or_oom_refines; [done|done|done|apply preserves_LPush_body|exact Hb| | | | | |]; try done);
    try (by econstructor); intros; eauto using models_same, models_set_data, models_make.
Qed.

Lemma hset_refines now key field value ttl e m :
  env_wf e → models now e m → refines now (HSetCommand key field value ttl) e m.
Proof.
  intros Hw Hm. pose proof (models_lookup now e m key Hm) as Hl.
  pose proof (HSet_body_ends now key field value ttl (shard_for_key (router e) key, aof e)) as Hb.
  cbn [fst snd] in Hb.
  destruct (find_live now (shard_for_key (router e) key) key) as [x|] eqn:Hx;
    [destruct (data x) eqn:Hv|]; simpl in Hl; rewrite ?Hv in Hl;
    (eapply body_or_oom_refines; [done|done|done|apply preserves_HSet_body|exact Hb| | | | | |]; try done);
    try (by econstructor); intros; eauto using models_same, models_set_data, models_make.
Qed.

Lemma ping_refines now e m : env_wf e → models now e m → refines now PingCommand e m.
Proof. intros Hw Hm. exists (RSimple "PONG"), e, m. split_and!; try done. constructor. Qed.

Lemma execute_simulates now c e m : env_wf e → models now e m → refines now c e m.
Proof.
  intros. destruct c;
    auto using set_refines, get_refines, del_refines, exists_refines, ping_refines, lpush_refines,
      lrange_refines, hset_refines, hget_refines.
Qed.

(** On the maps the readers see. *)
Lemma execute_view now c e :
  env_wf e →
  ∃ rep e', execute now c e = (Normal (encode rep), e') ∧ wf_reply rep = true ∧
    spec_step c (view now e) rep (view now e') ∧ env_wf e'.
Proof.
  intros Hw. destruct (execute_simulates now c e _ Hw (models_view now e Hw)) as (rep & e' & m' & He & Hr & Hs & Hm & Hw' & _).
  exists rep, e'. split_and!; [done..| |done]. by rewrite <-(models_is_view now e' m' Hw' Hm).
Qed.

(** ** Where the stored entries come from

    After a command every stored entry is an old one (possibly with new
    contents or tombstoned), or one made at [now] with the command's time to
    live. *)

Definition command_ttl (c : ICommand) : Z :=
  match c with
  | SetCommand _ _ ttl | LPushCommand _ _ ttl | HSetCommand _ _ _ ttl => ttl
  | _ => default_ttl
  end.

Definition entry_from (now : Z) (c : ICommand) (old : option CacheAlignedValue) (x : CacheAlignedValue) : Prop :=
  old = Some x ∨ tombstoned x = true ∨
  (may_oom c = true ∧ ∃ v, x = CacheAlignedValue_make now v (command_ttl c)) ∨
  (∃ v y, old = Some y ∧ x = set_data v y).

Definition entries_step (now : Z) (c : ICommand) e e' : Prop :=
  ∀ k x, router_find (router e') k = Some x → entry_from now c (router_find (router e) k) x.

Lemma entries_step_refl now c e : entries_step now c e e.
Proof. intros k x Hx. by left. Qed.

Lemma entries_step_shard now c e key s a :
  env_wf e → shard_step key (shard_for_key (router e) key) s →
  (∀ x, data_ s !! key = Some x → entry_from now c (data_ (shard_for_key (router e) key) !! key) x) →
  entries_step now c e (MkEnv (set_shard key (router e) s) a).
Proof.
  intros [Hw _] Hs Hx k x. simpl. rewrite (router_find_set_shard key _ s k Hw Hs).
  case_bool_decide as Hk; [subst k; apply Hx|]. intros H. by left.
Qed.

Lemma entries_step_body now c e key body r d a :
  env_wf e → preserves (locked_step key) body →
  body_or_oom body (shard_for_key (router e) key, aof e) r d a →
  (∀ x, d !! key = Some x → entry_from now c (data_ (shard_for_key (router e) key) !! key) x) →
  entries_step now c e (with_locked key body e).2.
Proof.
  intros Hw Hp Hb Hd. specialize (Hp (shard_for_key (router e) key, aof e)).
  destruct Hb as [([s x] & Hb & Ho)|([s x] & Hb & Ho)]; rewrite Hb in Hp;
    unfold with_locked; rewrite Hb; simpl; unfold locked_obs in Ho; simpl in Ho; injection Ho as Ho ->;
    (apply entries_step_shard; [done|done|]); rewrite Ho; [done|].
  intros y Hy. by left.
Qed.

(** A command steps one shard at most. *)
Definition shard_stepped (r r' : ShardRouter U L) : Prop :=
  r' = r ∨ ∃ key s, r' = set_shard key r s ∧ shard_step key (shard_for_key r key) s.

Lemma with_locked_stepped key (body : SE (Shard U L * option AofLogger) OomException string) e :
  preserves (locked_step key) body → shard_stepped (router e) (router (with_locked key body e).2).
Proof.
  intros Hp. specialize (Hp (shard_for_key (router e) key, aof e)). unfold with_locked.
  destruct (body _) as [r [s a]]. right. by exists key, s.
Qed.

Lemma execute_stepped now c e : shard_stepped (router e) (router (execute now c e).2).
Proof.
  destruct c as [key value ttl|key|key|key| |key value ttl|key a b|key field value ttl|key field];
    simpl; try (by left); try (apply with_locked_stepped; (apply preserves_LPush_body || apply preserves_HSet_body)).
  - unfold SetCommand_execute, on_router, ShardRouter_set, with_shard, mbind, SE_bind.
    pose proof (preserves_Shard_set now key value ttl (shard_for_key (router e) key)) as Hs.
    destruct (Shard_set_cases now key value ttl (shard_for_key (router e) key)) as (b & s' & Hr & _).
    rewrite Hr in *. right. exists key, s'. by destruct b.
  - unfold DelCommand_execute, on_router, ShardRouter_del, with_shard, mbind, SE_bind.
    pose proof (preserves_Shard_del (U := U) (L := L) key (shard_for_key (router e) key)) as Hs.
    destruct (Shard_del key _) as [[b|x] s'] eqn:Hd; right; exists key, s'; [by destruct b|done].
Qed.

Lemma entry_from_insert now c (d : gmap string CacheAlignedValue) key y x :
  entry_from now c (d !! key) y → <[key := y]> d !! key = Some x → entry_from now c (d !! key) x.
Proof. rewrite lookup_insert_eq. by intros ? [= <-]. Qed.

Lemma execute_entries now c e :
  env_wf e → entries_step now c e (execute now c e).2.
Proof.
  intros Hw. destruct c as [key value ttl|key|key|key| |key value ttl|key a b|key field value ttl|key field];
    simpl; try apply entries_step_refl.
  - unfold SetCommand_execute, on_router, ShardRouter_set, with_shard, mbind, SE_bind.
    pose proof (preserves_Shard_set now key value ttl (shard_for_key (router e) key)) as Hs.
    destruct (Shard_set_cases now key value ttl (shard_for_key (router e) key))
      as (b & s' & Hr & Hb). rewrite Hr in *. simpl in Hs.
    destruct Hb as [[-> Hd]|[-> Hd]]; apply entries_step_shard; try done; rewrite Hd; intros x.
    + apply entry_from_insert. right. right. left. eauto.
    + by left.
  - unfold DelCommand_execute, on_router, ShardRouter_del, with_shard, mbind, SE_bind.
    pose proof (preserves_Shard_del (U := U) (L := L) key (shard_for_key (router e) key)) as Hs.
    rewrite Shard_del_eq in *.
    destruct (data_ (shard_for_key (router e) key) !! key) as [x|] eqn:Hx; [destruct (tombstoned x) eqn:Ht|];
      apply entries_step_shard; try done; simpl; intros y; [by left| |by left].
    rewrite lookup_insert_eq. intros [= <-]. right. by left.
  - pose proof (LPush_body_ends now key value ttl (shard_for_key (router e) key, aof e)) as Hb.
    cbn [fst snd] in Hb.
    destruct (find_live now (shard_for_key (router e) key) key) as [x|] eqn:Hx; [destruct (data x) eqn:Hv|];
      (eapply entries_step_body; [done|apply preserves_LPush_body|exact Hb|]);
      try (intros y Hy; by left); intros y; apply entry_from_insert; right; right; [right|left; eauto].
    apply find_live_Some in Hx as [Hx _]. eauto.
  - pose proof (HSet_body_ends now key field value ttl (shard_for_key (router e) key, aof e)) as Hb.
    cbn [fst snd] in Hb.
    destruct (find_live now (shard_for_key (router e) key) key) as [x|] eqn:Hx; [destruct (data x) eqn:Hv|];
      (eapply entries_step_body; [done|apply preserves_HSet_body|exact Hb|]);
      try (intros y Hy; by left); intros y; apply entry_from_insert; right; right; [right|left; eauto].
    apply find_live_Some in Hx as [Hx _]. eauto.
Qed.
End simulation.
