(* ===== verification/ServerBuilder.v ===== *)
(** * The server builder ([include/core/server_builder.h], [src/core/server_builder.cpp], [src/main.cpp])

    The configuration and its setters, the memory-limit parser, and the replay
    of the append-only file that [build_and_run] performs before it starts the
    threads; the rest of [build_and_run] is in [Program]. *)

From S2P Require Import Prelude MachineInt Text Resp Pmr Value KeyStore Shard Router Aof Command Codec.

Local Open Scope Z_scope.

Record ServerBuilder := MkBuilder {
  port_ : Z;
  worker_threads_ : Z;
  max_memory_ : Z;
  builder_shard_count_ : Z;
  aof_path_ : string;
}.

(** The member initialisers. *)
Definition ServerBuilder_default : ServerBuilder :=
  MkBuilder 8080 4 (512 * 1024 * 1024) 64 "appendonly.aof".

Inductive invalid_argument := InvalidArgument (what : string).

(** [s.ends_with(suffix)] *)
Definition ends_with (s suffix : string) : bool :=
  let n := String.length s in
  let k := String.length suffix in
  (k <=? n)%nat && String.eqb (String.substring (n - k) k s) suffix.

(** [s.substr(0, s.size() - 2)] *)
Definition drop_unit (s : string) : string := String.substring 0 (String.length s - 2) s.

(** [(multiplier, numeric)] *)
Definition split_unit (upper : string) : Z * string :=
  if ends_with upper "GB" then (1024 * 1024 * 1024, drop_unit upper)
  else if ends_with upper "MB" then (1024 * 1024, drop_unit upper)
  else if ends_with upper "KB" then (1024, drop_unit upper)
  else (1, upper).

Definition parse_memory_limit (limit : string) : result invalid_argument Z :=
  let '(multiplier, numeric) := split_unit (to_upper limit) in
  match stoull numeric with
  | Some v => Normal (u64 (v * multiplier))
  | None => Throw (InvalidArgument ("Invalid memory limit: " +:+ limit))
  end.

(** The units the parser knows, with their values. *)
Definition units : list (string * Z) :=
  [("GB", 2 ^ 30); ("MB", 2 ^ 20); ("KB", 2 ^ 10); ("", 1);
   ("gb", 2 ^ 30); ("mb", 2 ^ 20); ("kb", 2 ^ 10)].

Definition setPort (port : Z) (b : ServerBuilder) : ServerBuilder :=
  MkBuilder port (worker_threads_ b) (max_memory_ b) (builder_shard_count_ b) (aof_path_ b).
Definition setWorkerThreads (count : Z) (b : ServerBuilder) : ServerBuilder :=
  MkBuilder (port_ b) count (max_memory_ b) (builder_shard_count_ b) (aof_path_ b).
Definition setMaxMemoryLimit (limit : string) : SE ServerBuilder invalid_argument unit := λ b,
  match parse_memory_limit limit with
  | Normal m => (Normal tt, MkBuilder (port_ b) (worker_threads_ b) m (builder_shard_count_ b) (aof_path_ b))
  | Throw e => (Throw e, b)
  end.
Definition setShardCount (count : Z) (b : ServerBuilder) : ServerBuilder :=
  MkBuilder (port_ b) (worker_threads_ b) (max_memory_ b) count (aof_path_ b).
Definition setAofPath (path : string) (b : ServerBuilder) : ServerBuilder :=
  MkBuilder (port_ b) (worker_threads_ b) (max_memory_ b) (builder_shard_count_ b) path.

(** The configuration [main] builds on a machine with [hw] hardware threads. *)
Definition main_config (hw : Z) : result invalid_argument ServerBuilder :=
  match setMaxMemoryLimit "1GB" (setWorkerThreads hw (setPort 8080 ServerBuilder_default)) with
  | (Normal _, b) => Normal (setAofPath "appendonly.aof" (setShardCount 64 b))
  | (Throw e, _) => Throw e
  end.

(** ** Memory limits *)

Lemma to_upper_app a b : to_upper (a +:+ b) = to_upper a +:+ to_upper b.
Proof. induction a as [|c a IH]; [done|]. rewrite string_app_cons. simpl. by rewrite IH. Qed.

Lemma to_upper_digits s : string_forall is_digit s = true → to_upper s = s.
Proof.
  induction s as [|c s IH]; [done|]. simpl. intros [Hc Hs]%andb_prop. rewrite IH by done. f_equal.
  unfold toupper. pose proof (is_digit_code c Hc).
  destruct (97 <=? char_code c)%nat eqn:E; [apply Nat.leb_le in E; lia|]. done.
Qed.

Lemma substring_prefix a b : String.substring 0 (String.length a) (a +:+ b) = a.
Proof. induction a as [|c a IH]; [by destruct b|]. rewrite string_app_cons. simpl. by rewrite IH. Qed.

Lemma substring_suffix a b : String.substring (String.length a) (String.length b) (a +:+ b) = b.
Proof.
  induction a as [|c a IH]; [|by rewrite string_app_cons].
  pose proof (substring_prefix b "") as H. by rewrite string_app_nil_r in H.
Qed.

Lemma drop_unit_app a u : String.length u = 2%nat → drop_unit (a +:+ u) = a.
Proof.
  intros Hu. unfold drop_unit. rewrite string_length_app, Hu, Nat.add_sub. apply substring_prefix.
Qed.

Lemma ends_with_app a u : ends_with (a +:+ u) u = true.
Proof.
  unfold ends_with. rewrite string_length_app, Nat.add_sub, substring_suffix.
  rewrite (proj2 (Nat.leb_le _ _)) by lia. by apply String.eqb_eq.
Qed.

(** The last two characters decide. *)
Lemma ends_with_other a u v :
  String.length u = String.length v → u ≠ v → ends_with (a +:+ u) v = false.
Proof.
  intros Hl Hne. unfold ends_with. rewrite string_length_app, <-Hl, Nat.add_sub, substring_suffix.
  apply andb_false_iff. right. by apply String.eqb_neq.
Qed.

Lemma ends_with_digits s a b :
  string_forall is_digit s = true → is_digit b = false → ends_with s (String a (String b "")) = false.
Proof.
  intros Hs Hb. unfold ends_with. apply andb_false_iff.
  destruct (String.length s) as [|[|n]] eqn:Hl; [by left|by left|]. right. apply String.eqb_neq. intros He.
  simpl in He. rewrite Nat.sub_0_r in He.
  assert (Hd : ∀ m k t, string_forall is_digit t = true → string_forall is_digit (String.substring m k t) = true).
  { clear. induction m as [|m IH]; intros k t; revert k; induction t as [|c t IHt]; intros [|k]; simpl; try done;
      intros [? ?]%andb_prop; auto. apply andb_true_intro. auto. }
  pose proof (Hd n 2%nat s Hs) as H. rewrite He in H. simpl in H. rewrite Hb, andb_false_r in H. done.
Qed.

Lemma stoull_to_string n : 0 <= n < 2 ^ 64 → stoull (to_string n) = Some n.
Proof.
  intros Hn. pose proof (parse_signed_to_string n "" eq_refl) as H. rewrite string_app_nil_r in H. unfold stoull.
  destruct (parse_sign _) as [neg s]. destruct (parse_digits s) as [v|]; [|done].
  simpl in H. rewrite bool_decide_eq_false_2, Z.abs_eq in H by lia. injection H as [= -> ->].
  by rewrite (proj2 (Z.ltb_lt _ _)) by lia.
Qed.

Section boot.
Context {U L : Type} `{!ArenaChain U, !PmrLib L}.
Abbreviation env := (Env U L).

(** The body of [while (std::getline(aof_file, line))]; [true] when a command ran. *)
Definition replay_line (now : Z) (line : string) (e : env) : bool * env :=
  match line with
  | EmptyString => (false, e)
  | _ =>
    match CommandFactory_parse (tokenize line) with
    | Some c => (true, (execute now c e).2)
    | None => (false, e)
    end
  end.

(** The loop; [clock i] is the time at which the i-th line is read. *)
Fixpoint replay_loop (clock : nat → Z) (i : nat) (lines : list string) (replayed : Z) (e : env) : Z * env :=
  match lines with
  | [] => (replayed, e)
  | line :: lines =>
    let '(ran, e') := replay_line (clock i) line e in
    replay_loop clock (S i) lines (if (ran : bool) then replayed + 1 else replayed) e'
  end.

Definition env_set_replaying (v : bool) (e : env) : env :=
  MkEnv (router e) (set_replaying v <$> aof e).

(** The replay block: [contents], the bytes of the file, is [None] when it cannot be
    opened; it is opened in text mode. *)
Definition replay (clock : nat → Z) (contents : option string) (e : env) : Z * env :=
  match contents with
  | None => (0, e)
  | Some text =>
    let '(n, e') := replay_loop clock 0 (getlines (text_in text)) 0 (env_set_replaying true e) in
    (n, env_set_replaying false e')
  end.

(** [build_and_run] up to [aof.start()], when the router could be built. *)
Definition boot (h : Heap) (b : ServerBuilder) (clock : nat → Z) (contents : option string) :
    result make_error (Z * env) :=
  match ShardRouter_make h (max_memory_ b) (builder_shard_count_ b) with
  | Throw e => Throw e
  | Normal ro =>
    let logger := AofLogger_make (aof_path_ b) (default EmptyString contents) in
    Normal (replay clock contents (MkEnv ro (Some logger)))
  end.
End boot.
