(* ===== verification/Recovery.v ===== *)
(** * Recovery from the append-only file

    A server runs a sequence of commands and logs the changes; a later start
    replays the log into an empty engine.  This file shows that the readers then
    see the same map, as long as nothing expires in between and the replay is
    not refused memory. *)

From S2P Require Import Prelude MachineInt Text Resp Pmr Value KeyStore Shard Router Aof Command Codec Spec Refinement ServerBuilder.

Local Open Scope Z_scope.

(** ** Runs of the specification and their logs *)

Inductive spec_run : list ICommand → kv → list ICommand → kv → Prop :=
| run_nil m : spec_run [] m [] m
| run_cons c cs m r m1 ls m2 :
    spec_step c m r m1 → spec_run cs m1 ls m2 →
    spec_run (c :: cs) m (if logged c r then c :: ls else ls) m2.

(** A run in which no command is refused for lack of memory. *)
Inductive spec_run_roomy : list ICommand → kv → kv → Prop :=
| roomy_nil m : spec_run_roomy [] m m
| roomy_cons c cs m r m1 m2 :
    spec_step c m r m1 → r ≠ RError oom_text → spec_run_roomy cs m1 m2 →
    spec_run_roomy (c :: cs) m m2.

(** The map left by a command that is not refused is determined. *)
Lemma spec_step_det c m r1 m1 r2 m2 :
  spec_step c m r1 m1 → spec_step c m r2 m2 →
  r1 ≠ RError oom_text → r2 ≠ RError oom_text → m1 = m2.
Proof.
  intros H1 H2 Hr1 Hr2. destruct H1; inversion H2; simplify_eq/=; try done; congruence.
Qed.

Lemma logged_not_oom c r : logged c r = true → r ≠ RError oom_text.
Proof. by destruct c, r. Qed.

(** Replaying the log of a run leads to the map of the run. *)
Lemma spec_replay cs m ls m1 m2 :
  spec_run cs m ls m1 → spec_run_roomy ls m m2 → m2 = m1.
Proof.
  intros H. revert m2. induction H as [m|c cs m r m1 ls m2 Hs Hr IH]; intros m' H'.
  { by inversion H'. }
  destruct (logged c r) eqn:E.
  - inversion H' as [|? ? ? r' m1' ? Hs' Hr' Hrest]; subst.
    assert (m1' = m1) as -> by (eapply spec_step_det; eauto using logged_not_oom).
    by apply IH.
  - apply spec_not_logged in Hs as ->; [|done]. by apply IH.
Qed.

Lemma spec_run_incl cs m ls m' : spec_run cs m ls m' → ∀ c, c ∈ ls → c ∈ cs.
Proof.
  induction 1 as [m|c cs m r m1 ls m2 Hs Hr IH]; intros c' Hc'; [done|].
  destruct (logged c r); [|right; by apply IH].
  apply elem_of_cons in Hc' as [->|?]; [left|right; by apply IH].
Qed.

Section recovery.
Context {U L : Type} `{!ArenaChain U, !PmrLib L, !PmrLibOk L}.
Abbreviation env := (Env U L).
Implicit Types e : env.

(** ** Runs of the engine *)

(** The commands with the times at which they execute; the replies in order. *)
Fixpoint run_commands (cmds : list (Z * ICommand)) e : list string * env :=
  match cmds with
  | [] => ([], e)
  | (now, c) :: cmds =>
    match execute now c e with
    | (Normal r, e') => let '(rs, e'') := run_commands cmds e' in (r :: rs, e'')
    | (Throw _, e') => run_commands cmds e'
    end
  end.

(** No entry of [e] that is not a tombstone expires up to [T]. *)
Definition fresh (T : Z) e : Prop :=
  ∀ k x, router_find (router e) k = Some x → tombstoned x = true ∨ is_expired T x = false.

(** The command stores nothing that expires between [now] and [T]. *)
Definition ttl_ok (T now : Z) (c : ICommand) : Prop :=
  now <= T ∧ (may_oom c = true → command_ttl c < 0 ∨ duration_seconds (T - now) < command_ttl c).

(** The command comes from the factory, and text mode can read its text. *)
Definition replayable (c : ICommand) : Prop := command_wf c = true ∧ has_no_SUB (serialize c) = true.

Lemma fresh_find_live T now e k :
  fresh T e → now <= T → find_live now (router e) k = find_live T (router e) k.
Proof.
  intros Hf Hn. unfold find_live. simpl. destruct (router_find (router e) k) as [x|] eqn:E; [|done].
  simpl. unfold live. destruct (Hf k x E) as [->|Hx]; [done|].
  rewrite Hx. destruct (is_expired now x) eqn:Hx'; [|done].
  apply (is_expired_mono now T) in Hx'; [congruence|done].
Qed.

Lemma fresh_models T now e m : fresh T e → now <= T → models now e m ↔ models T e m.
Proof.
  intros Hf Hn. unfold models. split; intros H k; specialize (H k);
    rewrite ?(fresh_find_live T now) in * by done; done.
Qed.

Lemma fresh_make T now v ttl :
  ttl < 0 ∨ duration_seconds (T - now) < ttl →
  is_expired T (CacheAlignedValue_make now v ttl) = false.
Proof.
  unfold is_expired. simpl. intros [H|H]; [by rewrite (proj2 (Z.ltb_lt _ _))|].
  destruct (ttl <? 0); [done|]. by apply Z.leb_gt.
Qed.

Lemma execute_fresh T now c e :
  env_wf e → fresh T e → ttl_ok T now c → fresh T (execute now c e).2.
Proof.
  intros Hw Hf [_ Ht] k x Hx.
  destruct (execute_entries now c e Hw k x Hx) as [H|[H|[[Hm [v ->]]|(v & y & Hy & ->)]]].
  - by eapply Hf.
  - by left.
  - right. by apply fresh_make, Ht.
  - destruct (Hf k y Hy) as [?|?]; [by left|by right].
Qed.

(** ** The logger during a run *)

Definition logging (a : option AofLogger) (lines : list string) : Prop :=
  ∃ l, a = Some l ∧ running_ l = true ∧ is_replaying_ l = false ∧ pending l = lines.

Lemma logging_log a lines line :
  logging a lines → logging (aof_log line a) (lines ++ [line]).
Proof.
  intros (l & -> & Hr & Hp & <-). exists (log line l).
  unfold aof_log, is_replaying. rewrite Hp. simpl. split; [done|].
  rewrite pending_log by done. unfold log. rewrite Hr. by destruct l as [? ? ? ? ? ? [] ? ?].
Qed.

Lemma run_commands_wf cmds e : env_wf e → env_wf (run_commands cmds e).2.
Proof.
  revert e. induction cmds as [|[now c] cmds IH]; intros e Hw; [done|]. simpl.
  destruct (execute_view now c e Hw) as (rep & e' & -> & _ & _ & Hw'). specialize (IH e' Hw').
  by destruct (run_commands cmds e').
Qed.

Lemma run_commands_capacities cmds e :
  env_wf e → capacities (router (run_commands cmds e).2) = capacities (router e).
Proof.
  revert e. induction cmds as [|[now c] cmds IH]; intros e Hw; [done|]. simpl.
  assert (Hc : capacities (router (execute now c e).2) = capacities (router e)).
  { destruct (execute_stepped now c e) as [->|(key & s & -> & Hs)]; [done|].
    apply set_shard_capacities; [apply Hw|done]. }
  destruct (execute_view now c e Hw) as (rep & e' & He & _ & _ & Hw'). rewrite He in *. simpl in Hc.
  specialize (IH e' Hw'). destruct (run_commands cmds e'). simpl in *. congruence.
Qed.

Lemma run_commands_spec T cmds e m lines :
  env_wf e → fresh T e → models T e m → logging (aof e) lines →
  Forall (λ p, ttl_ok T p.1 p.2) cmds →
  ∃ ls m', spec_run (cmds.*2) m ls m' ∧ models T (run_commands cmds e).2 m' ∧
    logging (aof (run_commands cmds e).2) (lines ++ map serialize ls).
Proof.
  intros Hw Hf Hm Hl Hc. revert e m lines Hw Hf Hm Hl.
  induction Hc as [|[now c] cmds Ht Hc IH]; intros e m lines Hw Hf Hm Hl; simpl.
  { exists [], m. rewrite app_nil_r. split_and!; [constructor|done|done]. }
  pose proof (execute_fresh T now c e Hw Hf Ht) as Hf'.
  destruct Ht as [Hn _]. simpl in Hn.
  apply (fresh_models T now) in Hm; [|done|done].
  destruct (execute_simulates now c e m Hw Hm) as (r & e' & m1 & Hx & _ & Hs & Hm1 & Hw' & Ha).
  rewrite Hx in *. simpl in Hf'. apply (fresh_models T now) in Hm1; [|done|done].
  destruct (IH e' m1 (if logged c r then lines ++ [serialize c] else lines) Hw' Hf' Hm1)
    as (ls & m' & Hrun & Hm' & Hl').
  { rewrite Ha. destruct (logged c r); [by apply logging_log|done]. }
  exists (if logged c r then c :: ls else ls), m'.
  destruct (run_commands cmds e') as [rs e'']. simpl in *.
  split_and!; [by econstructor|done|].
  destruct (logged c r); [|done]. simpl. by rewrite <-app_assoc in Hl'.
Qed.

(** ** Runs without refusal, whatever the logger does *)

Lemma encode_inj r r' : wf_reply r = true → wf_reply r' = true → encode r = encode r' → r = r'.
Proof.
  intros H H' He. pose proof (decode_encode_app r EmptyString H) as D.
  pose proof (decode_encode_app r' EmptyString H') as D'.
  rewrite !string_app_nil_r in *. congruence.
Qed.

Lemma run_commands_roomy T cmds e m :
  env_wf e → fresh T e → models T e m →
  Forall (λ p, ttl_ok T p.1 p.2) cmds →
  oom_reply ∉ (run_commands cmds e).1 →
  ∃ m', spec_run_roomy (cmds.*2) m m' ∧ models T (run_commands cmds e).2 m'.
Proof.
  intros Hw Hf Hm Hc Hn. revert e m Hw Hf Hm Hn.
  induction Hc as [|[now c] cmds Ht Hc IH]; intros e m Hw Hf Hm Hno; simpl in *.
  { exists m. split; [constructor|done]. }
  pose proof (execute_fresh T now c e Hw Hf Ht) as Hf'.
  destruct Ht as [Hn _]. simpl in Hn.
  apply (fresh_models T now) in Hm; [|done|done].
  destruct (execute_simulates now c e m Hw Hm) as (r & e' & m1 & Hx & Hr & Hs & Hm1 & Hw' & _).
  rewrite Hx in *. simpl in Hf'. apply (fresh_models T now) in Hm1; [|done|done].
  destruct (run_commands cmds e') as [rs e''] eqn:Erun. simpl in Hno.
  apply not_elem_of_cons in Hno as [Hr0 Hno].
  specialize (IH e' m1 Hw' Hf' Hm1). rewrite Erun in IH. simpl in IH.
  destruct (IH Hno) as (m' & Hrun & Hm').
  exists m'. split; [|done]. econstructor; eauto.
  intros ->. by apply Hr0.
Qed.

(** ** The replay loop is a run of the parsed lines *)

Definition timed (clock : nat → Z) (i : nat) (cs : list ICommand) : list (Z * ICommand) :=
  imap (λ j c, (clock (i + j)%nat, c)) cs.

Lemma timed_cons clock i c cs : timed clock i (c :: cs) = (clock i, c) :: timed clock (S i) cs.
Proof.
  unfold timed. rewrite imap_cons, Nat.add_0_r. f_equal. apply imap_ext. intros. simpl.
  by rewrite Nat.add_succ_r.
Qed.

Lemma timed_snd clock i cs : (timed clock i cs).*2 = cs.
Proof.
  revert i. induction cs as [|c cs IH]; intros i; [done|]. rewrite timed_cons. simpl. by rewrite IH.
Qed.

Lemma timed_Forall clock i cs (P : Z * ICommand → Prop) :
  (∀ j c, c ∈ cs → P (clock j, c)) → Forall P (timed clock i cs).
Proof.
  revert i. induction cs as [|c cs IH]; intros i H; [constructor|].
  rewrite timed_cons. constructor; [apply H; by left|]. apply IH. intros. apply H. by right.
Qed.

Lemma replay_loop_run clock i cs n e :
  Forall (λ c, command_wf c = true) cs →
  replay_loop clock i (map serialize cs) n e =
  (n + Z.of_nat (length cs), (run_commands (timed clock i cs) e).2).
Proof.
  intros H. revert i n e. induction H as [|c cs Hc _ IH]; intros i n e.
  { simpl. f_equal. lia. }
  rewrite timed_cons. cbn [map replay_loop run_commands length].
  assert (replay_line (clock i) (serialize c) e = (true, (execute (clock i) c e).2)) as ->.
  { unfold replay_line. rewrite parse_serialize by done.
    pose proof (tokenize_serialize c Hc) as Ht. by destruct (serialize c); [destruct c|]. }
  rewrite IH. f_equal; [lia|].
  destruct (execute (clock i) c e) as [[r|x] e']; [|done]. simpl.
  by destruct (run_commands _ e').
Qed.

Lemma models_aof now e a m : models now (MkEnv (router e) a) m ↔ models now e m.
Proof. done. Qed.

(** The whole path: run, write the log, read it back, replay. *)
Lemma replay_same_map T cmds clock e0 e1 m :
  env_wf e0 → fresh T e0 → models T e0 m → logging (aof e0) [] →
  env_wf e1 → fresh T e1 → models T e1 m →
  Forall (λ p, ttl_ok T p.1 p.2 ∧ replayable p.2 ∧ ∀ i, ttl_ok T (clock i) p.2) cmds →
  let e0' := (run_commands cmds e0).2 in
  ∀ l, aof e0' = Some l →
  let text := lines_text (pending l) in
  let cs := omap (λ line, CommandFactory_parse (tokenize line)) (getlines (text_in text)) in
  oom_reply ∉ (run_commands (timed clock 0 cs) (env_set_replaying true e1)).1 →
  ∃ m', models T e0' m' ∧ models T (replay clock (Some text) e1).2 m'.
Proof.
  intros Hw0 Hf0 Hm0 Hl0 Hw1 Hf1 Hm1 Hcmds e0' l Hl text cs Hno.
  destruct (run_commands_spec T cmds e0 m [] Hw0 Hf0 Hm0 Hl0) as (ls & m' & Hrun & Hm' & Hlog).
  { eapply Forall_impl; [exact Hcmds|]. by intros ? []. }
  destruct Hlog as (l' & Hl' & _ & _ & Hp). fold e0' in Hl', Hm'. rewrite Hl in Hl'.
  injection Hl' as <-. simpl in Hp.
  assert (∀ c, c ∈ ls → replayable c ∧ ∀ i, ttl_ok T (clock i) c) as Hls.
  { intros c Hc. eapply spec_run_incl in Hc; [|exact Hrun].
    apply list_elem_of_fmap in Hc as ([now c'] & -> & Hc).
    by destruct (proj1 (Forall_forall _ _) Hcmds _ Hc) as (_ & ? & ?). }
  assert (Forall (λ c, command_wf c = true) ls) as Hwf.
  { apply Forall_forall. intros c Hc. by apply Hls. }
  assert (Forall (λ c, has_no_SUB (serialize c) = true) ls) as Hsub.
  { apply Forall_forall. intros c Hc. by apply Hls. }
  assert (getlines (text_in text) = map serialize ls) as Hlines.
  { assert (text = lines_text (map serialize ls)) as -> by (unfold text; by rewrite Hp).
    unfold lines_text. rewrite map_map, text_in_lines, <-(map_map serialize (λ c, c +:+ String LF EmptyString)) by done.
    apply getlines_concat. apply Forall_map.
    eapply Forall_impl; [exact Hwf|]. apply serialize_no_LF. }
  assert (cs = ls) as Hcs.
  { unfold cs. rewrite Hlines. clear -Hwf. induction Hwf as [|c ls Hc _ IH]; [done|].
    simpl. rewrite parse_serialize by done. f_equal. exact IH. }
  rewrite Hcs in Hno.
  destruct (run_commands_roomy T (timed clock 0 ls) (env_set_replaying true e1) m Hw1 Hf1 Hm1)
    as (m2 & Hroomy & Hm2); [|done|].
  { apply timed_Forall. intros j c Hc. by apply Hls. }
  rewrite timed_snd in Hroomy.
  assert (m2 = m') as -> by (by eapply spec_replay).
  exists m'. split; [done|]. unfold replay. rewrite Hlines, replay_loop_run by done. exact Hm2.
Qed.
End recovery.
