(* ===== verification/TimingWheel.v ===== *)
(** * The timing wheel ([include/daemons/timing_wheel.h], [src/daemons/timing_wheel.cpp])

    A ring of 86400 buckets, one per second.  [schedule] files a key under its
    expiry second; each tick takes one bucket and asks the store to evict its
    keys, logging a [DEL] for each eviction.  The wheel works on any
    [KeyStore]: the server gives it the shard router. *)

From S2P Require Import Prelude MachineInt Value KeyStore Aof Command.

Local Open Scope Z_scope.

Definition WHEEL_SIZE : Z := 86400.

Record Entry := MkEntry { entry_key : string; entry_shard_index : Z }.

(** [std::array<std::vector<Entry>, WHEEL_SIZE>]: a missing index is an empty bucket. *)
Record TimingWheel := MkWheel {
  buckets_ : gmap Z (list Entry);
  wheel_running_ : bool;
  start_time_ : Z;
  current_tick_ : Z;
}.

Definition bucket (w : TimingWheel) (i : Z) : list Entry := default [] (buckets_ w !! i).

Definition TimingWheel_make (now : Z) : TimingWheel := MkWheel ∅ false now 0.

(** [start()] without the creation of the thread. *)
Definition wheel_start (now : Z) (w : TimingWheel) : TimingWheel := MkWheel (buckets_ w) true now 0.

(** [stop()]: [true] when it was running. *)
Definition wheel_stop (w : TimingWheel) : bool * TimingWheel :=
  (wheel_running_ w, MkWheel (buckets_ w) false (start_time_ w) (current_tick_ w)).

Definition time_to_bucket (w : TimingWheel) (expiry : Z) : Z :=
  let delta := duration_seconds (expiry - start_time_ w) in
  let delta := if delta <? 0 then 0 else delta in
  u64 delta mod WHEEL_SIZE.

(** The shard index argument is ignored by the code. *)
Definition schedule (key : string) (shard_index : Z) (expiry : Z) (w : TimingWheel) : TimingWheel :=
  let b := time_to_bucket w expiry in
  MkWheel (<[b := bucket w b ++ [MkEntry key 0]]> (buckets_ w)) (wheel_running_ w) (start_time_ w)
    (current_tick_ w).

(** The part of [advance_tick] under the wheel's mutex: the entries taken. *)
Definition take_bucket (w : TimingWheel) : list Entry * TimingWheel :=
  let idx := current_tick_ w mod WHEEL_SIZE in
  (bucket w idx,
   MkWheel (<[idx := []]> (buckets_ w)) (wheel_running_ w) (start_time_ w) (u64 (current_tick_ w + 1))).

Section sweep.
Context {S : Type} `{!KeyStore S}.

(** One iteration of the loop over the expired entries. *)
Definition sweep_entry (now : Z) (e : Entry) (st : S * option AofLogger) : S * option AofLogger :=
  let '(s, a) := st in
  let '(evicted, s') := ks_evict_expired now (entry_key e) s in
  (s', if (evicted : bool) then aof_log ("DEL " +:+ entry_key e) a else a).

Fixpoint sweep (now : Z) (expired : list Entry) (st : S * option AofLogger) : S * option AofLogger :=
  match expired with
  | [] => st
  | e :: expired => sweep now expired (sweep_entry now e st)
  end.

Definition advance_tick (now : Z) (w : TimingWheel) (st : S * option AofLogger) :
    TimingWheel * (S * option AofLogger) :=
  let '(expired, w') := take_bucket w in (w', sweep now expired st).

(** The sweeper loop: one tick per second; the list gives the time of each tick. *)
Fixpoint sweeper_loop (times : list Z) (w : TimingWheel) (st : S * option AofLogger) :
    TimingWheel * (S * option AofLogger) :=
  match times with
  | [] => (w, st)
  | now :: times => let '(w', st') := advance_tick now w st in sweeper_loop times w' st'
  end.
End sweep.

(** ** Buckets *)

Lemma bucket_insert w b l i run st t :
  bucket (MkWheel (<[b := l]> (buckets_ w)) run st t) i = if bool_decide (b = i) then l else bucket w i.
Proof. unfold bucket. simpl. rewrite lookup_insert. by case_bool_decide; case_decide. Qed.

Lemma time_to_bucket_range w expiry : 0 <= time_to_bucket w expiry < WHEEL_SIZE.
Proof. apply Z.mod_pos_bound. done. Qed.

(** An expiry less than a day after the start gets the bucket of its second. *)
Lemma time_to_bucket_second w expiry :
  0 <= expiry - start_time_ w < WHEEL_SIZE * nanos_per_second →
  time_to_bucket w expiry = (expiry - start_time_ w) / nanos_per_second.
Proof.
  unfold time_to_bucket, duration_seconds, WHEEL_SIZE, nanos_per_second. intros H.
  rewrite Z.quot_div_nonneg by lia.
  set (d := (expiry - start_time_ w) / 1000000000).
  assert (0 <= d < 86400) by (subst d; split; [apply Z.div_pos|apply Z.div_lt_upper_bound]; lia).
  rewrite (proj2 (Z.ltb_ge _ _)) by lia. rewrite u64_small by (split; lia). apply Z.mod_small. lia.
Qed.

Section sweep_facts.
Context {S : Type} `{!KeyStore S, !KeyStoreLaws S}.
Implicit Types (s : S) (st : S * option AofLogger).

Lemma sweep_entry_find now e st k :
  ks_wf st.1 →
  ks_find (sweep_entry now e st).1 k =
  if bool_decide (entry_key e = k) then find_live now st.1 k else ks_find st.1 k.
Proof.
  intros Hw. destruct st as [s a]. unfold sweep_entry.
  pose proof (law_evict now (entry_key e) s k Hw) as H.
  destruct (ks_evict_expired now (entry_key e) s) as [b s']. simpl in *. rewrite H.
  by case_bool_decide; subst.
Qed.

Lemma sweep_entry_wf now e st : ks_wf st.1 → ks_wf (sweep_entry now e st).1.
Proof.
  intros Hw. destruct st as [s a]. unfold sweep_entry.
  pose proof (law_wf_evict now (entry_key e) s Hw) as H. by destruct (ks_evict_expired _ _ _).
Qed.

Lemma sweep_wf now expired st : ks_wf st.1 → ks_wf (sweep now expired st).1.
Proof. revert st. induction expired; intros st Hw; [done|]. by apply IHexpired, sweep_entry_wf. Qed.

(** After a sweep, a key that was in the bucket is stored only if it is live;
    the others are untouched. *)
Lemma sweep_find now expired st k :
  ks_wf st.1 →
  ks_find (sweep now expired st).1 k =
  if bool_decide (k ∈ map entry_key expired) then find_live now st.1 k else ks_find st.1 k.
Proof.
  revert st. induction expired as [|e expired IH]; intros st Hw; [done|]. simpl.
  rewrite IH by by apply sweep_entry_wf.
  assert (find_live now (sweep_entry now e st).1 k = find_live now st.1 k) as Hl.
  { clear IH. unfold find_live. rewrite sweep_entry_find by done. case_bool_decide; [|done].
    unfold find_live. destruct (ks_find st.1 k) as [x|]; [|done]. simpl.
    destruct (live now x) eqn:E; [|done]. simpl. by rewrite E. }
  rewrite Hl, sweep_entry_find by done. clear IH Hl.
  destruct (decide (k ∈ map entry_key expired)).
  - rewrite !bool_decide_eq_true_2; [done|by right|done].
  - rewrite (bool_decide_eq_false_2 (k ∈ map _ _)) by done.
    case_bool_decide as He.
    + rewrite bool_decide_eq_true_2; [done|]. subst k. by left.
    + rewrite bool_decide_eq_false_2; [done|]. intros [->|?]%elem_of_cons; done.
Qed.

(** ** Several ticks *)

Lemma sweeper_loop_app times times' w st :
  sweeper_loop (times ++ times') w st =
  let '(w', st') := sweeper_loop times w st in sweeper_loop times' w' st'.
Proof.
  revert w st. induction times as [|now times IH]; intros w st; [done|]. simpl.
  destruct (advance_tick now w st) as [w1 st1]. apply IH.
Qed.

Lemma advance_tick_eq now w st :
  advance_tick now w st = ((take_bucket w).2, sweep now (take_bucket w).1 st).
Proof. done. Qed.

Lemma sweeper_loop_wf times w st : ks_wf st.1 → ks_wf (sweeper_loop times w st).2.1.
Proof.
  revert w st. induction times as [|now times IH]; intros w st Hw; [done|]. simpl.
  by apply IH, sweep_wf.
Qed.

(** A bucket waits, unchanged, until the wheel reaches it. *)
Lemma sweeper_loop_waits times w st b :
  0 <= current_tick_ w → current_tick_ w + Z.of_nat (length times) <= b < WHEEL_SIZE →
  let w' := (sweeper_loop times w st).1 in
  bucket w' b = bucket w b ∧ current_tick_ w' = current_tick_ w + Z.of_nat (length times).
Proof.
  cbv zeta. revert w st. induction times as [|now times IH]; intros w st H0 Hb.
  { split; [done|]. simpl. lia. }
  cbn [length] in *. cbn [sweeper_loop]. rewrite advance_tick_eq. cbv beta iota. unfold WHEEL_SIZE in *.
  assert (current_tick_ (take_bucket w).2 = current_tick_ w + 1) as Ht.
  { simpl. apply u64_small. split; lia. }
  destruct (IH (take_bucket w).2 (sweep now (take_bucket w).1 st)) as [IH1 IH2]; [rewrite Ht; lia..|].
  rewrite IH1, IH2, Ht. split; [|lia].
  unfold take_bucket. cbn [snd]. rewrite bucket_insert. unfold WHEEL_SIZE.
  rewrite Z.mod_small by lia. by rewrite bool_decide_eq_false_2 by lia.
Qed.

(** Sweeping never changes what readers see later. *)
Lemma sweep_find_live now now' expired st k :
  ks_wf st.1 → now <= now' → find_live now' (sweep now expired st).1 k = find_live now' st.1 k.
Proof.
  intros Hw Hn. unfold find_live at 1. rewrite sweep_find by done. case_bool_decide; [|done].
  unfold find_live. destruct (ks_find st.1 k) as [x|]; [|done]. simpl.
  destruct (live now x) eqn:E; [done|]. simpl.
  destruct (live now' x) eqn:E'; [|done]. by rewrite (live_mono now now') in E.
Qed.

Lemma sweeper_loop_find_live times T w st k :
  ks_wf st.1 → Forall (λ now, now <= T) times →
  find_live T (sweeper_loop times w st).2.1 k = find_live T st.1 k.
Proof.
  intros Hw Ht. revert w st Hw. induction Ht as [|now times Hn Ht IH]; intros w st Hw; [done|].
  simpl. rewrite IH by by apply sweep_wf. by apply sweep_find_live.
Qed.

(** The tick that reaches a bucket leaves none of its dead keys in the store. *)
Lemma sweeper_loop_evicts times now w st b e :
  ks_wf st.1 → e ∈ bucket w b → 0 <= current_tick_ w →
  current_tick_ w + Z.of_nat (length times) = b → b < WHEEL_SIZE →
  ∀ x, ks_find (sweeper_loop (times ++ [now]) w st).2.1 (entry_key e) = Some x → live now x = true.
Proof.
  intros Hw He H0 Hb Hlt x. rewrite sweeper_loop_app.
  destruct (sweeper_loop_waits times w st b) as [Hbk Htk]; [done|lia|].
  pose proof (sweeper_loop_wf times w st Hw) as Hw'.
  destruct (sweeper_loop times w st) as [w' st']. cbn [fst snd] in *.
  cbn [sweeper_loop]. rewrite advance_tick_eq. cbn [fst snd].
  rewrite sweep_find by done. unfold take_bucket. cbn [fst].
  rewrite Htk, Hb, Z.mod_small by lia. rewrite Hbk.
  rewrite bool_decide_eq_true_2 by (apply list_elem_of_fmap; eauto).
  unfold find_live. destruct (ks_find st'.1 (entry_key e)) as [y|]; [|done]. simpl.
  destruct (live now y) eqn:E; [|done]. by intros [= <-].
Qed.

(** A wheel nobody schedules on sweeps nothing. *)
Lemma sweeper_loop_idle times w st :
  (∀ i, bucket w i = []) →
  (sweeper_loop times w st).2 = st ∧ (∀ i, bucket (sweeper_loop times w st).1 i = []).
Proof.
  revert w st. induction times as [|now times IH]; intros w st Hb; [done|]. simpl.
  rewrite Hb. apply IH. intros i. unfold take_bucket. rewrite bucket_insert. by case_bool_decide.
Qed.
End sweep_facts.
