(* ===== verification/WorkerPool.v ===== *)
(** * The worker pool ([include/core/worker_pool.h], [src/core/worker_pool.cpp])

    A bounded task queue under a mutex, worker threads that take tasks, execute
    them and post results to the completion queue, and a shutdown that lets the
    workers drain the queue before they return.

    The member functions are definitions; [pool_step] interleaves them with the
    workers, each worker being at one of the points of [worker_loop] between two
    critical sections.  What a command does is the interface [Executor]. *)

From S2P Require Import Prelude MachineInt.

Local Open Scope Z_scope.

(** [command->execute(router, aof)]: the time, the command, the engine. *)
Class Executor (C St : Type) := exec_command : Z → C → St → string * St.

Record Task (C : Type) := MkTask { command : C; client_fd : Z; sequence_id : Z }.
Arguments MkTask {C} _ _ _.
Arguments command {C} _.
Arguments client_fd {C} _.
Arguments sequence_id {C} _.

Record TaskResult := MkResult { result_fd : Z; result_seq : Z; response : string }.

(** Tasks executed, in order, with their times and responses. *)
Abbreviation history_of C := (list (Z * Task C * string)).

(** ** CompletionQueue *)

Definition completion_push (r : TaskResult) (q : list TaskResult) : list TaskResult := q ++ [r].

(** [drain(out)]: pops the front into [out] until the queue is empty. *)
Fixpoint completion_drain (out q : list TaskResult) : list TaskResult * list TaskResult :=
  match q with
  | [] => (out, [])
  | r :: q => completion_drain (out ++ [r]) q
  end.

(** ** WorkerPool *)

Record WorkerPool (C : Type) := MkPool {
  max_queue_size_ : Z;
  pool_running_ : bool;
  queue_ : list (Task C);
  completion_queue_ : list TaskResult;
}.
Arguments MkPool {C} _ _ _ _.
Arguments max_queue_size_ {C} _.
Arguments pool_running_ {C} _.
Arguments queue_ {C} _.
Arguments completion_queue_ {C} _.

Definition default_max_queue_size : Z := 10000.

Section pool.
Context {C : Type}.
Implicit Types p : WorkerPool C.

Definition WorkerPool_make (max_queue_size : Z) : WorkerPool C := MkPool max_queue_size true [] [].

Definition queue_size p : Z := Z.of_nat (length (queue_ p)).

Definition is_full p : bool := max_queue_size_ p <=? queue_size p.

Definition set_queue (q : list (Task C)) p : WorkerPool C :=
  MkPool (max_queue_size_ p) (pool_running_ p) q (completion_queue_ p).

Definition set_completion (q : list TaskResult) p : WorkerPool C :=
  MkPool (max_queue_size_ p) (pool_running_ p) (queue_ p) q.

Definition submit (task : Task C) p : bool * WorkerPool C :=
  if negb (pool_running_ p) || (max_queue_size_ p <=? queue_size p) then (false, p)
  else (true, set_queue (queue_ p ++ [task]) p).

Definition push_result (r : TaskResult) p : WorkerPool C :=
  set_completion (completion_push r (completion_queue_ p)) p.

Definition drain_results p : list TaskResult * WorkerPool C :=
  let '(out, q) := completion_drain [] (completion_queue_ p) in (out, set_completion q p).

(** [shutdown()] up to the joins: [false] when it was already called. *)
Definition pool_stop p : bool * WorkerPool C :=
  (pool_running_ p, MkPool (max_queue_size_ p) false (queue_ p) (completion_queue_ p)).
End pool.

(** What a client does to a pool: it submits a task, posts a result of its own or
    drains the results; the second component lists the accepted tasks. *)
Inductive client_step {C} : WorkerPool C * list (Task C) → WorkerPool C * list (Task C) → Prop :=
| client_submit t ok p p' acc :
    submit t p = (ok, p') → client_step (p, acc) (p', if (ok : bool) then acc ++ [t] else acc)
| client_reject r p acc : client_step (p, acc) (push_result r p, acc)
| client_drain p acc : client_step (p, acc) ((drain_results p).2, acc).

(** ** The workers *)

(** Where a worker is: waiting on the condition variable, holding a task,
    holding a response, returned. *)
Inductive worker (C : Type) :=
| Waiting
| Executing (t : Task C)
| Posting (t : Task C) (r : string)
| Exited.
Arguments Waiting {C}.
Arguments Executing {C} _.
Arguments Posting {C} _ _.
Arguments Exited {C}.

Record pool_state (C St : Type) := PoolState {
  pool : WorkerPool C;
  workers : list (worker C);
  engine : St;
  accepted_tasks : list (Task C);   (* ghost: submitted successfully, in order *)
  taken_tasks : list (Task C);      (* ghost: dequeued, in order *)
  posted_tasks : list (Task C);     (* ghost: result posted, in order *)
}.
Arguments PoolState {C St} _ _ _ _ _ _.
Arguments pool {C St} _.
Arguments workers {C St} _.
Arguments engine {C St} _.
Arguments accepted_tasks {C St} _.
Arguments taken_tasks {C St} _.
Arguments posted_tasks {C St} _.

Section steps.
Context {C St : Type} `{!Executor C St}.

Definition pool_started (threads : nat) (max : Z) (s : St) : pool_state C St :=
  PoolState (WorkerPool_make max) (replicate threads Waiting) s [] [] [].

(** The steps of [worker_loop]. *)
Inductive worker_step : pool_state C St → pool_state C St → Prop :=
| step_take i t q p ws s acc tk po :
    ws !! i = Some Waiting → queue_ p = t :: q →
    worker_step (PoolState p ws s acc tk po)
      (PoolState (set_queue q p) (<[i := Executing t]> ws) s acc (tk ++ [t]) po)
| step_return i p ws s acc tk po :
    ws !! i = Some Waiting → pool_running_ p = false → queue_ p = [] →
    worker_step (PoolState p ws s acc tk po) (PoolState p (<[i := Exited]> ws) s acc tk po)
| step_execute i t now p ws s acc tk po r s' :
    ws !! i = Some (Executing t) → exec_command now (command t) s = (r, s') →
    worker_step (PoolState p ws s acc tk po) (PoolState p (<[i := Posting t r]> ws) s' acc tk po)
| step_post i t r p ws s acc tk po :
    ws !! i = Some (Posting t r) →
    worker_step (PoolState p ws s acc tk po)
      (PoolState (push_result (MkResult (client_fd t) (sequence_id t) r) p) (<[i := Waiting]> ws) s acc tk
         (po ++ [t])).

(** The steps of the pool and of its clients. *)
Inductive pool_step : pool_state C St → pool_state C St → Prop :=
| step_worker st st' : worker_step st st' → pool_step st st'
| step_submit t p ws s acc tk po ok p' :
    submit t p = (ok, p') →
    pool_step (PoolState p ws s acc tk po)
      (PoolState p' ws s (if (ok : bool) then acc ++ [t] else acc) tk po)
| step_reject r p ws s acc tk po :
    (* the pipeline posts an error reply itself *)
    pool_step (PoolState p ws s acc tk po) (PoolState (push_result r p) ws s acc tk po)
| step_drain p ws s acc tk po :
    pool_step (PoolState p ws s acc tk po) (PoolState (drain_results p).2 ws s acc tk po)
| step_shutdown p ws s acc tk po :
    pool_step (PoolState p ws s acc tk po) (PoolState (pool_stop p).2 ws s acc tk po).

(** The task a worker holds. *)
Definition held (w : worker C) : list (Task C) :=
  match w with
  | Executing t | Posting t _ => [t]
  | Waiting | Exited => []
  end.

Definition in_flight (ws : list (worker C)) : list (Task C) := ws ≫= held.

Record pool_inv (max : Z) (n : nat) (st : pool_state C St) : Prop := {
  inv_max : max_queue_size_ (pool st) = max;
  inv_bound : queue_size (pool st) <= max;
  inv_fifo : accepted_tasks st = taken_tasks st ++ queue_ (pool st);
  inv_once : taken_tasks st ≡ₚ posted_tasks st ++ in_flight (workers st);
  inv_workers : length (workers st) = n;
  inv_exited : Exited ∈ workers st → pool_running_ (pool st) = false ∧ queue_ (pool st) = [];
}.

(** ** Lemmas *)

Lemma completion_drain_eq out q : completion_drain out q = (out ++ q, []).
Proof.
  revert out. induction q as [|r q IH]; intros out; simpl; [by rewrite app_nil_r|].
  by rewrite IH, <-app_assoc.
Qed.

Lemma in_flight_insert ws i w w' :
  ws !! i = Some w → in_flight (<[i := w']> ws) ++ held w ≡ₚ in_flight ws ++ held w'.
Proof. apply list_bind_insert. Qed.

Lemma in_flight_step ws i w w' :
  ws !! i = Some w → held w = held w' → in_flight (<[i := w']> ws) ≡ₚ in_flight ws.
Proof.
  intros Hi Hw. pose proof (in_flight_insert ws i w w' Hi) as H. rewrite Hw in H.
  by apply (inj (.++ held w')) in H.
Qed.

Lemma pool_inv_started n max s : 0 <= max → pool_inv max n (pool_started n max s).
Proof.
  intros Hm. split; simpl; try done.
  - replace (in_flight (replicate n Waiting)) with (@nil (Task C)); [done|].
    induction n; [done|]. simpl. done.
  - by rewrite length_replicate.
  - intros [? _]%elem_of_replicate. done.
Qed.

(** A worker that moves between two points other than [Exited]. *)
Lemma exited_insert (ws : list (worker C)) i w w' :
  ws !! i = Some w → w' ≠ Exited → Exited ∈ <[i := w']> ws → Exited ∈ ws.
Proof.
  intros Hi Hw' [j Hj]%list_elem_of_lookup. apply list_elem_of_lookup.
  destruct (decide (i = j)) as [->|].
  - rewrite list_lookup_insert_eq in Hj by (by eapply lookup_lt_Some). congruence.
  - rewrite list_lookup_insert_ne in Hj by done. eauto.
Qed.

Lemma pool_inv_submit max n t p ws s acc tk po ok p' :
  submit t p = (ok, p') → pool_inv max n (PoolState p ws s acc tk po) →
  pool_inv max n (PoolState p' ws s (if (ok : bool) then acc ++ [t] else acc) tk po).
Proof.
  unfold submit. destruct (negb (pool_running_ p) || _) eqn:E; intros [= <- <-] [Hm Hb Hf Ho Hw He];
    simpl in *; [by split|].
  bool_to_prop. unfold queue_size in *. split; simpl; try done.
  - unfold queue_size. simpl. rewrite length_app. simpl. lia.
  - by rewrite Hf, app_assoc.
  - intros Hx. destruct (He Hx). congruence.
Qed.

Lemma worker_step_inv max n st st' : worker_step st st' → pool_inv max n st → pool_inv max n st'.
Proof.
  intros Hs Hi. destruct Hs as [i t q p ws s acc tk po Hi' Hq
    |i p ws s acc tk po Hi' Hr Hq|i t now p ws s acc tk po r s' Hi' Hx|i t r p ws s acc tk po Hi'].
  - destruct Hi as [Hm Hb Hf Ho Hw He]. unfold queue_size in *. simpl in *. rewrite Hq in *.
    split; simpl; try done.
    + unfold queue_size. simpl in *. lia.
    + by rewrite Hf, <-app_assoc.
    + pose proof (in_flight_insert ws i Waiting (Executing t) Hi') as Hp.
      rewrite app_nil_r in Hp. rewrite Hp, Ho. by rewrite <-app_assoc.
    + by rewrite length_insert.
    + intros Hx. eapply exited_insert in Hx; [|done|done]. by destruct (He Hx).
  - destruct Hi as [Hm Hb Hf Ho Hw He]. split; simpl in *; try done.
    + by rewrite (in_flight_step ws i Waiting Exited).
    + by rewrite length_insert.
  - destruct Hi as [Hm Hb Hf Ho Hw He]. split; simpl in *; try done.
    + by rewrite (in_flight_step ws i (Executing t) (Posting t r)).
    + by rewrite length_insert.
    + intros Hx'. eapply exited_insert in Hx'; [|done|done]. by apply He.
  - destruct Hi as [Hm Hb Hf Ho Hw He]. split; simpl in *; try done.
    + pose proof (in_flight_insert ws i (Posting t r) Waiting Hi') as Hp.
      rewrite app_nil_r in Hp. rewrite Ho, <-Hp. solve_Permutation.
    + by rewrite length_insert.
    + intros Hx'. eapply exited_insert in Hx'; [|done|done]. by apply He.
Qed.

Lemma pool_step_inv max n st st' : pool_step st st' → pool_inv max n st → pool_inv max n st'.
Proof.
  intros Hs Hi. destruct Hs as [st st' Hs|t p ws s acc tk po ok p' Hsub|r p ws s acc tk po
    |p ws s acc tk po|p ws s acc tk po].
  - by eapply worker_step_inv.
  - by eapply pool_inv_submit.
  - destruct Hi as [Hm Hb Hf Ho Hw He]. by split.
  - destruct Hi as [Hm Hb Hf Ho Hw He]. unfold drain_results. rewrite completion_drain_eq. by split.
  - destruct Hi as [Hm Hb Hf Ho Hw He]. split; simpl in *; try done.
    intros Hx. by destruct (He Hx).
Qed.

Lemma pool_reachable_inv threads max s st :
  0 <= max → rtc pool_step (pool_started threads max s) st → pool_inv max threads st.
Proof.
  intros Hm H. eapply rtc_invariant; [|exact H|by apply pool_inv_started]. apply pool_step_inv.
Qed.

Lemma all_exited_in_flight ws : Forall (λ w, w = Exited) ws → in_flight ws = [].
Proof. induction 1 as [|w ws -> _ IH]; [done|]. exact IH. Qed.
End steps.

(** ** Progress of the workers *)

Section progress.
Context {C St : Type} `{!Executor C St}.

(** What is left to do: per worker, and for the pool. *)
Definition worker_work (w : worker C) : nat :=
  match w with Waiting => 1 | Executing _ => 3 | Posting _ _ => 2 | Exited => 0 end.

Definition work_left (st : pool_state C St) : nat :=
  4 * length (queue_ (pool st)) + sum_list_with worker_work (workers st).

(** Every step of a worker uses up some of it. *)
Lemma worker_step_work st st' : worker_step st st' → (work_left st' < work_left st)%nat.
Proof.
  destruct 1 as [i t q p ws s acc tk po Hi Hq|i p ws s acc tk po Hi _ _|i t now p ws s acc tk po r s' Hi _
    |i t r p ws s acc tk po Hi]; unfold work_left; simpl; rewrite ?Hq; simpl;
    match goal with |- context [<[_ := ?w]> _] => pose proof (sum_list_with_insert worker_work ws i _ w Hi) as H end;
    simpl in H; lia.
Qed.

(** A worker that has not returned can move, unless it waits for a task. *)
Lemma worker_can_move i w (st : pool_state C St) :
  workers st !! i = Some w → w ≠ Exited →
  (w = Waiting → queue_ (pool st) = [] → pool_running_ (pool st) = false) → ∃ st', worker_step st st'.
Proof.
  destruct st as [p ws s acc tk po]. simpl. intros Hi Hw Hwait. destruct w as [|t|t r|]; try done.
  - destruct (queue_ p) as [|t q] eqn:Hq; eexists; [by apply (step_return i); auto|by eapply (step_take i)].
  - destruct (exec_command 0 (command t) s) as [r s'] eqn:Hx. eexists. eapply (step_execute i t 0); done.
  - eexists. apply (step_post i t r). done.
Qed.

(** After [shutdown] was called the workers run to their end. *)
Lemma workers_finish (st : pool_state C St) :
  pool_running_ (pool st) = false →
  ∃ st', rtc worker_step st st' ∧ Forall (λ w, w = Exited) (workers st').
Proof.
  intros Hr. destruct (rtc_halts worker_step lt work_left (λ st, pool_running_ (pool st) = false)
    (λ st, Forall (λ w, w = Exited) (workers st)) lt_wf) with (x := st) as (st' & ? & _ & ?); [|done|eauto].
  intros x Hx. destruct (decide (Forall (λ w, worker_work w = 0%nat) (workers x))) as [Hall|Hex].
  - left. eapply Forall_impl; [exact Hall|]. by intros [].
  - right. apply not_Forall_Exists in Hex; [|intros w; apply _].
    apply Exists_exists in Hex as (w & [i Hi]%list_elem_of_lookup & Hw).
    destruct (worker_can_move i w x Hi) as [y Hs]; [intros ->; by apply Hw|done|].
    exists y. split_and!; [done|by destruct Hs|by apply worker_step_work].
Qed.
End progress.
