(* ===== verification/Concurrency.v ===== *)
(** * Commands of several workers: locks, log and file interleaved

    [execute] runs a command as one step.  In the program it is not one: [SET]
    and [DEL] hold their shard's lock during the call of the router only and log
    the command after it was released; [LPUSH] and [HSET] log while they hold the
    lock; the reads hold it shared.  This file cuts [execute] at the unlocking,
    and interleaves the pieces, run by the threads of [WorkerPool::worker_loop],
    with the flush thread and the shutdown of the logger.  One step is one
    critical section: two commands on the same shard exclude each other, and
    pieces that touch different shards and take no other lock commute. *)

From stdpp Require Import gmap strings.
From S2P Require Import Prelude MachineInt Text Resp Pmr Value KeyStore Shard Router Aof Command Spec Refinement Recovery WorkerPool.

Local Open Scope Z_scope.

(** ** Commands cut at the unlocking *)

Section pieces.
Context {U L : Type} `{!ArenaChain U, !PmrLib L}.
Abbreviation env := (Env U L).

(** Up to the unlocking: the reply, and the line that remains to be logged. *)
Definition SetCommand_locked (now : Z) (key value : string) (ttl : Z) :
    SE env OomException (string * option string) :=
  ok ← on_router (ShardRouter_set now key value ttl);
  mret (if (ok : bool) then ("+OK" +:+ crlf, Some (serialize (SetCommand key value ttl))) else (oom_reply, None)).

Definition DelCommand_locked (key : string) : SE env OomException (string * option string) :=
  ok ← on_router (ShardRouter_del key);
  let removed := if (ok : bool) then 1 else 0 in
  mret (int_reply removed, if (ok : bool) then Some (serialize (DelCommand key)) else None).

Definition execute_locked (now : Z) (c : ICommand) : SE env OomException (string * option string) :=
  match c with
  | SetCommand key value ttl => SetCommand_locked now key value ttl
  | DelCommand key => DelCommand_locked key
  | _ => r ← execute now c; mret (r, None)
  end.

(** After it. *)
Definition execute_rest (line : option string) : SE env OomException unit :=
  match line with
  | Some line => env_log line
  | None => mret tt
  end.

(** The pieces make up the command. *)
Lemma execute_split now c e :
  execute now c e = ('(r, line) ← execute_locked now c; _ ← execute_rest line; mret r) e.
Proof.
  assert (Hother : ∀ m : SE env OomException string,
    m e = ('(r, line) ← (r ← m; mret (r, None)); _ ← execute_rest line; mret r) e).
  { intros m. unfold mbind, SE_bind. by destruct (m e) as [[r|x] e']. }
  destruct c; try apply Hother; simpl; unfold SetCommand_execute, SetCommand_locked, DelCommand_execute,
    DelCommand_locked, mbind, SE_bind;
    by destruct (on_router _ e) as [[[]|x] e'].
Qed.
End pieces.

(** ** What a command does to the engine does not depend on the log *)

Section oblivious.
Context {S T : Type}.

(** The outcome of [m] on the state [S] is the same whatever [T] holds. *)
Definition oblivious {E A} (m : SE (S * T) E A) : Prop :=
  ∀ s t t', (m (s, t)).1 = (m (s, t')).1 ∧ (m (s, t)).2.1 = (m (s, t')).2.1.

Lemma oblivious_ret {E A} (a : A) : oblivious (E := E) (mret a).
Proof. done. Qed.

Lemma oblivious_bind {E A B} (m : SE (S * T) E A) (k : A → SE (S * T) E B) :
  oblivious m → (∀ a, oblivious (k a)) → oblivious (m ≫= k).
Proof.
  intros Hm Hk s t t'. destruct (Hm s t t') as [H1 H2]. unfold mbind, SE_bind.
  destruct (m (s, t)) as [[a|x] [s1 t1]], (m (s, t')) as [[a'|x'] [s1' t1']]; simplify_eq/=; [|done].
  apply Hk.
Qed.

Lemma oblivious_try {E A} (m : SE (S * T) E A) h :
  oblivious m → (∀ x, oblivious (h x)) → oblivious (try_catch m h).
Proof.
  intros Hm Hh s t t'. destruct (Hm s t t') as [H1 H2]. unfold try_catch.
  destruct (m (s, t)) as [[a|x] [s1 t1]], (m (s, t')) as [[a'|x'] [s1' t1']]; simplify_eq/=; [done|].
  apply Hh.
Qed.
End oblivious.

Create HintDb oblivious discriminated.
#[export] Hint Resolve oblivious_ret oblivious_bind oblivious_try : oblivious.

Section commands.
Context {U L : Type} `{!ArenaChain U, !PmrLib L}.
Abbreviation locked := (Shard U L * option AofLogger)%type.

Lemma oblivious_on_shard {A} (m : SE (Shard U L) OomException A) : oblivious (on_shard m).
Proof. intros s a a'. unfold on_shard. by destruct (m s). Qed.

Lemma oblivious_write_log line : oblivious (write_log (U := U) (L := L) line).
Proof. done. Qed.

Lemma oblivious_scoped {A} (m : SE locked OomException A) : oblivious m → oblivious (scoped_locked m).
Proof.
  intros Hm s a a'. unfold scoped_locked. destruct (Hm s a a') as [H1 H2].
  destruct (m (s, a)) as [r [s1 a1]], (m (s, a')) as [r' [s1' a1']]; simpl in *. subst.
  done.
Qed.

Lemma oblivious_guard (m : SE locked OomException string) :
  oblivious m →
  oblivious ('(s, _) ← get_state; if arena_hard_limit (arena_ s) then mret oom_reply else m).
Proof.
  intros Hm s a a'. unfold mbind, SE_bind, get_state. simpl.
  destruct (arena_hard_limit _); [done|apply Hm].
Qed.
End commands.

#[export] Hint Resolve oblivious_on_shard oblivious_write_log oblivious_scoped oblivious_guard : oblivious.

(** Splits the tests of a body. *)
Ltac oblivious_body :=
  repeat first [progress intros | solve [auto with oblivious] | apply oblivious_guard | apply oblivious_try
    | apply oblivious_scoped | apply oblivious_bind
    | match goal with |- oblivious (match ?x with _ => _ end) => destruct x end].

Section execute_oblivious.
Context {U L : Type} `{!ArenaChain U, !PmrLib L}.

Lemma LPush_body_oblivious now key value ttl :
  oblivious (LPushCommand_body (U := U) (L := L) now key value ttl).
Proof. unfold LPushCommand_body. oblivious_body. Qed.

Lemma HSet_body_oblivious now key field value ttl :
  oblivious (HSetCommand_body (U := U) (L := L) now key field value ttl).
Proof. unfold HSetCommand_body. oblivious_body. Qed.

Lemma with_locked_oblivious {A} key (m : SE _ OomException A) (ro : ShardRouter U L) a a' :
  oblivious m →
  (with_locked key m (MkEnv ro a)).1 = (with_locked key m (MkEnv ro a')).1 ∧
  router (with_locked key m (MkEnv ro a)).2 = router (with_locked key m (MkEnv ro a')).2.
Proof.
  intros Hm. unfold with_locked. simpl. destruct (Hm (shard_for_key ro key) a a') as [H1 H2].
  destruct (m (_, a)) as [r [s x]], (m (_, a')) as [r' [s' x']]. simpl in *. by subst.
Qed.

Lemma execute_oblivious now c (ro : ShardRouter U L) a a' :
  (execute now c (MkEnv ro a)).1 = (execute now c (MkEnv ro a')).1 ∧
  router (execute now c (MkEnv ro a)).2 = router (execute now c (MkEnv ro a')).2.
Proof.
  destruct c; simpl; try done.
  - unfold SetCommand_execute, on_router, mbind, SE_bind. simpl.
    by destruct (ShardRouter_set _ _ _ _ ro) as [[[]|x] ro'].
  - unfold DelCommand_execute, on_router, mbind, SE_bind. simpl.
    by destruct (ShardRouter_del _ ro) as [[[]|x] ro'].
  - apply with_locked_oblivious, LPush_body_oblivious.
  - apply with_locked_oblivious, HSet_body_oblivious.
Qed.
End execute_oblivious.

(** ** The result of the locked piece *)

(** The commands that log after the unlocking. *)
Definition logs_late (c : ICommand) : bool :=
  match c with
  | SetCommand _ _ _ | DelCommand _ => true
  | _ => false
  end.

Section locked_result.
Context {U L : Type} `{!ArenaChain U, !PmrLib L, !PmrLibOk L}.

Record locked_result (now : Z) (c : ICommand) (ro : ShardRouter U L) (l : AofLogger)
    (rep : reply) (ro' : ShardRouter U L) (l' : AofLogger) (line : option string) : Prop := {
  lr_reply : wf_reply rep = true;
  lr_router : router_wf ro';
  lr_any_log : ∀ a, ∃ a', execute now c (MkEnv ro a) = (Normal (encode rep), MkEnv ro' a') ∧
    a' = if logged c rep then aof_log (serialize c) a else a;
  lr_line : line = if logs_late c && logged c rep then Some (serialize c) else None;
  lr_logger : Some l' = if negb (logs_late c) && logged c rep then aof_log (serialize c) (Some l) else Some l;
}.

Abbreviation result_exists now c ro l :=
  (∃ rep ro' l' line, execute_locked now c (MkEnv ro (Some l)) = (Normal (encode rep, line), MkEnv ro' (Some l')) ∧
     locked_result now c ro l rep ro' l' line).

(** The whole command, for any logger. *)
Lemma execute_any_log now c (ro : ShardRouter U L) :
  router_wf ro → ∃ rep ro', wf_reply rep = true ∧ router_wf ro' ∧
    ∀ a, ∃ a', execute now c (MkEnv ro a) = (Normal (encode rep), MkEnv ro' a') ∧
      a' = if logged c rep then aof_log (serialize c) a else a.
Proof.
  intros Hw. assert (He : ∀ a, env_wf (MkEnv ro a)) by done.
  destruct (execute_simulates now c (MkEnv ro None) _ (He None) (models_view now _ (He None)))
    as (rep & e' & m' & Hx & Hr & _ & _ & Hw' & _).
  exists rep, (router e'). split_and!; [done|done|]. intros a.
  destruct (execute_simulates now c (MkEnv ro a) _ (He a) (models_view now _ (He a)))
    as (rep1 & e1 & m1 & Hx1 & Hr1 & _ & _ & _ & Ha1).
  destruct (execute_oblivious now c ro None a) as [Ho1 Ho2]. rewrite Hx, Hx1 in Ho1, Ho2. simpl in *.
  injection Ho1 as Ho1. apply encode_inj in Ho1 as <-; [|done|done].
  exists (aof e1). rewrite Hx1. split; [|done]. f_equal. rewrite Ho2. by destruct e1.
Qed.

(** A command that logs late: [ok] tells whether it changed something. *)
Lemma late_result now c ro l op (good bad : reply) :
  router_wf ro → logs_late c = true →
  (∀ e, execute_locked now c e = (ok ← on_router op;
    mret (encode (if (ok : bool) then good else bad), if (ok : bool) then Some (serialize c) else None)) e) →
  wf_reply good = true → wf_reply bad = true → logged c good = true → logged c bad = false →
  result_exists now c ro l.
Proof.
  intros Hw Hc Hx Hg Hb Hlg Hlb.
  destruct (execute_any_log now c ro Hw) as (rep & ro' & Hr & Hw' & Hany).
  destruct (Hany (Some l)) as (a' & He & _). rewrite execute_split in He.
  assert (Hl : execute_locked now c (MkEnv ro (Some l)) =
    (Normal (encode rep, if logged c rep then Some (serialize c) else None), MkEnv ro' (Some l))).
  { unfold mbind, SE_bind in He. rewrite Hx in *. unfold on_router, mbind, SE_bind, mret, SE_ret in *. simpl in *.
    destruct (op ro) as [[[]|x] ro2]; simplify_eq/=;
      match goal with H : encode _ = encode _ |- _ => apply encode_inj in H as ->; [|done|done] end;
      by rewrite ?Hlg, ?Hlb. }
  exists rep, ro', l, (if logged c rep then Some (serialize c) else None).
  split; [done|]. by split; rewrite ?Hc.
Qed.

(** One that logs under its lock, or not at all. *)
Lemma under_lock_result now c ro l :
  router_wf ro → logs_late c = false →
  execute_locked now c = (r ← execute now c; mret (r, None)) → result_exists now c ro l.
Proof.
  intros Hw Hc Hx. destruct (execute_any_log now c ro Hw) as (rep & ro' & Hr & Hw' & Hany).
  destruct (Hany (Some l)) as (a' & He & Ha).
  assert (∃ l', a' = Some l') as [l' ->] by (rewrite Ha; unfold aof_log; repeat case_match; eauto).
  exists rep, ro', l', None. rewrite Hx. unfold mbind, SE_bind. rewrite He.
  split; [done|]. by split; rewrite ?Hc.
Qed.

Lemma execute_locked_result now c ro l : router_wf ro → result_exists now c ro l.
Proof.
  intros Hw. destruct c as [key value ttl|key|key|key| |key value ttl|key a b|key field value ttl|key field];
    try (by apply under_lock_result).
  - apply (late_result _ _ _ _ (ShardRouter_set now key value ttl) (RSimple "OK") (RError oom_text)); try done.
    intros e. simpl. unfold SetCommand_locked, on_router, mbind, SE_bind. by destruct (ShardRouter_set _ _ _ _ _) as [[[]|] ?].
  - apply (late_result _ _ _ _ (ShardRouter_del key) (RInteger 1) (RInteger 0)); try done.
    intros e. simpl. unfold DelCommand_locked, on_router, mbind, SE_bind. by destruct (ShardRouter_del _ _) as [[[]|] ?].
Qed.
End locked_result.
