(* ===== verification/Interleaving.v ===== *)
(** * Workers, log and file interleaved ([src/core/worker_pool.cpp],
    [src/core/command.cpp], [src/daemons/aof_logger.cpp])

    The worker pool of [WorkerPool] with commands cut at the unlocking, over a
    router and a running logger.  [conc_step] interleaves the threads of the
    pool, its clients, and the flush thread and shutdown of [aof_step];
    [build_and_run] shuts the logger down only after the workers were joined.
    The history, a ghost, lists the commands in the order in which they held
    their locks. *)

From stdpp Require Import gmap strings.
From S2P Require Import Prelude MachineInt Text Resp Pmr Value KeyStore Shard Router Aof Command Spec Refinement Recovery WorkerPool Concurrency.

Local Open Scope Z_scope.

(** Where a worker is: waiting for a task, holding one, past the unlocking with a
    line still to log, holding a response, returned. *)
Inductive thread :=
| TWaiting
| TExecuting (t : Task ICommand)
| TLogging (t : Task ICommand) (line r : string)
| TPosting (t : Task ICommand) (r : string)
| TExited.

Record conc_state (U L : Type) := Conc {
  c_router : ShardRouter U L;
  c_aof : aof_state;
  c_pool : WorkerPool ICommand;
  c_threads : list thread;
  c_accepted : list (Task ICommand);        (* ghosts, as in [pool_state] *)
  c_taken : list (Task ICommand);
  c_posted : list (Task ICommand);
  c_history : history_of ICommand;          (* ghost: the tasks, in the order of their locks *)
}.
Arguments Conc {U L} _ _ _ _ _ _ _ _.
Arguments c_router {U L} _.
Arguments c_aof {U L} _.
Arguments c_pool {U L} _.
Arguments c_threads {U L} _.
Arguments c_accepted {U L} _.
Arguments c_taken {U L} _.
Arguments c_posted {U L} _.
Arguments c_history {U L} _.

(** The logger after a piece of a command; the ghost gets the lines it appended. *)
Definition logged_to (l : AofLogger) (a : aof_state) : aof_state :=
  AofState l (flusher a) (shutdown a)
    (accepted a ++ drop (length (active_buffer (logger a))) (active_buffer l)).

(** After the locked piece: the worker logs, or posts. *)
Definition after_locked (t : Task ICommand) (r : string) (line : option string) : thread :=
  match line with
  | Some line => TLogging t line r
  | None => TPosting t r
  end.

Section machine.
Context {U L : Type} `{!ArenaChain U, !PmrLib L}.

Definition conc_started (threads : nat) (max : Z) (ro : ShardRouter U L) (path contents : string) :
    conc_state U L :=
  Conc ro (aof_started path contents) (WorkerPool_make max) (replicate threads TWaiting) [] [] [] [].

(** [worker_loop] *)
Inductive conc_worker_step : conc_state U L → conc_state U L → Prop :=
| conc_take i t q ro a p ws acc tk po h :
    ws !! i = Some TWaiting → queue_ p = t :: q →
    conc_worker_step (Conc ro a p ws acc tk po h)
      (Conc ro a (set_queue q p) (<[i := TExecuting t]> ws) acc (tk ++ [t]) po h)
| conc_return i ro a p ws acc tk po h :
    ws !! i = Some TWaiting → pool_running_ p = false → queue_ p = [] →
    conc_worker_step (Conc ro a p ws acc tk po h) (Conc ro a p (<[i := TExited]> ws) acc tk po h)
| conc_locked i t now r line ro' l' ro a p ws acc tk po h :
    ws !! i = Some (TExecuting t) →
    execute_locked now (command t) (MkEnv ro (Some (logger a))) = (Normal (r, line), MkEnv ro' (Some l')) →
    conc_worker_step (Conc ro a p ws acc tk po h)
      (Conc ro' (logged_to l' a) p (<[i := after_locked t r line]> ws) acc tk po (h ++ [(now, t, r)]))
| conc_log i t line r ro' l' ro a p ws acc tk po h :
    ws !! i = Some (TLogging t line r) →
    execute_rest (Some line) (MkEnv ro (Some (logger a))) = (Normal tt, MkEnv ro' (Some l')) →
    conc_worker_step (Conc ro a p ws acc tk po h)
      (Conc ro' (logged_to l' a) p (<[i := TPosting t r]> ws) acc tk po h)
| conc_post i t r ro a p ws acc tk po h :
    ws !! i = Some (TPosting t r) →
    conc_worker_step (Conc ro a p ws acc tk po h)
      (Conc ro a (push_result (MkResult (client_fd t) (sequence_id t) r) p) (<[i := TWaiting]> ws) acc tk
         (po ++ [t]) h).

Inductive conc_step : conc_state U L → conc_state U L → Prop :=
| conc_worker st st' : conc_worker_step st st' → conc_step st st'
(** the clients of the pool *)
| conc_submit t ok p' ro a p ws acc tk po h :
    submit t p = (ok, p') →
    conc_step (Conc ro a p ws acc tk po h)
      (Conc ro a p' ws (if (ok : bool) then acc ++ [t] else acc) tk po h)
| conc_reject r ro a p ws acc tk po h :
    conc_step (Conc ro a p ws acc tk po h) (Conc ro a (push_result r p) ws acc tk po h)
| conc_drain ro a p ws acc tk po h :
    conc_step (Conc ro a p ws acc tk po h) (Conc ro a (drain_results p).2 ws acc tk po h)
| conc_shutdown ro a p ws acc tk po h :
    conc_step (Conc ro a p ws acc tk po h) (Conc ro a (pool_stop p).2 ws acc tk po h)
(** the flush thread, and the shutdown of the logger once the workers were joined *)
| conc_aof a' ro a p ws acc tk po h :
    aof_step a a' → accepted a' = accepted a → (shutdown a' ≠ SNone → Forall (λ w, w = TExited) ws) →
    conc_step (Conc ro a p ws acc tk po h) (Conc ro a' p ws acc tk po h).

(** The lines that workers have still to log. *)
Definition line_of (w : thread) : list string :=
  match w with TLogging _ line _ => [line] | _ => [] end.

Definition to_log (ws : list thread) : list string := ws ≫= line_of.

(** The commands of a history, with their times. *)
Definition history_commands (h : history_of ICommand) : list (Z * ICommand) :=
  map (λ x, (x.1.1, command x.1.2)) h.

(** The history run by one thread, from the start: the replies, and the engine. *)
Definition sequential (ro : ShardRouter U L) (path contents : string) (h : history_of ICommand) :
    list string * Env U L :=
  run_commands (history_commands h) (MkEnv ro (Some (logger (aof_started path contents)))).

(** ** The pool this implements

    Forgetting the logger, a worker that has still to log has its response. *)

#[export] Instance router_executor : Executor ICommand (ShardRouter U L) := λ now c ro,
  let '(r, e) := noexcept EmptyString (execute now c) (MkEnv ro None) in (r, router e).

Definition erase (w : thread) : worker ICommand :=
  match w with
  | TWaiting => Waiting
  | TExecuting t => Executing t
  | TLogging t _ r | TPosting t r => Posting t r
  | TExited => Exited
  end.

Definition as_pool (st : conc_state U L) : pool_state ICommand (ShardRouter U L) :=
  PoolState (c_pool st) (erase <$> c_threads st) (c_router st) (c_accepted st) (c_taken st) (c_posted st).
End machine.

(** ** Lemmas on the logger *)

Lemma logged_to_same a : logged_to (logger a) a = a.
Proof. unfold logged_to. rewrite drop_all, app_nil_r. by destruct a. Qed.

Lemma logged_to_log line a :
  running_ (logger a) = true →
  aof_step a (logged_to (log line (logger a)) a) ∧
  accepted (logged_to (log line (logger a)) a) = accepted a ++ [line].
Proof.
  intros Hr. destruct a as [l f s acc]. unfold logged_to. simpl in *.
  assert (drop (length (active_buffer l)) (active_buffer (log line l)) = [line]) as ->.
  { unfold log. rewrite Hr, active_set_buffer. apply drop_app_length. }
  split; [|done]. pose proof (step_log line l f s acc) as H. by rewrite Hr in H.
Qed.

(** Nobody but [set_replaying] changes the replay mode. *)
Lemma replaying_set_buffer b x l : is_replaying_ (set_buffer b x l) = is_replaying_ l.
Proof. by destruct b. Qed.

Lemma replaying_log line l : is_replaying_ (log line l) = is_replaying_ l.
Proof. unfold log. destruct (running_ l); [apply replaying_set_buffer|done]. Qed.

Lemma aof_step_replaying a a' : aof_step a a' → is_replaying_ (logger a') = is_replaying_ (logger a).
Proof.
  destruct 1; simpl; try done; [apply replaying_log|apply write_line_frame|apply finish_frame|
    apply write_line_frame|apply finish_frame].
Qed.

(** A logger that runs and does not replay keeps what it is given. *)
Lemma aof_log_running line l :
  is_replaying_ l = false → aof_log line (Some l) = Some (log line l).
Proof. intros H. simpl. unfold is_replaying. by rewrite H. Qed.

(** ** Lemmas on the threads *)

Lemma to_log_insert ws i w w' :
  ws !! i = Some w → to_log (<[i := w']> ws) ++ line_of w ≡ₚ to_log ws ++ line_of w'.
Proof. apply list_bind_insert. Qed.

Lemma to_log_same ws i w w' :
  ws !! i = Some w → line_of w = line_of w' → to_log (<[i := w']> ws) = to_log ws.
Proof.
  intros Hi Hw. unfold to_log. rewrite insert_take_drop by (by eapply lookup_lt_Some).
  rewrite <-(take_drop_middle ws i w Hi) at 3. rewrite !bind_app. simpl. by rewrite Hw.
Qed.

Lemma to_log_waiting k : to_log (replicate k TWaiting) = [].
Proof. induction k as [|k IH]; [done|exact IH]. Qed.

(** With at most one thread. *)
Lemma to_log_one ws i w w' :
  (length ws <= 1)%nat → ws !! i = Some w → to_log ws = line_of w ∧ to_log (<[i := w']> ws) = line_of w'.
Proof.
  intros Hl Hi. destruct ws as [|x [|y ws]]; simpl in Hl; [done| |lia].
  destruct i as [|i]; [|done]. injection Hi as ->. unfold to_log. simpl. by rewrite !app_nil_r.
Qed.

Lemma not_all_exited ws i w :
  ws !! i = Some w → w ≠ TExited → ¬ Forall (λ w, w = TExited) ws.
Proof. intros Hi Hw H. eapply Forall_lookup_1 in H; done. Qed.

Section invariant.
Context {U L : Type} `{!ArenaChain U, !PmrLib L, !PmrLibOk L}.
Context (n : nat) (ro0 : ShardRouter U L) (path contents : string).

(** Nothing of the history logs late. *)
Definition none_late (h : history_of ICommand) : Prop :=
  Forall (λ x, logs_late (command x.1.2) = false) h.

(** The log and the lines still to log against the log [lines] of the history. *)
Record log_ok (lines acc : list string) (ws : list thread) (h : history_of ICommand) : Prop := {
  log_perm : lines ≡ₚ acc ++ to_log ws;
  log_single : (length ws <= 1)%nat → lines = acc ++ to_log ws;
  log_none_late : none_late h → to_log ws = [] ∧ lines = acc;
}.

Record conc_inv (st : conc_state U L) : Prop := {
  ci_router : router_wf (c_router st);
  ci_history : (sequential ro0 path contents (c_history st)).1 = (c_history st).*2 ∧
    router (sequential ro0 path contents (c_history st)).2 = c_router st;
  ci_aof : rtc aof_step (aof_started path contents) (c_aof st);
  ci_replaying : is_replaying_ (logger (c_aof st)) = false;
  ci_shutdown : shutdown (c_aof st) ≠ SNone → Forall (λ w, w = TExited) (c_threads st);
  ci_threads : length (c_threads st) = n;
  ci_log : ∃ lines, logging (aof (sequential ro0 path contents (c_history st)).2) lines ∧
    log_ok lines (accepted (c_aof st)) (c_threads st) (c_history st);
}.

Lemma conc_inv_running st i w :
  conc_inv st → c_threads st !! i = Some w → w ≠ TExited → running_ (logger (c_aof st)) = true.
Proof.
  intros Hinv Hi Hw. destruct (aof_reachable_inv _ _ _ (ci_aof st Hinv)) as [_ _ _ _ Hr _ _].
  apply Hr. destruct (shutdown (c_aof st)) eqn:Hs; [done|..];
    (destruct (not_all_exited _ _ _ Hi Hw); apply (ci_shutdown st Hinv); by rewrite Hs).
Qed.

Lemma conc_inv_started threads max :
  router_wf ro0 → threads = n → conc_inv (conc_started threads max ro0 path contents).
Proof.
  intros Hw Hn. split; simpl; try done.
  - by rewrite length_replicate.
  - exists []. split; [by eexists|].
    split; simpl; rewrite to_log_waiting; done.
Qed.

(** The history with one more command. *)
Lemma run_commands_snoc (cmds : list (Z * ICommand)) now c (e : Env U L) :
  run_commands (cmds ++ [(now, c)]) e =
  let '(rs, e1) := run_commands cmds e in
  match execute now c e1 with
  | (Normal r, e') => (rs ++ [r], e')
  | (Throw _, e') => (rs, e')
  end.
Proof.
  revert e. induction cmds as [|[now0 c0] cmds IH]; intros e; simpl.
  - by destruct (execute now c e) as [[r|x] e'].
  - destruct (execute now0 c0 e) as [[r0|x0] e0]; [|apply IH]. rewrite IH.
    destruct (run_commands cmds e0) as [rs e1]. by destruct (execute now c e1) as [[r|x] e'].
Qed.

Lemma sequential_snoc h now t r :
  sequential ro0 path contents (h ++ [(now, t, r)]) =
  let '(rs, e) := sequential ro0 path contents h in
  match execute now (command t) e with
  | (Normal r', e') => (rs ++ [r'], e')
  | (Throw _, e') => (rs, e')
  end.
Proof. unfold sequential. unfold history_commands. rewrite map_app. apply run_commands_snoc. Qed.

(** ** The invariant is kept by every step *)

(** A thread moves, nothing is executed or logged. *)
Lemma conc_inv_move ro a p p' ws acc tk po acc' tk' po' h i w w' :
  ws !! i = Some w → line_of w = line_of w' → w ≠ TExited →
  conc_inv (Conc ro a p ws acc tk po h) → conc_inv (Conc ro a p' (<[i := w']> ws) acc' tk' po' h).
Proof.
  intros Hi Hl Hw [Hr Hh Ha Hp Hs Hn (lines & Hlog & [Hperm Hone Hlate])]. simpl in *.
  split; simpl; try done.
  - intros H. by destruct (not_all_exited _ _ _ Hi Hw (Hs H)).
  - by rewrite length_insert.
  - exists lines. split; [done|]. split; rewrite (to_log_same _ _ _ _ Hi Hl), ?length_insert; done.
Qed.

(** The pool changes, no thread moves. *)
Lemma conc_inv_pool ro a p p' ws acc tk po acc' tk' po' h :
  conc_inv (Conc ro a p ws acc tk po h) → conc_inv (Conc ro a p' ws acc' tk' po' h).
Proof. intros []. by split. Qed.

(** A locked piece that changed something ([changed]) or not. *)
Lemma log_ok_locked lines acc ws h i t now r (changed : bool) line :
  ws !! i = Some (TExecuting t) → log_ok lines acc ws h →
  log_ok (if changed then lines ++ [line] else lines)
    (if negb (logs_late (command t)) && changed then acc ++ [line] else acc)
    (<[i := after_locked t r (if logs_late (command t) && changed then Some line else None)]> ws) (h ++ [(now, t, r)]).
Proof.
  intros Hi [Hp Ho Hl].
  assert (Hsame : to_log (<[i := TPosting t r]> ws) = to_log ws) by (by eapply to_log_same).
  assert (Hlate : none_late (h ++ [(now, t, r)]) → none_late h ∧ logs_late (command t) = false).
  { intros H. apply Forall_app in H as [? H]. split; [done|]. by apply Forall_inv in H. }
  destruct changed; [destruct (logs_late (command t)) eqn:Hc|]; rewrite ?andb_false_r; simpl.
  - pose proof (to_log_insert ws i _ (TLogging t line r) Hi) as Hins. simpl in Hins. rewrite app_nil_r in Hins.
    split; rewrite ?length_insert.
    + rewrite Hp, Hins. solve_Permutation.
    + intros Hone. destruct (to_log_one ws i _ (TLogging t line r) Hone Hi) as [H1 H2].
      rewrite H2, (Ho Hone), H1. simpl. by rewrite app_nil_r.
    + intros H. by destruct (Hlate H).
  - split; rewrite ?length_insert, ?Hsame.
    + rewrite Hp, <-!app_assoc. solve_Permutation.
    + intros Hone. destruct (to_log_one ws i _ (TPosting t r) Hone Hi) as [H1 _].
      rewrite (Ho Hone), H1. simpl. by rewrite !app_nil_r.
    + intros H. destruct (Hlate H) as [H' _]. by destruct (Hl H') as [-> ->].
  - rewrite <-(app_nil_l [_]) at 1. split; rewrite ?length_insert, ?Hsame; try done.
    intros H. apply Hl. by destruct (Hlate H).
Qed.

(** A thread logs its line. *)
Lemma log_ok_log lines acc ws h i t line r :
  ws !! i = Some (TLogging t line r) → log_ok lines acc ws h →
  log_ok lines (acc ++ [line]) (<[i := TPosting t r]> ws) h.
Proof.
  intros Hi [Hp Ho Hl]. pose proof (to_log_insert ws i _ (TPosting t r) Hi) as Hins.
  simpl in Hins. rewrite app_nil_r in Hins. split; rewrite ?length_insert.
  - rewrite Hp, <-Hins. solve_Permutation.
  - intros Hone. destruct (to_log_one ws i _ (TPosting t r) Hone Hi) as [H1 H2].
    by rewrite H2, (Ho Hone), H1, app_nil_r.
  - intros H. destruct (Hl H) as [H0 _]. exfalso.
    rewrite H0 in Hins. apply (Permutation_length) in Hins. rewrite length_app in Hins. simpl in Hins. lia.
Qed.

(** The logger after a piece that logs [line], or nothing. *)
Lemma logged_to_reachable a (b : bool) line :
  running_ (logger a) = true → is_replaying_ (logger a) = false →
  let l' := if b then log line (logger a) else logger a in
  rtc aof_step a (logged_to l' a) ∧ accepted (logged_to l' a) = (if b then accepted a ++ [line] else accepted a) ∧
  is_replaying_ l' = false ∧ shutdown (logged_to l' a) = shutdown a.
Proof.
  intros Hr Hp. destruct b; cbv zeta iota.
  - destruct (logged_to_log line a Hr) as [Hs Ha]. split_and!; [by apply rtc_once|done|by rewrite replaying_log|done].
  - rewrite logged_to_same. split_and!; [apply rtc_refl|done..].
Qed.

Lemma conc_inv_locked ro a p ws acc tk po h i t now r line ro' l' :
  ws !! i = Some (TExecuting t) →
  execute_locked now (command t) (MkEnv ro (Some (logger a))) = (Normal (r, line), MkEnv ro' (Some l')) →
  conc_inv (Conc ro a p ws acc tk po h) →
  conc_inv (Conc ro' (logged_to l' a) p (<[i := after_locked t r line]> ws) acc tk po (h ++ [(now, t, r)])).
Proof.
  intros Hi Hx Hinv. pose proof (conc_inv_running _ i _ Hinv Hi ltac:(done)) as Hrun.
  destruct Hinv as [Hr [Hh1 Hh2] Ha Hp Hs Hn (lines & Hlog & Hok)]. simpl in *.
  destruct (execute_locked_result now (command t) ro (logger a) Hr) as (rep & ro1 & l1 & line1 & Hx1 & Hres).
  rewrite Hx in Hx1. injection Hx1 as [= -> -> -> ->]. destruct Hres as [Hrep Hro Hany -> Hl].
  rewrite aof_log_running in Hl by done.
  set (late := logs_late (command t)) in *. set (changed := logged (command t) rep) in *.
  set (text := serialize (command t)) in *.
  assert (l1 = if negb late && changed then log text (logger a) else logger a) as -> by (by case_match; simplify_eq).
  destruct (logged_to_reachable a (negb late && changed) text Hrun Hp) as (Hrtc & Hacc & Hrep' & Hsh).
  destruct (sequential ro0 path contents h) as [rs e] eqn:He. simpl in Hh1, Hh2, Hlog.
  destruct (Hany (aof e)) as (a' & Hx' & Ha'). rewrite <-Hh2 in Hx'. replace (MkEnv (router e) (aof e)) with e in Hx' by (by destruct e).
  split; cbn [c_router c_aof c_pool c_threads c_history]; rewrite ?sequential_snoc, ?He, ?Hx'; cbn [fst snd router aof]; try done.
  - rewrite fmap_app, <-Hh1. done.
  - by etrans.
  - intros H. by destruct (not_all_exited _ _ _ Hi ltac:(done) (Hs H)).
  - by rewrite length_insert.
  - exists (if changed then lines ++ [text] else lines). rewrite Hacc. split; [|by apply log_ok_locked].
    rewrite Ha'. destruct changed; [by apply logging_log|done].
Qed.

Lemma conc_inv_log ro a p ws acc tk po h i t line r ro' l' :
  ws !! i = Some (TLogging t line r) →
  execute_rest (Some line) (MkEnv ro (Some (logger a))) = (Normal tt, MkEnv ro' (Some l')) →
  conc_inv (Conc ro a p ws acc tk po h) →
  conc_inv (Conc ro' (logged_to l' a) p (<[i := TPosting t r]> ws) acc tk po h).
Proof.
  intros Hi Hx Hinv. pose proof (conc_inv_running _ i _ Hinv Hi ltac:(done)) as Hrun.
  destruct Hinv as [Hr Hh Ha Hp Hs Hn (lines & Hlog & Hok)]. simpl in *.
  unfold env_log in Hx. simpl in Hx. unfold is_replaying in Hx. rewrite Hp in Hx. injection Hx as [= <- <-].
  destruct (logged_to_reachable a true line Hrun Hp) as (Hrtc & Hacc & Hrep' & Hsh).
  split; simpl; try done.
  - by etrans.
  - intros H. by destruct (not_all_exited _ _ _ Hi ltac:(done) (Hs H)).
  - by rewrite length_insert.
  - exists lines. split; [done|]. simpl in Hacc. rewrite Hacc. by eapply log_ok_log.
Qed.

Lemma conc_step_inv st st' : conc_step st st' → conc_inv st → conc_inv st'.
Proof.
  destruct 1 as [? ? [i t q ro a p ws acc tk po h Hi _|i ro a p ws acc tk po h Hi _ _
    |i t now r line ro' l' ro a p ws acc tk po h Hi Hx|i t line r ro' l' ro a p ws acc tk po h Hi Hx
    |i t r ro a p ws acc tk po h Hi]|t ok p' ro a p ws acc tk po h _|r ro a p ws acc tk po h
    |ro a p ws acc tk po h|ro a p ws acc tk po h|a' ro a p ws acc tk po h Hs Hacc Hj]; intros Hinv.
  - by eapply conc_inv_move.
  - by eapply conc_inv_move.
  - by eapply conc_inv_locked.
  - by eapply conc_inv_log.
  - by eapply conc_inv_move.
  - by eapply conc_inv_pool.
  - by eapply conc_inv_pool.
  - by eapply conc_inv_pool.
  - by eapply conc_inv_pool.
  - destruct Hinv as [Hr Hh Ha Hp Hsh Hn Hl]. split; simpl in *; rewrite ?Hacc; try done.
    + by eapply rtc_r.
    + by rewrite (aof_step_replaying _ _ Hs).
Qed.
End invariant.

Section reachable.
Context {U L : Type} `{!ArenaChain U, !PmrLib L}.

Lemma conc_reachable_inv `{!PmrLibOk L} threads max (ro : ShardRouter U L) path contents st :
  router_wf ro → rtc conc_step (conc_started threads max ro path contents) st →
  conc_inv threads ro path contents st.
Proof.
  intros Hw H. eapply rtc_invariant; [|exact H|by apply conc_inv_started]. apply conc_step_inv.
Qed.

(** ** The history and the tasks *)

(** The tasks whose command has been executed and not been answered yet. *)
Definition executed_of (w : thread) : list (Task ICommand) :=
  match w with TLogging t _ _ | TPosting t _ => [t] | _ => [] end.

Definition executed (ws : list thread) : list (Task ICommand) := ws ≫= executed_of.

(** The history holds the tasks executed. *)
Definition history_tasks (st : conc_state U L) : Prop :=
  (λ x, x.1.2) <$> c_history st ≡ₚ c_posted st ++ executed (c_threads st).

Lemma executed_insert ws i w w' :
  ws !! i = Some w → executed (<[i := w']> ws) ++ executed_of w ≡ₚ executed ws ++ executed_of w'.
Proof. apply list_bind_insert. Qed.

Lemma executed_same ws i w w' :
  ws !! i = Some w → executed_of w = executed_of w' → executed (<[i := w']> ws) ≡ₚ executed ws.
Proof.
  intros Hi Hw. pose proof (executed_insert ws i w w' Hi) as H. rewrite Hw in H.
  by apply (inj (.++ executed_of w')) in H.
Qed.

Lemma conc_step_history st st' :
  conc_step st st' → history_tasks st → history_tasks st' ∧ c_history st `prefix_of` c_history st'.
Proof.
  unfold history_tasks.
  destruct 1 as [? ? [i t q ro a p ws acc tk po h Hi _|i ro a p ws acc tk po h Hi _ _
    |i t now r line ro' l' ro a p ws acc tk po h Hi Hx|i t line r ro' l' ro a p ws acc tk po h Hi Hx
    |i t r ro a p ws acc tk po h Hi]|t ok p' ro a p ws acc tk po h _|r ro a p ws acc tk po h
    |ro a p ws acc tk po h|ro a p ws acc tk po h|a' ro a p ws acc tk po h Hs Hacc Hj]; simpl; intros Hh;
    try done.
  - split; [|done]. by rewrite (executed_same ws i _ _ Hi).
  - split; [|done]. by rewrite (executed_same ws i _ _ Hi).
  - split; [|by apply prefix_app_r]. pose proof (executed_insert ws i _ (TPosting t r) Hi) as He.
    assert (executed (<[i := after_locked t r line]> ws) ≡ₚ executed ws ++ [t]) as ->.
    { destruct line as [line|]; [|by rewrite <-He, app_nil_r].
      pose proof (executed_insert ws i _ (TLogging t line r) Hi) as He'. by rewrite <-He', app_nil_r. }
    rewrite fmap_app, Hh. simpl. by rewrite <-app_assoc.
  - split; [|done]. by rewrite (executed_same ws i _ _ Hi).
  - split; [|done]. pose proof (executed_insert ws i _ TWaiting Hi) as He. simpl in He. rewrite app_nil_r in He.
    rewrite Hh, <-He. solve_Permutation.
Qed.

Lemma conc_run_history st st' :
  rtc conc_step st st' → history_tasks st → history_tasks st' ∧ c_history st `prefix_of` c_history st'.
Proof.
  induction 1 as [|st0 st1 st2 Hs _ IH]; intros Hh; [done|].
  destruct (conc_step_history _ _ Hs Hh) as [H1 H2]. destruct (IH H1) as [H3 H4].
  split; [done|]. by etrans.
Qed.

Lemma history_tasks_started threads max ro path contents :
  history_tasks (conc_started threads max ro path contents).
Proof.
  unfold history_tasks. simpl. assert (executed (replicate threads TWaiting) = []) as ->; [|done].
  by induction threads.
Qed.

Lemma all_exited_to_log ws : Forall (λ w, w = TExited) ws → to_log ws = [].
Proof. induction 1 as [|w ws -> _ IH]; [done|exact IH]. Qed.

Lemma all_exited_executed ws : Forall (λ w, w = TExited) ws → executed ws = [].
Proof. induction 1 as [|w ws -> _ IH]; [done|exact IH]. Qed.

(** ** Projection to the pool *)

Lemma execute_locked_router now c (ro ro' : ShardRouter U L) l l' r line :
  execute_locked now c (MkEnv ro (Some l)) = (Normal (r, line), MkEnv ro' (Some l')) →
  exec_command now c ro = (r, ro').
Proof.
  intros Hx. unfold exec_command, router_executor, noexcept.
  destruct (execute_oblivious now c ro None (Some l)) as [H1 H2].
  rewrite (execute_split now c (MkEnv ro (Some l))) in H1, H2. unfold mbind, SE_bind in H1, H2. rewrite Hx in H1, H2.
  destruct (execute now c (MkEnv ro None)) as [[r1|x] e1]; destruct line; by simplify_eq/=.
Qed.

Lemma conc_step_pool (st st' : conc_state U L) :
  conc_step st st' → rtc pool_step (as_pool st) (as_pool st').
Proof.
  destruct 1 as [? ? [i t q ro a p ws acc tk po h Hi Hq|i ro a p ws acc tk po h Hi Hr Hq
    |i t now r line ro' l' ro a p ws acc tk po h Hi Hx|i t line r ro' l' ro a p ws acc tk po h Hi Hx
    |i t r ro a p ws acc tk po h Hi]|t ok p' ro a p ws acc tk po h Hs|r ro a p ws acc tk po h
    |ro a p ws acc tk po h|ro a p ws acc tk po h|a' ro a p ws acc tk po h Hs Hacc Hj];
    unfold as_pool; simpl; rewrite ?list_fmap_insert;
    try (assert (Hw : (erase <$> ws) !! i = erase <$> Some (_ : thread)) by (by rewrite list_lookup_fmap, Hi); simpl in Hw).
  - by apply rtc_once, step_worker, (step_take i t q).
  - by apply rtc_once, step_worker, (step_return i).
  - replace (erase (after_locked t r line)) with (Posting t r) by (by destruct line).
    eapply rtc_once, step_worker, (step_execute i t now); [done|]. by eapply execute_locked_router.
  - injection Hx as [= <- _]. rewrite list_insert_id by done. apply rtc_refl.
  - by apply rtc_once, step_worker, (step_post i t r).
  - by apply rtc_once, step_submit.
  - apply rtc_once, step_reject.
  - apply rtc_once, step_drain.
  - apply rtc_once, step_shutdown.
  - apply rtc_refl.
Qed.

Lemma conc_run_pool threads max (ro : ShardRouter U L) path contents st :
  rtc conc_step (conc_started threads max ro path contents) st →
  rtc pool_step (pool_started threads max ro) (as_pool st).
Proof.
  assert (as_pool (conc_started threads max ro path contents) = pool_started threads max ro) as <-.
  { unfold as_pool, pool_started. simpl. by rewrite fmap_replicate. }
  apply rtc_project, conc_step_pool.
Qed.

(** ** Computing steps *)

Inductive conc_label :=
| CSubmit (t : Task ICommand)
| CThread (i : nat) (now : Z)
| CStop
| CFlusher
| CSpill (n : nat)
| CShutdown.

Definition thread_next (i : nat) (now : Z) (st : conc_state U L) : option (conc_state U L) :=
  let '(Conc ro a p ws acc tk po h) := st in
  match ws !! i with
  | Some TWaiting =>
    match queue_ p with
    | t :: q => Some (Conc ro a (set_queue q p) (<[i := TExecuting t]> ws) acc (tk ++ [t]) po h)
    | [] => if pool_running_ p then None else Some (Conc ro a p (<[i := TExited]> ws) acc tk po h)
    end
  | Some (TExecuting t) =>
    match execute_locked now (command t) (MkEnv ro (Some (logger a))) with
    | (Normal (r, line), MkEnv ro' (Some l')) =>
      Some (Conc ro' (logged_to l' a) p (<[i := after_locked t r line]> ws) acc tk po (h ++ [(now, t, r)]))
    | _ => None
    end
  | Some (TLogging t line r) =>
    match execute_rest (Some line) (MkEnv ro (Some (logger a))) with
    | (Normal _, MkEnv ro' (Some l')) =>
      Some (Conc ro' (logged_to l' a) p (<[i := TPosting t r]> ws) acc tk po h)
    | _ => None
    end
  | Some (TPosting t r) =>
    Some (Conc ro a (push_result (MkResult (client_fd t) (sequence_id t) r) p) (<[i := TWaiting]> ws) acc tk
            (po ++ [t]) h)
  | _ => None
  end.

Definition flusher_next (a : aof_state) : option aof_state :=
  let '(AofState l f s acc) := a in
  match f with
  | FTest => Some (AofState l (if running_ l then FWait else FDone) s acc)
  | FWait => Some (AofState (swap_buffers l) FSwapped s acc)
  | FSwapped => Some (AofState l (flush_begin (flush_buffer l)) s acc)
  | FWriting (cmd :: todo) => Some (AofState (write_line l cmd) (FWriting todo) s acc)
  | FWriting [] => Some (AofState (finish_write (negb (active_is_a l)) l) FTest s acc)
  | FDone => None
  end.

Definition shutdown_next (a : aof_state) : option aof_state :=
  let '(AofState l f s acc) := a in
  match s, f with
  | SNone, _ => Some (AofState (set_running false l) f SExchanged acc)
  | SExchanged, FDone => Some (AofState l f SJoined acc)
  | SJoined, _ => Some (AofState l f (final_begin (active_buffer l)) acc)
  | SWriting (cmd :: todo), _ => Some (AofState (write_line l cmd) f (SWriting todo) acc)
  | SWriting [], _ => Some (AofState (finish_write (active_is_a l) l) f SFlushed acc)
  | SFlushed, _ => Some (AofState (close l) f SClosed acc)
  | _, _ => None
  end.

Definition not_shut_down (a : aof_state) : bool := if shutdown a is SNone then true else false.

Definition is_exited (w : thread) : bool := if w is TExited then true else false.

Definition conc_next (lbl : conc_label) (st : conc_state U L) : option (conc_state U L) :=
  let '(Conc ro a p ws acc tk po h) := st in
  match lbl with
  | CSubmit t =>
    let '(ok, p') := submit t p in Some (Conc ro a p' ws (if (ok : bool) then acc ++ [t] else acc) tk po h)
  | CThread i now => thread_next i now st
  | CStop => Some (Conc ro a (pool_stop p).2 ws acc tk po h)
  | CFlusher =>
    if not_shut_down a || forallb is_exited ws then a' ← flusher_next a; Some (Conc ro a' p ws acc tk po h) else None
  | CSpill n => if not_shut_down a || forallb is_exited ws then Some (Conc ro (spill_aof n a) p ws acc tk po h) else None
  | CShutdown => if forallb is_exited ws then a' ← shutdown_next a; Some (Conc ro a' p ws acc tk po h) else None
  end.

Fixpoint run_conc (lbls : list conc_label) (st : conc_state U L) : option (conc_state U L) :=
  match lbls with
  | [] => Some st
  | lbl :: lbls => st' ← conc_next lbl st; run_conc lbls st'
  end.

Lemma flusher_next_sound a a' :
  flusher_next a = Some a' → aof_step a a' ∧ accepted a' = accepted a ∧ shutdown a' = shutdown a.
Proof. destruct a as [l [| | |[|cmd todo]|] s acc]; intros [= <-]; split_and!; try done; constructor. Qed.

Lemma shutdown_next_sound a a' :
  shutdown_next a = Some a' → aof_step a a' ∧ accepted a' = accepted a.
Proof.
  destruct a as [l f [| | |[|cmd todo]| |] acc]; [..|done]; [|destruct f; try done|..]; intros [= <-]; split; try done;
    constructor.
Qed.


Lemma thread_next_sound i now st st' : thread_next i now st = Some st' → conc_worker_step st st'.
Proof.
  destruct st as [ro a p ws acc tk po h]. simpl.
  destruct (ws !! i) as [[|t|t line r|t r|]|] eqn:Hi; try done.
  - destruct (queue_ p) as [|t q] eqn:Hq.
    + destruct (pool_running_ p) eqn:Hr; [done|]. intros [= <-]. by constructor.
    + intros [= <-]. by constructor.
  - destruct (execute_locked _ _ _) as [[[r line]|x] [ro' [l'|]]] eqn:Hx; try done. intros [= <-]. by eapply conc_locked.
  - destruct (negb _) eqn:Hn; intros [= <-]; (eapply conc_log; [done|]); unfold execute_rest, env_log, aof_log; simpl; by rewrite Hn.
  - intros [= <-]. by constructor.
Qed.

Lemma all_exited ws : forallb is_exited ws = true → Forall (λ w, w = TExited) ws.
Proof. induction ws as [|[] ws IH]; simpl; try done; intros H; constructor; auto. Qed.

Lemma conc_next_sound lbl st st' : conc_next lbl st = Some st' → conc_step st st'.
Proof.
  destruct st as [ro a p ws acc tk po h]. destruct lbl as [t|i now| | |n|]; cbn [conc_next].
  - destruct (submit t p) as [ok p'] eqn:Hs. intros [= <-]. by constructor.
  - intros H. by eapply conc_worker, thread_next_sound.
  - intros [= <-]. apply conc_shutdown.
  - destruct (not_shut_down a || _) eqn:Hd; [|done]. destruct (flusher_next a) as [a'|] eqn:Ha; [|done]. intros [= <-].
    apply flusher_next_sound in Ha as (Ha & Hacc & Hs). apply conc_aof; [done|done|]. rewrite Hs.
    apply orb_true_iff in Hd as [Hd|Hx]; [|intros _; by apply all_exited].
    unfold not_shut_down in Hd. by destruct (shutdown a).
  - destruct (not_shut_down a || _) eqn:Hd; [|done]. intros [= <-].
    apply conc_aof; [apply spill_step|done|]. simpl.
    apply orb_true_iff in Hd as [Hd|Hx]; [|intros _; by apply all_exited].
    unfold not_shut_down in Hd. by destruct (shutdown a).
  - destruct (forallb is_exited ws) eqn:Hx; [|done].
    destruct (shutdown_next a) as [a'|] eqn:Ha; [|done]. intros [= <-].
    apply shutdown_next_sound in Ha as (Ha & Hacc). apply conc_aof; try done. intros _. by apply all_exited.
Qed.

Lemma run_conc_sound lbls st st' : run_conc lbls st = Some st' → rtc conc_step st st'.
Proof.
  revert st. induction lbls as [|lbl lbls IH]; intros st; simpl; [intros [= ->]; apply rtc_refl|].
  destruct (conc_next lbl st) as [st1|] eqn:Hs; [|done]. intros H.
  eapply rtc_l; [by eapply conc_next_sound|by apply IH].
Qed.
End reachable.
