(* ===== verification/RateLimiter.v ===== *)
(** * The rate limiter ([include/network/rate_limiter.h], [src/network/rate_limiter.cpp])

    [allow] begins with [return true], so nothing is limited and the limiter's
    state is never touched.  The token bucket behind that statement is modelled
    as the code has it, in binary64 arithmetic; the results of the clock are
    arguments and [std::hash<std::string>] is a parameter. *)

From Stdlib Require Import SpecFloat.
From stdpp Require Import gmap strings.
From S2P Require Import Prelude MachineInt Pmr Value.

Local Open Scope Z_scope.

Definition NUM_SHARDS : Z := 64.
Definition MAX_TOKENS : spec_float := double_of_size 1000.

(** [MAX_TOKENS / 60.0] *)
Definition REFILL_RATE : spec_float := double_div MAX_TOKENS (double_of_size 60).

Definition double_add (x y : spec_float) : spec_float := SFadd 53 1024 x y.
Definition double_sub (x y : spec_float) : spec_float := SFsub 53 1024 x y.
Definition double_mul (x y : spec_float) : spec_float := SFmul 53 1024 x y.

(** [std::min(a, b)] is [b < a ? b : a]. *)
Definition double_min (a b : spec_float) : spec_float := if SFltb b a then b else a.

(** [duration<double>(d).count()] of a number of nanoseconds. *)
Definition duration_double (d : Z) : spec_float := double_div (double_of_size d) (double_of_size nanos_per_second).

Record TokenBucket := MkBucket { bucket_tokens : spec_float; last_refill : Z }.

Definition TokenBucket_make (now : Z) : TokenBucket := MkBucket MAX_TOKENS now.

(** One map from addresses to buckets per shard. *)
Record RateLimiter := MkLimiter { shards_ : list (gmap string TokenBucket) }.

Definition RateLimiter_make : RateLimiter := MkLimiter (replicate (Z.to_nat NUM_SHARDS) ∅).

(** [allow(ip)], as far as it runs: the limiter is switched off by a [return true] in
    front of the token bucket. *)
Definition RateLimiter_allow (ip : string) : bool := true.

(** The bucket is filled up and, if it can be, charged one token. *)
Definition take_token (now : Z) (b : TokenBucket) : bool * TokenBucket :=
  let elapsed := duration_double (now - last_refill b) in
  let tokens := double_min MAX_TOKENS (double_add (bucket_tokens b) (double_mul elapsed REFILL_RATE)) in
  if double_ge tokens double_one then (true, MkBucket (double_sub tokens double_one) now)
  else (false, MkBucket tokens now).

Section limiter.
Context (std_hash : string → Z).

Definition shard_for_ip (ip : string) : nat := Z.to_nat (std_hash ip mod NUM_SHARDS).

(** The rest of [allow]: [created] is the clock when [buckets[ip]] makes a bucket. *)
Definition allow_bucket (ip : string) (created now : Z) (l : RateLimiter) : bool * RateLimiter :=
  let i := shard_for_ip ip in
  let buckets := default ∅ (shards_ l !! i) in
  let '(ok, b) := take_token now (default (TokenBucket_make created) (buckets !! ip)) in
  (ok, MkLimiter (<[i := <[ip := b]> buckets]> (shards_ l))).

(** The bucket of an address. *)
Definition bucket_of (ip : string) (l : RateLimiter) : option TokenBucket :=
  shards_ l !! shard_for_ip ip ≫= lookup ip.

Definition limiter_wf (l : RateLimiter) : Prop := length (shards_ l) = Z.to_nat NUM_SHARDS.

Lemma shard_for_ip_lt ip l : limiter_wf l → (shard_for_ip ip < length (shards_ l))%nat.
Proof.
  intros ->. unfold shard_for_ip. pose proof (Z.mod_pos_bound (std_hash ip) NUM_SHARDS eq_refl). lia.
Qed.

Lemma allow_bucket_wf ip created now l : limiter_wf l → limiter_wf (allow_bucket ip created now l).2.
Proof.
  intros Hw. unfold allow_bucket. destruct (take_token _ _) as [ok b]. unfold limiter_wf. simpl.
  by rewrite length_insert.
Qed.

(** A request charges the bucket of its own address and no other, whatever the hash. *)
Lemma allow_bucket_at ip ip' created now l :
  limiter_wf l →
  bucket_of ip' (allow_bucket ip created now l).2 =
  if bool_decide (ip = ip')
  then Some (take_token now (default (TokenBucket_make created) (bucket_of ip l))).2 else bucket_of ip' l.
Proof.
  intros Hw. pose proof (shard_for_ip_lt ip l Hw) as Hlt. apply lookup_lt_is_Some in Hlt as [m Hi].
  unfold allow_bucket, bucket_of. rewrite Hi. simpl.
  destruct (take_token _ _) as [ok b]. simpl.
  assert (Hlt : (shard_for_ip ip < length (shards_ l))%nat) by by apply shard_for_ip_lt.
  destruct (decide (shard_for_ip ip = shard_for_ip ip')) as [He|He].
  - rewrite <-He, list_lookup_insert_eq, Hi by done. simpl. case_bool_decide as Hip; [subst; by rewrite lookup_insert_eq|].
    by rewrite lookup_insert_ne.
  - rewrite list_lookup_insert_ne by done. by rewrite bool_decide_eq_false_2 by (by intros ->).
Qed.

Lemma allow_bucket_result ip created now l :
  limiter_wf l →
  (allow_bucket ip created now l).1 = (take_token now (default (TokenBucket_make created) (bucket_of ip l))).1.
Proof.
  intros Hw. pose proof (shard_for_ip_lt ip l Hw) as Hlt. apply lookup_lt_is_Some in Hlt as [m Hi].
  unfold allow_bucket, bucket_of. rewrite Hi. simpl. by destruct (take_token _ _).
Qed.

(** Requests of several addresses at one instant: the answers, and the limiter. *)
Fixpoint allow_all (now : Z) (ips : list string) (l : RateLimiter) : list bool * RateLimiter :=
  match ips with
  | [] => ([], l)
  | ip :: ips =>
    let '(ok, l1) := allow_bucket ip now now l in
    let '(oks, l2) := allow_all now ips l1 in (ok :: oks, l2)
  end.
End limiter.

(** ** Bursts *)

#[export] Instance spec_float_eq_dec : EqDecision spec_float.
Proof. solve_decision. Defined.

(** What is left of a full bucket after [k] charges at one instant. *)
Definition tokens_left (k : nat) : spec_float := double_of_size (1000 - Z.of_nat k).

(** No time has passed: nothing is added. *)
Definition refill_nothing (t : spec_float) : spec_float :=
  double_min MAX_TOKENS (double_add t (double_mul (duration_double 0) REFILL_RATE)).

Lemma take_token_at now t :
  take_token now (MkBucket t now) =
  let t := refill_nothing t in
  if double_ge t double_one then (true, MkBucket (double_sub t double_one) now) else (false, MkBucket t now).
Proof. unfold take_token, refill_nothing. simpl. by rewrite Z.sub_diag. Qed.

(** The thousand values a bucket goes through, checked one by one. *)
Lemma tokens_left_table k :
  (k < 1000)%nat →
  refill_nothing (tokens_left k) = tokens_left k ∧ double_ge (tokens_left k) double_one = true ∧
  double_sub (tokens_left k) double_one = tokens_left (S k).
Proof.
  intros Hk.
  assert (H : forallb (λ k, bool_decide (refill_nothing (tokens_left k) = tokens_left k) &&
    double_ge (tokens_left k) double_one &&
    bool_decide (double_sub (tokens_left k) double_one = tokens_left (S k))) (seq 0 1000) = true)
    by (vm_compute; reflexivity).
  rewrite forallb_forall in H. specialize (H k). rewrite in_seq in H. specialize (H ltac:(lia)).
  apply andb_prop in H as [[H1 H2]%andb_prop H3]. apply bool_decide_eq_true in H1, H3. done.
Qed.

Lemma tokens_left_none : refill_nothing (tokens_left 1000) = tokens_left 1000 ∧ double_ge (tokens_left 1000) double_one = false.
Proof. split; vm_compute; reflexivity. Qed.

(** A bucket charged [k] times at [now]. *)
Definition charged (now : Z) (k : nat) : TokenBucket := MkBucket (tokens_left (Nat.min k 1000)) now.

Lemma take_token_charged now k :
  take_token now (charged now k) = (bool_decide (k < 1000)%nat, charged now (S k)).
Proof.
  unfold charged. rewrite take_token_at. cbv zeta. case_bool_decide as Hk.
  - rewrite !Nat.min_l by lia. destruct (tokens_left_table k Hk) as (H1 & H2 & H3). by rewrite H1, H2, H3.
  - rewrite !Nat.min_r by lia. destruct tokens_left_none as [H1 H2]. by rewrite H1, H2.
Qed.

Lemma charged_0 now : TokenBucket_make now = charged now 0.
Proof. unfold TokenBucket_make, charged, tokens_left. f_equal. Qed.

Section burst.
Context (std_hash : string → Z) (now : Z).
Abbreviation allow_all := (allow_all std_hash now).
Abbreviation bucket_of := (bucket_of std_hash).

(** The limiter after [used ip] requests of each address. *)
Definition used_up (used : string → nat) (l : RateLimiter) : Prop :=
  limiter_wf l ∧ ∀ ip, default (TokenBucket_make now) (bucket_of ip l) = charged now (used ip).

Definition use (used : string → nat) (ip : string) : string → nat :=
  λ ip', if bool_decide (ip = ip') then S (used ip') else used ip'.

Lemma used_up_make : used_up (λ _, 0%nat) RateLimiter_make.
Proof.
  split; [by apply length_replicate|]. intros ip. rewrite <-charged_0.
  unfold RateLimiter.bucket_of. destruct (shards_ RateLimiter_make !! shard_for_ip std_hash ip) as [m|] eqn:Hm; [|done].
  apply lookup_replicate in Hm as [-> _]. simpl. by rewrite lookup_empty.
Qed.

Lemma used_up_allow used l ip :
  used_up used l →
  (allow_bucket std_hash ip now now l).1 = bool_decide (used ip < 1000)%nat ∧
  used_up (use used ip) (allow_bucket std_hash ip now now l).2.
Proof.
  intros [Hw Hu]. rewrite allow_bucket_result, Hu, take_token_charged by done. split; [done|].
  split; [by apply allow_bucket_wf|]. intros ip'. rewrite allow_bucket_at, Hu, take_token_charged by done.
  unfold use. case_bool_decide as He; [subst; done|apply Hu].
Qed.

(** How many requests of an address were allowed. *)
Definition allowed_of (ip : string) (ips : list string) (oks : list bool) : nat :=
  length (filter (λ p, p.1 = ip ∧ p.2 = true) (zip ips oks)).

Definition requests_of (ip : string) (ips : list string) : nat := length (filter (.= ip) ips).

Lemma allow_all_counts used ips l ip :
  used_up used l →
  allowed_of ip ips (allow_all ips l).1 = Nat.min (requests_of ip ips) (1000 - used ip).
Proof.
  revert used l. induction ips as [|ip0 ips IH]; intros used l Hu; [done|].
  destruct (used_up_allow used l ip0 Hu) as [Hok Hu1]. cbn [RateLimiter.allow_all].
  destruct (allow_bucket std_hash ip0 now now l) as [ok l1]. simpl in Hok, Hu1. subst ok.
  unfold use in Hu1.
  specialize (IH (use used ip0) l1 Hu1). unfold use in IH. destruct (allow_all ips l1) as [oks l2]. cbn [fst snd] in *.
  unfold allowed_of, requests_of in *. cbn [zip zip_with]. rewrite !filter_cons. cbn [fst snd].
  destruct (decide (ip0 = ip)) as [->|Hne].
  - rewrite bool_decide_eq_true_2 in IH by done.
    case_bool_decide; [rewrite decide_True by done|rewrite decide_False by (by intros [_ ?])];
      cbn [length]; rewrite IH; lia.
  - rewrite bool_decide_eq_false_2 in IH by done. rewrite decide_False by (by intros [? _]). apply IH.
Qed.
End burst.
