(* ===== verification/Pipeline.v ===== *)
(** * The request pipeline ([include/network/pipeline.h], [src/network/pipeline.cpp])

    A chain of responsibility: rate limit, tokenize, parse, dispatch.  Each
    handler either answers the request itself, by an error on the completion
    queue, or passes the context on; the last one submits the command to the
    worker pool. *)

From S2P Require Import Prelude Text Resp Command WorkerPool RateLimiter.

Local Open Scope Z_scope.

(** ** Handlers *)

Record PipelineContext := MkCtx {
  client : Z;
  line : string;
  seq_id : Z;
  client_ip : string;
  tokens : list string;
  ctx_command : option ICommand;       (* [unique_ptr], null when moved from *)
  ctx_pool : WorkerPool ICommand;
}.

Definition set_tokens (ts : list string) (ctx : PipelineContext) : PipelineContext :=
  MkCtx (client ctx) (line ctx) (seq_id ctx) (client_ip ctx) ts (ctx_command ctx) (ctx_pool ctx).
Definition set_command (c : option ICommand) (ctx : PipelineContext) : PipelineContext :=
  MkCtx (client ctx) (line ctx) (seq_id ctx) (client_ip ctx) (tokens ctx) c (ctx_pool ctx).
Definition set_ctx_pool (p : WorkerPool ICommand) (ctx : PipelineContext) : PipelineContext :=
  MkCtx (client ctx) (line ctx) (seq_id ctx) (client_ip ctx) (tokens ctx) (ctx_command ctx) p.

(** [ctx.pool.completion_queue().push({ctx.client, ctx.seq_id, text})] *)
Definition answer (text : string) (ctx : PipelineContext) : PipelineContext :=
  set_ctx_pool (push_result (MkResult (client ctx) (seq_id ctx) text) (ctx_pool ctx)) ctx.

(** The handler objects, and the chain their [next_] pointers make. *)
Inductive PipelineHandler :=
| RateLimitHandler
| TokenizeHandler
| CommandParseHandler
| DispatchHandler.

(** The four [handle] overrides; [next] is [PipelineHandler::handle(ctx)]. *)
Definition RateLimitHandler_handle (next : PipelineContext → PipelineContext)
    (ctx : PipelineContext) : PipelineContext :=
  if negb (RateLimiter_allow (client_ip ctx)) then answer ("-ERR rate limit exceeded" +:+ crlf) ctx
  else next ctx.

Definition TokenizeHandler_handle (next : PipelineContext → PipelineContext)
    (ctx : PipelineContext) : PipelineContext :=
  let ctx := set_tokens (tokens ctx ++ tokenize (line ctx)) ctx in
  match tokens ctx with
  | [] => answer ("-ERR empty command" +:+ crlf) ctx
  | _ => next ctx
  end.

Definition CommandParseHandler_handle (next : PipelineContext → PipelineContext)
    (ctx : PipelineContext) : PipelineContext :=
  let ctx := set_command (CommandFactory_parse (tokens ctx)) ctx in
  match ctx_command ctx with
  | None => answer ("-ERR unknown command" +:+ crlf) ctx
  | Some _ => next ctx
  end.

(** The parse handler passes no context without a command, so the [None] branch
    is not reached through the chain; a null command would be submitted. *)
Definition DispatchHandler_handle (ctx : PipelineContext) : PipelineContext :=
  match ctx_command ctx with
  | None => ctx
  | Some c =>
    let task := MkTask c (client ctx) (seq_id ctx) in
    let ctx := set_command None ctx in
    let '(ok, p) := submit task (ctx_pool ctx) in
    let ctx := set_ctx_pool p ctx in
    if negb ok then answer ("-ERR server busy" +:+ crlf) ctx else ctx
  end.

Fixpoint handle (chain : list PipelineHandler) (ctx : PipelineContext) : PipelineContext :=
  match chain with
  | [] => ctx
  | RateLimitHandler :: next => RateLimitHandler_handle (handle next) ctx
  | TokenizeHandler :: next => TokenizeHandler_handle (handle next) ctx
  | CommandParseHandler :: next => CommandParseHandler_handle (handle next) ctx
  | DispatchHandler :: _ => DispatchHandler_handle ctx
  end.

(** The pipeline owns the chain; the pool its [pool_] refers to is passed along. *)
Record Pipeline := MkPipeline { head_ : list PipelineHandler }.

(** The chain the constructor builds. *)
Definition Pipeline_make : Pipeline :=
  MkPipeline [RateLimitHandler; TokenizeHandler; CommandParseHandler; DispatchHandler].

Definition Pipeline_process (self : Pipeline) (client : Z) (line : string) (seq : Z)
    (ip : string) (p : WorkerPool ICommand) : WorkerPool ICommand :=
  ctx_pool (handle (head_ self) (MkCtx client line seq ip [] None p)).

(** ** What a request line asks for *)

Inductive request :=
| Run (c : ICommand)
| Reject (error : string).

Definition classify (line : string) : request :=
  match tokenize line with
  | [] => Reject "ERR empty command"
  | ts =>
    match CommandFactory_parse ts with
    | None => Reject "ERR unknown command"
    | Some c => Run c
    end
  end.

(** The pool after a request: a task at the back of the queue, or one error
    reply at the back of the completion queue. *)
Definition process_spec (client : Z) (line : string) (seq : Z) (p : WorkerPool ICommand)
    : WorkerPool ICommand :=
  let error text := push_result (MkResult client seq (encode (RError text))) p in
  match classify line with
  | Reject text => error text
  | Run c =>
    if pool_running_ p && (queue_size p <? max_queue_size_ p)
    then set_queue (queue_ p ++ [MkTask c client seq]) p
    else error "ERR server busy"
  end.

Lemma Pipeline_process_spec client line seq ip p :
  Pipeline_process Pipeline_make client line seq ip p = process_spec client line seq p.
Proof.
  unfold Pipeline_process, process_spec, classify. simpl.
  unfold RateLimitHandler_handle, TokenizeHandler_handle. simpl.
  destruct (tokenize line) as [|t ts]; [done|].
  unfold CommandParseHandler_handle. simpl tokens. cbn [ctx_command set_command].
  destruct (CommandFactory_parse (t :: ts)) as [c|]; [|done].
  unfold DispatchHandler_handle, submit. simpl.
  destruct (pool_running_ p); simpl; [|done].
  by rewrite Z.ltb_antisym; destruct (max_queue_size_ p <=? queue_size p).
Qed.

(** The pool's queues, and its bound, after a request. *)
Lemma process_spec_cases client line seq p :
  (∃ c, classify line = Run c ∧ process_spec client line seq p = set_queue (queue_ p ++ [MkTask c client seq]) p ∧
     (queue_size p < max_queue_size_ p)) ∨
  (∃ text, process_spec client line seq p = push_result (MkResult client seq (encode (RError text))) p ∧
     (classify line = Reject text ∨ text = "ERR server busy" ∧ ∃ c, classify line = Run c)).
Proof.
  unfold process_spec. destruct (classify line) as [c|text]; [|eauto 10].
  destruct (pool_running_ p && _) eqn:E; [|eauto 10]. bool_to_prop. left. eauto.
Qed.
