(* ===== verification/Reactor.v ===== *)
(** * The reactor ([include/network/reactor.h], [src/network/reactor.cpp])

    The single-threaded event loop: per connection a read buffer, a write
    buffer, the sequence numbers of pipelined requests and the buffer that puts
    the responses back in order.

    Sockets are outside the program.  What [accept], [recv], [send] and [WSAPoll]
    return are arguments here: [recv] gives bytes or nothing (closed, error),
    [send] gives the number of bytes taken or nothing ([SOCKET_ERROR]). *)

From stdpp Require Import gmap.
From S2P Require Import Prelude MachineInt Text Resp Command WorkerPool Pipeline.

Local Open Scope Z_scope.

Definition MAX_CONNECTIONS : Z := 10000.
Definition MAX_PIPELINE_DEPTH : Z := 256.

Record ConnectionState := MkConn {
  read_buffer : string;
  write_buffer : string;
  write_pending : bool;
  conn_ip : string;
  next_seq_issue : Z;          (* [uint64_t] *)
  next_seq_expected : Z;       (* [uint64_t] *)
  out_of_order_buf : gmap Z string;
  in_flight_requests : Z;      (* [uint64_t] *)
}.

Definition ConnectionState_make (ip : string) : ConnectionState := MkConn "" "" false ip 0 0 ∅ 0.

(** A [WSAPOLLFD]: the socket, the events asked for ([POLLRDNORM], [POLLWRNORM]). *)
Record pollfd := MkPollfd { fd : Z; ask_read : bool; ask_write : bool }.

(** What [WSAPoll] reports of a socket: [POLLERR | POLLHUP], [POLLRDNORM], [POLLWRNORM]. *)
Record revents := MkRevents { ev_error : bool; ev_read : bool; ev_write : bool }.

Record Reactor := MkReactor {
  listen_socket_ : Z;
  connections_ : gmap Z ConnectionState;
  paused_reads_ : gset Z;
  total_connections_ : Z;      (* [atomic<size_t>] *)
  poll_fds_ : list pollfd;
}.

Definition Reactor_make (listen_socket : Z) : Reactor := MkReactor listen_socket ∅ ∅ 0 [].

Definition set_connections (cs : gmap Z ConnectionState) (r : Reactor) : Reactor :=
  MkReactor (listen_socket_ r) cs (paused_reads_ r) (total_connections_ r) (poll_fds_ r).
Definition set_paused (ps : gset Z) (r : Reactor) : Reactor :=
  MkReactor (listen_socket_ r) (connections_ r) ps (total_connections_ r) (poll_fds_ r).
Definition set_total (n : Z) (r : Reactor) : Reactor :=
  MkReactor (listen_socket_ r) (connections_ r) (paused_reads_ r) n (poll_fds_ r).
Definition set_poll_fds (l : list pollfd) (r : Reactor) : Reactor :=
  MkReactor (listen_socket_ r) (connections_ r) (paused_reads_ r) (total_connections_ r) l.

(** Writes through the reference [auto& state = it->second]. *)
Definition set_conn (client : Z) (c : ConnectionState) (r : Reactor) : Reactor :=
  set_connections (<[client := c]> (connections_ r)) r.

(** ** Accepting and disconnecting *)

(** [accept()] gave the socket [client] from [ip]; the result says whether it is kept. *)
Definition accept_connection (client : Z) (ip : string) (r : Reactor) : bool * Reactor :=
  if MAX_CONNECTIONS <=? total_connections_ r then (false, r)
  else (true, set_total (u64 (total_connections_ r + 1)) (set_conn client (ConnectionState_make ip) r)).

Definition disconnect (client : Z) (r : Reactor) : Reactor :=
  let r := set_connections (delete client (connections_ r)) r in
  let r := set_paused (paused_reads_ r ∖ {[client]}) r in
  if 0 <? total_connections_ r then set_total (total_connections_ r - 1) r else r.

(** ** Reading *)

Definition set_read_buffer (b : string) (c : ConnectionState) : ConnectionState :=
  MkConn b (write_buffer c) (write_pending c) (conn_ip c) (next_seq_issue c) (next_seq_expected c)
    (out_of_order_buf c) (in_flight_requests c).

(** [next_seq_issue++; in_flight_requests++] *)
Definition issue (c : ConnectionState) : ConnectionState :=
  MkConn (read_buffer c) (write_buffer c) (write_pending c) (conn_ip c) (u64 (next_seq_issue c + 1))
    (next_seq_expected c) (out_of_order_buf c) (u64 (in_flight_requests c + 1)).

(** [handle_read] up to the loop: [false] when it returned there. *)
Definition handle_read_recv (client : Z) (bytes : string) (r : Reactor) : bool * Reactor :=
  if String.eqb bytes "" then (false, disconnect client r)
  else
    match connections_ r !! client with
    | None => (false, r)
    | Some c => (true, set_conn client (set_read_buffer (read_buffer c +:+ bytes) c) r)
    end.

(** [find('\n')], [substr(0, pos)], [erase(0, pos + 1)]. *)
Definition find_line (buffer : string) : option (string * string) :=
  match break_at is_LF buffer with
  | (line, String _ rest) => Some (line, rest)
  | (_, EmptyString) => None
  end.

(** [if (!line.empty() && line.back() == '\r') line.pop_back()] *)
Fixpoint strip_CR (line : string) : string :=
  match line with
  | EmptyString => EmptyString
  | String c EmptyString => if is_CR c then EmptyString else line
  | String c line => String c (strip_CR line)
  end.

(** What one iteration of the loop does next. *)
Inductive read_outcome :=
| LoopEnd                                       (* no complete line *)
| LoopContinue                                  (* an empty line *)
| LoopPaused                                    (* reads paused; [return] *)
| LoopProcess (line : string) (seq : Z) (ip : string).   (* [pipeline_.process(...)] *)

(** One iteration; [qsize] and [qmax] are what the pool reports, when asked. *)
Definition read_iteration (client : Z) (qsize qmax : Z) (r : Reactor) : read_outcome * Reactor :=
  match connections_ r !! client with
  | None => (LoopEnd, r)
  | Some c =>
    match find_line (read_buffer c) with
    | None => (LoopEnd, r)
    | Some (raw, rest) =>
      let c := set_read_buffer rest c in
      let r := set_conn client c r in
      let line := strip_CR raw in
      if String.eqb line "" then (LoopContinue, r)
      else if MAX_PIPELINE_DEPTH <=? in_flight_requests c then
        (LoopPaused, set_paused (paused_reads_ r ∪ {[client]}) r)
      else if qmax * 9 <? qsize * 10 then
        (LoopPaused, set_paused (paused_reads_ r ∪ {[client]}) r)
      else
        (LoopProcess line (next_seq_issue c) (conn_ip c), set_conn client (issue c) r)
    end
  end.

(** The loop, when no worker takes a task meanwhile. *)
Fixpoint read_loop (fuel : nat) (client : Z) (r : Reactor) (p : WorkerPool ICommand)
    : Reactor * WorkerPool ICommand :=
  match fuel with
  | O => (r, p)
  | S fuel =>
    match read_iteration client (queue_size p) (max_queue_size_ p) r with
    | (LoopEnd, r) | (LoopPaused, r) => (r, p)
    | (LoopContinue, r) => read_loop fuel client r p
    | (LoopProcess line seq ip, r) =>
      read_loop fuel client r (Pipeline_process Pipeline_make client line seq ip p)
    end
  end.

(** Every iteration that goes on removes at least one byte from the buffer. *)
Definition read_fuel (client : Z) (r : Reactor) : nat :=
  match connections_ r !! client with
  | None => 1
  | Some c => S (String.length (read_buffer c))
  end.

Definition handle_read (client : Z) (bytes : string) (r : Reactor) (p : WorkerPool ICommand)
    : Reactor * WorkerPool ICommand :=
  let '(go, r) := handle_read_recv client bytes r in
  if go then read_loop (read_fuel client r) client r p else (r, p).

(** ** Writing *)

Definition set_write (b : string) (pending : bool) (c : ConnectionState) : ConnectionState :=
  MkConn (read_buffer c) b pending (conn_ip c) (next_seq_issue c) (next_seq_expected c)
    (out_of_order_buf c) (in_flight_requests c).

(** [sent] is the result of [send], [None] for [SOCKET_ERROR]; it is asked for
    only when there is something to send. *)
Definition handle_write (client : Z) (sent : option nat) (r : Reactor) : Reactor :=
  match connections_ r !! client with
  | None => r
  | Some c =>
    if String.eqb (write_buffer c) "" then set_conn client (set_write (write_buffer c) false c) r
    else
      match sent with
      | None => disconnect client r
      | Some n =>
        let b := string_drop n (write_buffer c) in
        set_conn client (set_write b (if String.eqb b "" then false else write_pending c) c) r
      end
  end.

(** ** Responses *)

Definition set_out_of_order (m : gmap Z string) (c : ConnectionState) : ConnectionState :=
  MkConn (read_buffer c) (write_buffer c) (write_pending c) (conn_ip c) (next_seq_issue c)
    (next_seq_expected c) m (in_flight_requests c).

(** The body of the flush loop, [r] being [out_of_order_buf[next_seq_expected]]. *)
Definition flush_one (r : string) (c : ConnectionState) : ConnectionState :=
  MkConn (read_buffer c) (write_buffer c +:+ r) true (conn_ip c) (next_seq_issue c)
    (u64 (next_seq_expected c + 1))
    (delete (next_seq_expected c) (out_of_order_buf c))
    (if 0 <? in_flight_requests c then in_flight_requests c - 1 else in_flight_requests c).

Fixpoint flush_ready (fuel : nat) (c : ConnectionState) : ConnectionState :=
  match fuel with
  | O => c
  | S fuel =>
    match out_of_order_buf c !! next_seq_expected c with
    | None => c
    | Some r => flush_ready fuel (flush_one r c)
    end
  end.

(** One result for an open connection: every iteration of the flush loop
    removes an entry of the buffer, so its size is enough fuel. *)
Definition deliver (seq : Z) (resp : string) (c : ConnectionState) : ConnectionState :=
  let c := set_out_of_order (<[seq := resp]> (out_of_order_buf c)) c in
  flush_ready (size (out_of_order_buf c)) c.

Definition deliver_result (r : Reactor) (res : TaskResult) : Reactor :=
  match connections_ r !! result_fd res with
  | None => r
  | Some c => set_conn (result_fd res) (deliver (result_seq res) (response res) c) r
  end.

Definition drain_completion_queue {C} (r : Reactor) (p : WorkerPool C) : Reactor * WorkerPool C :=
  let '(results, p) := drain_results p in (foldl deliver_result r results, p).

(** ** The top of the loop in [start] *)

Definition has_room (r : Reactor) (client : Z) : bool :=
  match connections_ r !! client with
  | None => false
  | Some c => in_flight_requests c <? MAX_PIPELINE_DEPTH
  end.

(** Clears or filters [paused_reads_]. *)
Definition update_backpressure (qsz qmax : Z) (r : Reactor) : Reactor :=
  if qsz * 10 <? qmax * 7 then set_paused ∅ r
  else set_paused (filter (λ client, has_room r client = false) (paused_reads_ r)) r.

Definition pollfd_of (r : Reactor) (p : Z * ConnectionState) : pollfd :=
  MkPollfd p.1 (bool_decide (p.1 ∉ paused_reads_ r)) (write_pending p.2).

(** The order of the sockets is the one in which the map enumerates them. *)
Definition rebuild_poll_set (r : Reactor) : Reactor :=
  set_poll_fds (MkPollfd (listen_socket_ r) true false
                :: map (pollfd_of r) (map_to_list (connections_ r))) r.

(** After the loop: every socket is closed. *)
Definition close_all (r : Reactor) : Reactor := set_connections ∅ r.

(** ** Reassembly

    [conn_ok sent D c]: connection [c] has been delivered the responses [D] (by
    sequence number) and [sent] is what its socket has taken.  The buffer holds
    the responses from [next_seq_expected] on, the others are in the output, in
    order. *)

Definition responses_upto (D : gmap Z string) (n : Z) : string :=
  string_concat (map (λ k, default EmptyString (D !! k)) (seqZ 0 n)).

Record conn_ok (sent : string) (D : gmap Z string) (c : ConnectionState) : Prop := {
  ok_issue : next_seq_issue c < 2 ^ 64;
  ok_dom : ∀ k, is_Some (D !! k) → 0 <= k < next_seq_issue c;
  ok_expected : 0 <= next_seq_expected c <= next_seq_issue c;
  ok_prefix : ∀ k, 0 <= k < next_seq_expected c → is_Some (D !! k);
  ok_buffer : ∀ k, out_of_order_buf c !! k = if bool_decide (next_seq_expected c <= k) then D !! k else None;
  ok_stream : sent +:+ write_buffer c = responses_upto D (next_seq_expected c);
  ok_in_flight : in_flight_requests c = next_seq_issue c - next_seq_expected c;
  ok_pending : write_buffer c ≠ "" → write_pending c = true;
}.

(** What reassembly does not touch. *)
Definition conn_frame (c c' : ConnectionState) : Prop :=
  read_buffer c' = read_buffer c ∧ conn_ip c' = conn_ip c ∧ next_seq_issue c' = next_seq_issue c.

#[export] Instance conn_frame_preorder : PreOrder conn_frame.
Proof.
  split; [done|]. intros a b c (? & ? & ?) (? & ? & ?). repeat split; congruence.
Qed.

Lemma responses_upto_S D n r :
  0 <= n → D !! n = Some r → responses_upto D (n + 1) = responses_upto D n +:+ r.
Proof.
  intros Hn Hr. unfold responses_upto. rewrite seqZ_app by lia.
  rewrite map_app, string_concat_app. f_equal. rewrite Z.add_0_l, seqZ_cons by lia. cbn. rewrite Hr. apply string_app_nil_r.
Qed.

Lemma responses_upto_insert D n k r :
  n <= k → responses_upto (<[k := r]> D) n = responses_upto D n.
Proof.
  intros Hk. unfold responses_upto. f_equal. apply map_ext_in. intros x Hx.
  apply list_elem_of_In, elem_of_seqZ in Hx. by rewrite lookup_insert_ne by lia.
Qed.

Lemma responses_upto_empty n : responses_upto ∅ n = "".
Proof.
  unfold responses_upto. induction (seqZ 0 n) as [|k l IH]; [done|]. simpl. by rewrite lookup_empty.
Qed.

Lemma conn_ok_make ip : conn_ok "" ∅ (ConnectionState_make ip).
Proof.
  split; simpl; try done; try lia.
  - intros k [? H]. by rewrite lookup_empty in H.
  - intros k. rewrite !lookup_empty. by case_bool_decide.
Qed.

Lemma flush_one_ok sent D c r :
  out_of_order_buf c !! next_seq_expected c = Some r →
  conn_ok sent D c → conn_ok sent D (flush_one r c).
Proof.
  intros Hr [Hi Hd He Hp Hb Hs Hf Hw]. pose proof (Hb (next_seq_expected c)) as Hk.
  rewrite Hr, bool_decide_true in Hk by lia. symmetry in Hk.
  assert (He' : next_seq_expected c < next_seq_issue c) by (apply (Hd (next_seq_expected c)); eauto).
  assert (Hu : u64 (next_seq_expected c + 1) = next_seq_expected c + 1) by (apply Z.mod_small; lia).
  split; simpl; rewrite ?Hu; try done; try lia.
  - intros k Hk'. destruct (decide (k = next_seq_expected c)) as [->|]; [eauto|]. apply Hp. lia.
  - intros k. destruct (decide (k = next_seq_expected c)) as [->|].
    + rewrite lookup_delete_eq. by rewrite bool_decide_false by lia.
    + rewrite lookup_delete_ne, Hb by done. repeat case_bool_decide; try done; lia.
  - rewrite string_app_assoc, Hs. symmetry. apply responses_upto_S; [lia|done].
  - destruct (0 <? in_flight_requests c) eqn:E; bool_to_prop; lia.
Qed.

Lemma flush_ready_ok sent D fuel c :
  conn_ok sent D c → conn_ok sent D (flush_ready fuel c) ∧ conn_frame c (flush_ready fuel c).
Proof.
  revert c. induction fuel as [|n IH]; intros c Hc; simpl; [done|].
  destruct (out_of_order_buf c !! next_seq_expected c) as [r|] eqn:Hr; [|done].
  destruct (IH (flush_one r c) (flush_one_ok _ _ _ _ Hr Hc)) as [? Hf]. split; [done|].
  etrans; [|exact Hf]. done.
Qed.

(** With as much fuel as the buffer has entries the loop runs to its end. *)
Lemma flush_ready_done fuel c :
  (size (out_of_order_buf c) ≤ fuel)%nat →
  out_of_order_buf (flush_ready fuel c) !! next_seq_expected (flush_ready fuel c) = None.
Proof.
  revert c. induction fuel as [|n IH]; intros c Hc; simpl.
  - assert (Hz : size (out_of_order_buf c) = 0%nat) by lia.
    apply map_size_empty_inv in Hz. rewrite Hz. apply lookup_empty.
  - destruct (out_of_order_buf c !! next_seq_expected c) as [r|] eqn:Hr; [|done].
    apply IH. simpl. rewrite map_size_delete_Some by eauto. lia.
Qed.

Lemma deliver_ok sent D c k r :
  conn_ok sent D c → D !! k = None → 0 <= k < next_seq_issue c →
  conn_ok sent (<[k := r]> D) (deliver k r c) ∧ conn_frame c (deliver k r c) ∧
  out_of_order_buf (deliver k r c) !! next_seq_expected (deliver k r c) = None.
Proof.
  intros [Hi Hd He Hp Hb Hs Hf Hw] Hk Hr.
  assert (Hke : next_seq_expected c <= k).
  { destruct (decide (k < next_seq_expected c)); [|lia].
    destruct (Hp k) as [? Hx]; [lia|]. by rewrite Hk in Hx. }
  set (c0 := set_out_of_order (<[k := r]> (out_of_order_buf c)) c).
  assert (H0 : conn_ok sent (<[k := r]> D) c0).
  { split; simpl; try done.
    - intros j Hj. destruct (decide (j = k)) as [->|]; [done|]. rewrite lookup_insert_ne in Hj by done. auto.
    - intros j Hj. destruct (decide (j = k)) as [->|]; [rewrite lookup_insert_eq; eauto|].
      rewrite lookup_insert_ne by done. auto.
    - intros j. destruct (decide (j = k)) as [->|].
      + by rewrite !lookup_insert_eq, bool_decide_true.
      + by rewrite !lookup_insert_ne.
    - by rewrite responses_upto_insert. }
  destruct (flush_ready_ok _ _ (size (out_of_order_buf c0)) _ H0) as [H1 H2].
  split_and!; [exact H1|exact H2|]. by apply flush_ready_done.
Qed.

(** The first missing response is the one expected. *)
Definition conn_settled (D : gmap Z string) (c : ConnectionState) : Prop := D !! next_seq_expected c = None.

Lemma conn_settled_buffer sent D c :
  conn_ok sent D c → conn_settled D c ↔ out_of_order_buf c !! next_seq_expected c = None.
Proof. intros H. rewrite (ok_buffer _ _ _ H), bool_decide_true by lia. done. Qed.

(** Once every response issued has been delivered, all of them are in the output. *)
Lemma conn_all_delivered sent D c :
  conn_ok sent D c → conn_settled D c → (∀ k, 0 <= k < next_seq_issue c → is_Some (D !! k)) →
  next_seq_expected c = next_seq_issue c.
Proof.
  intros H Hs Ha. pose proof (ok_expected _ _ _ H).
  destruct (decide (next_seq_expected c < next_seq_issue c)); [|lia].
  destruct (Ha (next_seq_expected c)) as [? Hx]; [lia|]. by rewrite Hs in Hx.
Qed.

(** Any number of results, in any order. *)
Definition deliver_list (rs : list (Z * string)) (c : ConnectionState) : ConnectionState :=
  foldl (λ c '(k, r), deliver k r c) c rs.

Lemma deliver_list_ok sent rs D c :
  conn_ok sent D c → conn_settled D c →
  NoDup rs.*1 → (∀ k, k ∈ rs.*1 → D !! k = None ∧ 0 <= k < next_seq_issue c) →
  ∃ D', conn_ok sent D' (deliver_list rs c) ∧ conn_settled D' (deliver_list rs c) ∧
    conn_frame c (deliver_list rs c) ∧
    (∀ k r, D' !! k = Some r ↔ D !! k = Some r ∨ (k, r) ∈ rs).
Proof.
  revert D c. induction rs as [|[k r] rs IH]; intros D c Hc Hset Hn Hall; simpl in *.
  - exists D. split_and!; try done. intros k r. rewrite elem_of_nil. tauto.
  - apply NoDup_cons in Hn as [Hn1 Hn2]. destruct (Hall k) as [Hk1 Hk2]; [by left|].
    destruct (deliver_ok sent D c k r Hc Hk1 Hk2) as (Hc' & Hf & Hg).
    destruct (IH (<[k := r]> D) (deliver k r c)) as (D' & H1 & H1' & H2 & H3); [done| |done| |].
    + by apply (conn_settled_buffer sent).
    + intros j Hj. destruct Hf as (_ & _ & ->). destruct (Hall j) as [? ?]; [by right|].
      split; [|done]. rewrite lookup_insert_ne; [done|]. by intros ->.
    + exists D'. split_and!; [done|done|by etrans|]. intros j x. rewrite H3, elem_of_cons.
      destruct (decide (j = k)) as [->|Hjk].
      * rewrite lookup_insert_eq, Hk1.
        split; [intros [[= <-]|?]; auto|intros [?|[[= ->]|?]]; auto; done].
      * rewrite lookup_insert_ne by done.
        split; [intros [?|?]; auto|intros [?|[[= ? ?]|?]]; auto; done].
Qed.

(** ** The reactor's own invariant *)

(** A connection's limit, and that what is to be written is announced. *)
Definition conn_bounds (c : ConnectionState) : Prop :=
  0 <= in_flight_requests c <= MAX_PIPELINE_DEPTH ∧ (write_buffer c ≠ "" → write_pending c = true).

Record reactor_inv (r : Reactor) : Prop := {
  inv_total : total_connections_ r = Z.of_nat (size (connections_ r));
  inv_limit : total_connections_ r <= MAX_CONNECTIONS;
  inv_paused : ∀ client, client ∈ paused_reads_ r → is_Some (connections_ r !! client);
  inv_bounds : ∀ client c, connections_ r !! client = Some c → conn_bounds c;
}.

Lemma reactor_inv_make l : reactor_inv (Reactor_make l).
Proof. split; simpl; try done; set_solver. Qed.

(** Replacing the state of an open connection. *)
Lemma reactor_inv_set_conn client c c' r :
  reactor_inv r → connections_ r !! client = Some c →
  conn_bounds c' → reactor_inv (set_conn client c' r).
Proof.
  intros [Ht Hl Hp Hd] Hc Hc'. split; simpl.
  - by rewrite map_size_insert_Some by eauto.
  - done.
  - intros k Hk. destruct (decide (k = client)) as [->|]; [rewrite lookup_insert_eq; eauto|].
    rewrite lookup_insert_ne by done. auto.
  - intros k x. destruct (decide (k = client)) as [->|]; [rewrite lookup_insert_eq|rewrite lookup_insert_ne by done].
    + by intros [= <-].
    + apply Hd.
Qed.

Lemma reactor_inv_pause client r :
  reactor_inv r → is_Some (connections_ r !! client) →
  reactor_inv (set_paused (paused_reads_ r ∪ {[client]}) r).
Proof.
  intros [Ht Hl Hp Hd] Hc. split; simpl; try done.
  intros k [Hk| ->%elem_of_singleton]%elem_of_union; auto.
Qed.

Lemma reactor_inv_accept client ip r :
  reactor_inv r → connections_ r !! client = None → reactor_inv (accept_connection client ip r).2.
Proof.
  intros [Ht Hl Hp Hd] Hc. unfold accept_connection.
  destruct (MAX_CONNECTIONS <=? total_connections_ r) eqn:E; [by split|]. bool_to_prop.
  unfold MAX_CONNECTIONS in *. split; simpl.
  - rewrite map_size_insert_None by done. rewrite u64_small by (split; lia). lia.
  - rewrite u64_small by (split; lia). unfold MAX_CONNECTIONS. lia.
  - intros k Hk. destruct (decide (k = client)) as [->|]; [rewrite lookup_insert_eq; eauto|].
    rewrite lookup_insert_ne by done. auto.
  - intros k x. destruct (decide (k = client)) as [->|]; [rewrite lookup_insert_eq|rewrite lookup_insert_ne by done].
    + by intros [= <-].
    + apply Hd.
Qed.

Lemma reactor_inv_disconnect client r :
  reactor_inv r → is_Some (connections_ r !! client) → reactor_inv (disconnect client r).
Proof.
  intros [Ht Hl Hp Hd] Hc. unfold disconnect. simpl.
  pose proof (map_size_delete_Some client (connections_ r) Hc) as Hs.
  pose proof (map_size_ne_0_lookup_2 (connections_ r) client Hc) as Hpos.
  rewrite (proj2 (Z.ltb_lt _ _)) by lia. split; simpl.
  - rewrite Hs. lia.
  - lia.
  - intros k [Hk Hne]%elem_of_difference. rewrite lookup_delete_ne by set_solver. auto.
  - intros k x [_ Hx]%lookup_delete_Some. by apply (Hd k).
Qed.

Lemma flush_ready_bounds fuel c : conn_bounds c → conn_bounds (flush_ready fuel c).
Proof.
  revert c. induction fuel as [|n IH]; intros c Hc; simpl; [done|].
  destruct (out_of_order_buf c !! next_seq_expected c) as [r|]; [|done]. apply IH. destruct Hc as [Hc _].
  split; simpl; [|done]. destruct (0 <? in_flight_requests c) eqn:E; bool_to_prop; lia.
Qed.

Lemma reactor_inv_deliver r res : reactor_inv r → reactor_inv (deliver_result r res).
Proof.
  intros Hr. unfold deliver_result. destruct (connections_ r !! result_fd res) as [c|] eqn:Hc; [|done].
  eapply reactor_inv_set_conn; [done|done|]. apply flush_ready_bounds.
  exact (inv_bounds _ Hr _ _ Hc).
Qed.

Lemma reactor_inv_drain r results : reactor_inv r → reactor_inv (foldl deliver_result r results).
Proof.
  revert r. induction results as [|res results IH]; intros r Hr; simpl; [done|].
  by apply IH, reactor_inv_deliver.
Qed.

Lemma reactor_inv_backpressure qsz qmax r : reactor_inv r → reactor_inv (update_backpressure qsz qmax r).
Proof.
  intros [Ht Hl Hp Hd]. unfold update_backpressure. case_test; split; simpl; try done.
  intros k [_ Hk]%elem_of_filter. auto.
Qed.

Lemma handle_write_cases client sent c r :
  connections_ r !! client = Some c →
  (write_buffer c ≠ "" ∧ sent = None ∧ handle_write client sent r = disconnect client r) ∨
  (∃ n b, write_buffer c = string_take n (write_buffer c) +:+ b ∧
     (write_buffer c ≠ "" → sent = Some n) ∧
     handle_write client sent r = set_conn client (set_write b (if String.eqb b "" then false else write_pending c) c) r).
Proof.
  intros Hc. unfold handle_write. rewrite Hc. destruct (String.eqb_spec (write_buffer c) "") as [He|He].
  - right. exists 0%nat, "". rewrite He. done.
  - destruct sent as [n|]; [|by left]. right. exists n, (string_drop n (write_buffer c)).
    split_and!; [symmetry; apply string_take_drop|done|done].
Qed.

Lemma reactor_inv_write client sent r : reactor_inv r → reactor_inv (handle_write client sent r).
Proof.
  intros Hr. destruct (connections_ r !! client) as [c|] eqn:Hc.
  - destruct (handle_write_cases client sent c r Hc) as [(_ & _ & ->)|(n & b & Hw & _ & ->)].
    + apply reactor_inv_disconnect; eauto.
    + eapply reactor_inv_set_conn; [done|done|]. destruct (inv_bounds _ Hr client _ Hc) as [Hd Hp].
      split; [done|]. simpl. intros Hb. destruct (String.eqb_spec b ""); [done|]. apply Hp. intros He.
      rewrite He in Hw. destruct n; simpl in Hw; by destruct b.
  - unfold handle_write. by rewrite Hc.
Qed.

(** ** The read loop *)

Lemma find_line_Some b raw rest :
  find_line b = Some (raw, rest) → b = raw +:+ String LF rest ∧ has_no_LF raw = true.
Proof.
  unfold find_line. intros H. pose proof (break_at_app is_LF b) as Ha.
  pose proof (break_at_prefix is_LF b) as Hp. destruct (break_at is_LF b) as [l [|x t]] eqn:E; [done|].
  injection H as [= -> ->]. apply break_at_stop in E. simpl in *. split; [|done].
  unfold is_LF in E. apply Ascii.eqb_eq in E. by subst x.
Qed.

Lemma find_line_app raw rest : has_no_LF raw = true → find_line (raw +:+ String LF rest) = Some (raw, rest).
Proof.
  intros H. unfold find_line. by rewrite break_at_found.
Qed.

(** The cases of an iteration on an open connection. *)
Inductive read_case (client : Z) (qsize qmax : Z) (c : ConnectionState) (r : Reactor) :
    read_outcome → Reactor → Prop :=
| read_end : find_line (read_buffer c) = None → read_case client qsize qmax c r LoopEnd r
| read_empty raw rest :
    find_line (read_buffer c) = Some (raw, rest) → strip_CR raw = "" →
    read_case client qsize qmax c r LoopContinue (set_conn client (set_read_buffer rest c) r)
| read_paused raw rest :
    find_line (read_buffer c) = Some (raw, rest) → strip_CR raw ≠ "" →
    MAX_PIPELINE_DEPTH <= in_flight_requests c ∨ qmax * 9 < qsize * 10 →
    read_case client qsize qmax c r LoopPaused
      (set_paused (paused_reads_ r ∪ {[client]}) (set_conn client (set_read_buffer rest c) r))
| read_process raw rest :
    find_line (read_buffer c) = Some (raw, rest) → strip_CR raw ≠ "" →
    in_flight_requests c < MAX_PIPELINE_DEPTH → qsize * 10 <= qmax * 9 →
    read_case client qsize qmax c r (LoopProcess (strip_CR raw) (next_seq_issue c) (conn_ip c))
      (set_conn client (issue (set_read_buffer rest c)) r).

Lemma read_iteration_cases client qsize qmax c r :
  connections_ r !! client = Some c →
  read_case client qsize qmax c r (read_iteration client qsize qmax r).1 (read_iteration client qsize qmax r).2.
Proof.
  intros Hc. unfold read_iteration. rewrite Hc.
  destruct (find_line (read_buffer c)) as [[raw rest]|] eqn:Hl; [|by constructor].
  destruct (String.eqb_spec (strip_CR raw) "") as [He|He]; [by eapply read_empty|].
  cbn [in_flight_requests set_read_buffer].
  destruct (MAX_PIPELINE_DEPTH <=? in_flight_requests c) eqn:E1; bool_to_prop; [apply (read_paused client qsize qmax c r raw rest Hl He); lia|].
  destruct (qmax * 9 <? qsize * 10) eqn:E2; bool_to_prop; [apply (read_paused client qsize qmax c r raw rest Hl He); lia|].
  unfold set_conn. simpl. unfold set_connections. simpl. rewrite insert_insert_eq. by eapply read_process.
Qed.

(** What the loop goes on with is shorter. *)
Definition goes_on (o : read_outcome) : bool :=
  match o with
  | LoopContinue | LoopProcess _ _ _ => true
  | LoopEnd | LoopPaused => false
  end.

Lemma read_iteration_shrinks client qsize qmax r :
  goes_on (read_iteration client qsize qmax r).1 = true →
  (read_fuel client (read_iteration client qsize qmax r).2 < read_fuel client r)%nat.
Proof.
  destruct (connections_ r !! client) as [c|] eqn:Hc; [|unfold read_iteration; by rewrite Hc].
  unfold read_fuel at 2. rewrite Hc.
  destruct (read_iteration_cases client qsize qmax c r Hc) as [|raw rest Hl|raw rest Hl|raw rest Hl]; try done;
    intros _; apply find_line_Some in Hl as [Hb _]; unfold read_fuel; simpl; rewrite lookup_insert_eq; simpl;
    rewrite Hb, string_length_app; simpl; lia.
Qed.

Lemma read_loop_fuel n m client r p :
  (read_fuel client r ≤ n)%nat → (read_fuel client r ≤ m)%nat →
  read_loop n client r p = read_loop m client r p.
Proof.
  revert m r p. induction n as [|n IH]; intros m r p Hn Hm.
  - unfold read_fuel in Hn. destruct (connections_ r !! client); lia.
  - destruct m as [|m]; [unfold read_fuel in Hm; destruct (connections_ r !! client); lia|]. simpl.
    pose proof (read_iteration_shrinks client (queue_size p) (max_queue_size_ p) r) as Hs.
    destruct (read_iteration client (queue_size p) (max_queue_size_ p) r) as [o r']. simpl in Hs.
    destruct o; try done; specialize (Hs eq_refl); apply IH; lia.
Qed.

(** When the loop ends: the client is gone or paused, or no complete line is left. *)
Definition read_ended (client : Z) (r : Reactor) : Prop :=
  client ∈ paused_reads_ r ∨
  match connections_ r !! client with
  | None => True
  | Some c => find_line (read_buffer c) = None
  end.

Lemma read_loop_ends n client r p :
  (read_fuel client r ≤ n)%nat → read_ended client (read_loop n client r p).1.
Proof.
  revert r p. induction n as [|n IH]; intros r p Hn.
  - unfold read_fuel in Hn. destruct (connections_ r !! client); lia.
  - simpl. destruct (connections_ r !! client) as [c|] eqn:Hc.
    + pose proof (read_iteration_shrinks client (queue_size p) (max_queue_size_ p) r) as Hs.
      pose proof (read_iteration_cases client (queue_size p) (max_queue_size_ p) c r Hc) as Hcase.
      destruct (read_iteration client (queue_size p) (max_queue_size_ p) r) as [o r']. simpl in *.
      destruct o; try (specialize (Hs eq_refl); apply IH; lia).
      * right. simpl. inversion Hcase. subst r'. by rewrite Hc.
      * left. simpl. inversion Hcase. simpl. apply elem_of_union_r. by apply elem_of_singleton.
    + unfold read_iteration. rewrite Hc. right. simpl. by rewrite Hc.
Qed.

Lemma reactor_inv_iteration client qsize qmax r :
  reactor_inv r → reactor_inv (read_iteration client qsize qmax r).2.
Proof.
  intros Hr. destruct (connections_ r !! client) as [c|] eqn:Hc; [|unfold read_iteration; by rewrite Hc].
  pose proof (inv_bounds _ Hr _ _ Hc) as [Hd Hp].
  destruct (read_iteration_cases client qsize qmax c r Hc) as [|raw rest Hl|raw rest Hl|raw rest Hl ? Hlt];
    [done|by eapply reactor_inv_set_conn| |].
  - apply (reactor_inv_pause client (set_conn client (set_read_buffer rest c) r)).
    + by eapply reactor_inv_set_conn.
    + simpl. rewrite lookup_insert_eq. eauto.
  - eapply reactor_inv_set_conn; [done|done|]. split; [|done]. simpl. unfold MAX_PIPELINE_DEPTH in *.
    rewrite u64_small by (split; lia). lia.
Qed.
