(* ===== verification/Startup.v ===== *)
(** * Opening and closing the listening socket ([src/network/reactor.cpp])

    The part of [Reactor::start] before its loop, [stop] and the destructor.
    Winsock is outside the program: what its calls return is an argument
    ([winsock]). *)

From S2P Require Import Prelude MachineInt Text Reactor.

Local Open Scope Z_scope.

(** [INVALID_SOCKET] is [(SOCKET)(~0)], [SOCKET] a 64-bit unsigned integer;
    [SOCKET_ERROR] is -1. *)
Definition INVALID_SOCKET : Z := u64 (-1).
Definition SOCKET_ERROR : Z := -1.

(** The results of the calls, in the order in which they are made. *)
Record winsock := MkWinsock {
  WSAStartup : Z;
  WSASocketW : Z;
  bind : Z → Z → Z;                 (* socket, port in network order *)
  listen : Z → Z;
  WSAGetLastError : Z;
}.

(** [htons] of a 16-bit port: the two bytes swapped. *)
Definition htons (port : Z) : Z :=
  Z.lor (Z.shiftl (Z.land port 255) 8) (Z.shiftr port 8).

Definition set_listen (sock : Z) (r : Reactor) : Reactor :=
  MkReactor sock (connections_ r) (paused_reads_ r) (total_connections_ r) (poll_fds_ r).

Definition init_winsock (net : winsock) : SE Reactor runtime_error unit :=
  if negb (WSAStartup net =? 0) then throw (RuntimeError ("WSAStartup failed: " +:+ to_string (WSAStartup net)))
  else mret tt.

Definition create_listen_socket (net : winsock) (port : Z) : SE Reactor runtime_error unit :=
  _ ← modify (set_listen (WSASocketW net));
  r ← get_state;
  let failed what := throw (RuntimeError (what +:+ to_string (WSAGetLastError net))) in
  if listen_socket_ r =? INVALID_SOCKET then failed "WSASocket failed: "
  else if bind net (listen_socket_ r) (htons port) =? SOCKET_ERROR then failed "Bind failed: "
  else if listen net (listen_socket_ r) =? SOCKET_ERROR then failed "Listen failed: "
  else mret tt.

(** [start()] up to [running_ = true]. *)
Definition reactor_open (net : winsock) (port : Z) : SE Reactor runtime_error unit :=
  _ ← init_winsock net; create_listen_socket net port.

(** [~Reactor()] after [stop()]: the sockets it closes. *)
Definition Reactor_destroy (r : Reactor) : list Z :=
  if listen_socket_ r =? INVALID_SOCKET then [] else [listen_socket_ r].

(** ** Lemmas *)

Lemma htons_testbit port i :
  0 <= i → Z.testbit (htons port) i = ((8 <=? i) && (i <? 16) && Z.testbit port (i - 8)) || Z.testbit port (i + 8).
Proof.
  intros Hi. unfold htons. rewrite Z.lor_spec, Z.shiftr_spec by done. f_equal.
  destruct (Z.leb_spec 8 i).
  - rewrite Z.shiftl_spec, Z.land_spec by done. change 255 with (Z.ones 8).
    rewrite Z.testbit_ones_nonneg by lia. simpl.
    destruct (Z.ltb_spec i 16), (Z.ltb_spec (i - 8) 8); try lia; by destruct (Z.testbit port (i - 8)).
  - by rewrite Z.shiftl_spec_low.
Qed.

(** The bits of a port change places. *)
Lemma htons_port_bits port i :
  0 <= port < 2 ^ 16 → 0 <= i →
  Z.testbit (htons port) i = (i <? 16) && Z.testbit port (if i <? 8 then i + 8 else i - 8).
Proof.
  intros Hp Hi. rewrite htons_testbit by done.
  assert (Hhigh : ∀ k, 16 <= k → Z.testbit port k = false).
  { intros k Hk. rewrite <-(Z.mod_small port (2 ^ 16)) by lia. apply Z.mod_pow2_bits_high. lia. }
  destruct (Z.leb_spec 8 i), (Z.ltb_spec i 8), (Z.ltb_spec i 16); try lia; simpl;
    rewrite ?(Hhigh (i + 8)), ?orb_false_r by lia; done.
Qed.

(** Swapping the bytes of a port twice gives it back. *)
Lemma htons_involutive port : 0 <= port < 2 ^ 16 → htons (htons port) = port.
Proof.
  intros Hp. assert (Hp' : 0 <= htons port < 2 ^ 16).
  { assert (Hn : 0 <= htons port).
    { apply Z.lor_nonneg. split; [apply Z.shiftl_nonneg, Z.land_nonneg|apply Z.shiftr_nonneg]; lia. }
    split; [done|].
    assert (htons port mod 2 ^ 16 = htons port) as Hm.
    { apply Z.bits_inj'. intros i Hi. destruct (Z.lt_ge_cases i 16) as [Hlt|Hge].
      - by apply Z.mod_pow2_bits_low.
      - rewrite Z.mod_pow2_bits_high, htons_port_bits by lia. by rewrite (proj2 (Z.ltb_ge _ _)) by lia. }
    rewrite <-Hm. apply Z.mod_pos_bound. lia. }
  apply Z.bits_inj'. intros i Hi. rewrite htons_port_bits by done.
  destruct (Z.ltb_spec i 16); simpl.
  - rewrite htons_port_bits by (done || (case_match; lia)).
    destruct (Z.ltb_spec i 8).
    + rewrite (proj2 (Z.ltb_lt _ _)), (proj2 (Z.ltb_ge _ _)) by lia. simpl. f_equal. lia.
    + rewrite (proj2 (Z.ltb_lt (i - 8) 16)), (proj2 (Z.ltb_lt (i - 8) 8)) by lia. simpl. f_equal. lia.
  - symmetry. rewrite <-(Z.mod_small port (2 ^ 16)) by lia. apply Z.mod_pow2_bits_high. lia.
Qed.

(** All calls succeeded. *)
Definition all_ok (net : winsock) (port : Z) : Prop :=
  WSAStartup net = 0 ∧ WSASocketW net ≠ INVALID_SOCKET ∧
  bind net (WSASocketW net) (htons port) ≠ SOCKET_ERROR ∧ listen net (WSASocketW net) ≠ SOCKET_ERROR.

(** The socket was created, whether or not what follows failed. *)
Definition created (net : winsock) : bool :=
  (WSAStartup net =? 0) && negb (WSASocketW net =? INVALID_SOCKET).

(** The reactor listens exactly when every call succeeded. *)
Lemma reactor_open_normal net port r :
  (reactor_open net port r).1 = Normal tt ↔ all_ok net port.
Proof.
  unfold all_ok, reactor_open, init_winsock, create_listen_socket, mbind, SE_bind, modify, get_state. simpl.
  destruct (Z.eqb_spec (WSAStartup net) 0); simpl; [|split; [done|tauto]].
  destruct (Z.eqb_spec (WSASocketW net) INVALID_SOCKET); simpl; [split; [done|tauto]|].
  destruct (Z.eqb_spec (bind net (WSASocketW net) (htons port)) SOCKET_ERROR); simpl; [split; [done|tauto]|].
  destruct (Z.eqb_spec (listen net (WSASocketW net)) SOCKET_ERROR); simpl; [split; [done|tauto]|]. tauto.
Qed.

Lemma reactor_open_state net port r :
  (reactor_open net port r).2 = if WSAStartup net =? 0 then set_listen (WSASocketW net) r else r.
Proof.
  unfold reactor_open, init_winsock, create_listen_socket, mbind, SE_bind, modify, get_state. simpl.
  destruct (WSAStartup net =? 0); simpl; [|done]. repeat case_match; simplify_eq/=; done.
Qed.

(** Whatever failed, the destructor closes the socket if one was created, and nothing else. *)
Lemma reactor_open_destroy net port :
  Reactor_destroy (reactor_open net port (Reactor_make INVALID_SOCKET)).2 =
  if created net then [WSASocketW net] else [].
Proof.
  rewrite reactor_open_state. unfold created, Reactor_destroy. destruct (WSAStartup net =? 0); [|done]. simpl.
  by destruct (WSASocketW net =? INVALID_SOCKET).
Qed.
