(* ===== verification/Server.v ===== *)
(** * The running server: reactor and workers interleaved

    The thread structure [build_and_run] sets up ([src/core/server_builder.cpp])
    around the loop of [Reactor::start] ([src/network/reactor.cpp]).  The reactor
    thread is at one of the points of [control]; between any two of its steps
    the workers of the pool may take steps of their own.  One reactor step does
    at most one access to the pool, so every interleaving of the critical
    sections is a run.

    Ghost state records, per socket, what was received, which lines were framed
    and whether they were issued as requests, which responses have been
    delivered and which bytes the socket took. *)

From stdpp Require Import gmap.
From S2P Require Import Prelude MachineInt Text Resp Command WorkerPool Pipeline Reactor.

Local Open Scope Z_scope.

(** Where the reactor thread is; [evs] are the sockets left in the dispatch loop,
    [w] says whether [handle_write] follows. *)
Inductive control :=
| AtTop
| AtBackpressure
| AtPoll
| Dispatching (evs : list (pollfd * revents))
| Reading (client : Z) (w : bool) (evs : list (pollfd * revents))
| Processing (client : Z) (line : string) (seq : Z) (ip : string) (w : bool) (evs : list (pollfd * revents))
| Writing (client : Z) (evs : list (pollfd * revents))
| Stopped.

Record conn_ghost := MkGhost {
  g_received : string;                   (* bytes [recv] returned *)
  g_frames : list (string * bool);       (* raw lines taken from the buffer; issued? *)
  g_delivered : gmap Z string;           (* responses delivered, by sequence number *)
  g_sent : string;                       (* bytes [send] took *)
}.

Definition ghost_make : conn_ghost := MkGhost "" [] ∅ "".

(** The lines issued as requests: the one with sequence number [k] is the k-th. *)
Definition g_requests (g : conn_ghost) : list string :=
  map (λ p, strip_CR p.1) (filter (λ p, p.2 = true) (g_frames g)).

Definition g_recv (bytes : string) (g : conn_ghost) : conn_ghost :=
  MkGhost (g_received g +:+ bytes) (g_frames g) (g_delivered g) (g_sent g).
Definition g_frame (raw : string) (issued : bool) (g : conn_ghost) : conn_ghost :=
  MkGhost (g_received g) (g_frames g ++ [(raw, issued)]) (g_delivered g) (g_sent g).
Definition g_deliver (seq : Z) (resp : string) (g : conn_ghost) : conn_ghost :=
  MkGhost (g_received g) (g_frames g) (<[seq := resp]> (g_delivered g)) (g_sent g).
Definition g_send (bytes : string) (g : conn_ghost) : conn_ghost :=
  MkGhost (g_received g) (g_frames g) (g_delivered g) (g_sent g +:+ bytes).

Abbreviation ghosts := (gmap Z conn_ghost).

Definition update_ghost (f : conn_ghost → conn_ghost) (client : Z) (gs : ghosts) : ghosts :=
  match gs !! client with
  | Some g => <[client := f g]> gs
  | None => gs
  end.

(** A result reaches its connection only when that is open. *)
Definition ghost_deliver_result (r : Reactor) (gs : ghosts) (res : TaskResult) : ghosts :=
  match connections_ r !! result_fd res with
  | None => gs
  | Some _ => update_ghost (g_deliver (result_seq res) (response res)) (result_fd res) gs
  end.

Record server (St : Type) := MkServer {
  reactor : Reactor;
  ctl : control;
  running : bool;
  back : pool_state ICommand St;
  ghost : ghosts;
  accepted : list Z;               (* ghost: the sockets accepted, in order *)
}.
Arguments MkServer {St} _ _ _ _ _ _.
Arguments reactor {St} _.
Arguments ctl {St} _.
Arguments running {St} _.
Arguments back {St} _.
Arguments ghost {St} _.
Arguments accepted {St} _.

Section server.
Context {St : Type} `{!Executor ICommand St}.

Definition set_back_pool (p : WorkerPool ICommand) (b : pool_state ICommand St) : pool_state ICommand St :=
  PoolState p (workers b) (engine b) (accepted_tasks b) (taken_tasks b) (posted_tasks b).

(** A request goes through the pipeline; the ghost records a task it queued. *)
Definition process_back (client : Z) (line : string) (seq : Z) (ip : string) (b : pool_state ICommand St)
    : pool_state ICommand St :=
  let p := Pipeline_process Pipeline_make client line seq ip (pool b) in
  PoolState p (workers b) (engine b)
    (accepted_tasks b ++ drop (length (queue_ (pool b))) (queue_ p)) (taken_tasks b) (posted_tasks b).

Definition server_started (listen : Z) (threads : nat) (max : Z) (s : St) : server St :=
  MkServer (Reactor_make listen) AtTop true (pool_started threads max s) ∅ [].

(** [WSAPoll] reports readiness only for the events asked for; one entry per socket. *)
Definition poll_reports (pfd : pollfd) (ev : revents) : Prop :=
  (ev_read ev = true → ask_read pfd = true) ∧ (ev_write ev = true → ask_write pfd = true).

(** After [handle_read] of a client: the pending [handle_write], or the next socket. *)
Definition after_read (client : Z) (w : bool) (evs : list (pollfd * revents)) : control :=
  if w then Writing client evs else Dispatching evs.

(** The ghost effect of one iteration of the read loop on [raw]. *)
Definition ghost_read (client : Z) (r : Reactor) (o : read_outcome) (gs : ghosts) : ghosts :=
  match connections_ r !! client with
  | None => gs
  | Some c =>
    match find_line (read_buffer c) with
    | None => gs
    | Some (raw, _) =>
      update_ghost (g_frame raw (match o with LoopProcess _ _ _ => true | _ => false end)) client gs
    end
  end.

Definition next_control (client : Z) (w : bool) (evs : list (pollfd * revents)) (o : read_outcome) : control :=
  match o with
  | LoopEnd | LoopPaused => after_read client w evs
  | LoopContinue => Reading client w evs
  | LoopProcess line seq ip => Processing client line seq ip w evs
  end.

(** The steps of the reactor thread. *)
Inductive reactor_step : server St → server St → Prop :=
(** [while (running_)] and [drain_completion_queue()] *)
| srv_drain r b gs acc :
    reactor_step (MkServer r AtTop true b gs acc)
      (MkServer (drain_completion_queue r (pool b)).1 AtBackpressure true
         (set_back_pool (drain_completion_queue r (pool b)).2 b)
         (foldl (ghost_deliver_result r) gs (drain_results (pool b)).1) acc)
| srv_exit r b gs acc :
    reactor_step (MkServer r AtTop false b gs acc) (MkServer (close_all r) Stopped false b gs acc)
| srv_backpressure r run b gs acc :
    reactor_step (MkServer r AtBackpressure run b gs acc)
      (MkServer (rebuild_poll_set (update_backpressure (queue_size (pool b)) (max_queue_size_ (pool b)) r))
         AtPoll run b gs acc)
| srv_poll_nothing r run b gs acc :
    reactor_step (MkServer r AtPoll run b gs acc) (MkServer r AtTop run b gs acc)
| srv_poll r run b gs acc evs :
  evs.*1 = poll_fds_ r → Forall (λ e, poll_reports e.1 e.2) evs →
    reactor_step (MkServer r AtPoll run b gs acc) (MkServer r (Dispatching evs) run b gs acc)
(** the dispatch loop *)
| srv_dispatched r run b gs acc :
    reactor_step (MkServer r (Dispatching []) run b gs acc) (MkServer r AtTop run b gs acc)
| srv_no_event r run b gs acc pfd ev evs :
    ev_error ev = false ∧ ev_read ev = false ∧ ev_write ev = false ∨
      fd pfd = listen_socket_ r ∧ ev_read ev = false →
    reactor_step (MkServer r (Dispatching ((pfd, ev) :: evs)) run b gs acc)
      (MkServer r (Dispatching evs) run b gs acc)
| srv_accept r run b gs acc pfd ev evs (conn : option (Z * string)) :
    fd pfd = listen_socket_ r → ev_read ev = true →
    (* [accept] gives no socket that is open *)
    (∀ client ip, conn = Some (client, ip) → connections_ r !! client = None ∧ client ≠ listen_socket_ r) →
    reactor_step (MkServer r (Dispatching ((pfd, ev) :: evs)) run b gs acc)
      (match conn with
       | None => MkServer r (Dispatching evs) run b gs acc
       | Some (client, ip) =>
         let '(kept, r') := accept_connection client ip r in
         MkServer r' (Dispatching evs) run b
           (if (kept : bool) then <[client := ghost_make]> gs else gs)
           (if (kept : bool) then acc ++ [client] else acc)
       end)
| srv_error r run b gs acc pfd ev evs :
    fd pfd ≠ listen_socket_ r → ev_error ev = true →
    reactor_step (MkServer r (Dispatching ((pfd, ev) :: evs)) run b gs acc)
      (MkServer (disconnect (fd pfd) r) (Dispatching evs) run b gs acc)
| srv_recv r run b gs acc pfd ev evs bytes :
    fd pfd ≠ listen_socket_ r → ev_error ev = false → ev_read ev = true →
    reactor_step (MkServer r (Dispatching ((pfd, ev) :: evs)) run b gs acc)
      (let '(go, r') := handle_read_recv (fd pfd) bytes r in
       MkServer r' (if (go : bool) then Reading (fd pfd) (ev_write ev) evs else after_read (fd pfd) (ev_write ev) evs)
         run b (if (go : bool) then update_ghost (g_recv bytes) (fd pfd) gs else gs) acc)
| srv_write_only r run b gs acc pfd ev evs :
    fd pfd ≠ listen_socket_ r → ev_error ev = false → ev_read ev = false → ev_write ev = true →
    reactor_step (MkServer r (Dispatching ((pfd, ev) :: evs)) run b gs acc)
      (MkServer r (Writing (fd pfd) evs) run b gs acc)
(** one iteration of the loop of [handle_read] *)
| srv_read r run b gs acc client w evs o r' :
    read_iteration client (queue_size (pool b)) (max_queue_size_ (pool b)) r = (o, r') →
    reactor_step (MkServer r (Reading client w evs) run b gs acc)
      (MkServer r' (next_control client w evs o) run b (ghost_read client r o gs) acc)
| srv_process r run b gs acc client line seq ip w evs :
    reactor_step (MkServer r (Processing client line seq ip w evs) run b gs acc)
      (MkServer r (Reading client w evs) run
         (process_back client line seq ip b) gs acc)
(** [handle_write]; [send] takes at most what it was given *)
| srv_write r run b gs acc client evs sent :
    (∀ n c, sent = Some n → connections_ r !! client = Some c → (n ≤ String.length (write_buffer c))%nat) →
    reactor_step (MkServer r (Writing client evs) run b gs acc)
      (MkServer (handle_write client sent r) (Dispatching evs) run b
         (match connections_ r !! client, sent with
          | Some c, Some n => update_ghost (g_send (string_take n (write_buffer c))) client gs
          | _, _ => gs
          end) acc).

(** All threads. *)
Inductive server_step : server St → server St → Prop :=
| srv_reactor sv sv' : reactor_step sv sv' → server_step sv sv'
(** the worker threads *)
| srv_worker r k run b b' gs acc :
    worker_step b b' →
    server_step (MkServer r k run b gs acc) (MkServer r k run b' gs acc)
(** [reactor.stop()], from the main thread *)
| srv_stop r k run b gs acc :
    server_step (MkServer r k run b gs acc) (MkServer r k false b gs acc)
(** [pool.shutdown()], after the reactor thread was joined *)
| srv_shutdown r run b gs acc :
    server_step (MkServer r Stopped run b gs acc)
      (MkServer r Stopped run (set_back_pool (pool_stop (pool b)).2 b) gs acc).

(** ** The reactor thread's invariant *)

Definition fds (evs : list (pollfd * revents)) : list Z := map (λ e, fd e.1) evs.

(** The sockets left to dispatch are distinct, and open unless they listen. *)
Definition sockets_ok (r : Reactor) (l : list Z) : Prop :=
  NoDup l ∧ ∀ f, f ∈ l → f = listen_socket_ r ∨ is_Some (connections_ r !! f).

Definition control_ok (r : Reactor) (k : control) : Prop :=
  connections_ r !! listen_socket_ r = None ∧
  match k with
  | AtTop | AtBackpressure => reactor_inv r
  | AtPoll => reactor_inv r ∧ sockets_ok r (map fd (poll_fds_ r))
  | Dispatching evs => reactor_inv r ∧ sockets_ok r (fds evs)
  | Reading client _ evs | Processing client _ _ _ _ evs =>
    reactor_inv r ∧ sockets_ok r (fds evs) ∧ (client ∉ fds evs) ∧ is_Some (connections_ r !! client)
  | Writing client evs => reactor_inv r ∧ sockets_ok r (fds evs) ∧ (client ∉ fds evs)
  | Stopped => connections_ r = ∅
  end.

(** A step of the reactor on one socket leaves the others as they are. *)
Definition only_at (client : Z) (r r' : Reactor) : Prop :=
  listen_socket_ r' = listen_socket_ r ∧
  ∀ f, f ≠ client → connections_ r' !! f = connections_ r !! f.

Lemma only_at_set_conn client c r : only_at client r (set_conn client c r).
Proof. split; [done|]. intros f Hf. by apply lookup_insert_ne. Qed.

Lemma only_at_disconnect client r : only_at client r (disconnect client r).
Proof.
  unfold disconnect. split; [by case_test|]. intros f Hf.
  assert (delete client (connections_ r) !! f = connections_ r !! f) by (by apply lookup_delete_ne).
  by case_test.
Qed.

Lemma only_at_pause client c r ps : only_at client r (set_paused ps (set_conn client c r)).
Proof. split; [done|]. intros f Hf. by apply lookup_insert_ne. Qed.

Lemma only_at_iteration client qsize qmax r : only_at client r (read_iteration client qsize qmax r).2.
Proof.
  destruct (connections_ r !! client) as [c|] eqn:Hc; [|unfold read_iteration; by rewrite Hc].
  destruct (read_iteration_cases client qsize qmax c r Hc);
    auto using only_at_set_conn, only_at_pause. done.
Qed.

Lemma only_at_recv client bytes r : only_at client r (handle_read_recv client bytes r).2.
Proof.
  unfold handle_read_recv. case_test; [apply only_at_disconnect|].
  destruct (connections_ r !! client); [apply only_at_set_conn|done].
Qed.

Lemma only_at_write client sent r : only_at client r (handle_write client sent r).
Proof.
  destruct (connections_ r !! client) as [c|] eqn:Hc; [|unfold handle_write; by rewrite Hc].
  destruct (handle_write_cases client sent c r Hc) as [(_ & _ & ->)|(n & b & _ & _ & ->)];
    [apply only_at_disconnect|apply only_at_set_conn].
Qed.

Lemma sockets_ok_only_at client r r' l :
  only_at client r r' → client ∉ l → sockets_ok r l → sockets_ok r' l.
Proof.
  intros [Hl Ho] Hc [Hn Hs]. split; [done|]. intros f Hf. rewrite Hl, Ho by (by intros ->). auto.
Qed.

Lemma sockets_ok_cons r f l : sockets_ok r (f :: l) → (f ∉ l) ∧ sockets_ok r l.
Proof. intros [[? ?]%NoDup_cons Hs]. split; [done|]. split; [done|]. intros g Hg. apply Hs. by right. Qed.

(** The reactor thread's own steps preserve it; the pool's part is irrelevant. *)
Lemma poll_set_ok r :
  connections_ r !! listen_socket_ r = None → sockets_ok (rebuild_poll_set r) (map fd (poll_fds_ (rebuild_poll_set r))).
Proof.
  intros Hl. unfold rebuild_poll_set. simpl. rewrite map_map. simpl.
  change (map (λ x, x.1) (map_to_list (connections_ r))) with ((map_to_list (connections_ r)).*1).
  assert (He : ∀ f, f ∈ (map_to_list (connections_ r)).*1 → is_Some (connections_ r !! f)).
  { intros f (p & -> & Hp)%list_elem_of_fmap. destruct p as [f c]. apply elem_of_map_to_list in Hp.
    eexists. exact Hp. }
  split.
  - apply NoDup_cons. split; [|apply NoDup_fst_map_to_list].
    intros H%He. rewrite Hl in H. by destruct H.
  - intros f [->|Hf]%elem_of_cons; [by left|]. right. auto.
Qed.

Lemma listen_only_at client r r' :
  only_at client r r' → client ≠ listen_socket_ r →
  connections_ r !! listen_socket_ r = None → connections_ r' !! listen_socket_ r' = None.
Proof. intros [Hl Ho] Hc H. rewrite Hl, Ho by done. done. Qed.

Lemma open_not_listen r client :
  connections_ r !! listen_socket_ r = None → is_Some (connections_ r !! client) → client ≠ listen_socket_ r.
Proof. intros Hl [c Hc] ->. congruence. Qed.

Lemma foldl_deliver_conns r results f :
  is_Some (connections_ (foldl deliver_result r results) !! f) ↔ is_Some (connections_ r !! f).
Proof.
  revert r. induction results as [|res results IH]; intros r; simpl; [done|]. rewrite IH.
  unfold deliver_result. destruct (connections_ r !! result_fd res) as [c|] eqn:Hc; [|done]. simpl.
  destruct (decide (f = result_fd res)) as [->|].
  - rewrite lookup_insert_eq, Hc. split; eauto.
  - by rewrite lookup_insert_ne.
Qed.

Lemma foldl_deliver_listen r results : listen_socket_ (foldl deliver_result r results) = listen_socket_ r.
Proof.
  revert r. induction results as [|res results IH]; intros r; simpl; [done|]. rewrite IH.
  unfold deliver_result. by destruct (connections_ r !! result_fd res).
Qed.

Lemma control_drain (r : Reactor) (p : WorkerPool ICommand) k :
  control_ok r k → reactor_inv r → control_ok (drain_completion_queue r p).1 AtBackpressure.
Proof.
  intros [Hl _] Hr. unfold drain_completion_queue, drain_results. rewrite completion_drain_eq. simpl.
  split; [|by apply reactor_inv_drain]. rewrite foldl_deliver_listen.
  apply eq_None_not_Some. rewrite foldl_deliver_conns, Hl. by intros [].
Qed.

Lemma control_backpressure r qsz qmax :
  control_ok r AtBackpressure → control_ok (rebuild_poll_set (update_backpressure qsz qmax r)) AtPoll.
Proof.
  intros [Hl Hr]. pose proof (reactor_inv_backpressure qsz qmax r Hr) as Hr'.
  assert (Hl' : connections_ (update_backpressure qsz qmax r) !!
                listen_socket_ (update_backpressure qsz qmax r) = None).
  { unfold update_backpressure. by destruct (qsz * 10 <? qmax * 7). }
  split; [done|]. split; [by destruct Hr'|]. by apply poll_set_ok.
Qed.

Lemma control_accept r evs pfd ev client ip :
  connections_ r !! client = None → client ≠ listen_socket_ r →
  control_ok r (Dispatching ((pfd, ev) :: evs)) →
  control_ok (accept_connection client ip r).2 (Dispatching evs).
Proof.
  intros Hc Hne (Hl & Hr & Hs). apply sockets_ok_cons in Hs as [_ Hs].
  pose proof (reactor_inv_accept client ip r Hr Hc) as Hr'.
  destruct (accept_connection client ip r) as [kept r'] eqn:Ha. simpl in *.
  unfold accept_connection in Ha. case_match; injection Ha as [= <- <-]; [done|].
  split; [simpl; by rewrite lookup_insert_ne by done|]. split; [done|].
  destruct Hs as [Hn Hs]. split; [done|]. intros f Hf. simpl.
  destruct (decide (f = client)) as [->|]; [rewrite lookup_insert_eq; eauto|].
  rewrite lookup_insert_ne by done. auto.
Qed.

Lemma control_recv r evs pfd ev bytes :
  fd pfd ≠ listen_socket_ r → control_ok r (Dispatching ((pfd, ev) :: evs)) →
  control_ok (handle_read_recv (fd pfd) bytes r).2
    (if (handle_read_recv (fd pfd) bytes r).1 then Reading (fd pfd) (ev_write ev) evs
     else after_read (fd pfd) (ev_write ev) evs).
Proof.
  intros Hne (Hl & Hr & Hs). apply sockets_ok_cons in Hs as Hs'. destruct Hs' as [Hn Hs'].
  pose proof (only_at_recv (fd pfd) bytes r) as Ho.
  assert (Hopen : is_Some (connections_ r !! fd pfd)).
  { destruct Hs as [_ Hs]. destruct (Hs (fd pfd)) as [|]; [by left|done|done]. }
  split; [by eapply listen_only_at|].
  pose proof (sockets_ok_only_at _ _ _ _ Ho Hn Hs') as Hs2.
  unfold handle_read_recv in *. destruct (String.eqb bytes "").
  - assert (reactor_inv (disconnect (fd pfd) r)) by (by apply reactor_inv_disconnect).
    simpl in *. unfold after_read. by destruct (ev_write ev).
  - destruct Hopen as [c Hc]. rewrite Hc in *. simpl in *.
    split; [|split; [done|split; [done|simpl; rewrite lookup_insert_eq; eauto]]].
    eapply reactor_inv_set_conn; [done|done|]. exact (inv_bounds _ Hr _ _ Hc).
Qed.

Lemma control_read r client w evs qsize qmax :
  control_ok r (Reading client w evs) →
  control_ok (read_iteration client qsize qmax r).2
    (next_control client w evs (read_iteration client qsize qmax r).1).
Proof.
  intros (Hl & Hr & Hs & Hn & Hc). pose proof (only_at_iteration client qsize qmax r) as Ho.
  pose proof (reactor_inv_iteration client qsize qmax r Hr) as Hr'.
  split; [eapply listen_only_at; eauto using open_not_listen|].
  pose proof (sockets_ok_only_at _ _ _ _ Ho Hn Hs) as Hs2.
  assert (Hc' : is_Some (connections_ (read_iteration client qsize qmax r).2 !! client)).
  { destruct Hc as [c Hc]. destruct (read_iteration_cases client qsize qmax c r Hc); simpl;
      rewrite ?lookup_insert_eq; eauto. }
  destruct (read_iteration client qsize qmax r) as [o r']. simpl in *.
  destruct o; simpl; unfold after_read; try destruct w; done.
Qed.

Lemma control_write r client evs sent :
  control_ok r (Writing client evs) → control_ok (handle_write client sent r) (Dispatching evs).
Proof.
  intros (Hl & Hr & Hs & Hn). pose proof (only_at_write client sent r) as Ho.
  split; [|split; [by apply reactor_inv_write|by eapply sockets_ok_only_at]].
  destruct (connections_ r !! client) as [c|] eqn:Hc; [|unfold handle_write; by rewrite Hc].
  eapply listen_only_at; eauto using open_not_listen.
Qed.

Lemma control_reactor_step st st' :
  reactor_step st st' → control_ok (reactor st) (ctl st) → control_ok (reactor st') (ctl st').
Proof.
  intros Hs. destruct Hs as [r b gs acc| | | |r run b gs acc evs He _| |r run b gs acc pfd ev evs _
    |r run b gs acc pfd ev evs conn _ _ Hconn|r run b gs acc pfd ev evs Hne _|r run b gs acc pfd ev evs bytes Hne
    |r run b gs acc pfd ev evs Hne|r run b gs acc client w evs o r' Hread| |]; simpl; try done; try (intros _; split; [apply lookup_empty|done]).
  all: try (intros ?; assumption).
  - intros [Hl Hr]. exact (control_drain r (pool b) AtTop (conj Hl Hr) Hr).
  - apply control_backpressure.
  - by intros (Hl & Hr & _).
  - intros (Hl & Hr & Hs). split; [done|]. split; [done|]. unfold fds. rewrite <-He in Hs.
    by rewrite map_map in Hs.
  - by intros (Hl & Hr & _).
  - intros (Hl & Hr & [_ Hs]%sockets_ok_cons). done.
  - intros Hk. destruct conn as [[client ip]|].
    + destruct (Hconn client ip eq_refl) as [Hc Hne]. pose proof (control_accept _ _ _ _ client ip Hc Hne Hk).
      by destruct (accept_connection client ip r).
    + destruct Hk as (Hl & Hr & [_ Hs]%sockets_ok_cons). done.
  - intros (Hl & Hr & Hs). pose proof (only_at_disconnect (fd pfd) r) as Ho.
    apply sockets_ok_cons in Hs as Hs'. destruct Hs' as [Hn Hs'].
    split; [by eapply listen_only_at|]. split; [|by eapply sockets_ok_only_at].
    apply reactor_inv_disconnect; [done|]. destruct Hs as [_ Hs]. destruct (Hs (fd pfd)); [by left|done|done].
  - intros Hk. pose proof (control_recv _ _ _ _ bytes Hne Hk). by destruct (handle_read_recv _ _ r) as [[] r'].
  - intros (Hl & Hr & [Hn Hs]%sockets_ok_cons). done.
  - intros Hk. pose proof (control_read _ _ _ _ (queue_size (pool b)) (max_queue_size_ (pool b)) Hk) as H.
    by rewrite Hread in H.
  - apply control_write.
Qed.

Lemma control_step st st' : server_step st st' → control_ok (reactor st) (ctl st) → control_ok (reactor st') (ctl st').
Proof. destruct 1; [by apply control_reactor_step|done..]. Qed.

(** The reactor thread leaves the workers, the engine and the flag alone. *)
Lemma reactor_step_frame st st' :
  reactor_step st st' →
  running st' = running st ∧ workers (back st') = workers (back st) ∧ engine (back st') = engine (back st) ∧
  taken_tasks (back st') = taken_tasks (back st) ∧ posted_tasks (back st') = posted_tasks (back st).
Proof.
  destruct 1 as [| | | | | | |r run b gs acc pfd ev evs conn| |r run b gs acc pfd ev evs bytes| | | |]; simpl; try done.
  - destruct conn as [[client ip]|]; [|done]. by destruct (accept_connection client ip r).
  - by destruct (handle_read_recv (fd pfd) bytes r).
Qed.
(** The loop ends only when it was told to. *)
Lemma reactor_step_stopped (sv sv' : server St) : reactor_step sv sv' → ctl sv' = Stopped → running sv' = false.
Proof.
  destruct 1 as [| | | | | | |r run b gs acc pfd ev evs conn| |r run b gs acc pfd ev evs bytes| |r run b gs acc client w evs o| |];
    simpl; try done.
  - destruct conn as [[client ip]|]; [|done]. by destruct (accept_connection client ip r).
  - destruct (handle_read_recv (fd pfd) bytes r) as [[] r']; simpl; [done|]. unfold after_read. by destruct (ev_write ev).
  - unfold next_control, after_read. by destruct o, w.
Qed.
End server.

(** ** The pool inside the server *)

Section server_pool.
Context {St : Type} `{!Executor ICommand St}.

(** What the clients of the pool see of it. *)
Definition client_view (b : pool_state ICommand St) : WorkerPool ICommand * list (Task ICommand) :=
  (pool b, accepted_tasks b).

Definition with_client_view (b : pool_state ICommand St) (v : WorkerPool ICommand * list (Task ICommand)) :
    pool_state ICommand St :=
  PoolState v.1 (workers b) (engine b) v.2 (taken_tasks b) (posted_tasks b).

Lemma client_pool_step b v v' : client_step v v' → pool_step (with_client_view b v) (with_client_view b v').
Proof.
  destruct 1; unfold with_client_view; simpl; [by apply step_submit|apply step_reject|apply step_drain].
Qed.

Lemma process_back_client client line seq ip b :
  client_step (client_view b) (client_view (process_back (St := St) client line seq ip b)).
Proof.
  destruct b as [p ws s acc tk po]. unfold process_back, client_view. simpl. rewrite Pipeline_process_spec.
  destruct (process_spec_cases client line seq p) as [(c & Hc & Hp & _)|(text & -> & _)]; simpl.
  - rewrite Hp. simpl. rewrite drop_app_length.
    apply (client_submit (MkTask c client seq) true).
    unfold process_spec in Hp. rewrite Hc in Hp. unfold submit.
    destruct (pool_running_ p) eqn:Hr; simpl in Hp.
    + rewrite Z.ltb_antisym in Hp. destruct (max_queue_size_ p <=? queue_size p); [|done]. simpl in Hp.
      apply (f_equal (λ p, length (queue_ p))) in Hp. simpl in Hp. rewrite length_app in Hp. simpl in Hp. lia.
    + apply (f_equal (λ p, length (queue_ p))) in Hp. simpl in Hp. rewrite length_app in Hp. simpl in Hp. lia.
  - rewrite drop_all, app_nil_r. apply client_reject.
Qed.

(** A step of the reactor is a client's step on its pool, or leaves the pool alone. *)
Lemma reactor_step_client (st st' : server St) :
  reactor_step st st' → rtc client_step (client_view (back st)) (client_view (back st')).
Proof.
  destruct 1 as [r b gs acc| | | | | | |r run b gs acc pfd ev evs conn| |r run b gs acc pfd ev evs bytes
    | | | |]; simpl; try apply rtc_refl.
  - apply rtc_once. unfold drain_completion_queue.
    pose proof (client_drain (pool b) (accepted_tasks b)) as H. unfold client_view, set_back_pool. simpl.
    by destruct (drain_results (pool b)).
  - destruct conn as [[client ip]|]; [|apply rtc_refl]. destruct (accept_connection client ip r). apply rtc_refl.
  - destruct (handle_read_recv (fd pfd) bytes r). apply rtc_refl.
  - apply rtc_once, process_back_client.
Qed.

Lemma reactor_step_back (st st' : server St) :
  reactor_step st st' → back st' = with_client_view (back st) (client_view (back st')).
Proof.
  intros Hs. destruct (reactor_step_frame _ _ Hs) as (_ & Hw & He & Ht & Hp).
  unfold with_client_view. rewrite <-Hw, <-He, <-Ht, <-Hp. by destruct (back st').
Qed.

Lemma reactor_step_pool st st' : reactor_step st st' → rtc pool_step (back st) (back st').
Proof.
  intros Hs. rewrite (reactor_step_back _ _ Hs).
  assert (back st = with_client_view (back st) (client_view (back st))) as E by (by destruct (back st)).
  rewrite E at 1. eapply (rtc_project client_step pool_step (with_client_view (back st))); [|by apply reactor_step_client].
  intros v v' Hv. by apply rtc_once, client_pool_step.
Qed.

Lemma server_step_pool st st' : server_step st st' → rtc pool_step (back st) (back st').
Proof.
  destruct 1 as [| |r run b gs acc|r run b gs acc]; simpl; try apply rtc_refl.
  - by apply reactor_step_pool.
  - apply rtc_once. by apply step_worker.
  - apply rtc_once. destruct b. apply step_shutdown.
Qed.
End server_pool.
