(* ===== verification/Responses.v ===== *)
(** * From request lines to responses

    The end-to-end invariant of the running server ([Server]): every request
    line that was issued is answered at most once, by an answer to that very
    line, and the bytes a client receives are the answers to its lines in the
    order of the lines - whatever the order in which the workers finish.

    An issued request is an [item] somewhere in the machine (about to be
    processed, queued, with a worker, on the completion queue) or delivered.  The
    invariant is relative to a history, the tasks executed so far with their
    times and responses: running it from the initial engine gives the engine, and
    every response to a command is the one its own task has in the history. *)

From stdpp Require Import gmap.
From S2P Require Import Prelude MachineInt Text Resp Command WorkerPool Pipeline Reactor Server.

Local Open Scope Z_scope.

Inductive item :=
| ILine (line : string)
| ITask (c : ICommand)
| IPosting (c : ICommand) (resp : string)
| IResult (resp : string).

(** The text of the frames a client sent. *)
Definition frames_text (frames : list (string * bool)) : string :=
  string_concat (map (λ p, p.1 +:+ String LF EmptyString) frames).

(** A frame holds no line feed; an issued one is not empty. *)
Definition frame_ok (p : string * bool) : Prop :=
  has_no_LF p.1 = true ∧ (p.2 = true → strip_CR p.1 ≠ "").

(** The socket and the sequence number of a request. *)
Definition request_id : Type := Z * Z.

(** The tasks executed, in order, with their times and responses. *)
Abbreviation history := (history_of ICommand).

Definition task_id (t : Task ICommand) : request_id := (client_fd t, sequence_id t).

Definition history_ids (h : history) : list request_id := map (λ x, task_id x.1.2) h.

(** Request [id], the command [c], was executed and answered [resp]. *)
Definition executed_in (h : history) (id : request_id) (c : ICommand) (resp : string) : Prop :=
  ∃ now, (now, MkTask c id.1 id.2, resp) ∈ h.

(** What a client may be sent for the line of request [id]. *)
Definition answer_of (h : history) (id : request_id) (line resp : string) : Prop :=
  match classify line with
  | Reject text => resp = encode (RError text)
  | Run c => executed_in h id c resp ∨ resp = encode (RError "ERR server busy")
  end.

(** Executing the history one task after the other. *)
Inductive exec_run {St} `{!Executor ICommand St} (s : St) : history → St → Prop :=
| exec_run_nil : exec_run s [] s
| exec_run_snoc h s1 now t r s2 :
    exec_run s h s1 → exec_command now (command t) s1 = (r, s2) → exec_run s (h ++ [(now, t, r)]) s2.

Section responses.
Context {St : Type} `{!Executor ICommand St}.

Definition item_ok (h : history) (id : request_id) (line : string) (it : item) : Prop :=
  match it with
  | ILine l => l = line ∧ id ∉ history_ids h
  | ITask c => classify line = Run c ∧ id ∉ history_ids h
  | IPosting c resp => classify line = Run c ∧ executed_in h id c resp
  | IResult resp => answer_of h id line resp
  end.

(** ** The items of a server *)

Definition task_item (t : Task ICommand) : request_id * item := ((client_fd t, sequence_id t), ITask (command t)).
Definition result_item (r : TaskResult) : request_id * item := ((result_fd r, result_seq r), IResult (response r)).

Definition worker_items (w : worker ICommand) : list (request_id * item) :=
  match w with
  | Executing t => [task_item t]
  | Posting t resp => [((client_fd t, sequence_id t), IPosting (command t) resp)]
  | Waiting | Exited => []
  end.

Definition control_items (k : control) : list (request_id * item) :=
  match k with
  | Processing client line seq _ _ _ => [((client, seq), ILine line)]
  | _ => []
  end.

Definition back_items (b : pool_state ICommand St) : list (request_id * item) :=
  map task_item (queue_ (pool b)) ++ (workers b ≫= worker_items) ++ map result_item (completion_queue_ (pool b)).

Definition server_items (sv : server St) : list (request_id * item) :=
  control_items (ctl sv) ++ back_items (back sv).

(** ** The tracking invariant *)

Definition request_at (g : conn_ghost) (k : Z) : option string :=
  if bool_decide (0 <= k) then g_requests g !! Z.to_nat k else None.

Definition outstanding (h : history) (gs : ghosts) (f k : Z) (it : item) : Prop :=
  ∃ g line, gs !! f = Some g ∧ request_at g k = Some line ∧ item_ok h (f, k) line it ∧ g_delivered g !! k = None.

Record conn_tracked (out : list request_id) (f : Z) (g : conn_ghost) (c : ConnectionState) : Prop := {
  ct_ok : conn_ok (g_sent g) (g_delivered g) c;
  ct_settled : conn_settled (g_delivered g) c;
  ct_issue : next_seq_issue c = Z.of_nat (length (g_requests g));
  ct_framing : g_received g = frames_text (g_frames g) +:+ read_buffer c;
  ct_covered : ∀ k, 0 <= k < next_seq_issue c → is_Some (g_delivered g !! k) ∨ (f, k) ∈ out;
}.

Record ghost_ok (h : history) (f : Z) (g : conn_ghost) : Prop := {
  go_frames : Forall frame_ok (g_frames g);
  go_answers : ∀ k r, g_delivered g !! k = Some r → ∃ line, request_at g k = Some line ∧ answer_of h (f, k) line r;
}.

(** The executed tasks are requests that clients made. *)
Definition history_ok (h : history) (gs : ghosts) : Prop :=
  ∀ now t r, (now, t, r) ∈ h →
    ∃ g line, gs !! client_fd t = Some g ∧ request_at g (sequence_id t) = Some line ∧ classify line = Run (command t).

Record track (h : history) (conns : gmap Z ConnectionState) (gs : ghosts) (acc : list Z)
    (out : list (request_id * item)) : Prop := {
  t_nodup : NoDup out.*1;
  t_items : ∀ f k it, ((f, k), it) ∈ out → outstanding h gs f k it;
  t_conns : ∀ f c, conns !! f = Some c → ∃ g, gs !! f = Some g ∧ conn_tracked out.*1 f g c;
  t_ghosts : ∀ f g, gs !! f = Some g → f ∈ acc ∧ ghost_ok h f g;
  t_history : history_ok h gs;
  t_once : NoDup (history_ids h);
}.

(** No socket number is used twice; no client issues [2^64] requests. *)
Definition regular (sv : server St) : Prop :=
  NoDup (accepted sv) ∧ ∀ f g, ghost sv !! f = Some g → Z.of_nat (length (g_requests g)) < 2 ^ 64.

Definition run_step (sv sv' : server St) : Prop := server_step sv sv' ∧ regular sv'.

Definition tracked (h : history) (sv : server St) : Prop :=
  track h (connections_ (reactor sv)) (ghost sv) (accepted sv) (server_items sv).

(** ** How it is preserved *)

Implicit Types (h : history) (conns : gmap Z ConnectionState) (gs : ghosts) (out : list (request_id * item)).

Lemma conn_tracked_ids ids1 ids2 f g c :
  (∀ k, (f, k) ∈ ids1 → (f, k) ∈ ids2 ∨ is_Some (g_delivered g !! k)) →
  conn_tracked ids1 f g c → conn_tracked ids2 f g c.
Proof.
  intros H [Ho Hs Hi Hf Hc]. split; [done..|]. intros k Hk. destruct (Hc k Hk) as [|Hin]; [by left|].
  destruct (H k Hin); auto.
Qed.

Lemma track_perm h conns gs acc out1 out2 :
  out1 ≡ₚ out2 → track h conns gs acc out1 → track h conns gs acc out2.
Proof.
  intros Hp [Hn Hi Hc Hg Hh Hu]. split; try done.
  - by rewrite <-Hp.
  - intros f k it. rewrite <-Hp. auto.
  - intros f c Hf. destruct (Hc f c Hf) as (g & ? & Ht). exists g. split; [done|].
    eapply conn_tracked_ids; [|exact Ht]. intros k. rewrite Hp. auto.
Qed.

(** An item moves on: same request, new stage. *)
Lemma track_replace h conns gs acc id it it' out :
  (∀ line, item_ok h id line it → item_ok h id line it') →
  track h conns gs acc ((id, it) :: out) → track h conns gs acc ((id, it') :: out).
Proof.
  intros Hit [Hn Hi Hc Hg Hh Hu]. split; [done| |done..].
  intros f k x [[= <- ->]|Hx]%elem_of_cons.
  - destruct (Hi f k it) as (g & line & ? & ? & ? & ?); [by left|]. exists g, line. auto.
  - apply Hi. by right.
Qed.

Lemma elem_of_ids out f k : (f, k) ∈ out.*1 → ∃ it, ((f, k), it) ∈ out.
Proof. intros ([[??] it] & [= -> ->] & Hin)%list_elem_of_fmap. eauto. Qed.

Lemma ids_elem_of out f k it : ((f, k), it) ∈ out → (f, k) ∈ out.*1.
Proof. intros H. apply list_elem_of_fmap. by exists ((f, k), it). Qed.

(** Requests stay where they are. *)
Lemma history_ok_mono h gs gs' :
  (∀ f g, gs !! f = Some g → ∃ g', gs' !! f = Some g' ∧
     ∀ k line, request_at g k = Some line → request_at g' k = Some line) →
  history_ok h gs → history_ok h gs'.
Proof.
  intros H Hh now t r Hin. destruct (Hh now t r Hin) as (g & line & Hg & Hat & Hc).
  destruct (H _ _ Hg) as (g' & Hg' & Hk). exists g', line. auto.
Qed.

Lemma history_ok_insert h gs f g g' :
  gs !! f = Some g → (∀ k line, request_at g k = Some line → request_at g' k = Some line) →
  history_ok h gs → history_ok h (<[f := g']> gs).
Proof.
  intros Hg Hk. apply history_ok_mono. intros f' x Hx.
  destruct (decide (f' = f)) as [->|]; [rewrite lookup_insert_eq|rewrite lookup_insert_ne by done; eauto].
  rewrite Hg in Hx. injection Hx as [= <-]. eauto.
Qed.

Lemma request_at_same g g' k : g_requests g' = g_requests g → request_at g' k = request_at g k.
Proof. unfold request_at. by intros ->. Qed.

(** The client's own connection and ghost change; its requests do not. *)
Lemma track_local h conns gs acc out client c g c' g' :
  conns !! client = Some c → gs !! client = Some g →
  g_requests g' = g_requests g → g_delivered g' = g_delivered g → ghost_ok h client g' →
  (conn_tracked out.*1 client g c → conn_tracked out.*1 client g' c') →
  track h conns gs acc out → track h (<[client := c']> conns) (<[client := g']> gs) acc out.
Proof.
  intros Hc Hg Hr Hd Hok Ht [Hn Hi Hcs Hgs Hh Hu]. split; [done| | | | |done].
  - intros f k it Hin. destruct (Hi f k it Hin) as (x & line & Hx & Hl & ? & Hnone).
    destruct (decide (f = client)) as [->|].
    + rewrite Hg in Hx. injection Hx as [= <-]. exists g', line. rewrite lookup_insert_eq.
      unfold request_at in *. rewrite Hr, Hd. auto.
    + exists x, line. by rewrite lookup_insert_ne.
  - intros f x. destruct (decide (f = client)) as [->|]; [rewrite lookup_insert_eq|rewrite lookup_insert_ne by done].
    + intros [= <-]. destruct (Hcs client c Hc) as (y & Hy & Hty). rewrite Hg in Hy. injection Hy as [= <-].
      exists g'. rewrite lookup_insert_eq. auto.
    + intros Hx. rewrite lookup_insert_ne by done. by apply Hcs.
  - intros f x. destruct (decide (f = client)) as [->|]; [rewrite lookup_insert_eq|rewrite lookup_insert_ne by done].
    + intros [= <-]. split; [|done]. by apply (Hgs client g).
    + apply Hgs.
  - apply (history_ok_insert _ _ _ g); [done| |done]. intros k line. by rewrite (request_at_same g g').
Qed.

Lemma track_disconnect h conns gs acc out client :
  track h conns gs acc out → track h (delete client conns) gs acc out.
Proof. intros [Hn Hi Hcs Hgs Hh Hu]. split; try done. intros f c [_ Hf]%lookup_delete_Some. auto. Qed.

Lemma track_close h conns gs acc out : track h conns gs acc out → track h ∅ gs acc out.
Proof. intros [Hn Hi Hcs Hgs Hh Hu]. split; try done. Qed.

Lemma frames_text_app a b : frames_text (a ++ b) = frames_text a +:+ frames_text b.
Proof. unfold frames_text. by rewrite map_app, string_concat_app. Qed.

Lemma conn_tracked_make ip : conn_tracked [] 0 ghost_make (ConnectionState_make ip).
Proof. split; simpl; try done; [apply conn_ok_make|]. intros k Hk. lia. Qed.

Lemma ghost_ok_make h f : ghost_ok h f ghost_make.
Proof. split; [constructor|]. intros k r. simpl. by rewrite lookup_empty. Qed.

(** A socket that was never accepted before. *)
Lemma track_accept h conns gs acc out client ip :
  client ∉ acc → track h conns gs acc out →
  track h (<[client := ConnectionState_make ip]> conns) (<[client := ghost_make]> gs) (acc ++ [client]) out.
Proof.
  intros Hfresh [Hn Hi Hcs Hgs Hh Hu].
  assert (Hno : gs !! client = None).
  { apply eq_None_not_Some. intros [g Hg]. by destruct (Hgs client g Hg). }
  split; [done| | | | |done].
  - intros f k it Hin. destruct (Hi f k it Hin) as (g & line & Hg & ?).
    exists g, line. rewrite lookup_insert_ne by congruence. done.
  - intros f c. destruct (decide (f = client)) as [->|]; [rewrite lookup_insert_eq|rewrite lookup_insert_ne by done].
    + intros [= <-]. exists ghost_make. rewrite lookup_insert_eq. split; [done|].
      destruct (conn_tracked_make ip) as [Ho Hs Hi' Hf Hc]. split; [done..|]. intros k Hk. simpl in Hk. lia.
    + intros Hc. rewrite lookup_insert_ne by done. by apply Hcs.
  - intros f g. destruct (decide (f = client)) as [->|]; [rewrite lookup_insert_eq|rewrite lookup_insert_ne by done].
    + intros [= <-]. split; [|apply ghost_ok_make]. apply elem_of_app. right. by left.
    + intros Hg. destruct (Hgs f g Hg). split; [|done]. apply elem_of_app. by left.
  - revert Hh. apply history_ok_mono. intros f g Hg. exists g. rewrite lookup_insert_ne by congruence. auto.
Qed.

(** ** Issuing a request *)

Lemma g_requests_frame raw g : g_requests (g_frame raw true g) = g_requests g ++ [strip_CR raw].
Proof. unfold g_requests. simpl. by rewrite filter_app, map_app. Qed.

Lemma g_requests_skip raw g : g_requests (g_frame raw false g) = g_requests g.
Proof. unfold g_requests. simpl. rewrite filter_app. simpl. by rewrite app_nil_r. Qed.

Lemma request_at_app g raw k line :
  request_at g k = Some line → request_at (g_frame raw true g) k = Some line.
Proof.
  unfold request_at. rewrite g_requests_frame. case_bool_decide; [|done]. intros Hl.
  rewrite lookup_app_l; [done|]. by eapply lookup_lt_Some.
Qed.

Lemma request_at_last g raw :
  request_at (g_frame raw true g) (Z.of_nat (length (g_requests g))) = Some (strip_CR raw).
Proof.
  unfold request_at. rewrite bool_decide_true by lia. rewrite Nat2Z.id, g_requests_frame.
  by rewrite lookup_app_r, Nat.sub_diag by lia.
Qed.

Lemma request_at_lt g k line : request_at g k = Some line → 0 <= k < Z.of_nat (length (g_requests g)).
Proof.
  unfold request_at. case_bool_decide; [|done]. intros Hl%lookup_lt_Some. lia.
Qed.

Lemma ghost_ok_frame h f g raw issued :
  has_no_LF raw = true → (issued = true → strip_CR raw ≠ "") → ghost_ok h f g →
  ghost_ok h f (g_frame raw issued g).
Proof.
  intros Hl Hs [Hf Ha]. split.
  - simpl. apply Forall_app. split; [done|]. constructor; [|done]. by split.
  - intros k r Hr. destruct (Ha k r Hr) as (line & Hline & ?). exists line. split; [|done].
    destruct issued; [by apply request_at_app|]. unfold request_at in *. by rewrite g_requests_skip.
Qed.

(** The frame is taken from the buffer but not issued. *)
Lemma conn_tracked_skip ids f g c raw rest :
  find_line (read_buffer c) = Some (raw, rest) →
  conn_tracked ids f g c → conn_tracked ids f (g_frame raw false g) (set_read_buffer rest c).
Proof.
  intros [Hb _]%find_line_Some [Ho Hs Hi Hf Hc]. split; simpl; try done.
  - by destruct Ho.
  - by rewrite g_requests_skip.
  - rewrite frames_text_app, Hf, Hb. unfold frames_text at 3. simpl. by autorewrite with str.
Qed.

Lemma conn_tracked_issue ids f g c raw rest :
  find_line (read_buffer c) = Some (raw, rest) →
  in_flight_requests c < MAX_PIPELINE_DEPTH → next_seq_issue c + 1 < 2 ^ 64 →
  conn_tracked ids f g c →
  conn_tracked ((f, next_seq_issue c) :: ids) f (g_frame raw true g) (issue (set_read_buffer rest c)).
Proof.
  intros [Hb _]%find_line_Some Hd Hlt [[Oi Od Oe Op Ob Os Of Ow] Hs Hi Hf Hc]. unfold MAX_PIPELINE_DEPTH in Hd.
  assert (Hu : u64 (next_seq_issue c + 1) = next_seq_issue c + 1) by (apply u64_small; split; lia).
  assert (Hu2 : u64 (in_flight_requests c + 1) = in_flight_requests c + 1) by (apply u64_small; split; lia).
  split; simpl; rewrite ?Hu; try done.
  - split; simpl; rewrite ?Hu, ?Hu2; try done; try lia. intros k Hk. specialize (Od k Hk). lia.
  - rewrite g_requests_frame, length_app. simpl. lia.
  - rewrite frames_text_app, Hf, Hb. unfold frames_text at 3. simpl. by autorewrite with str.
  - intros k Hk. destruct (decide (k = next_seq_issue c)) as [->|]; [right; by left|].
    destruct (Hc k) as [|]; [lia|by left|]. right. by right.
Qed.

(** A request that is being issued was not executed before. *)
Lemma issue_not_executed h gs client g :
  gs !! client = Some g → history_ok h gs → (client, Z.of_nat (length (g_requests g))) ∉ history_ids h.
Proof.
  intros Hg Hh ([[now t] r] & Hid & Hin)%list_elem_of_fmap. unfold task_id in Hid. simpl in Hid.
  injection Hid as [= -> Hs]. destruct (Hh now t r Hin) as (x & line & Hx & Hat & _).
  rewrite Hg in Hx. injection Hx as [= <-]. rewrite <-Hs in Hat. apply request_at_lt in Hat. lia.
Qed.

Lemma track_issue h conns gs acc out client c g raw rest :
  conns !! client = Some c → gs !! client = Some g →
  find_line (read_buffer c) = Some (raw, rest) → strip_CR raw ≠ "" →
  in_flight_requests c < MAX_PIPELINE_DEPTH → next_seq_issue c + 1 < 2 ^ 64 →
  track h conns gs acc out →
  track h (<[client := issue (set_read_buffer rest c)]> conns) (<[client := g_frame raw true g]> gs) acc
    (((client, next_seq_issue c), ILine (strip_CR raw)) :: out).
Proof.
  intros Hc Hg Hl Hs Hd Hlt [Hn Hi Hcs Hgs Hh Hu].
  destruct (Hcs client c Hc) as (y & Hy & Ht). rewrite Hg in Hy. injection Hy as [= <-].
  pose proof (ct_issue _ _ _ _ Ht) as His. pose proof (find_line_Some _ _ _ Hl) as [_ HLF].
  split; simpl.
  - apply NoDup_cons. split; [|done]. intros (it & Hin)%elem_of_ids.
    destruct (Hi _ _ _ Hin) as (x & line & Hx & Hat & _). rewrite Hg in Hx. injection Hx as [= <-].
    apply request_at_lt in Hat. lia.
  - intros f k it [[= -> -> ->]|Hin]%elem_of_cons.
    + exists (g_frame raw true g), (strip_CR raw). rewrite lookup_insert_eq, His.
      split; [done|]. split; [apply request_at_last|].
      split; [split; [done|by apply (issue_not_executed _ gs)]|]. simpl.
      apply eq_None_not_Some. intros Hk. rewrite <-His in Hk. apply (ok_dom _ _ _ (ct_ok _ _ _ _ Ht)) in Hk. lia.
    + destruct (Hi f k it Hin) as (x & line & Hx & Hat & ? & ?).
      destruct (decide (f = client)) as [->|].
      * rewrite Hg in Hx. injection Hx as [= <-]. exists (g_frame raw true g), line.
        rewrite lookup_insert_eq. auto using request_at_app.
      * exists x, line. by rewrite lookup_insert_ne.
  - intros f x. destruct (decide (f = client)) as [->|]; [rewrite lookup_insert_eq|rewrite lookup_insert_ne by done].
    + intros [= <-]. exists (g_frame raw true g). rewrite lookup_insert_eq. split; [done|].
      by apply conn_tracked_issue.
    + intros Hx. destruct (Hcs f x Hx) as (y & ? & Hty). exists y. rewrite lookup_insert_ne by done. split; [done|].
      eapply conn_tracked_ids; [|exact Hty]. intros k Hk. left. by right.
  - intros f x. destruct (decide (f = client)) as [->|]; [rewrite lookup_insert_eq|rewrite lookup_insert_ne by done].
    + intros [= <-]. destruct (Hgs client g Hg). split; [done|]. by apply ghost_ok_frame.
    + apply Hgs.
  - apply (history_ok_insert _ _ _ g); [done| |done]. apply request_at_app.
  - done.
Qed.

(** ** Delivering a result *)

Lemma conn_tracked_deliver ids f g c k resp :
  g_delivered g !! k = None → 0 <= k < next_seq_issue c →
  conn_tracked ((f, k) :: ids) f g c → conn_tracked ids f (g_deliver k resp g) (deliver k resp c).
Proof.
  intros Hk Hlt [Ho Hs Hi Hf Hc]. destruct (deliver_ok _ _ _ k resp Ho Hk Hlt) as (Ho' & (Hrb & _ & Hni) & Hg).
  split; simpl.
  - done.
  - by apply (conn_settled_buffer (g_sent g)).
  - by rewrite Hni.
  - by rewrite Hrb.
  - rewrite Hni. intros j Hj. destruct (decide (j = k)) as [->|]; [left; rewrite lookup_insert_eq; eauto|].
    rewrite lookup_insert_ne by done. destruct (Hc j Hj) as [|[[= ->]|]%elem_of_cons]; auto. done.
Qed.

Lemma track_deliver h conns gs acc out f k resp c :
  conns !! f = Some c → track h conns gs acc (((f, k), IResult resp) :: out) →
  track h (<[f := deliver k resp c]> conns) (update_ghost (g_deliver k resp) f gs) acc out.
Proof.
  intros Hc [Hn Hi Hcs Hgs Hh Hu]. simpl in *. apply NoDup_cons in Hn as [Hnk Hn].
  destruct (Hi f k (IResult resp)) as (g & line & Hg & Hat & Hans & Hnone); [by left|].
  destruct (Hcs f c Hc) as (y & Hy & Ht). rewrite Hg in Hy. injection Hy as [= <-].
  unfold update_ghost. rewrite Hg. split; [done| | | | |done].
  - intros f' k' it Hin. destruct (Hi f' k' it) as (x & line' & Hx & ? & ? & ?); [by right|].
    destruct (decide (f' = f)) as [->|].
    + rewrite Hg in Hx. injection Hx as [= <-]. exists (g_deliver k resp g), line'. rewrite lookup_insert_eq.
      split_and!; [done|done|done|]. simpl. rewrite lookup_insert_ne; [done|].
      intros ->. by apply Hnk, (ids_elem_of _ _ _ it).
    + exists x, line'. by rewrite lookup_insert_ne.
  - intros f' x. destruct (decide (f' = f)) as [->|]; [rewrite lookup_insert_eq|rewrite lookup_insert_ne by done].
    + intros [= <-]. exists (g_deliver k resp g). rewrite lookup_insert_eq. split; [done|].
      apply conn_tracked_deliver; [done| |done]. rewrite (ct_issue _ _ _ _ Ht). by eapply request_at_lt.
    + intros Hx. destruct (Hcs f' x Hx) as (y & ? & Hty). exists y. rewrite lookup_insert_ne by done. split; [done|].
      eapply conn_tracked_ids; [|exact Hty]. intros j [[= -> ->]|]%elem_of_cons; auto. done.
  - intros f' x. destruct (decide (f' = f)) as [->|]; [rewrite lookup_insert_eq|rewrite lookup_insert_ne by done].
    + intros [= <-]. destruct (Hgs f g Hg) as [Ha [Hf Hok]]. split; [done|]. split; [done|]. simpl.
      intros j r. destruct (decide (j = k)) as [->|]; [rewrite lookup_insert_eq|rewrite lookup_insert_ne by done].
      * intros [= <-]. eauto.
      * apply Hok.
    + apply Hgs.
  - by apply (history_ok_insert _ _ _ g).
Qed.

(** The connection is gone. *)
Lemma track_drop h conns gs acc out f k resp :
  conns !! f = None → track h conns gs acc (((f, k), IResult resp) :: out) → track h conns gs acc out.
Proof.
  intros Hc [Hn Hi Hcs Hgs Hh Hu]. simpl in *. apply NoDup_cons in Hn as [Hnk Hn]. split; [done| | |done..].
  - intros. apply Hi. by right.
  - intros f' x Hx. destruct (Hcs f' x Hx) as (y & ? & Hty). exists y. split; [done|].
    eapply conn_tracked_ids; [|exact Hty]. intros j [[= -> ->]|]%elem_of_cons; auto. congruence.
Qed.

Lemma track_drain h r0 r gs acc results out :
  (∀ f, is_Some (connections_ r !! f) ↔ is_Some (connections_ r0 !! f)) →
  track h (connections_ r) gs acc (map result_item results ++ out) →
  track h (connections_ (foldl deliver_result r results)) (foldl (ghost_deliver_result r0) gs results) acc out.
Proof.
  revert r gs. induction results as [|res results IH]; intros r gs Hdom Ht; simpl in *; [done|].
  unfold deliver_result at 2, ghost_deliver_result at 2.
  destruct (connections_ r !! result_fd res) as [c|] eqn:Hc.
  - destruct (connections_ r0 !! result_fd res) as [c0|] eqn:Hc0.
    + apply IH; [|by apply track_deliver]. intros f. simpl. rewrite <-Hdom.
      destruct (decide (f = result_fd res)) as [->|]; [rewrite lookup_insert_eq, Hc; split; eauto|].
      by rewrite lookup_insert_ne.
    + destruct (proj1 (Hdom (result_fd res))) as [? ?]; [eauto|congruence].
  - destruct (connections_ r0 !! result_fd res) as [c0|] eqn:Hc0.
    + destruct (proj2 (Hdom (result_fd res))) as [? ?]; [eauto|congruence].
    + apply IH; [done|]. by eapply track_drop.
Qed.

(** ** Steps *)

(** Executing a task. *)
Lemma executed_in_app h x id c resp : executed_in h id c resp → executed_in (h ++ [x]) id c resp.
Proof. intros [now H]. exists now. apply elem_of_app. by left. Qed.

Lemma answer_of_app h x id line resp : answer_of h id line resp → answer_of (h ++ [x]) id line resp.
Proof. unfold answer_of. destruct (classify line); [|done]. intros [H|H]; [left|by right]. by apply executed_in_app. Qed.

Lemma history_ids_app h x : history_ids (h ++ [x]) = history_ids h ++ [task_id x.1.2].
Proof. unfold history_ids. by rewrite map_app. Qed.

Lemma item_ok_app h x id line it :
  id ≠ task_id x.1.2 → item_ok h id line it → item_ok (h ++ [x]) id line it.
Proof.
  intros Hid. assert (Hn : id ∉ history_ids h → id ∉ history_ids (h ++ [x])).
  { rewrite history_ids_app. intros Hh [|Hx]%elem_of_app; [done|]. by apply list_elem_of_singleton in Hx. }
  destruct it; simpl.
  - intros []. auto.
  - intros []. auto.
  - intros []. auto using executed_in_app.
  - apply answer_of_app.
Qed.

Lemma track_execute h conns gs acc now t r out :
  track h conns gs acc ((task_id t, ITask (command t)) :: out) →
  track (h ++ [(now, t, r)]) conns gs acc ((task_id t, IPosting (command t) r) :: out).
Proof.
  intros [Hn Hi Hcs Hgs Hh Hu]. simpl in *. pose proof Hn as [Hnt _]%NoDup_cons.
  destruct (Hi (client_fd t) (sequence_id t) (ITask (command t))) as (g & line & Hg & Hat & [Hc Hid] & Hnone); [by left|].
  split; [done| |done| | |].
  - intros f k it [[= -> -> ->]|Hin]%elem_of_cons.
    + exists g, line. split_and!; [done|done| |done]. split; [done|]. exists now. apply elem_of_app. right.
      apply list_elem_of_singleton. by destruct t.
    + destruct (Hi f k it) as (x & l & ? & ? & ? & ?); [by right|]. exists x, l. split_and!; try done.
      apply item_ok_app; [|done]. intros [= -> ->]. by apply Hnt, (ids_elem_of _ _ _ it).
  - intros f x Hx. destruct (Hgs f x Hx) as [? [? Ha]]. split; [done|]. split; [done|].
    intros k resp Hk. destruct (Ha k resp Hk) as (l & ? & ?). eauto using answer_of_app.
  - intros now' t' r' [Hin|Hin]%elem_of_app; [by eapply Hh|].
    apply list_elem_of_singleton in Hin as [= -> -> ->]. exists g, line. auto.
  - rewrite history_ids_app. apply NoDup_app. split_and!; [done| |apply NoDup_singleton].
    intros y Hy Hin. apply list_elem_of_singleton in Hin as ->. by apply Hid.
Qed.

(** A worker executes a task, or moves one item to its next stage, or none. *)
Inductive worker_effect (b b' : pool_state ICommand St) : Prop :=
| effect_none :
    engine b' = engine b → back_items b ≡ₚ back_items b' → worker_effect b b'
| effect_move id it it' out :
    engine b' = engine b → back_items b ≡ₚ (id, it) :: out → back_items b' ≡ₚ (id, it') :: out →
    (∀ h line, item_ok h id line it → item_ok h id line it') → worker_effect b b'
| effect_execute now t r out :
    exec_command now (command t) (engine b) = (r, engine b') →
    back_items b ≡ₚ (task_id t, ITask (command t)) :: out →
    back_items b' ≡ₚ (task_id t, IPosting (command t) r) :: out → worker_effect b b'.

(** What becomes of the items when worker [i] executes its task. *)
Lemma execute_items i t r p ws s s' acc tk po :
  ws !! i = Some (Executing t) →
  ∃ out, back_items (PoolState p ws s acc tk po) ≡ₚ (task_id t, ITask (command t)) :: out ∧
    back_items (PoolState p (<[i := Posting t r]> ws) s' acc tk po) ≡ₚ (task_id t, IPosting (command t) r) :: out.
Proof.
  intros Hi. pose proof (list_bind_insert worker_items ws i (Executing t) (Posting t r) Hi) as H. simpl in H.
  destruct (elem_of_Permutation (ws ≫= worker_items) (task_item t)) as [[rest Hrest] _].
  { apply list_elem_of_bind. exists (Executing t). split; [by left|]. by apply list_elem_of_lookup_2 in Hi. }
  exists (map task_item (queue_ p) ++ rest ++ map result_item (completion_queue_ p)).
  unfold back_items; simpl; rewrite Hrest in *. split; [unfold task_item; solve_Permutation|].
  assert (<[i:=Posting t r]> ws ≫= worker_items ≡ₚ (task_id t, IPosting (command t) r) :: rest) as ->.
  { apply (inj (.++ [task_item t])). rewrite H. solve_Permutation. }
  solve_Permutation.
Qed.

(** Taking a task, or returning, moves no item. *)
Lemma take_items i t q p ws (s : St) acc tk tk' po :
  ws !! i = Some Waiting → queue_ p = t :: q →
  back_items (PoolState p ws s acc tk po) ≡ₚ
  back_items (PoolState (set_queue q p) (<[i := Executing t]> ws) s acc tk' po).
Proof.
  intros Hi Hq. unfold back_items. simpl.
  pose proof (list_bind_insert worker_items ws i Waiting (Executing t) Hi) as H. simpl in H.
  rewrite app_nil_r in H. rewrite H, Hq. simpl. solve_Permutation.
Qed.

Lemma return_items i p ws (s : St) acc tk po :
  ws !! i = Some Waiting →
  back_items (PoolState p ws s acc tk po) ≡ₚ back_items (PoolState p (<[i := Exited]> ws) s acc tk po).
Proof.
  intros Hi. unfold back_items. simpl.
  pose proof (list_bind_insert worker_items ws i Waiting Exited Hi) as H. simpl in H.
  rewrite !app_nil_r in H. by rewrite H.
Qed.

Lemma post_items i t r p ws (s : St) acc tk po po' :
  ws !! i = Some (Posting t r) →
  ∃ out, back_items (PoolState p ws s acc tk po) ≡ₚ (task_id t, IPosting (command t) r) :: out ∧
    back_items (PoolState (push_result (MkResult (client_fd t) (sequence_id t) r) p) (<[i := Waiting]> ws) s acc tk po')
      ≡ₚ (task_id t, IResult r) :: out.
Proof.
  intros Hi. pose proof (list_bind_insert worker_items ws i (Posting t r) Waiting Hi) as H. simpl in H.
  rewrite app_nil_r in H.
  exists (map task_item (queue_ p) ++ (<[i:=Waiting]> ws ≫= worker_items) ++ map result_item (completion_queue_ p)).
  unfold back_items. simpl. split.
  - rewrite <-H. solve_Permutation.
  - unfold completion_push. rewrite map_app. simpl. unfold result_item at 2. simpl. solve_Permutation.
Qed.

(** A response becomes a result. *)
Lemma posting_result h id line c r : item_ok h id line (IPosting c r) → item_ok h id line (IResult r).
Proof. intros [Hc Hx]. simpl. unfold answer_of. rewrite Hc. by left. Qed.

Lemma worker_step_effect b b' : worker_step b b' → worker_effect b b'.
Proof.
  intros Hs. destruct Hs as [i t q p ws s acc tk po Hi Hq|i p ws s acc tk po Hi _ _
    |i t now p ws s acc tk po r s' Hi Hx|i t r p ws s acc tk po Hi].
  - apply effect_none; [done|]. by apply take_items.
  - apply effect_none; [done|]. by apply return_items.
  - destruct (execute_items i t r p ws s s' acc tk po Hi) as (out & Hb & Hb'). by eapply effect_execute.
  - destruct (post_items i t r p ws s acc tk po (po ++ [t]) Hi) as (out & Hb & Hb').
    eapply effect_move; [done|exact Hb|exact Hb'|]. intros h line. apply posting_result.
Qed.

Lemma process_items client line seq ip b :
  ∃ it', back_items (process_back client line seq ip b) ≡ₚ ((client, seq), it') :: back_items b ∧
    ∀ h l, item_ok h (client, seq) l (ILine line) → item_ok h (client, seq) l it'.
Proof.
  unfold back_items, process_back. simpl. rewrite Pipeline_process_spec.
  destruct (process_spec_cases client line seq (pool b)) as [(c & Hc & -> & _)|(text & -> & Ht)]; simpl.
  - exists (ITask c). split; [rewrite map_app; simpl; unfold task_item at 2; simpl; solve_Permutation|].
    by intros h l [-> ?].
  - exists (IResult (encode (RError text))). split.
    + unfold completion_push. rewrite map_app. simpl. unfold result_item at 2. simpl. solve_Permutation.
    + intros h l [-> _]. simpl. unfold answer_of. destruct Ht as [->|[-> [c ->]]]; [done|by right].
Qed.

Lemma track_items h r k run b b' gs acc id it it' out :
  back_items b ≡ₚ (id, it) :: out → back_items b' ≡ₚ (id, it') :: out →
  (∀ h line, item_ok h id line it → item_ok h id line it') →
  tracked h (MkServer r k run b gs acc) → tracked h (MkServer r k run b' gs acc).
Proof.
  unfold tracked, server_items. simpl. intros Hb Hb' Hit Ht.
  apply (track_perm _ _ _ _ ((id, it') :: control_items k ++ out)); [rewrite Hb'; solve_Permutation|].
  apply (track_replace _ _ _ _ _ it); [by apply Hit|].
  eapply track_perm; [|exact Ht]. rewrite Hb. solve_Permutation.
Qed.

Lemma tracked_same h r k run b b' gs acc :
  back_items b ≡ₚ back_items b' →
  tracked h (MkServer r k run b gs acc) → tracked h (MkServer r k run b' gs acc).
Proof. intros Hb. unfold tracked, server_items. simpl. apply track_perm. by rewrite Hb. Qed.

Lemma tracked_executed h r k run b b' gs acc now t resp out :
  back_items b ≡ₚ (task_id t, ITask (command t)) :: out →
  back_items b' ≡ₚ (task_id t, IPosting (command t) resp) :: out →
  tracked h (MkServer r k run b gs acc) →
  tracked (h ++ [(now, t, resp)]) (MkServer r k run b' gs acc).
Proof.
  unfold tracked, server_items. simpl. intros Hb Hb' Ht.
  apply (track_perm _ _ _ _ ((task_id t, IPosting (command t) resp) :: control_items k ++ out));
    [rewrite Hb'; solve_Permutation|].
  apply track_execute. eapply track_perm; [|exact Ht]. rewrite Hb. solve_Permutation.
Qed.

Lemma tracked_worker s0 h r k run b b' gs acc :
  worker_step b b' → exec_run s0 h (engine b) → tracked h (MkServer r k run b gs acc) →
  ∃ h', h `prefix_of` h' ∧ exec_run s0 h' (engine b') ∧ tracked h' (MkServer r k run b' gs acc).
Proof.
  intros Hs Hrun Ht.
  destruct (worker_step_effect _ _ Hs) as [He Hb|id it it' out He Hb Hb' Hit|now t resp out Hx Hb Hb'].
  - exists h. rewrite He. split_and!; [done|done|]. by apply (tracked_same h r k run b b').
  - exists h. rewrite He. split_and!; [done|done|by apply (track_items h r k run b b' gs acc id it it' out)].
  - exists (h ++ [(now, t, resp)]). split_and!; [by apply prefix_app_r|by eapply exec_run_snoc|].
    by apply (tracked_executed h r k run b b' gs acc now t resp out).
Qed.

Lemma tracked_process h r run b gs acc client line seq ip w evs :
  tracked h (MkServer r (Processing client line seq ip w evs) run b gs acc) →
  tracked h (MkServer r (Reading client w evs) run (process_back client line seq ip b) gs acc).
Proof.
  unfold tracked, server_items. simpl. intros Ht.
  destruct (process_items client line seq ip b) as (it' & Hb & Hit).
  apply (track_perm _ _ _ _ (((client, seq), it') :: back_items b)); [by rewrite Hb|].
  apply (track_replace _ _ _ _ _ (ILine line)); [by apply Hit|exact Ht].
Qed.

Lemma tracked_drain h r b gs acc :
  tracked h (MkServer r AtTop true b gs acc) →
  tracked h (MkServer (drain_completion_queue r (pool b)).1 AtBackpressure true
     (set_back_pool (drain_completion_queue r (pool b)).2 b)
     (foldl (ghost_deliver_result r) gs (drain_results (pool b)).1) acc).
Proof.
  unfold tracked, server_items, drain_completion_queue, drain_results. rewrite completion_drain_eq. simpl.
  intros Ht. apply track_drain; [done|]. eapply track_perm; [|exact Ht]. unfold back_items. simpl.
  solve_Permutation.
Qed.

Lemma update_ghost_some f client gs (g : conn_ghost) :
  gs !! client = Some g → update_ghost f client gs = <[client := f g]> gs.
Proof. unfold update_ghost. by intros ->. Qed.

Lemma tracked_read h r run b gs acc client w evs qsize qmax :
  regular (MkServer (read_iteration client qsize qmax r).2
    (next_control client w evs (read_iteration client qsize qmax r).1) run b
    (ghost_read client r (read_iteration client qsize qmax r).1 gs) acc) →
  tracked h (MkServer r (Reading client w evs) run b gs acc) →
  tracked h (MkServer (read_iteration client qsize qmax r).2
    (next_control client w evs (read_iteration client qsize qmax r).1) run b
    (ghost_read client r (read_iteration client qsize qmax r).1 gs) acc).
Proof.
  intros [_ Hreg] Ht. unfold tracked, server_items in *. simpl in *.
  destruct (connections_ r !! client) as [c|] eqn:Hc.
  2:{ unfold ghost_read, read_iteration. rewrite Hc. simpl. unfold after_read. by destruct w. }
  destruct (t_conns _ _ _ _ _ Ht client c Hc) as (g & Hg & Htc).
  destruct (t_ghosts _ _ _ _ _ Ht client g Hg) as [_ Hok].
  unfold ghost_read in *. rewrite Hc in *.
  destruct (read_iteration_cases client qsize qmax c r Hc) as [Hl|raw rest Hl Hs|raw rest Hl Hs _|raw rest Hl Hs Hd _];
    rewrite Hl in *; simpl in *; rewrite ?(update_ghost_some _ _ _ _ Hg) in *.
  - unfold after_read. by destruct w.
  - eapply track_local; eauto using g_requests_skip, conn_tracked_skip.
    apply ghost_ok_frame; [by eapply find_line_Some|done|done].
  - assert (control_items (after_read client w evs) = []) as -> by (by destruct w).
    eapply track_local; eauto using g_requests_skip, conn_tracked_skip.
    apply ghost_ok_frame; [by eapply find_line_Some|done|done].
  - eapply track_issue; try done.
    specialize (Hreg client (g_frame raw true g)). rewrite lookup_insert_eq in Hreg.
    specialize (Hreg eq_refl). rewrite g_requests_frame, length_app in Hreg. simpl in Hreg.
    rewrite (ct_issue _ _ _ _ Htc). lia.
Qed.

Lemma tracked_recv h r run b gs acc pfd ev evs bytes :
  tracked h (MkServer r (Dispatching ((pfd, ev) :: evs)) run b gs acc) →
  tracked h (let '(go, r') := handle_read_recv (fd pfd) bytes r in
       MkServer r' (if (go : bool) then Reading (fd pfd) (ev_write ev) evs else after_read (fd pfd) (ev_write ev) evs)
         run b (if (go : bool) then update_ghost (g_recv bytes) (fd pfd) gs else gs) acc).
Proof.
  intros Ht. unfold tracked, server_items in *. unfold handle_read_recv. simpl in *.
  assert (Hk : control_items (after_read (fd pfd) (ev_write ev) evs) = []) by (by destruct (ev_write ev)).
  destruct (String.eqb bytes ""); simpl; [|destruct (connections_ r !! fd pfd) as [c|] eqn:Hc; simpl]; rewrite ?Hk.
  - assert (connections_ (disconnect (fd pfd) r) = delete (fd pfd) (connections_ r)) as ->.
    { unfold disconnect. by case_match. }
    by apply track_disconnect.
  - destruct (t_conns _ _ _ _ _ Ht (fd pfd) c Hc) as (g & Hg & _).
    destruct (t_ghosts _ _ _ _ _ Ht (fd pfd) g Hg) as [_ [? ?]].
    rewrite (update_ghost_some _ _ _ _ Hg). eapply track_local; try done.
    intros [Ho Hs Hi Hf Hcov]. split; try done; [by destruct Ho|]. simpl. rewrite Hf.
    by autorewrite with str.
  - done.
Qed.

Lemma connections_disconnect client r : connections_ (disconnect client r) = delete client (connections_ r).
Proof. unfold disconnect. by case_match. Qed.

Lemma conn_tracked_send ids f g c n b :
  write_buffer c = string_take n (write_buffer c) +:+ b → conn_tracked ids f g c →
  conn_tracked ids f (g_send (string_take n (write_buffer c)) g)
    (set_write b (if String.eqb b "" then false else write_pending c) c).
Proof.
  intros Hw [[Oi Od Oe Op Ob Os Of Ow] Hs Hi Hf Hc]. split; try done.
  split; simpl; try done.
  - rewrite <-Os. rewrite Hw at 2. by autorewrite with str.
  - intros Hb. destruct (String.eqb_spec b ""); [done|]. apply Ow. intros He. rewrite He in Hw.
    destruct n; simpl in Hw; by destruct b.
Qed.

Lemma tracked_write h r run b gs acc client evs sent :
  tracked h (MkServer r (Writing client evs) run b gs acc) →
  tracked h (MkServer (handle_write client sent r) (Dispatching evs) run b
    (match connections_ r !! client, sent with
     | Some c, Some n => update_ghost (g_send (string_take n (write_buffer c))) client gs
     | _, _ => gs
     end) acc).
Proof.
  intros Ht. unfold tracked, server_items in *. simpl in *.
  destruct (connections_ r !! client) as [c|] eqn:Hc; [|unfold handle_write; by rewrite Hc].
  destruct (t_conns _ _ _ _ _ Ht client c Hc) as (g & Hg & _).
  destruct (t_ghosts _ _ _ _ _ Ht client g Hg) as [_ [? ?]].
  destruct (handle_write_cases client sent c r Hc) as [(_ & -> & ->)|(n & b' & Hw & Hn & ->)].
  - rewrite connections_disconnect. by apply track_disconnect.
  - destruct sent as [m|].
    + assert (string_take m (write_buffer c) = string_take n (write_buffer c)) as ->.
      { destruct (decide (write_buffer c = "")) as [->|Hne]; [by destruct m, n|].
        by injection (Hn Hne) as [= ->]. }
      rewrite (update_ghost_some _ _ _ _ Hg). eapply track_local; try done. by apply conn_tracked_send.
    + assert (He : write_buffer c = "") by (destruct (decide (write_buffer c = "")); [done|by specialize (Hn n0)]).
      assert (Hg' : <[client := g]> gs = gs) by (by apply insert_id).
      rewrite <-Hg'. eapply track_local; try done. intros Htc.
      pose proof (conn_tracked_send _ _ _ _ _ _ Hw Htc) as Hs. rewrite He in *.
      assert (string_take n "" = "") as Hz by (by destruct n). rewrite Hz in Hs.
      destruct Hs as [[Oi Od Oe Op Ob Os Of Ow] Hs Hi Hf Hcov]. split; try done. split; try done.
      simpl in Os. by rewrite string_app_nil_r in Os.
Qed.

Lemma tracked_reactor h sv sv' : reactor_step sv sv' → regular sv' → tracked h sv → tracked h sv'.
Proof.
  intros Hs Hreg Ht. destruct Hs as [| | | |r run b gs acc evs _ _| |r run b gs acc pfd ev evs _
    |r run b gs acc pfd ev evs conn _ _ Hconn|r run b gs acc pfd ev evs _ _|r run b gs acc pfd ev evs bytes _ _ _
    |r run b gs acc pfd ev evs _ _ _ _|r run b gs acc client w evs o r' Hread| |r run b gs acc client evs sent _];
    try done.
  - by apply tracked_drain.
  - by eapply track_close.
  - unfold update_backpressure, tracked. simpl. by destruct (_ <? _).
  - destruct conn as [[client ip]|]; [|done]. unfold accept_connection in *. destruct (MAX_CONNECTIONS <=? total_connections_ r); [done|].
    destruct Hreg as [Hn _]. simpl in Hn. apply track_accept; [|done].
    apply NoDup_app in Hn as (_ & Hd & _). intros Hin. apply (Hd client Hin). by left.
  - unfold tracked. simpl. rewrite connections_disconnect. by apply track_disconnect.
  - by apply tracked_recv.
  - pose proof (tracked_read h r run b gs acc client w evs (queue_size (pool b)) (max_queue_size_ (pool b))) as H.
    rewrite Hread in H. by apply H.
  - by apply tracked_process.
  - by apply tracked_write.
Qed.

(** The steps of the other threads do not touch the engine. *)
Lemma tracked_step s0 h sv sv' :
  run_step sv sv' → exec_run s0 h (engine (back sv)) → tracked h sv →
  ∃ h', h `prefix_of` h' ∧ exec_run s0 h' (engine (back sv')) ∧ tracked h' sv'.
Proof.
  intros [[sv1 sv2 Hs|r k run b b' gs acc Hw|r k run b gs acc|r run b gs acc] Hreg] Hrun Ht.
  - exists h. destruct (reactor_step_frame _ _ Hs) as (_ & _ & -> & _).
    split_and!; [done|done|by eapply tracked_reactor].
  - by eapply tracked_worker.
  - by exists h.
  - by exists h.
Qed.

Lemma tracked_started listen threads max s : tracked [] (server_started listen threads max s).
Proof.
  assert (Hi : server_items (server_started listen threads max s) = []).
  { unfold server_items, back_items. simpl. rewrite app_nil_r. by induction threads. }
  unfold tracked. rewrite Hi. split.
  - constructor.
  - by intros ? ? ? ?%elem_of_nil.
  - intros ? ? H. simpl in H. by rewrite lookup_empty in H.
  - intros ? ? H. simpl in H. by rewrite lookup_empty in H.
  - by intros ? ? ? ?%elem_of_nil.
  - constructor.
Qed.

Lemma tracked_steps s0 h sv sv' :
  rtc run_step sv sv' → exec_run s0 h (engine (back sv)) → tracked h sv →
  ∃ h', h `prefix_of` h' ∧ exec_run s0 h' (engine (back sv')) ∧ tracked h' sv'.
Proof.
  intros H. revert h. induction H as [sv|sv0 sv1 sv2 Hs _ IH]; intros h Hrun Ht; [by exists h|].
  destruct (tracked_step _ _ _ _ Hs Hrun Ht) as (h1 & Hp & Hrun1 & Ht1).
  destruct (IH h1 Hrun1 Ht1) as (h2 & Hp2 & ? & ?). exists h2. split; [by etrans|done].
Qed.

Lemma tracked_reachable listen threads max s sv :
  rtc run_step (server_started listen threads max s) sv →
  ∃ h, exec_run s h (engine (back sv)) ∧ tracked h sv.
Proof.
  intros H. destruct (tracked_steps s [] _ _ H) as (h & _ & ? & ?);
    [apply exec_run_nil|apply tracked_started|eauto].
Qed.

Lemma control_reachable listen threads max s sv :
  rtc server_step (server_started listen threads max s) sv → control_ok (reactor sv) (ctl sv).
Proof.
  intros H. assert (Hk : control_ok (reactor (server_started listen threads max s)) AtTop).
  { split; [apply lookup_empty|apply reactor_inv_make]. }
  refine (rtc_invariant _ (λ sv, control_ok (reactor sv) (ctl sv)) _ _ _ H Hk). by apply control_step.
Qed.
End responses.
