(* ===== verification/Framing.v ===== *)
(** * Framing, and what one run says about the runs before it

    [framed]: what an open connection received is the lines taken from its buffer
    followed by the rest of the buffer, and its counter of sequence numbers counts
    the lines issued, modulo [2^64].  Every step of every thread keeps it.

    [regular] of [Responses] is kept backwards: a run to a regular state has gone
    through regular states only. *)

From stdpp Require Import gmap.
From S2P Require Import Prelude MachineInt Text Resp Command WorkerPool Pipeline Reactor Server Responses.

Local Open Scope Z_scope.

(** ** Framing *)

Record conn_framed (g : conn_ghost) (c : ConnectionState) : Prop := {
  cf_received : g_received g = frames_text (g_frames g) +:+ read_buffer c;
  cf_frames : Forall frame_ok (g_frames g);
  cf_issue : next_seq_issue c = u64 (Z.of_nat (length (g_requests g)));
}.

Definition framed (conns : gmap Z ConnectionState) (gs : ghosts) : Prop :=
  ∀ f c, conns !! f = Some c → ∃ g, gs !! f = Some g ∧ conn_framed g c.

Lemma conn_framed_same g g' c c' :
  g_received g' = g_received g → g_frames g' = g_frames g →
  read_buffer c' = read_buffer c → next_seq_issue c' = next_seq_issue c → conn_framed g c → conn_framed g' c'.
Proof. intros H1 H2 H3 H4 [A B C]. split; unfold g_requests in *; rewrite ?H1, ?H2, ?H3, ?H4; done. Qed.

(** The ghosts change at most at sockets of their own. *)
Lemma framed_update conns gs f c c' (u : conn_ghost → conn_ghost) :
  conns !! f = Some c → (∀ g, conn_framed g c → conn_framed (u g) c') → framed conns gs →
  framed (<[f := c']> conns) (update_ghost u f gs).
Proof.
  intros Hc Hu Hfr. destruct (Hfr f c Hc) as (g & Hg & Hcf). unfold update_ghost. rewrite Hg.
  intros f' x. destruct (decide (f' = f)) as [->|]; [rewrite !lookup_insert_eq|rewrite !lookup_insert_ne by done; apply Hfr].
  intros [= <-]. eexists. split; [done|]. by apply Hu.
Qed.

Lemma framed_delete conns gs f : framed conns gs → framed (delete f conns) gs.
Proof. intros H f' c [_ Hc]%lookup_delete_Some. by apply H. Qed.

Lemma framed_accept conns gs f ip :
  framed conns gs → framed (<[f := ConnectionState_make ip]> conns) (<[f := ghost_make]> gs).
Proof.
  intros H f' c. destruct (decide (f' = f)) as [->|]; [rewrite !lookup_insert_eq|rewrite !lookup_insert_ne by done; apply H].
  intros [= <-]. exists ghost_make. split; [done|]. by split; [|constructor|].
Qed.

Lemma flush_ready_frame fuel c : conn_frame c (flush_ready fuel c).
Proof.
  revert c. induction fuel as [|n IH]; intros c; simpl; [done|].
  destruct (out_of_order_buf c !! next_seq_expected c) as [r|]; [|done]. etrans; [|apply IH]. done.
Qed.

Lemma deliver_frame k r c : conn_frame c (deliver k r c).
Proof. unfold deliver. etrans; [|apply flush_ready_frame]. done. Qed.

Lemma framed_deliver r0 r gs res :
  (∀ f, is_Some (connections_ r !! f) ↔ is_Some (connections_ r0 !! f)) →
  framed (connections_ r) gs → framed (connections_ (deliver_result r res)) (ghost_deliver_result r0 gs res).
Proof.
  intros Hopen Hfr. unfold deliver_result, ghost_deliver_result. specialize (Hopen (result_fd res)).
  destruct (connections_ r !! result_fd res) as [c|] eqn:Hc, (connections_ r0 !! result_fd res) as [c0|].
  - apply (framed_update _ _ _ c); [done| |done]. intros g.
    destruct (deliver_frame (result_seq res) (response res) c) as (Hb & _ & Hi). by apply conn_framed_same.
  - destruct (proj1 Hopen) as [? [=]]. eauto.
  - destruct (proj2 Hopen) as [? [=]]. eauto.
  - done.
Qed.

Lemma framed_drain r0 results r gs :
  (∀ f, is_Some (connections_ r !! f) ↔ is_Some (connections_ r0 !! f)) →
  framed (connections_ r) gs →
  framed (connections_ (foldl deliver_result r results)) (foldl (ghost_deliver_result r0) gs results).
Proof.
  revert r gs. induction results as [|res results IH]; intros r gs Hopen Hfr; [done|]. simpl.
  apply IH; [|by apply framed_deliver]. intros f. rewrite <-Hopen. exact (foldl_deliver_conns r [res] f).
Qed.

(** One frame is taken; [issued] counts it. *)
Lemma conn_framed_frame g c raw rest issued c' :
  find_line (read_buffer c) = Some (raw, rest) → (issued = true → strip_CR raw ≠ "") →
  read_buffer c' = rest →
  next_seq_issue c' = (if issued then u64 (next_seq_issue c + 1) else next_seq_issue c) →
  conn_framed g c → conn_framed (g_frame raw issued g) c'.
Proof.
  intros Hl Hs Hb Hi [A B C]. pose proof (find_line_Some _ _ _ Hl) as [Hr HLF]. split.
  - simpl. rewrite frames_text_app, A, Hr, Hb. unfold frames_text at 3. simpl. by autorewrite with str.
  - simpl. apply Forall_app. split; [done|]. by repeat constructor.
  - rewrite Hi, C. destruct issued.
    + rewrite g_requests_frame, length_app. simpl. unfold u64. rewrite Nat2Z.inj_add. by rewrite Z.add_mod_idemp_l.
    + by rewrite g_requests_skip.
Qed.

Lemma conn_framed_recv g c bytes :
  conn_framed g c → conn_framed (g_recv bytes g) (set_read_buffer (read_buffer c +:+ bytes) c).
Proof. intros [A B C]. split; [|done|done]. simpl. rewrite A. by autorewrite with str. Qed.

Section steps.
Context {St : Type} `{!Executor ICommand St}.

Definition server_framed (sv : server St) : Prop := framed (connections_ (reactor sv)) (ghost sv).

Lemma framed_read r gs client qsize qmax :
  framed (connections_ r) gs →
  framed (connections_ (read_iteration client qsize qmax r).2) (ghost_read client r (read_iteration client qsize qmax r).1 gs).
Proof.
  intros Hfr. unfold ghost_read. destruct (connections_ r !! client) as [c|] eqn:Hc.
  2:{ unfold read_iteration. by rewrite Hc. }
  destruct (read_iteration_cases client qsize qmax c r Hc) as [Hl|raw rest Hl Hs|raw rest Hl Hs _|raw rest Hl Hs _ _];
    rewrite Hl; [done|..]; (apply (framed_update _ _ _ c); [done| |done]); intros g;
    by apply (conn_framed_frame g c raw rest).
Qed.

Lemma reactor_step_framed sv sv' : reactor_step sv sv' → server_framed sv → server_framed sv'.
Proof.
  unfold server_framed.
  destruct 1 as [r b gs acc| |r run b gs acc| |r run b gs acc evs _ _| |r run b gs acc pfd ev evs _
    |r run b gs acc pfd ev evs conn _ _ Hconn|r run b gs acc pfd ev evs _ _|r run b gs acc pfd ev evs bytes _ _ _
    |r run b gs acc pfd ev evs _ _ _ _|r run b gs acc client w evs o r' Hread| |r run b gs acc client evs sent _];
    intros Hfr; try done.
  - unfold drain_completion_queue, drain_results. rewrite completion_drain_eq. simpl. by apply framed_drain.
  - unfold update_backpressure. simpl. by destruct (_ <? _).
  - destruct conn as [[client ip]|]; [|done]. unfold accept_connection.
    destruct (MAX_CONNECTIONS <=? total_connections_ r); [done|]. by apply framed_accept.
  - simpl. rewrite connections_disconnect. by apply framed_delete.
  - unfold handle_read_recv. destruct (String.eqb bytes ""); simpl; [rewrite connections_disconnect; by apply framed_delete|].
    destruct (connections_ r !! fd pfd) as [c|] eqn:Hc; [|done]. simpl.
    apply (framed_update _ _ _ c); [done| |done]. intros g. apply conn_framed_recv.
  - pose proof (framed_read r gs client (queue_size (pool b)) (max_queue_size_ (pool b)) Hfr) as H. by rewrite Hread in H.
  - simpl in *. destruct (connections_ r !! client) as [c|] eqn:Hc; [|unfold handle_write; by rewrite Hc].
    destruct (handle_write_cases client sent c r Hc) as [(_ & -> & ->)|(n & b' & _ & Hn & ->)].
    + rewrite connections_disconnect. by apply framed_delete.
    + destruct sent as [m|].
      * apply (framed_update _ _ _ c); [done| |done]. intros g. by apply conn_framed_same.
      * destruct (Hfr client c Hc) as (g & Hg & _).
        pose proof (framed_update (connections_ r) gs client c
          (set_write b' (if String.eqb b' "" then false else write_pending c) c) (λ g, g) Hc) as H.
        unfold update_ghost in H. rewrite Hg, (insert_id gs) in H by done. apply H; [|done].
        intros g0. by apply conn_framed_same.
Qed.

Lemma framed_reachable listen threads max s sv :
  rtc server_step (server_started listen threads max s) sv → server_framed sv.
Proof.
  intros H. refine (rtc_invariant _ server_framed _ _ _ H _).
  - intros x y [? ? Hs| | |]; [by apply reactor_step_framed|done..].
  - intros f c Hc. simpl in Hc. by rewrite lookup_empty in Hc.
Qed.

(** ** Regular runs *)

(** A socket with a ghost was accepted. *)
Definition known (sv : server St) : Prop := ∀ f g, ghost sv !! f = Some g → f ∈ accepted sv.

(** The ghosts only gain requests, and no socket. *)
Definition ghosts_grow (gs gs' : ghosts) : Prop :=
  (∀ f g, gs !! f = Some g → ∃ g', gs' !! f = Some g' ∧ (length (g_requests g) <= length (g_requests g'))%nat) ∧
  (∀ f, is_Some (gs' !! f) → is_Some (gs !! f)).

Lemma ghosts_grow_refl gs : ghosts_grow gs gs.
Proof. split; [|done]. intros f g Hg. by exists g. Qed.

Lemma ghosts_grow_trans gs1 gs2 gs3 : ghosts_grow gs1 gs2 → ghosts_grow gs2 gs3 → ghosts_grow gs1 gs3.
Proof.
  intros [H1 H2] [H3 H4]. split; [|auto]. intros f g Hg. destruct (H1 f g Hg) as (g' & Hg' & ?).
  destruct (H3 f g' Hg') as (g'' & ? & ?). exists g''. split; [done|lia].
Qed.

Lemma ghosts_grow_update u f gs :
  (∀ g, (length (g_requests g) <= length (g_requests (u g)))%nat) → ghosts_grow gs (update_ghost u f gs).
Proof.
  intros Hu. unfold update_ghost. destruct (gs !! f) as [g|] eqn:Hg; [|apply ghosts_grow_refl]. split.
  - intros f' x Hx. destruct (decide (f' = f)) as [->|]; [|rewrite lookup_insert_ne by done; eauto].
    rewrite lookup_insert_eq. rewrite Hg in Hx. injection Hx as <-. eauto.
  - intros f'. destruct (decide (f' = f)) as [->|]; [by eauto|by rewrite lookup_insert_ne].
Qed.

Lemma ghosts_grow_deliver r results gs : ghosts_grow gs (foldl (ghost_deliver_result r) gs results).
Proof.
  revert gs. induction results as [|res results IH]; intros gs; [apply ghosts_grow_refl|]. simpl.
  eapply ghosts_grow_trans; [|apply IH]. unfold ghost_deliver_result.
  destruct (connections_ r !! result_fd res); [|apply ghosts_grow_refl]. by apply ghosts_grow_update.
Qed.

(** A step accepts a socket, or lets the ghosts grow. *)
Definition ghosts_step (acc acc' : list Z) (gs gs' : ghosts) : Prop :=
  (∃ client, acc' = acc ++ [client] ∧ gs' = <[client := ghost_make]> gs) ∨ acc' = acc ∧ ghosts_grow gs gs'.

Lemma reactor_step_ghosts (sv sv' : server St) :
  reactor_step sv sv' →
  ghosts_step (accepted sv) (accepted sv') (ghost sv) (ghost sv').
Proof.
  destruct 1 as [r b gs acc| |r run b gs acc| |r run b gs acc evs _ _| |r run b gs acc pfd ev evs _
    |r run b gs acc pfd ev evs conn _ _ Hconn|r run b gs acc pfd ev evs _ _|r run b gs acc pfd ev evs bytes _ _ _
    |r run b gs acc pfd ev evs _ _ _ _|r run b gs acc client w evs o r' Hread| |r run b gs acc client evs sent _];
    try (right; split; [done|apply ghosts_grow_refl]).
  - right. split; [done|]. apply ghosts_grow_deliver.
  - destruct conn as [[client ip]|]; [|right; split; [done|apply ghosts_grow_refl]]. unfold accept_connection.
    destruct (MAX_CONNECTIONS <=? total_connections_ r); [right; split; [done|apply ghosts_grow_refl]|].
    left. by exists client.
  - right. destruct (handle_read_recv (fd pfd) bytes r) as [[] r']; (split; [done|]); [|apply ghosts_grow_refl].
    by apply ghosts_grow_update.
  - right. split; [done|]. simpl. unfold ghost_read. destruct (connections_ r !! client); [|apply ghosts_grow_refl].
    destruct (find_line _) as [[raw rest]|]; [|apply ghosts_grow_refl]. apply ghosts_grow_update. intros g.
    destruct o; rewrite ?g_requests_skip, ?g_requests_frame, ?length_app; lia.
  - right. split; [done|]. simpl. destruct (connections_ r !! client), sent; try apply ghosts_grow_refl.
    by apply ghosts_grow_update.
Qed.

Lemma step_ghosts (sv sv' : server St) :
  server_step sv sv' →
  ghosts_step (accepted sv) (accepted sv') (ghost sv) (ghost sv').
Proof. destruct 1; [by apply reactor_step_ghosts|right; split; [done|apply ghosts_grow_refl]..]. Qed.

Definition ghosts_known (acc : list Z) (gs : ghosts) : Prop := ∀ f g, gs !! f = Some g → f ∈ acc.
Definition ghosts_regular (acc : list Z) (gs : ghosts) : Prop :=
  NoDup acc ∧ ∀ f g, gs !! f = Some g → Z.of_nat (length (g_requests g)) < 2 ^ 64.

Lemma ghosts_step_known acc acc' gs gs' : ghosts_step acc acc' gs gs' → ghosts_known acc gs → ghosts_known acc' gs'.
Proof.
  intros [(client & -> & ->)|[-> [_ Hg]]] Hk f g Hf.
  - apply elem_of_app. apply lookup_insert_Some in Hf as [[<- _]|[_ Hf]]; [right; by left|left; by eapply Hk].
  - destruct (Hg f) as [x Hx]; [by eexists|]. by eapply Hk.
Qed.

Lemma ghosts_step_regular acc acc' gs gs' :
  ghosts_step acc acc' gs gs' → ghosts_known acc gs → ghosts_regular acc' gs' → ghosts_regular acc gs.
Proof.
  intros [(client & -> & ->)|[-> [Hg _]]] Hk [Hn Hr].
  - apply NoDup_app in Hn as (Hn & Hd & _). split; [done|]. intros f g Hf. apply (Hr f). rewrite lookup_insert_ne; [done|].
    intros ->. apply (Hd f); [by eapply Hk|by left].
  - split; [done|]. intros f g Hf. destruct (Hg f g Hf) as (g' & Hg' & ?). specialize (Hr f g' Hg'). lia.
Qed.

(** A run that ends in a regular state is one of regular states. *)
Lemma regular_run sv sv' :
  rtc server_step sv sv' → known sv → regular sv' → rtc run_step sv sv' ∧ regular sv.
Proof.
  induction 1 as [sv|sv sv1 sv2 Hs _ IH]; intros Hk Hreg; [by split; [apply rtc_refl|]|].
  pose proof (step_ghosts _ _ Hs) as Hg.
  destruct IH as [Hr1 Hreg1]; [by apply (ghosts_step_known _ _ _ _ Hg)|done|].
  split; [by eapply rtc_l; [split|]|]. by apply (ghosts_step_regular _ _ _ _ Hg).
Qed.

Lemma regular_run_started listen threads max s sv :
  rtc server_step (server_started listen threads max s) sv → regular sv →
  rtc run_step (server_started listen threads max s) sv.
Proof. intros H Hreg. apply regular_run; [done| |done]. intros f g Hg. simpl in Hg. by rewrite lookup_empty in Hg. Qed.
End steps.
