(* ===== verification/Scheduler.v ===== *)
(** * Running the server model

    An executable form of the step relation of [Server]: a label says which
    thread moves and what the sockets and the clock give, and [server_next] computes
    the step.  Every computed step is a step of the relation, so a script of
    labels is a run; the examples of [NetworkTheorems] are such scripts. *)

From stdpp Require Import gmap.
From S2P Require Import Prelude MachineInt Text Resp Command WorkerPool Pipeline Reactor Server Responses.

Local Open Scope Z_scope.

#[export] Instance pollfd_eq_dec : EqDecision pollfd.
Proof. solve_decision. Defined.

Inductive label :=
| LWorker (i : nat) (now : Z)                      (* worker [i] moves, at time [now] *)
| LShutdown                                        (* [pool.shutdown()] *)
| LStop                                            (* [reactor.stop()] *)
| LReactor                                         (* the reactor moves; no input needed *)
| LPoll (evs : list revents)                       (* [WSAPoll] returns, socket by socket *)
| LAccept (conn : option (Z * string))
| LRecv (bytes : string)
| LSend (sent : option nat).

Section scheduler.
Context {St : Type} `{!Executor ICommand St}.

(** The next step of worker [i]; [None] when it has to wait. *)
Definition worker_next (i : nat) (now : Z) (b : pool_state ICommand St) : option (pool_state ICommand St) :=
  let '(PoolState p ws s acc tk po) := b in
  match ws !! i with
  | Some Waiting =>
    match queue_ p with
    | t :: q => Some (PoolState (set_queue q p) (<[i := Executing t]> ws) s acc (tk ++ [t]) po)
    | [] => if pool_running_ p then None else Some (PoolState p (<[i := Exited]> ws) s acc tk po)
    end
  | Some (Executing t) =>
    let '(r, s') := exec_command now (command t) s in
    Some (PoolState p (<[i := Posting t r]> ws) s' acc tk po)
  | Some (Posting t r) =>
    Some (PoolState (push_result (MkResult (client_fd t) (sequence_id t) r) p) (<[i := Waiting]> ws) s acc tk
            (po ++ [t]))
  | _ => None
  end.

Lemma worker_next_sound i now b b' : worker_next i now b = Some b' → worker_step b b'.
Proof.
  destruct b as [p ws s acc tk po]. simpl. destruct (ws !! i) as [[|t|t r|]|] eqn:Hi; try done.
  - destruct (queue_ p) as [|t q] eqn:Hq.
    + destruct (pool_running_ p) eqn:Hr; [done|]. intros [= <-]. by constructor.
    + intros [= <-]. by constructor.
  - destruct (exec_command now (command t) s) as [r s'] eqn:Hx. intros [= <-]. by econstructor.
  - intros [= <-]. by constructor.
Qed.

Definition poll_reports_b (pfd : pollfd) (ev : revents) : bool :=
  implb (ev_read ev) (ask_read pfd) && implb (ev_write ev) (ask_write pfd).

(** The reactor's next step under the input of the label. *)
Definition dispatch_next (lbl : label) (r : Reactor) (run : bool) (b : pool_state ICommand St) (gs : ghosts)
    (acc : list Z) (pfd : pollfd) (ev : revents) (evs : list (pollfd * revents)) : option (server St) :=
  if bool_decide (fd pfd = listen_socket_ r) then
    if ev_read ev then
      match lbl with
      | LAccept None => Some (MkServer r (Dispatching evs) run b gs acc)
      | LAccept (Some (client, ip)) =>
        if bool_decide (connections_ r !! client = None) && bool_decide (client ≠ listen_socket_ r) then
          let '(kept, r') := accept_connection client ip r in
          Some (MkServer r' (Dispatching evs) run b (if (kept : bool) then <[client := ghost_make]> gs else gs)
                  (if (kept : bool) then acc ++ [client] else acc))
        else None
      | _ => None
      end
    else Some (MkServer r (Dispatching evs) run b gs acc)
  else if ev_error ev then Some (MkServer (disconnect (fd pfd) r) (Dispatching evs) run b gs acc)
  else if ev_read ev then
    match lbl with
    | LRecv bytes =>
      let '(go, r') := handle_read_recv (fd pfd) bytes r in
      Some (MkServer r' (if (go : bool) then Reading (fd pfd) (ev_write ev) evs else after_read (fd pfd) (ev_write ev) evs)
              run b (if (go : bool) then update_ghost (g_recv bytes) (fd pfd) gs else gs) acc)
    | _ => None
    end
  else if ev_write ev then Some (MkServer r (Writing (fd pfd) evs) run b gs acc)
  else Some (MkServer r (Dispatching evs) run b gs acc).

Definition send_possible (client : Z) (sent : option nat) (r : Reactor) : bool :=
  match connections_ r !! client, sent with
  | Some c, Some n => (n <=? String.length (write_buffer c))%nat
  | _, _ => true
  end.

Definition reactor_next (lbl : label) (sv : server St) : option (server St) :=
  let '(MkServer r k run b gs acc) := sv in
  match k with
  | AtTop =>
    if run then
      Some (MkServer (drain_completion_queue r (pool b)).1 AtBackpressure true
              (set_back_pool (drain_completion_queue r (pool b)).2 b)
              (foldl (ghost_deliver_result r) gs (drain_results (pool b)).1) acc)
    else Some (MkServer (close_all r) Stopped false b gs acc)
  | AtBackpressure =>
    Some (MkServer (rebuild_poll_set (update_backpressure (queue_size (pool b)) (max_queue_size_ (pool b)) r))
            AtPoll run b gs acc)
  | AtPoll =>
    match lbl with
    | LPoll revs =>
      let evs := zip (poll_fds_ r) revs in
      if (length revs =? length (poll_fds_ r))%nat && forallb (λ e, poll_reports_b e.1 e.2) evs
      then Some (MkServer r (Dispatching evs) run b gs acc) else None
    | _ => Some (MkServer r AtTop run b gs acc)
    end
  | Dispatching [] => Some (MkServer r AtTop run b gs acc)
  | Dispatching ((pfd, ev) :: evs) => dispatch_next lbl r run b gs acc pfd ev evs
  | Reading client w evs =>
    let '(o, r') := read_iteration client (queue_size (pool b)) (max_queue_size_ (pool b)) r in
    Some (MkServer r' (next_control client w evs o) run b (ghost_read client r o gs) acc)
  | Processing client line seq ip w evs =>
    Some (MkServer r (Reading client w evs) run (process_back client line seq ip b) gs acc)
  | Writing client evs =>
    match lbl with
    | LSend sent =>
      if send_possible client sent r then
        Some (MkServer (handle_write client sent r) (Dispatching evs) run b
                (match connections_ r !! client, sent with
                 | Some c, Some n => update_ghost (g_send (string_take n (write_buffer c))) client gs
                 | _, _ => gs
                 end) acc)
      else None
    | _ => None
    end
  | Stopped => None
  end.

Definition server_next (lbl : label) (sv : server St) : option (server St) :=
  match lbl with
  | LWorker i now =>
    b' ← worker_next i now (back sv);
    Some (MkServer (reactor sv) (ctl sv) (running sv) b' (ghost sv) (accepted sv))
  | LShutdown =>
    if ctl sv is Stopped then
      Some (MkServer (reactor sv) (ctl sv) (running sv) (set_back_pool (pool_stop (pool (back sv))).2 (back sv))
              (ghost sv) (accepted sv))
    else None
  | LStop => Some (MkServer (reactor sv) (ctl sv) false (back sv) (ghost sv) (accepted sv))
  | _ => reactor_next lbl sv
  end.

(** ** Soundness *)

Lemma dispatch_next_sound lbl r run b gs acc pfd ev evs sv' :
  dispatch_next lbl r run b gs acc pfd ev evs = Some sv' →
  reactor_step (MkServer r (Dispatching ((pfd, ev) :: evs)) run b gs acc) sv'.
Proof.
  unfold dispatch_next. case_bool_decide as Hl.
  - destruct (ev_read ev) eqn:Er; [|intros [= <-]; constructor; auto].
    destruct lbl as [| | | | |conn| |]; try done. destruct conn as [[client ip]|].
    + destruct (bool_decide (connections_ r !! client = None)) eqn:E1; [|done].
      destruct (bool_decide (client ≠ listen_socket_ r)) eqn:E2; [|done].
      apply bool_decide_eq_true in E1, E2. simpl. intros H.
      assert (Hc : ∀ c i, Some (client, ip) = Some (c, i) → connections_ r !! c = None ∧ c ≠ listen_socket_ r)
        by (by intros ? ? [= <- <-]).
      pose proof (srv_accept r run b gs acc pfd ev evs (Some (client, ip)) Hl Er Hc) as Hs. simpl in Hs.
      destruct (accept_connection client ip r) as [kept r']. by injection H as [= <-].
    + intros [= <-]. by apply (srv_accept r run b gs acc pfd ev evs None).
  - destruct (ev_error ev) eqn:Ee; [intros [= <-]; by constructor|].
    destruct (ev_read ev) eqn:Er.
    + destruct lbl as [| | | | | |bytes|]; try done. intros H.
      pose proof (srv_recv r run b gs acc pfd ev evs bytes Hl Ee Er) as Hs.
      destruct (handle_read_recv (fd pfd) bytes r) as [go r']. by injection H as [= <-].
    + destruct (ev_write ev) eqn:Ew; intros [= <-]; constructor; auto.
Qed.

Lemma reactor_next_sound lbl sv sv' : reactor_next lbl sv = Some sv' → reactor_step sv sv'.
Proof.
  destruct sv as [r k run b gs acc].
  destruct k as [| | |[|[pfd ev] evs]|client w evs|client line seq ip w evs|client evs|]; simpl.
  - destruct run; intros [= <-]; constructor.
  - intros [= <-]. constructor.
  - assert (Hn : Some (MkServer r AtTop run b gs acc) = Some sv' →
      reactor_step (MkServer r AtPoll run b gs acc) sv') by (intros [= <-]; constructor).
    destruct lbl as [| | | |revs| | |]; try exact Hn. clear Hn.
    destruct (Nat.eqb_spec (length revs) (length (poll_fds_ r))) as [Hl|]; [|done]. simpl.
    destruct (forallb _ _) eqn:Hf; [|done]. intros [= <-]. constructor.
    + apply fst_zip. lia.
    + apply Forall_forall. intros e He. rewrite forallb_forall in Hf.
      specialize (Hf e (proj1 (list_elem_of_In _ _) He)). unfold poll_reports_b in Hf.
      unfold poll_reports. destruct (ev_read e.2), (ev_write e.2), (ask_read e.1), (ask_write e.1); done.
  - intros [= <-]. constructor.
  - apply dispatch_next_sound.
  - destruct (read_iteration _ _ _ r) as [o r'] eqn:Hr. intros [= <-]. by constructor.
  - intros [= <-]. constructor.
  - destruct lbl as [| | | | | | |sent]; try done. destruct (send_possible client sent r) eqn:Hs; [|done].
    intros [= <-]. constructor. intros n c -> Hc. unfold send_possible in Hs. rewrite Hc in Hs.
    by apply Nat.leb_le.
  - done.
Qed.

Lemma server_next_sound lbl sv sv' : server_next lbl sv = Some sv' → server_step sv sv'.
Proof.
  destruct lbl; try (intros H; apply srv_reactor; by eapply reactor_next_sound); simpl.
  - destruct (worker_next _ _ (back sv)) as [b'|] eqn:Hw; [|done]. intros [= <-]. destruct sv.
    apply srv_worker. by eapply worker_next_sound.
  - destruct sv as [r k run b gs acc]. destruct k; try done. intros [= <-]. apply srv_shutdown.
  - intros [= <-]. destruct sv. apply srv_stop.
Qed.

(** ** Scripts *)

Definition regular_b (sv : server St) : bool :=
  bool_decide (NoDup (accepted sv)) &&
  bool_decide (map_Forall (λ _ g, Z.of_nat (length (g_requests g)) < 2 ^ 64) (ghost sv)).

Fixpoint run_labels (lbls : list label) (sv : server St) : option (server St) :=
  match lbls with
  | [] => Some sv
  | lbl :: lbls => sv' ← server_next lbl sv; if regular_b sv' then run_labels lbls sv' else None
  end.

Lemma regular_b_sound sv : regular_b sv = true → regular sv.
Proof.
  unfold regular_b. intros [H1%bool_decide_eq_true H2%bool_decide_eq_true]%andb_prop. split; [done|].
  intros f g Hg. exact (H2 f g Hg).
Qed.

Lemma run_labels_sound lbls sv sv' : run_labels lbls sv = Some sv' → rtc run_step sv sv'.
Proof.
  revert sv. induction lbls as [|lbl lbls IH]; intros sv; simpl; [intros [= <-]; apply rtc_refl|].
  destruct (server_next lbl sv) as [sv1|] eqn:Hn; [|done]. simpl.
  destruct (regular_b sv1) eqn:Hreg; [|done]. intros H. eapply rtc_l; [|by apply IH].
  split; [by eapply server_next_sound|by apply regular_b_sound].
Qed.
End scheduler.

(** Scripts without the restriction to regular runs. *)
Section any_run.
Context {St : Type} `{!Executor ICommand St}.

Fixpoint run_any (lbls : list label) (sv : server St) : option (server St) :=
  match lbls with
  | [] => Some sv
  | lbl :: lbls => sv' ← server_next lbl sv; run_any lbls sv'
  end.

Lemma run_any_sound lbls sv sv' : run_any lbls sv = Some sv' → rtc server_step sv sv'.
Proof.
  revert sv. induction lbls as [|lbl lbls IH]; intros sv; simpl; [intros [= <-]; apply rtc_refl|].
  destruct (server_next lbl sv) as [sv1|] eqn:Hn; [|done]. simpl. intros H.
  eapply rtc_l; [by eapply server_next_sound|by apply IH].
Qed.
End any_run.
