(* ===== verification/Program.v ===== *)
(** * The whole program ([src/core/server_builder.cpp], [src/main.cpp])

    [build_and_run] replays the log, starts the logger's flush thread, the timing
    wheel's thread, the workers and the reactor's thread, waits for a signal and
    takes everything down again.  This file puts the components together: the
    state of the process is the main thread's position and the components' states,
    and [prog_step] interleaves the main thread, the signal handler, the reactor
    thread ([reactor_step], over what [Startup] opens), the workers with commands
    cut at their unlocking ([conc_worker_step]), the flush thread and the sweeper.

    An exception that leaves a thread ends the process ([Terminated]); one that
    leaves [build_and_run] is caught by [main] ([Fatal]). *)

From stdpp Require Import gmap.
From S2P Require Import Prelude MachineInt Text Resp Value KeyStore Pmr Shard Router Aof Command ServerBuilder TimingWheel WorkerPool Concurrency Interleaving Pipeline Reactor Startup Server.

Local Open Scope Z_scope.

(** [g_running = false] *)
Definition signal_handler (g_running : bool) : bool := false.

(** Where the main thread is in [build_and_run], after the threads were started. *)
Inductive main_pc :=
| MWaiting            (* [while (g_running) sleep] *)
| MStopReactor        (* [reactor.stop()] *)
| MJoinReactor        (* [reactor_thread.join()] *)
| MStopPool           (* [pool.shutdown()], up to the joins *)
| MJoinWorkers
| MStopAof            (* [aof.shutdown()], with the join in it *)
| MStopWheel          (* [wheel->stop()], up to the join *)
| MJoinSweeper
| MDone.

(** Where [Reactor::start] is: before [create_listen_socket] returned, before
    [running_ = true], in the loop or past it. *)
Inductive start_pc := Starting | Bound | Looping.

(** Where [TimingWheel::sweeper_loop] is. *)
Inductive sweeper_pc :=
| SwTop                                          (* [while (running_)] *)
| SwSlept                                        (* [if (!running_) break] *)
| SwTick                                         (* [advance_tick()] *)
| SwEntries (expired : list Entry)
| SwLogging (key : string) (expired : list Entry) (* evicted, the lock released *)
| SwDone.

(** The reactor thread's part of a [server]. *)
Record front := Front {
  f_reactor : Reactor;
  f_ctl : control;
  f_running : bool;
  f_ghost : ghosts;
  f_accepted : list Z;
}.

Record program (U L : Type) := Program {
  g_running : bool;
  main_at : main_pc;
  start_at : start_pc;
  frontend : front;
  backend : conc_state U L;
  wheel : TimingWheel;
  sweeper_at : sweeper_pc;
}.
Arguments Program {U L} _ _ _ _ _ _ _.
Arguments g_running {U L} _.
Arguments main_at {U L} _.
Arguments start_at {U L} _.
Arguments frontend {U L} _.
Arguments backend {U L} _.
Arguments wheel {U L} _.
Arguments sweeper_at {U L} _.

Definition set_f_running (run : bool) (f : front) : front :=
  Front (f_reactor f) (f_ctl f) run (f_ghost f) (f_accepted f).
Definition set_f_reactor (r : Reactor) (f : front) : front :=
  Front r (f_ctl f) (f_running f) (f_ghost f) (f_accepted f).

Section program.
Context {U L : Type} `{!ArenaChain U, !PmrLib L}.
Implicit Types (f : front) (c : conc_state U L).

(** The server the reactor thread and the pool make up, and back. *)
Definition server_of f c : server (ShardRouter U L) :=
  MkServer (f_reactor f) (f_ctl f) (f_running f) (as_pool c) (f_ghost f) (f_accepted f).

Definition front_of (sv : server (ShardRouter U L)) : front :=
  Front (reactor sv) (ctl sv) (running sv) (ghost sv) (Server.accepted sv).

Definition with_pool (p : WorkerPool ICommand) (acc : list (Task ICommand)) c : conc_state U L :=
  Conc (c_router c) (c_aof c) p (c_threads c) acc (c_taken c) (c_posted c) (c_history c).

Definition with_aof (a : aof_state) c : conc_state U L :=
  Conc (c_router c) a (c_pool c) (c_threads c) (c_accepted c) (c_taken c) (c_posted c) (c_history c).

Definition with_router (ro : ShardRouter U L) c : conc_state U L :=
  Conc ro (c_aof c) (c_pool c) (c_threads c) (c_accepted c) (c_taken c) (c_posted c) (c_history c).

(** The sweeper after its eviction of [e]. *)
Definition after_evict (evicted : bool) (e : Entry) (es : list Entry) : sweeper_pc :=
  if evicted then SwLogging (entry_key e) es else SwEntries es.

Definition program_started (threads : nat) (max : Z) (ro : ShardRouter U L) (path contents : string)
    (w : TimingWheel) : program U L :=
  Program true MWaiting Starting (Front (Reactor_make INVALID_SOCKET) AtTop false ∅ [])
    (conc_started threads max ro path contents) w SwTop.

Inductive process :=
| Alive (p : program U L)
| Terminated (what : string)         (* [std::terminate] on an exception of the reactor thread *)
| Exited (code : Z).                 (* [main] returned *)

Inductive prog_step (net : winsock) (port : Z) : process → process → Prop :=
(** the signal handler *)
| prog_signal g m s f c w sw :
    prog_step net port (Alive (Program g m s f c w sw)) (Alive (Program (signal_handler g) m s f c w sw))
(** the main thread *)
| prog_wake s f c w sw :
    prog_step net port (Alive (Program false MWaiting s f c w sw)) (Alive (Program false MStopReactor s f c w sw))
| prog_stop_reactor g s f c w sw :
    prog_step net port (Alive (Program g MStopReactor s f c w sw))
      (Alive (Program g MJoinReactor s (set_f_running false f) c w sw))
| prog_join_reactor g f c w sw :
    f_ctl f = Stopped →
    prog_step net port (Alive (Program g MJoinReactor Looping f c w sw)) (Alive (Program g MStopPool Looping f c w sw))
| prog_stop_pool g s f c w sw :
    prog_step net port (Alive (Program g MStopPool s f c w sw))
      (Alive (Program g MJoinWorkers s f (with_pool (pool_stop (c_pool c)).2 (c_accepted c) c) w sw))
| prog_join_workers g s f c w sw :
    Forall (λ t, t = TExited) (c_threads c) →
    prog_step net port (Alive (Program g MJoinWorkers s f c w sw)) (Alive (Program g MStopAof s f c w sw))
| prog_stop_aof g s f c w sw a' :
    shutdown_next (c_aof c) = Some a' →
    prog_step net port (Alive (Program g MStopAof s f c w sw)) (Alive (Program g MStopAof s f (with_aof a' c) w sw))
| prog_aof_stopped g s f c w sw :
    shutdown (c_aof c) = SClosed →
    prog_step net port (Alive (Program g MStopAof s f c w sw)) (Alive (Program g MStopWheel s f c w sw))
| prog_stop_wheel g s f c w sw :
    prog_step net port (Alive (Program g MStopWheel s f c w sw))
      (Alive (Program g MJoinSweeper s f c (wheel_stop w).2 sw))
| prog_join_sweeper g s f c w :
    prog_step net port (Alive (Program g MJoinSweeper s f c w SwDone)) (Alive (Program g MDone s f c w SwDone))
| prog_exit g s f c w sw :
    prog_step net port (Alive (Program g MDone s f c w sw)) (Exited 0)
(** the reactor thread *)
| prog_open g m f c w sw r :
    reactor_open net port (f_reactor f) = (Normal tt, r) →
    prog_step net port (Alive (Program g m Starting f c w sw)) (Alive (Program g m Bound (set_f_reactor r f) c w sw))
| prog_open_fails g m f c w sw what r :
    reactor_open net port (f_reactor f) = (Throw (RuntimeError what), r) →
    prog_step net port (Alive (Program g m Starting f c w sw)) (Terminated what)
| prog_set_running g m f c w sw :
    prog_step net port (Alive (Program g m Bound f c w sw)) (Alive (Program g m Looping (set_f_running true f) c w sw))
| prog_reactor g m f c w sw sv' :
    reactor_step (server_of f c) sv' →
    prog_step net port (Alive (Program g m Looping f c w sw))
      (Alive (Program g m Looping (front_of sv') (with_pool (pool (back sv')) (accepted_tasks (back sv')) c) w sw))
(** the workers *)
| prog_worker g m s f c w sw c' :
    conc_worker_step c c' →
    prog_step net port (Alive (Program g m s f c w sw)) (Alive (Program g m s f c' w sw))
(** the flush thread *)
| prog_flusher g m s f c w sw a' :
    flusher_next (c_aof c) = Some a' →
    prog_step net port (Alive (Program g m s f c w sw)) (Alive (Program g m s f (with_aof a' c) w sw))
(** the stream of the log *)
| prog_spill g m s f c w sw n :
    prog_step net port (Alive (Program g m s f c w sw)) (Alive (Program g m s f (with_aof (spill_aof n (c_aof c)) c) w sw))
(** the sweeper *)
| prog_sweeper_test g m s f c w :
    prog_step net port (Alive (Program g m s f c w SwTop))
      (Alive (Program g m s f c w (if wheel_running_ w then SwSlept else SwDone)))
| prog_sweeper_slept g m s f c w :
    prog_step net port (Alive (Program g m s f c w SwSlept))
      (Alive (Program g m s f c w (if wheel_running_ w then SwTick else SwDone)))
| prog_sweeper_take g m s f c w :
    prog_step net port (Alive (Program g m s f c w SwTick))
      (Alive (Program g m s f c (take_bucket w).2 (SwEntries (take_bucket w).1)))
| prog_sweeper_evict g m s f c w e es now :
    prog_step net port (Alive (Program g m s f c w (SwEntries (e :: es))))
      (Alive (Program g m s f (with_router (ks_evict_expired now (entry_key e) (c_router c)).2 c) w
         (after_evict (ks_evict_expired now (entry_key e) (c_router c)).1 e es)))
| prog_sweeper_log g m s f c w key es l' :
    aof_log ("DEL " +:+ key) (Some (logger (c_aof c))) = Some l' →
    prog_step net port (Alive (Program g m s f c w (SwLogging key es)))
      (Alive (Program g m s f (with_aof (logged_to l' (c_aof c)) c) w (SwEntries es)))
| prog_sweeper_end g m s f c w :
    prog_step net port (Alive (Program g m s f c w (SwEntries []))) (Alive (Program g m s f c w SwTop)).

(** ** From [main] to the running threads *)

(** The exceptions that [build_and_run] lets out before the threads run. *)
Inductive startup_error := StartFails (what : string) | MemoryFails (e : alloc_error).

Inductive launched :=
| Aborted                               (* the assertion of the router's constructor, or its division *)
| Fatal (e : startup_error) (code : Z)  (* caught by [main] *)
| Launched (p : program U L).

(** [h]: what the heap serves; [can_open]: the log can be opened for appending;
    [now0], [now1]: the clock at the wheel's construction and start. *)
Definition launch (h : Heap) (b : ServerBuilder) (clock : nat → Z) (contents : option string) (can_open : bool)
    (now0 now1 : Z) : launched :=
  match boot h b clock contents with
  | Throw (AllocFails e) => Fatal (MemoryFails e) 1
  | Throw _ => Aborted
  | Normal (_, e) =>
    match aof e with
    | None => Aborted   (* no such run: the logger is a local of [build_and_run] *)
    | Some l =>
      match start can_open l with
      | (Throw (RuntimeError what), _) => Fatal (StartFails what) 1
      | (Normal _, l') =>
        Launched (program_started (Z.to_nat (worker_threads_ b)) default_max_queue_size (router e)
          (filepath_ l') (disk l') (wheel_start now1 (TimingWheel_make now0)))
      end
    end
  end.
End program.
Arguments process U L : clear implicits.
Arguments launched U L : clear implicits.
