(* ===== verification/ProgramInv.v ===== *)
(** * Runs of the whole program

    What holds in every state a run of [prog_step] reaches: the threads of the
    backend make a run of [conc_step], the reactor thread's state is in order,
    the requests are tracked against the one history of executed tasks, the main
    thread is never ahead of what it has joined, and the wheel, on which nothing
    is scheduled, evicts nothing. *)

From stdpp Require Import gmap.
From S2P Require Import Prelude MachineInt Text Resp Value KeyStore Pmr Shard Router Aof Command Spec Refinement Recovery ServerBuilder TimingWheel WorkerPool Concurrency Interleaving Pipeline Reactor Startup Server Responses Framing Program.

Local Open Scope Z_scope.

(** How far the main thread has come. *)
Definition main_rank (m : main_pc) : nat :=
  match m with
  | MWaiting => 0 | MStopReactor => 1 | MJoinReactor => 2 | MStopPool => 3 | MJoinWorkers => 4
  | MStopAof => 5 | MStopWheel => 6 | MJoinSweeper => 7 | MDone => 8
  end.

(** The sweeper holds no entry. *)
Definition no_entries (sw : sweeper_pc) : Prop :=
  match sw with SwEntries (_ :: _) | SwLogging _ _ => False | _ => True end.

Section projections.
Context {U L : Type} `{!ArenaChain U, !PmrLib L}.
Implicit Types (f : front) (c : conc_state U L).

(** What the reactor thread does to the pool is what its clients may do. *)
Lemma client_conc_step c v v' :
  client_step v v' → conc_step (with_pool v.1 v.2 c) (with_pool v'.1 v'.2 c).
Proof.
  destruct 1; unfold with_pool; simpl; [by apply conc_submit|apply conc_reject|apply conc_drain].
Qed.

Lemma reactor_step_conc f c sv' :
  reactor_step (server_of f c) sv' → rtc conc_step c (with_pool (pool (back sv')) (accepted_tasks (back sv')) c).
Proof.
  intros Hs. assert (c = with_pool (c_pool c) (c_accepted c) c) as E by (by destruct c). rewrite E at 1.
  apply (rtc_project client_step conc_step (λ v, with_pool v.1 v.2 c) _ _) with (2 := reactor_step_client _ _ Hs).
  intros v v' Hv. by apply rtc_once, client_conc_step.
Qed.

Lemma server_of_front f c sv' :
  reactor_step (server_of f c) sv' →
  server_of (front_of sv') (with_pool (pool (back sv')) (accepted_tasks (back sv')) c) = sv'.
Proof.
  intros Hs. pose proof (reactor_step_back _ _ Hs) as Hb. unfold server_of, front_of. destruct sv' as [r k run b gs acc].
  simpl in *. f_equal. rewrite Hb. done.
Qed.

(** A worker keeps the requests tracked against the history. *)
Lemma tracked_conc_worker f c c' :
  conc_worker_step c c' → tracked (c_history c) (server_of f c) → tracked (c_history c') (server_of f c').
Proof.
  unfold server_of, as_pool.
  destruct 1 as [i t q ro a p ws acc tk po h Hi Hq|i ro a p ws acc tk po h Hi Hr Hq
    |i t now r line ro' l' ro a p ws acc tk po h Hi Hx|i t line r ro' l' ro a p ws acc tk po h Hi Hx
    |i t r ro a p ws acc tk po h Hi]; simpl; rewrite ?list_fmap_insert;
    assert (Hw : (erase <$> ws) !! i = erase <$> Some (_ : thread)) by (by rewrite list_lookup_fmap, Hi); simpl in Hw.
  - apply tracked_same. by apply take_items.
  - apply tracked_same. by apply return_items.
  - replace (erase (after_locked t r line)) with (Posting t r) by (by destruct line).
    destruct (execute_items i t r p (erase <$> ws) ro ro' acc tk po Hw) as (out & Hb & Hb').
    exact (tracked_executed _ _ _ _ _ _ _ _ now t r out Hb Hb').
  - injection Hx as [= <- _]. by rewrite list_insert_id by done.
  - destruct (post_items i t r p (erase <$> ws) ro acc tk po (po ++ [t]) Hw) as (out & Hb & Hb').
    eapply track_items; [exact Hb|exact Hb'|]. intros h' line. apply posting_result.
Qed.

Lemma worker_step_exited c c' : conc_worker_step c c' → ¬ Forall (λ t, t = TExited) (c_threads c).
Proof. destruct 1; simpl; by eapply not_all_exited. Qed.

Lemma worker_step_running c c' :
  conc_worker_step c c' → pool_running_ (c_pool c') = pool_running_ (c_pool c) ∧ shutdown (c_aof c') = shutdown (c_aof c).
Proof. by destruct 1. Qed.

Lemma reactor_step_running f c sv' :
  reactor_step (server_of f c) sv' → pool_running_ (pool (back sv')) = pool_running_ (c_pool c).
Proof.
  intros Hs%reactor_step_client. unfold client_view in Hs. simpl in Hs.
  assert (∀ v v' : WorkerPool ICommand * list (Task ICommand), rtc client_step v v' → pool_running_ v'.1 = pool_running_ v.1) as H.
  { induction 1 as [|x y z Hxy _ IH]; [done|]. rewrite IH. destruct Hxy as [t ok p p' acc Hsub| |]; simpl; try done.
    - unfold submit in Hsub. destruct (negb (pool_running_ p) || _); by injection Hsub as [= _ <-].
    - unfold drain_results. by destruct (completion_drain _ _). }
  exact (H _ _ Hs).
Qed.
End projections.

(** ** The invariant *)

Section invariant.
Context {U L : Type} `{!ArenaChain U, !PmrLib L, !PmrLibOk L}.
Context (n : nat) (max : Z) (ro0 : ShardRouter U L) (path contents : string).
Context (net : winsock) (port : Z).

Record prog_inv (p : program U L) : Prop := {
  pi_wheel : ∀ i, bucket (wheel p) i = [];
  pi_sweeper : no_entries (sweeper_at p);
  pi_conc : rtc conc_step (conc_started n max ro0 path contents) (backend p);
  pi_early : start_at p ≠ Looping → ∃ l run, frontend p = Front (Reactor_make l) AtTop run ∅ [];
  pi_control : control_ok (f_reactor (frontend p)) (f_ctl (frontend p));
  pi_joined : (3 <= main_rank (main_at p))%nat → start_at p = Looping ∧ f_ctl (frontend p) = Stopped;
  pi_pool : (4 <= main_rank (main_at p))%nat → pool_running_ (c_pool (backend p)) = false;
  pi_workers : (5 <= main_rank (main_at p))%nat → Forall (λ t, t = TExited) (c_threads (backend p));
  pi_closed : (6 <= main_rank (main_at p))%nat → shutdown (c_aof (backend p)) = SClosed;
  pi_open : shutdown (c_aof (backend p)) ≠ SNone → (5 <= main_rank (main_at p))%nat;
  pi_wheel_off : (7 <= main_rank (main_at p))%nat → wheel_running_ (wheel p) = false;
  pi_swept : (8 <= main_rank (main_at p))%nat → sweeper_at p = SwDone;
  pi_flag : f_ctl (frontend p) = Stopped → f_running (frontend p) = false;
}.

Definition alive_with (P : program U L → Prop) (s : process U L) : Prop :=
  match s with Alive p => P p | _ => True end.

Lemma prog_inv_started w :
  (∀ i, bucket w i = []) → prog_inv (program_started n max ro0 path contents w).
Proof.
  intros Hw. split; simpl; try done; try lia; eauto.
Qed.

(** The main thread's next position, nothing else changing. *)
Lemma prog_inv_main g g' m m' s f c w sw :
  main_rank m' = S (main_rank m) →
  (m' = MStopPool → s = Looping ∧ f_ctl f = Stopped) →
  (m' = MJoinWorkers → pool_running_ (c_pool c) = false) →
  (m' = MStopAof → Forall (λ t, t = TExited) (c_threads c)) →
  (m' = MStopWheel → shutdown (c_aof c) = SClosed) →
  (m' = MJoinSweeper → wheel_running_ w = false) →
  (m' = MDone → sw = SwDone) →
  prog_inv (Program g m s f c w sw) → prog_inv (Program g' m' s f c w sw).
Proof.
  intros Hm H3 H4 H5 H6 H7 H8 [Hwh Hsw Hc He Hk Hj Hp Hx Hcl Ho Hwo Hsd Hfl]. simpl in *.
  split; simpl; try done; destruct m, m'; simpl in *; try lia; try done; eauto; intros _; auto; try (apply Hj; lia);
    try (apply Hp; lia); try (apply Hx; lia); try (apply Hcl; lia); try (apply Hwo; lia).
Qed.

(** The backend changes, the main thread does not move. *)
Lemma prog_inv_backend g m s f c c' w sw :
  rtc conc_step c c' →
  ((4 <= main_rank m)%nat → pool_running_ (c_pool c') = pool_running_ (c_pool c)) →
  ((5 <= main_rank m)%nat → c_threads c' = c_threads c) →
  ((6 <= main_rank m)%nat → shutdown (c_aof c') = shutdown (c_aof c)) →
  (shutdown (c_aof c') ≠ SNone → shutdown (c_aof c) ≠ SNone ∨ (5 <= main_rank m)%nat) →
  prog_inv (Program g m s f c w sw) → prog_inv (Program g m s f c' w sw).
Proof.
  intros Hs H4 H5 H6 Hn [Hwh Hsw Hc He Hk Hj Hp Hx Hcl Ho Hwo Hsd Hfl]. simpl in *.
  split; simpl; try done.
  - by etrans.
  - intros Hm. rewrite H4; auto.
  - intros Hm. rewrite H5; auto.
  - intros Hm. rewrite H6; auto.
  - intros H. destruct (Hn H); auto.
Qed.

(** The wheel changes and no entry appears. *)
Lemma prog_inv_wheel g m s f c w w' sw sw' :
  (∀ i, bucket w' i = bucket w i) → no_entries sw' → (wheel_running_ w = false → wheel_running_ w' = false) →
  (sw = SwDone → sw' = SwDone) →
  prog_inv (Program g m s f c w sw) → prog_inv (Program g m s f c w' sw').
Proof.
  intros Hb Hn Hr Hd [Hwh Hsw Hc He Hk Hj Hp Hx Hcl Ho Hwo Hsd Hfl]. simpl in *. split; simpl; auto.
  intros i. by rewrite Hb.
Qed.

(** The front changes before the loop. *)
Lemma prog_inv_front g m s s' f f' c w sw l run :
  f' = Front (Reactor_make l) AtTop run ∅ [] → s ≠ Looping →
  prog_inv (Program g m s f c w sw) → prog_inv (Program g m s' f' c w sw).
Proof.
  intros -> Hs [Hwh Hsw Hc He Hk Hj Hp Hx Hcl Ho Hwo Hsd Hfl]. simpl in *.
  split; simpl; auto.
  - intros _. by exists l, run.
  - split; [apply lookup_empty|apply reactor_inv_make].
  - intros Hm. by destruct (Hj Hm).
  - done.
Qed.

Lemma prog_inv_reactor g m f c w sw sv' :
  reactor_step (server_of f c) sv' → prog_inv (Program g m Looping f c w sw) →
  prog_inv (Program g m Looping (front_of sv') (with_pool (pool (back sv')) (accepted_tasks (back sv')) c) w sw).
Proof.
  intros Hs [Hwh Hsw Hc He Hk Hj Hp Hx Hcl Ho Hwo Hsd Hfl]. simpl in *.
  split; simpl; auto; try done.
  - etrans; [exact Hc|]. by apply (reactor_step_conc f).
  - exact (control_reactor_step _ _ Hs Hk).
  - intros Hm. destruct (Hj Hm) as [_ Hst]. exfalso. unfold server_of in Hs. rewrite Hst in Hs. inversion Hs.
  - intros Hm. rewrite (reactor_step_running _ _ _ Hs). auto.
  - exact (reactor_step_stopped _ _ Hs).
Qed.

Lemma aof_conc (a' : aof_state) (c : conc_state U L) :
  aof_step (c_aof c) a' → Aof.accepted a' = Aof.accepted (c_aof c) →
  (shutdown a' ≠ SNone → Forall (λ t, t = TExited) (c_threads c)) → conc_step c (with_aof a' c).
Proof. destruct c. apply conc_aof. Qed.

Lemma prog_step_inv s s' : prog_step net port s s' → alive_with prog_inv s → alive_with prog_inv s'.
Proof.
  destruct 1 as [g m s f c w sw|s f c w sw|g s f c w sw|g f c w sw Hst|g s f c w sw|g s f c w sw Hall
    |g s f c w sw a' Ha|g s f c w sw Ha|g s f c w sw|g s f c w|g s f c w sw|g m f c w sw r Hop|g m f c w sw what r Hop
    |g m f c w sw|g m f c w sw sv' Hs|g m s f c w sw c' Hs|g m s f c w sw a' Ha|g m s f c w sw k|g m s f c w|g m s f c w
    |g m s f c w|g m s f c w e es now|g m s f c w key es l' _|g m s f c w]; simpl; intros Hinv; try done.
  - by destruct Hinv; split.
  - by eapply prog_inv_main; [..|exact Hinv].
  - assert (H : prog_inv (Program g MJoinReactor s f c w sw)) by (by eapply prog_inv_main; [..|exact Hinv]).
    destruct Hinv as [_ _ _ He _ _ _ _ _ _ _ _ _], H as [Hwh Hsw Hc _ Hk Hj Hp Hx Hcl Ho Hwo Hsd Hfl]. simpl in *.
    split; simpl; try done. intros Hs. destruct (He Hs) as (l & run & ->). by exists l, false.
  - by eapply prog_inv_main; [..|exact Hinv].
  - eapply (prog_inv_main g g MStopPool); try done; []. eapply (prog_inv_backend _ _ _ _ c); [..|exact Hinv]; try done; simpl; auto; try lia.
    destruct c. apply rtc_once, conc_shutdown.
  - by eapply prog_inv_main; [..|exact Hinv].
  - pose proof (shutdown_next_sound _ _ Ha) as [Hs Hacc]. eapply (prog_inv_backend _ _ _ _ c); [..|exact Hinv]; try done; simpl; auto; try lia.
    apply rtc_once, aof_conc; try done. intros _. by apply (pi_workers _ Hinv).
  - by eapply prog_inv_main; [..|exact Hinv].
  - eapply (prog_inv_main g g MStopWheel); try done; []. by eapply (prog_inv_wheel _ _ _ _ _ w _ sw sw); [..|exact Hinv]; try done; apply Hinv.
  - by eapply prog_inv_main; [..|exact Hinv].
  - destruct (pi_early _ Hinv) as (l & run & Hf); [done|]. simpl in *. subst f. simpl in *.
    assert (∃ l', r = Reactor_make l') as [l' ->].
    { pose proof (reactor_open_state net port (Reactor_make l)) as Hr. rewrite Hop in Hr. simpl in Hr.
      destruct (_ =? 0); rewrite Hr; eauto. }
    by refine (prog_inv_front _ _ _ _ _ _ _ _ _ _ _ eq_refl _ Hinv).
  - destruct (pi_early _ Hinv) as (l & run & Hf); [done|]. simpl in *. subst f. simpl in *.
    by refine (prog_inv_front _ _ _ _ _ _ _ _ _ l true eq_refl _ Hinv).
  - by apply (prog_inv_reactor g m f).
  - pose proof (worker_step_exited _ _ Hs) as Hno. destruct (worker_step_running _ _ Hs) as [Hrun Hsh].
    eapply (prog_inv_backend _ _ _ _ c); [..|exact Hinv]; try done; simpl; auto.
    + by apply rtc_once, conc_worker.
    + intros Hm. destruct Hno. by apply (pi_workers _ Hinv).
    + rewrite Hsh. auto.
  - destruct (flusher_next_sound _ _ Ha) as (Hs & Hacc & Hsh).
    eapply (prog_inv_backend _ _ _ _ c); [..|exact Hinv]; try done; simpl; auto.
    + apply rtc_once, aof_conc; try done. rewrite Hsh. intros H. apply (pi_workers _ Hinv), (pi_open _ Hinv), H.
    + rewrite Hsh. auto.
  - eapply (prog_inv_backend _ _ _ _ c); [..|exact Hinv]; try done; simpl; auto.
    apply rtc_once, aof_conc; [apply spill_step|done|]. intros H. apply (pi_workers _ Hinv), (pi_open _ Hinv), H.
  - eapply prog_inv_wheel; [| | | |exact Hinv]; try done. by destruct (wheel_running_ w).
  - eapply prog_inv_wheel; [| | | |exact Hinv]; try done. by destruct (wheel_running_ w).
  - pose proof (pi_wheel _ Hinv) as Hw. simpl in Hw.
    eapply prog_inv_wheel; [| | | |exact Hinv]; try done.
    + intros i. unfold take_bucket. simpl. rewrite bucket_insert. case_bool_decide; [by rewrite Hw|done].
    + simpl. by rewrite Hw.
  - by destruct (pi_sweeper _ Hinv).
  - by destruct (pi_sweeper _ Hinv).
  - eapply prog_inv_wheel; [| | | |exact Hinv]; done.
Qed.

(** ** Tracked requests *)

(** As in [regular]: no socket number is used twice, no client issues [2^64] requests. *)
Definition regular_process (s : process U L) : Prop :=
  alive_with (λ p, regular (server_of (frontend p) (backend p))) s.

Definition prog_run_step (s s' : process U L) : Prop := prog_step net port s s' ∧ regular_process s'.

(** A run that ends in a regular state is one of regular states. *)
Lemma prog_step_ghosts p p' :
  prog_step net port (Alive p) (Alive p') →
  ghosts_step (f_accepted (frontend p)) (f_accepted (frontend p')) (f_ghost (frontend p)) (f_ghost (frontend p')).
Proof.
  intros Hs. inversion Hs; subst; simpl; try (right; split; [done|apply ghosts_grow_refl]).
  by match goal with H : reactor_step _ _ |- _ => apply reactor_step_ghosts in H end.
Qed.

Lemma prog_regular_run s p :
  rtc (prog_step net port) s (Alive p) → regular_process (Alive p) →
  alive_with (λ p, ghosts_known (f_accepted (frontend p)) (f_ghost (frontend p))) s →
  rtc prog_run_step s (Alive p) ∧ ∃ p0, s = Alive p0 ∧ regular_process s.
Proof.
  intros Hr Hreg. remember (Alive p) as s' eqn:E. induction Hr as [s|s s1 s2 Hs _ IH]; intros Hk; subst.
  { split; [apply rtc_refl|eauto]. }
  destruct s as [p0| |]; [|by inversion Hs..]. destruct IH as [Hr (p1 & -> & Hp1)]; [done|done| |].
  - destruct s1 as [p1| |]; [|done..]. exact (ghosts_step_known _ _ _ _ (prog_step_ghosts _ _ Hs) Hk).
  - split; [by eapply rtc_l; [split|]|]. exists p0. split; [done|].
    exact (ghosts_step_regular _ _ _ _ (prog_step_ghosts _ _ Hs) Hk Hp1).
Qed.

Definition prog_tracked (p : program U L) : Prop :=
  tracked (c_history (backend p)) (server_of (frontend p) (backend p)).

Lemma prog_step_tracked s s' :
  prog_run_step s s' → alive_with prog_inv s → alive_with prog_tracked s → alive_with prog_tracked s'.
Proof.
  unfold prog_tracked. intros [Hs Hreg]. revert Hreg.
  destruct Hs as [g m s f c w sw|s f c w sw|g s f c w sw|g f c w sw Hst|g s f c w sw|g s f c w sw Hall
    |g s f c w sw a' Ha|g s f c w sw Ha|g s f c w sw|g s f c w|g s f c w sw|g m f c w sw r Hop|g m f c w sw what r Hop
    |g m f c w sw|g m f c w sw sv' Hs|g m s f c w sw c' Hs|g m s f c w sw a' Ha|g m s f c w sw k|g m s f c w|g m s f c w
    |g m s f c w|g m s f c w e es now|g m s f c w key es l' _|g m s f c w]; simpl; intros Hreg Hinv Ht; try done.
  - destruct (pi_early _ Hinv) as (l & run & Hf); [done|]. simpl in *. subst f. simpl in *.
    pose proof (reactor_open_state net port (Reactor_make l)) as Hr. rewrite Hop in Hr. simpl in Hr.
    destruct (_ =? 0); subst r; exact Ht.
  - unfold regular_process in Hreg. simpl in Hreg. rewrite (server_of_front f c sv' Hs) in *.
    by eapply tracked_reactor.
  - by eapply tracked_conc_worker.
Qed.

Lemma prog_reachable_inv w s :
  (∀ i, bucket w i = []) →
  rtc (prog_step net port) (Alive (program_started n max ro0 path contents w)) s → alive_with prog_inv s.
Proof.
  intros Hw Hr. apply (rtc_invariant _ (alive_with prog_inv) _ _ prog_step_inv Hr). by apply prog_inv_started.
Qed.

Lemma prog_reachable_tracked w s :
  (∀ i, bucket w i = []) →
  rtc prog_run_step (Alive (program_started n max ro0 path contents w)) s →
  alive_with prog_inv s ∧ alive_with prog_tracked s.
Proof.
  intros Hw Hr.
  apply (rtc_invariant _ (λ s, alive_with prog_inv s ∧ alive_with prog_tracked s) _ _) with (2 := Hr).
  - intros s1 s2 Hs [Hi Ht]. split; [eapply prog_step_inv; [apply Hs|done]|by eapply prog_step_tracked].
  - split; [by apply prog_inv_started|]. unfold prog_tracked. simpl.
    pose proof (tracked_started INVALID_SOCKET n max ro0) as H. unfold server_of, as_pool. simpl.
    by rewrite fmap_replicate.
Qed.
End invariant.
