(* ===== verification/Shutdown.v ===== *)
(** * Taking the program down ([src/core/server_builder.cpp], [src/network/reactor.cpp])

    Termination of the threads after they were told to stop.  Once [running_] is
    false every step of the reactor thread decreases a measure, whatever the
    other threads do; the workers' steps decrease one at any time.  From these,
    the states of the program from which [main] can still return. *)

From stdpp Require Import gmap.
From S2P Require Import Prelude MachineInt Text Resp Value KeyStore Pmr Shard Router Aof Command Spec Refinement Recovery ServerBuilder TimingWheel WorkerPool Concurrency Interleaving Pipeline Reactor Startup Server Responses Program ProgramInv.

Local Open Scope Z_scope.

(** ** The reactor thread *)

Section reactor.
Context {St : Type} `{!Executor ICommand St}.

(** The bytes still to be cut into lines. *)
Definition buffered (client : Z) (r : Reactor) : nat :=
  match connections_ r !! client with Some c => String.length (read_buffer c) | None => 0 end.

(** The sockets still to be dispatched, then the bytes still to be read: at most
    three steps a socket besides the read loop, and a poll in front. *)
Definition stop_measure (sv : server St) : nat * nat :=
  match ctl sv with
  | Stopped => (0, 0)
  | AtTop => (1, 0)
  | Dispatching evs => (2 + 3 * length evs, 0)
  | Writing _ evs => (3 + 3 * length evs, 0)
  | Reading client _ evs => (4 + 3 * length evs, 2 * buffered client (reactor sv))
  | Processing client _ _ _ _ evs => (4 + 3 * length evs, 2 * buffered client (reactor sv) + 1)
  | AtPoll => (3 + 3 * length (poll_fds_ (reactor sv)), 0)
  | AtBackpressure => (7 + 3 * size (connections_ (reactor sv)), 0)
  end%nat.

Lemma find_line_shorter b raw rest :
  find_line b = Some (raw, rest) → (String.length rest < String.length b)%nat.
Proof. intros [-> _]%find_line_Some. rewrite string_length_app. simpl. lia. Qed.

Lemma after_read_measure r client w evs run b gs acc k :
  lex_lt (stop_measure (MkServer r (after_read client w evs) run b gs acc)) (4 + 3 * length evs, k)%nat.
Proof. left. unfold after_read. destruct w; simpl; lia. Qed.

Lemma read_iteration_measure r client w evs run b gs gs' acc qsize qmax o r' :
  read_iteration client qsize qmax r = (o, r') →
  lex_lt (stop_measure (MkServer r' (next_control client w evs o) run b gs' acc))
    (stop_measure (MkServer r (Reading client w evs) run b gs acc)).
Proof.
  intros Hr. destruct (connections_ r !! client) as [c|] eqn:Hc.
  - pose proof (read_iteration_cases client qsize qmax c r Hc) as Hcase. rewrite Hr in Hcase. simpl in Hcase.
    destruct Hcase as [_|raw rest Hl _|raw rest Hl _ _|raw rest Hl _ _ _]; try apply after_read_measure;
      right; unfold stop_measure, buffered; simpl; rewrite lookup_insert_eq, Hc; simpl;
      apply find_line_shorter in Hl; lia.
  - unfold read_iteration in Hr. rewrite Hc in Hr. injection Hr as [= <- <-]. apply after_read_measure.
Qed.

(** A stopped reactor's steps decrease the measure. *)
Lemma reactor_step_measure (sv sv' : server St) :
  running sv = false → reactor_step sv sv' → lex_lt (stop_measure sv') (stop_measure sv).
Proof.
  intros Hrun Hs. destruct Hs as [| |r run b gs acc| |r run b gs acc evs He _| |r run b gs acc pfd ev evs _
    |r run b gs acc pfd ev evs conn _ _ _| |r run b gs acc pfd ev evs bytes _ _ _| |r run b gs acc client w evs o r' Hread
    | |]; try (left; simpl; lia).
  - discriminate Hrun.
  - left. unfold stop_measure, rebuild_poll_set, update_backpressure. simpl.
    destruct (_ <? _); simpl; rewrite length_map, length_map_to_list; lia.
  - left. simpl. rewrite <-He, length_map. lia.
  - destruct conn as [[client ip]|]; [destruct (accept_connection client ip r)|]; left; simpl; lia.
  - destruct (handle_read_recv (fd pfd) bytes r) as [[] r']; left; unfold after_read; simpl; [lia|].
    destruct (ev_write ev); simpl; lia.
  - by apply read_iteration_measure with (1 := Hread).
  - right. simpl. lia.
Qed.

(** The other threads leave the reactor's state alone. *)
Lemma reactor_undisturbed (sv sv' : server St) :
  server_step sv sv' →
  reactor_step sv sv' ∨ reactor sv' = reactor sv ∧ ctl sv' = ctl sv ∧ (running sv = false → running sv' = false).
Proof. destruct 1; [by left|by right..]. Qed.

(** Until it has ended, the reactor thread can move. *)
Lemma reactor_can_move (sv : server St) : ctl sv ≠ Stopped → ∃ sv', reactor_step sv sv'.
Proof.
  destruct sv as [r k run b gs acc]. simpl. intros Hk.
  destruct k as [| | |[|[pfd ev] evs]|client w evs|client line seq ip w evs|client evs|]; try done.
  - destruct run; eexists; constructor.
  - eexists; constructor.
  - eexists; apply srv_poll_nothing.
  - eexists; constructor.
  - destruct (decide (fd pfd = listen_socket_ r)) as [Hl|Hl].
    + destruct (ev_read ev) eqn:Er.
      * eexists. by apply (srv_accept r run b gs acc pfd ev evs None).
      * eexists. apply srv_no_event. by right.
    + destruct (ev_error ev) eqn:Ee; [eexists; by apply srv_error|].
      destruct (ev_read ev) eqn:Er; [eexists; by apply (srv_recv _ _ _ _ _ _ _ _ EmptyString)|].
      destruct (ev_write ev) eqn:Ew; eexists; [by apply srv_write_only|apply srv_no_event; by left].
  - destruct (read_iteration client (queue_size (pool b)) (max_queue_size_ (pool b)) r) as [o r'] eqn:Hr.
    eexists. by apply srv_read.
  - eexists; constructor.
  - eexists. by apply (srv_write _ _ _ _ _ _ _ None).
Qed.
End reactor.

(** ** The workers *)

Section workers.
Context {U L : Type} `{!ArenaChain U, !PmrLib L}.
Implicit Types c : conc_state U L.

Definition thread_work (t : thread) : nat :=
  match t with TWaiting => 1 | TExecuting _ => 4 | TLogging _ _ _ => 3 | TPosting _ _ => 2 | TExited => 0 end.

Definition conc_work c : nat := 5 * length (queue_ (c_pool c)) + sum_list_with thread_work (c_threads c).

Lemma conc_worker_work c c' : conc_worker_step c c' → (conc_work c' < conc_work c)%nat.
Proof.
  destruct 1 as [i t q ro a p ws acc tk po h Hi Hq|i ro a p ws acc tk po h Hi Hr Hq
    |i t now r line ro' l' ro a p ws acc tk po h Hi Hx|i t line r ro' l' ro a p ws acc tk po h Hi Hx
    |i t r ro a p ws acc tk po h Hi]; unfold conc_work; simpl; rewrite ?Hq; simpl;
    match goal with |- context [<[_ := ?w]> _] => pose proof (sum_list_with_insert thread_work ws i _ w Hi) as H end;
    simpl in H; try lia.
  destruct line; simpl in *; lia.
Qed.

(** A worker that has not returned can move, unless it waits for a task. *)
Lemma thread_can_move `{!PmrLibOk L} i t c :
  router_wf (c_router c) → c_threads c !! i = Some t → t ≠ TExited →
  (t = TWaiting → queue_ (c_pool c) = [] → pool_running_ (c_pool c) = false) → ∃ c', conc_worker_step c c'.
Proof.
  destruct c as [ro a p ws acc tk po h]. simpl. intros Hw Hi Ht Hwait. destruct t as [|t|t line r|t r|]; try done.
  - destruct (queue_ p) as [|t q] eqn:Hq; eexists; [by apply (conc_return i); auto|by eapply (conc_take i)].
  - destruct (execute_locked_result 0 (command t) ro (logger a) Hw) as (rep & ro' & l' & line & Hx & _).
    eexists. by eapply (conc_locked i t 0).
  - destruct (thread_next i 0 (Conc ro a p ws acc tk po h)) as [c'|] eqn:Hn; [exists c'; by eapply thread_next_sound|].
    simpl in Hn. rewrite Hi in Hn. unfold execute_rest, env_log in Hn. simpl in Hn. by destruct (negb _).
  - eexists. by apply (conc_post i t r).
Qed.

Lemma thread_work_exited ws : Forall (λ t, thread_work t = 0%nat) ws → Forall (λ t, t = TExited) ws.
Proof. intros H. eapply Forall_impl; [exact H|]. by intros []. Qed.
End workers.

(** Once [shutdown] was called the workers run to their end. *)
Lemma conc_workers_finish {U L} `{!ArenaChain U, !PmrLib L, !PmrLibOk L} n max ro0 path contents (c : conc_state U L) :
  router_wf ro0 → rtc conc_step (conc_started n max ro0 path contents) c → pool_running_ (c_pool c) = false →
  ∃ c', rtc conc_worker_step c c' ∧ Forall (λ t, t = TExited) (c_threads c').
Proof.
  intros Hw Hr Hp.
  destruct (rtc_halts conc_worker_step lt conc_work
    (λ c, rtc conc_step (conc_started n max ro0 path contents) c ∧ pool_running_ (c_pool c) = false)
    (λ c, Forall (λ t, t = TExited) (c_threads c)) lt_wf) with (x := c) as (c' & ? & _ & ?); [|done|eauto].
  intros x [Hx Hrun]. destruct (decide (Forall (λ t, thread_work t = 0%nat) (c_threads x))) as [Hall|Hex].
  - left. by apply thread_work_exited.
  - right. apply not_Forall_Exists in Hex; [|intros t; apply _].
    apply Exists_exists in Hex as (t & [i Hi]%list_elem_of_lookup & Ht).
    pose proof (ci_router _ _ _ _ _ (conc_reachable_inv _ _ _ _ _ _ Hw Hx)) as Hwx.
    destruct (thread_can_move i t x Hwx Hi) as [y Hs]; [intros ->; by apply Ht|done|].
    exists y. split_and!; [done| |by destruct (worker_step_running _ _ Hs) as [-> _]|by apply conc_worker_work].
    eapply rtc_r; [exact Hx|by apply conc_worker].
Qed.

(** ** The program *)

Section program.
Context {U L : Type} `{!ArenaChain U, !PmrLib L, !PmrLibOk L}.
Context (n : nat) (max : Z) (ro0 : ShardRouter U L) (path contents : string).
Context (net : winsock) (port : Z) (Hwf : router_wf ro0).
Abbreviation reaches := (rtc (prog_step net port)).
Abbreviation inv := (prog_inv n max ro0 path contents).

#[local] Instance shutdown_pc_eq_dec : EqDecision shutdown_pc.
Proof. solve_decision. Defined.

#[local] Instance decide_stopped (k : control) : Decision (k = Stopped).
Proof. destruct k; (by left) || (by right). Defined.

(** [main] can return. *)
Definition can_exit (p : program U L) : Prop := reaches (Alive p) (Exited 0).

Lemma reactor_stops g m f c w sw :
  f_running f = false →
  ∃ f' c', reaches (Alive (Program g m Looping f c w sw)) (Alive (Program g m Looping f' c' w sw)) ∧ f_ctl f' = Stopped ∧ f_running f' = false.
Proof.
  intros Hrun.
  destruct (rtc_halts (λ x y : front * conc_state U L,
      prog_step net port (Alive (Program g m Looping x.1 x.2 w sw)) (Alive (Program g m Looping y.1 y.2 w sw)))
    lex_lt (λ x, stop_measure (server_of x.1 x.2)) (λ x, f_running x.1 = false) (λ x, f_ctl x.1 = Stopped) lex_lt_wf)
    with (x := (f, c)) as ([f' c'] & Hr & ? & ?); [|done|].
  - intros [f0 c0] Hf. simpl in Hf. destruct (decide (f_ctl f0 = Stopped)) as [|Hs]; [by left|right].
    destruct (reactor_can_move (server_of f0 c0)) as [sv' Hs']; [done|].
    exists (front_of sv', with_pool (pool (back sv')) (accepted_tasks (back sv')) c0). simpl.
    split_and!; [by apply prog_reactor|by destruct (reactor_step_frame _ _ Hs') as [-> _]|].
    rewrite (server_of_front f0 c0 sv' Hs'). by apply reactor_step_measure.
  - exists f', c'. split; [|done].
    by apply (rtc_congruence (λ x, Alive (Program g m Looping x.1 x.2 w sw))) with (2 := Hr).
Qed.
Lemma reaches_inv s s' : reaches s s' → alive_with inv s → alive_with inv s'.
Proof. exact (rtc_invariant _ (alive_with inv) s s' (prog_step_inv n max ro0 path contents net port)). Qed.

(** Reaching a state from which [main] can return. *)
Lemma exit_via p p' : reaches (Alive p) (Alive p') → (inv p' → can_exit p') → inv p → can_exit p.
Proof. intros Hr H Hi. unfold can_exit. etrans; [exact Hr|]. apply H. exact (reaches_inv _ _ Hr Hi). Qed.

Lemma exit_step p p' : prog_step net port (Alive p) (Alive p') → (inv p' → can_exit p') → inv p → can_exit p.
Proof. intros Hs. by apply exit_via, rtc_once. Qed.

Lemma sweeper_ends g m s f c w sw :
  no_entries sw → wheel_running_ w = false → (∀ i, bucket w i = []) →
  ∃ w', reaches (Alive (Program g m s f c w sw)) (Alive (Program g m s f c w' SwDone)).
Proof.
  intros Hn Hw Hb.
  assert (Htop : ∀ w, wheel_running_ w = false →
    reaches (Alive (Program g m s f c w SwTop)) (Alive (Program g m s f c w SwDone))).
  { intros w0 H. apply rtc_once. pose proof (prog_sweeper_test net port g m s f c w0) as Hs. by rewrite H in Hs. }
  assert (Hend : ∀ w, wheel_running_ w = false →
    reaches (Alive (Program g m s f c w (SwEntries []))) (Alive (Program g m s f c w SwDone))).
  { intros w0 H. eapply rtc_l; [apply prog_sweeper_end|by apply Htop]. }
  destruct sw as [| | |[|e es]|key es|]; try done.
  - exists w. by apply Htop.
  - exists w. apply rtc_once. pose proof (prog_sweeper_slept net port g m s f c w) as Hs. by rewrite Hw in Hs.
  - exists (take_bucket w).2. eapply rtc_l; [apply prog_sweeper_take|].
    assert ((take_bucket w).1 = []) as -> by apply Hb. by apply Hend.
  - exists w. by apply Hend.
  - exists w. apply rtc_refl.
Qed.

(** What is left of the logger's shutdown. *)
Definition aof_measure (a : aof_state) : nat * nat :=
  (match shutdown a with SNone => 5 | SExchanged => 4 | SJoined => 3 | SWriting _ => 2 | SFlushed => 1 | SClosed => 0 end,
   match shutdown a with
   | SWriting todo => length todo
   | _ =>
     match flusher a with
     | FWait => 4 + length (active_buffer (logger a))
     | FSwapped => 3 + length (flush_buffer (logger a))
     | FWriting todo => 2 + length todo
     | FTest => 1
     | FDone => 0
     end
   end)%nat.

(** A thread of the logger: the flush thread or the one in [shutdown]. *)
Definition logger_moves (a a' : aof_state) : Prop := flusher_next a = Some a' ∨ shutdown_next a = Some a'.

Lemma logger_can_move a :
  aof_inv contents a → shutdown a ≠ SClosed → ∃ a', logger_moves a a' ∧ lex_lt (aof_measure a') (aof_measure a).
Proof.
  unfold logger_moves, lex_lt. intros [_ _ _ Hj Hr _ _] Hs. destruct a as [l f s acc]. simpl in *.
  assert (Hrun : s ≠ SNone → running_ l = false).
  { intros Hn. destruct (running_ l); [by destruct Hn; apply Hr|done]. }
  destruct (swap_frame l) as (_ & _ & Hswap & _).
  destruct s as [| | |[|c todo]| |]; try done.
  - eexists. split; [by right|]. simpl. lia.
  - specialize (Hrun ltac:(done)). destruct f as [| | |[|c todo]|]; eexists; (split; [by (left + right)|]); simpl;
      rewrite ?Hrun, ?Hswap; simpl; try lia.
    unfold flush_begin. destruct (flush_buffer l); simpl; lia.
  - subst f. eexists. split; [by right|]. simpl. unfold final_begin. destruct (active_buffer l); simpl; lia.
  - eexists. split; [by right|]. simpl. lia.
  - eexists. split; [by right|]. simpl. lia.
  - eexists. split; [by right|]. simpl. lia.
Qed.

Lemma aof_closes a :
  rtc aof_step (aof_started path contents) a → ∃ a', rtc logger_moves a a' ∧ shutdown a' = SClosed.
Proof.
  intros Ha. destruct (rtc_halts logger_moves lex_lt aof_measure
    (rtc aof_step (aof_started path contents)) (λ a, shutdown a = SClosed) lex_lt_wf) with (x := a)
    as (a' & ? & _ & ?); [|done|eauto].
  clear a Ha. intros a Ha. destruct (decide (shutdown a = SClosed)) as [|Hs]; [by left|right].
  destruct (logger_can_move a (aof_reachable_inv _ _ _ Ha) Hs) as (a' & Hm & Hlt).
  exists a'. split_and!; [done| |done]. eapply rtc_r; [exact Ha|].
  destruct Hm as [Hm|Hm]; [by apply flusher_next_sound in Hm as [? _]|by apply shutdown_next_sound in Hm as [? _]].
Qed.

(** From the end of [build_and_run] backwards. *)
Lemma exit_done g s f c w sw : inv (Program g MDone s f c w sw) → can_exit (Program g MDone s f c w sw).
Proof. intros _. apply rtc_once, prog_exit. Qed.

Lemma exit_join_sweeper g s f c w sw :
  inv (Program g MJoinSweeper s f c w sw) → can_exit (Program g MJoinSweeper s f c w sw).
Proof.
  intros Hi. destruct (sweeper_ends g MJoinSweeper s f c w sw) as [w' Hr];
    [apply Hi|apply (pi_wheel_off _ _ _ _ _ _ Hi); simpl; lia|apply Hi|].
  eapply exit_via; [exact Hr| |exact Hi]. apply exit_step with (1 := prog_join_sweeper net port g s f c w'), exit_done.
Qed.

Lemma exit_stop_wheel g s f c w sw :
  inv (Program g MStopWheel s f c w sw) → can_exit (Program g MStopWheel s f c w sw).
Proof. apply exit_step with (1 := prog_stop_wheel net port g s f c w sw), exit_join_sweeper. Qed.

Lemma exit_stop_aof g s f c w sw : inv (Program g MStopAof s f c w sw) → can_exit (Program g MStopAof s f c w sw).
Proof.
  intros Hi. pose proof (pi_conc _ _ _ _ _ _ Hi) as Hc. simpl in Hc.
  destruct (aof_closes (c_aof c)) as (a' & Hr & Hcl).
  { apply (ci_aof _ _ _ _ _ (conc_reachable_inv _ _ _ _ _ _ Hwf Hc)). }
  assert (Hr' : reaches (Alive (Program g MStopAof s f c w sw)) (Alive (Program g MStopAof s f (with_aof a' c) w sw))).
  { assert (with_aof (c_aof c) c = c) as E by (by destruct c). rewrite <-E at 1.
    apply (rtc_congruence (λ a, Alive (Program g MStopAof s f (with_aof a c) w sw))) with (2 := Hr).
    intros x y [Hs|Hs]; [by apply (prog_flusher _ _ g MStopAof s f (with_aof x c))|].
    by apply (prog_stop_aof _ _ g s f (with_aof x c)). }
  eapply exit_via; [exact Hr'| |exact Hi].
  eapply exit_step; [by apply prog_aof_stopped|apply exit_stop_wheel].
Qed.

Lemma exit_join_workers g s f c w sw :
  inv (Program g MJoinWorkers s f c w sw) → can_exit (Program g MJoinWorkers s f c w sw).
Proof.
  intros Hi. destruct (conc_workers_finish n max ro0 path contents c Hwf) as (c' & Hr & Hx); [apply Hi| |].
  { apply (pi_pool _ _ _ _ _ _ Hi). simpl. lia. }
  eapply (exit_via _ (Program g MJoinWorkers s f c' w sw)); [| |exact Hi].
  { apply (rtc_congruence (λ c, Alive (Program g MJoinWorkers s f c w sw))) with (2 := Hr).
    intros x y Hs. by apply prog_worker. }
  eapply exit_step; [by apply prog_join_workers|apply exit_stop_aof].
Qed.

Lemma exit_stop_pool g s f c w sw : inv (Program g MStopPool s f c w sw) → can_exit (Program g MStopPool s f c w sw).
Proof. apply exit_step with (1 := prog_stop_pool net port g s f c w sw), exit_join_workers. Qed.

Lemma exit_join_reactor g f c w sw :
  f_running f = false →
  inv (Program g MJoinReactor Looping f c w sw) → can_exit (Program g MJoinReactor Looping f c w sw).
Proof.
  intros Hrun. destruct (reactor_stops g MJoinReactor f c w sw Hrun) as (f' & c' & Hr & Hst & _).
  apply exit_via with (1 := Hr). eapply exit_step; [by apply prog_join_reactor|apply exit_stop_pool].
Qed.

Lemma exit_stop_reactor g f c w sw :
  inv (Program g MStopReactor Looping f c w sw) → can_exit (Program g MStopReactor Looping f c w sw).
Proof.
  apply exit_step with (1 := prog_stop_reactor net port g Looping f c w sw). by apply exit_join_reactor.
Qed.

Lemma exit_waiting g f c w sw :
  inv (Program g MWaiting Looping f c w sw) → can_exit (Program g MWaiting Looping f c w sw).
Proof.
  apply exit_step with (1 := prog_signal net port g MWaiting Looping f c w sw).
  apply exit_step with (1 := prog_wake net port Looping f c w sw), exit_stop_reactor.
Qed.

(** The loop is reached when the socket can be opened. *)
Lemma reaches_looping g m s f c w sw :
  all_ok net port →
  ∃ f', reaches (Alive (Program g m s f c w sw)) (Alive (Program g m Looping f' c w sw)) ∧ (s = Looping → f' = f).
Proof.
  intros Hok. pose proof (proj2 (reactor_open_normal net port (f_reactor f)) Hok) as Hn.
  destruct (reactor_open net port (f_reactor f)) as [[[]|] r] eqn:Ho; [|done].
  assert (Hb : ∀ f, reaches (Alive (Program g m Bound f c w sw)) (Alive (Program g m Looping (set_f_running true f) c w sw))).
  { intros f0. apply rtc_once, prog_set_running. }
  destruct s; [exists (set_f_running true (set_f_reactor r f))|exists (set_f_running true f)|exists f];
    (split; [|done]); [|apply Hb|apply rtc_refl].
  eapply rtc_l; [by apply prog_open|apply Hb].
Qed.

(** [stop] was called before the loop was told to run, and will not be again. *)
Definition stop_lost (p : program U L) : Prop :=
  (2 <= main_rank (main_at p))%nat ∧ (start_at p = Looping → f_running (frontend p) = true).

Lemma can_exit_unless_lost p : all_ok net port → inv p → ¬ stop_lost p → can_exit p.
Proof.
  intros Hok Hi Hl. destruct p as [g m s f c w sw].
  destruct (decide (main_rank m < 2)%nat) as [Hm|Hm].
  - destruct (reaches_looping g m s f c w sw Hok) as (f' & Hr & _). eapply exit_via; [exact Hr| |exact Hi].
    destruct m; simpl in Hm; try lia; [apply exit_waiting|apply exit_stop_reactor].
  - assert (s = Looping ∧ f_running f = false) as [-> Hrun].
    { destruct s; [destruct Hl; split; [simpl; lia|done]..|].
      split; [done|]. destruct (f_running f) eqn:Hf; [|done]. destruct Hl. by split; [simpl; lia|]. }
    revert Hi. destruct m; simpl in Hm; try lia; auto using exit_join_reactor, exit_stop_pool, exit_join_workers,
      exit_stop_aof, exit_stop_wheel, exit_join_sweeper, exit_done.
Qed.

(** [main] waits for the reactor thread, for ever. *)
Definition hangs (s : process U L) : Prop :=
  match s with
  | Alive p => stop_lost p ∧ main_at p = MJoinReactor
  | Terminated _ => ¬ all_ok net port
  | Exited _ => False
  end.

Lemma stop_lost_joining p : inv p → stop_lost p → main_at p = MJoinReactor.
Proof.
  intros Hi [Hm Hl]. destruct (decide (3 <= main_rank (main_at p))%nat) as [H3|H3].
  - destruct (pi_joined _ _ _ _ _ _ Hi H3) as [Hs Hst]. specialize (Hl Hs).
    by rewrite (pi_flag _ _ _ _ _ _ Hi Hst) in Hl.
  - destruct (main_at p); simpl in *; by try lia.
Qed.

Lemma hangs_step s s' : prog_step net port s s' → alive_with inv s → hangs s → hangs s'.
Proof.
  destruct 1 as [g m s f c w sw|s f c w sw|g s f c w sw|g f c w sw Hst|g s f c w sw|g s f c w sw Hall
    |g s f c w sw a' Ha|g s f c w sw Ha|g s f c w sw|g s f c w|g s f c w sw|g m f c w sw r Hop|g m f c w sw what r Hop
    |g m f c w sw|g m f c w sw sv' Hs| | | | | | | | |]; simpl; intros Hinv Hh; try done; destruct Hh as [[Hm Hl] Hj]; simpl in *; try done.
  - specialize (Hl eq_refl). pose proof (pi_flag _ _ _ _ _ _ Hinv Hst). simpl in *. congruence.
  - intros Hok%(reactor_open_normal net port (f_reactor f)). by rewrite Hop in Hok.
  - split; [|done]. split; [done|]. simpl. intros _. destruct (reactor_step_frame _ _ Hs) as [-> _]. by apply Hl.
Qed.

Lemma hangs_forever p s : inv p → stop_lost p → reaches (Alive p) s → hangs s.
Proof.
  intros Hi Hl Hr.
  assert (Hh : hangs (Alive p)) by (split; [done|by apply stop_lost_joining]).
  apply (rtc_invariant (prog_step net port) (λ s, alive_with inv s ∧ hangs s)) with (2 := Hr); [|done].
  intros x y Hs [Hx Hhx]. split; [by eapply prog_step_inv|by eapply hangs_step].
Qed.
End program.

(** ** A socket that cannot be opened *)

(** The reactor thread does not get past opening its socket. *)
Definition unbound {U L} (s : process U L) : Prop :=
  match s with
  | Alive p => start_at p = Starting ∧ c_accepted (backend p) = [] ∧ (main_rank (main_at p) < 3)%nat
  | Terminated _ => True
  | Exited _ => False
  end.

Lemma unbound_reached {U L} `{!ArenaChain U, !PmrLib L} net port (s s' : process U L) :
  ¬ all_ok net port → rtc (prog_step net port) s s' → unbound s → unbound s'.
Proof.
  intros Hbad. apply rtc_invariant. clear s s'. intros s s'.
  destruct 1 as [g m s f c w sw|s f c w sw|g s f c w sw|g f c w sw Hst|g s f c w sw|g s f c w sw Hall
    |g s f c w sw a' Ha|g s f c w sw Ha|g s f c w sw|g s f c w|g s f c w sw|g m f c w sw r Hop|g m f c w sw what r Hop
    |g m f c w sw|g m f c w sw sv' Hs|g m s f c w sw c' Hs| | | | | | | |]; simpl; intros (Hs' & Hacc & Hm); simpl in *;
    try done; try lia; try (split_and!; solve [done | lia]).
  - destruct Hbad. apply (reactor_open_normal net port (f_reactor f)). by rewrite Hop.
  - split_and!; [done| |done]. by destruct Hs.
Qed.
