(* ===== verification/ProgramScheduler.v ===== *)
(** * Running the whole program

    [prog_next] computes a step of [prog_step] from a label, as [Scheduler] does
    for the server; a script of labels is a run.  Then what [launch] gives: a
    program as [program_started] describes it, on the engine that [boot] built. *)

From stdpp Require Import gmap.
From S2P Require Import Prelude MachineInt Text Resp Value KeyStore Pmr Shard Router Aof Command Spec Refinement Recovery ServerBuilder TimingWheel WorkerPool Concurrency Interleaving Pipeline Reactor Startup Server Responses Scheduler Program ProgramInv.

Local Open Scope Z_scope.

Inductive prog_label :=
| PSignal                          (* SIGINT *)
| PMain                            (* the main thread *)
| PReactor (lbl : label)           (* the reactor thread, with what the sockets give *)
| PWorker (i : nat) (now : Z)
| PFlusher
| PSpill (n : nat)                 (* the stream of the log writes [n] bytes *)
| PSweeper (now : Z).

Section next.
Context {U L : Type} `{!ArenaChain U, !PmrLib L}.
Context (net : winsock) (port : Z).
Implicit Types p : program U L.

Definition main_next (p : program U L) : option (process U L) :=
  let '(Program g m s f c w sw) := p in
  match m with
  | MWaiting => if g then None else Some (Alive (Program g MStopReactor s f c w sw))
  | MStopReactor => Some (Alive (Program g MJoinReactor s (set_f_running false f) c w sw))
  | MJoinReactor =>
    match s, f_ctl f with
    | Looping, Stopped => Some (Alive (Program g MStopPool s f c w sw))
    | _, _ => None
    end
  | MStopPool =>
    Some (Alive (Program g MJoinWorkers s f (with_pool (pool_stop (c_pool c)).2 (c_accepted c) c) w sw))
  | MJoinWorkers => if forallb is_exited (c_threads c) then Some (Alive (Program g MStopAof s f c w sw)) else None
  | MStopAof =>
    match shutdown (c_aof c), shutdown_next (c_aof c) with
    | SClosed, _ => Some (Alive (Program g MStopWheel s f c w sw))
    | _, Some a' => Some (Alive (Program g MStopAof s f (with_aof a' c) w sw))
    | _, None => None
    end
  | MStopWheel => Some (Alive (Program g MJoinSweeper s f c (wheel_stop w).2 sw))
  | MJoinSweeper => if sw is SwDone then Some (Alive (Program g MDone s f c w sw)) else None
  | MDone => Some (Exited 0)
  end.

Definition front_next (lbl : label) (p : program U L) : option (process U L) :=
  let '(Program g m s f c w sw) := p in
  match s with
  | Starting =>
    match reactor_open net port (f_reactor f) with
    | (Normal _, r) => Some (Alive (Program g m Bound (set_f_reactor r f) c w sw))
    | (Throw (RuntimeError what), _) => Some (Terminated what)
    end
  | Bound => Some (Alive (Program g m Looping (set_f_running true f) c w sw))
  | Looping =>
    sv' ← reactor_next lbl (server_of f c);
    Some (Alive (Program g m Looping (front_of sv')
      (with_pool (pool (back sv')) (accepted_tasks (back sv')) c) w sw))
  end.

Definition sweeper_next (now : Z) (p : program U L) : option (process U L) :=
  let '(Program g m s f c w sw) := p in
  match sw with
  | SwTop => Some (Alive (Program g m s f c w (if wheel_running_ w then SwSlept else SwDone)))
  | SwSlept => Some (Alive (Program g m s f c w (if wheel_running_ w then SwTick else SwDone)))
  | SwTick => Some (Alive (Program g m s f c (take_bucket w).2 (SwEntries (take_bucket w).1)))
  | SwEntries [] => Some (Alive (Program g m s f c w SwTop))
  | SwEntries (e :: es) =>
    Some (Alive (Program g m s f (with_router (ks_evict_expired now (entry_key e) (c_router c)).2 c) w
      (after_evict (ks_evict_expired now (entry_key e) (c_router c)).1 e es)))
  | SwLogging key es =>
    l' ← aof_log ("DEL " +:+ key) (Some (logger (c_aof c)));
    Some (Alive (Program g m s f (with_aof (logged_to l' (c_aof c)) c) w (SwEntries es)))
  | SwDone => None
  end.

Definition prog_next (lbl : prog_label) (p : program U L) : option (process U L) :=
  let '(Program g m s f c w sw) := p in
  match lbl with
  | PSignal => Some (Alive (Program false m s f c w sw))
  | PMain => main_next p
  | PReactor lbl => front_next lbl p
  | PWorker i now => c' ← thread_next i now c; Some (Alive (Program g m s f c' w sw))
  | PFlusher => a' ← flusher_next (c_aof c); Some (Alive (Program g m s f (with_aof a' c) w sw))
  | PSpill n => Some (Alive (Program g m s f (with_aof (spill_aof n (c_aof c)) c) w sw))
  | PSweeper now => sweeper_next now p
  end.

Lemma main_next_sound p s' : main_next p = Some s' → prog_step net port (Alive p) s'.
Proof.
  destruct p as [g m s f c w sw]. destruct m; simpl.
  - destruct g; [done|]. intros [= <-]. constructor.
  - intros [= <-]. constructor.
  - destruct s; try done. destruct (f_ctl f) eqn:Hf; try done. intros [= <-]. by constructor.
  - intros [= <-]. constructor.
  - destruct (forallb is_exited (c_threads c)) eqn:Hx; [|done]. intros [= <-]. constructor. by apply all_exited.
  - destruct (shutdown (c_aof c)) eqn:Hs; destruct (shutdown_next (c_aof c)) eqn:Ha; try done;
      intros [= <-]; by constructor.
  - intros [= <-]. constructor.
  - destruct sw; try done. intros [= <-]. constructor.
  - intros [= <-]. constructor.
Qed.

Lemma front_next_sound lbl p s' : front_next lbl p = Some s' → prog_step net port (Alive p) s'.
Proof.
  destruct p as [g m s f c w sw]. destruct s; cbn [front_next].
  - destruct (reactor_open net port (f_reactor f)) as [[[]|[what]] r] eqn:Ho; intros [= <-];
      [by apply prog_open|by eapply prog_open_fails].
  - intros [= <-]. constructor.
  - destruct (reactor_next lbl (server_of f c)) as [sv'|] eqn:Hn; [|done]. intros [= <-].
    apply prog_reactor. by eapply reactor_next_sound.
Qed.

Lemma sweeper_next_sound now p s' : sweeper_next now p = Some s' → prog_step net port (Alive p) s'.
Proof.
  destruct p as [g m s f c w sw]. destruct sw as [| | |[|e es]|key es|]; cbn [sweeper_next]; try done;
    try (intros [= <-]; constructor).
  destruct (aof_log _ _) as [l'|] eqn:Hl; [|done]. intros [= <-]. by constructor.
Qed.

Lemma prog_next_sound lbl p s' : prog_next lbl p = Some s' → prog_step net port (Alive p) s'.
Proof.
  destruct lbl as [| |lbl|i now| |n|now].
  - destruct p. intros [= <-]. constructor.
  - destruct p. apply main_next_sound.
  - destruct p. apply front_next_sound.
  - destruct p as [g m s f c w sw]. simpl. destruct (thread_next i now c) as [c'|] eqn:Hn; [|done].
    intros [= <-]. constructor. by eapply thread_next_sound.
  - destruct p as [g m s f c w sw]. simpl. destruct (flusher_next (c_aof c)) as [a'|] eqn:Hn; [|done].
    intros [= <-]. by constructor.
  - destruct p. intros [= <-]. apply prog_spill.
  - destruct p. apply sweeper_next_sound.
Qed.

Definition regular_process_b (s : process U L) : bool :=
  match s with Alive p => regular_b (server_of (frontend p) (backend p)) | _ => true end.

(** A script whose every state is regular. *)
Fixpoint run_prog (lbls : list prog_label) (s : process U L) : option (process U L) :=
  match lbls with
  | [] => Some s
  | lbl :: lbls =>
    match s with
    | Alive p => s' ← prog_next lbl p; if regular_process_b s' then run_prog lbls s' else None
    | _ => None
    end
  end.

Lemma regular_process_b_sound s : regular_process_b s = true → regular_process s.
Proof.
  destruct s as [p| |]; [|done..]. unfold regular_process. simpl. unfold regular_b.
  intros [H1%bool_decide_eq_true H2%bool_decide_eq_true]%andb_prop. split; [done|]. intros f g Hg. exact (H2 f g Hg).
Qed.

Lemma run_prog_sound lbls s s' : run_prog lbls s = Some s' → rtc (prog_run_step net port) s s'.
Proof.
  revert s. induction lbls as [|lbl lbls IH]; intros s; simpl; [intros [= <-]; apply rtc_refl|].
  destruct s as [p| |]; try done. destruct (prog_next lbl p) as [s1|] eqn:Hn; [|done]. simpl.
  destruct (regular_process_b s1) eqn:Hreg; [|done]. intros H. eapply rtc_l; [|by apply IH].
  split; [by eapply prog_next_sound|by apply regular_process_b_sound].
Qed.

Lemma prog_run_steps s s' : rtc (prog_run_step net port) s s' → rtc (prog_step net port) s s'.
Proof. apply rtc_subrel. by intros ? ? []. Qed.
End next.
