(* ===== verification/PubSub.v ===== *)
(** * The publish/subscribe broker ([include/network/pubsub_broker.h],
    [src/network/pubsub_broker.cpp])

    Channels map to sets of subscriber sockets; a channel exists as long as it
    has a subscriber.  What [send] does with a message is an argument:
    [accepts sock] says that it does not return [SOCKET_ERROR].  Every member
    function runs under the broker's lock, so each is one step. *)

From stdpp Require Import gmap strings.
From S2P Require Import Prelude MachineInt Text Resp.

Local Open Scope Z_scope.

Record PubSubBroker := MkBroker { channels_ : gmap string (gset Z) }.

Definition PubSubBroker_make : PubSubBroker := MkBroker ∅.

Implicit Types b : PubSubBroker.

(** [channels_[channel].insert(client)] *)
Definition subscribe (channel : string) (client : Z) b : PubSubBroker :=
  MkBroker (<[channel := default ∅ (channels_ b !! channel) ∪ {[client]}]> (channels_ b)).

Definition unsubscribe (channel : string) (client : Z) b : PubSubBroker :=
  match channels_ b !! channel with
  | None => b
  | Some subs =>
    let subs := subs ∖ {[client]} in
    let channels := <[channel := subs]> (channels_ b) in
    MkBroker (if bool_decide (subs = ∅) then delete channel channels else channels)
  end.

(** One round of the loop of [unsubscribe_all]: [it] points to [channel]. *)
Definition unsubscribe_visit (client : Z) b (channel : string) : PubSubBroker :=
  match channels_ b !! channel with
  | None => b
  | Some subs =>
    let subs := subs ∖ {[client]} in
    MkBroker (if bool_decide (subs = ∅) then delete channel (channels_ b) else <[channel := subs]> (channels_ b))
  end.

(** The names of the channels, each once: what an iterator over the map visits, in
    an order that the library chooses. *)
Definition visits b (order : list string) : Prop := order ≡ₚ (map_to_list (channels_ b)).*1.

(** [order]: the channels as the iterator visits them. *)
Definition unsubscribe_all (order : list string) (client : Z) b : PubSubBroker :=
  foldl (unsubscribe_visit client) b order.

Definition format_message (channel message : string) : string :=
  "*3" +:+ crlf +:+ "$7" +:+ crlf +:+ "message" +:+ crlf +:+ "$" +:+
  to_string (str_size channel) +:+ crlf +:+ channel +:+ crlf +:+ "$" +:+
  to_string (str_size message) +:+ crlf +:+ message +:+ crlf.

(** The loop over the subscribers: what was sent to whom, and how many took it. *)
Fixpoint publish_loop (accepts : Z → bool) (text : string) (socks : list Z) (delivered : Z)
    (sent : list (Z * string)) : Z * list (Z * string) :=
  match socks with
  | [] => (delivered, sent)
  | sock :: socks =>
    publish_loop accepts text socks (if accepts sock then delivered + 1 else delivered) (sent ++ [(sock, text)])
  end.

(** The count returned, and the calls of [send]. *)
Definition publish (accepts : Z → bool) (channel message : string) b : Z * list (Z * string) :=
  match channels_ b !! channel with
  | None => (0, [])
  | Some subs => publish_loop accepts (format_message channel message) (elements subs) 0 []
  end.

Definition list_channels b : list string := (map_to_list (channels_ b)).*1.

Definition subscriber_count (channel : string) b : Z :=
  match channels_ b !! channel with
  | Some subs => Z.of_nat (size subs)
  | None => 0
  end.

(** ** The contract: a relation between channels and sockets *)

Definition subscribed b (channel : string) (client : Z) : Prop :=
  ∃ subs, channels_ b !! channel = Some subs ∧ client ∈ subs.

(** No channel without a subscriber. *)
Definition broker_wf b : Prop := ∀ channel subs, channels_ b !! channel = Some subs → subs ≠ ∅.

(** The broker's state changes. *)
Inductive broker_step : PubSubBroker → PubSubBroker → Prop :=
| broker_subscribe channel client b : broker_step b (subscribe channel client b)
| broker_unsubscribe channel client b : broker_step b (unsubscribe channel client b)
| broker_unsubscribe_all order client b : visits b order → broker_step b (unsubscribe_all order client b).

(** ** Lemmas *)

Lemma subscribed_lookup b channel client :
  subscribed b channel client ↔ client ∈ default ∅ (channels_ b !! channel).
Proof.
  unfold subscribed. destruct (channels_ b !! channel) as [subs|]; simpl; [|set_solver].
  split; [by intros (? & [= <-] & ?)|eauto].
Qed.

Lemma subscribe_subscribed channel client b ch c :
  subscribed (subscribe channel client b) ch c ↔ subscribed b ch c ∨ ch = channel ∧ c = client.
Proof.
  rewrite !subscribed_lookup. unfold subscribe. simpl. destruct (decide (ch = channel)) as [->|].
  - rewrite lookup_insert_eq. simpl. set_solver.
  - rewrite lookup_insert_ne by done. naive_solver.
Qed.

Lemma unsubscribe_subscribed channel client b ch c :
  subscribed (unsubscribe channel client b) ch c ↔ subscribed b ch c ∧ ¬ (ch = channel ∧ c = client).
Proof.
  rewrite !subscribed_lookup. unfold unsubscribe. destruct (channels_ b !! channel) as [subs|] eqn:Hb.
  - simpl. case_bool_decide as He; (destruct (decide (ch = channel)) as [->|];
      [rewrite ?lookup_delete_eq, ?lookup_insert_eq, ?Hb|
       rewrite ?lookup_delete_ne, ?lookup_insert_ne by done; naive_solver]); simpl; set_solver.
  - split; [|tauto]. intros H. split; [done|]. intros [-> ->]. rewrite Hb in H. set_solver.
Qed.

Lemma unsubscribe_visit_subscribed client b ch0 ch c :
  subscribed (unsubscribe_visit client b ch0) ch c ↔ subscribed b ch c ∧ ¬ (ch = ch0 ∧ c = client).
Proof.
  rewrite <-unsubscribe_subscribed. unfold unsubscribe_visit, unsubscribe.
  destruct (channels_ b !! ch0) as [subs|]; [|done]. case_bool_decide; [|done]. by rewrite delete_insert_eq.
Qed.

Lemma unsubscribe_visits_subscribed client l b ch c :
  subscribed (foldl (unsubscribe_visit client) b l) ch c ↔ subscribed b ch c ∧ ¬ (ch ∈ l ∧ c = client).
Proof.
  revert b. induction l as [|ch0 l IH]; intros b; simpl.
  - split; [|tauto]. intros H. split; [done|]. by intros [?%elem_of_nil _].
  - rewrite IH, unsubscribe_visit_subscribed, elem_of_cons. tauto.
Qed.

Lemma unsubscribe_all_subscribed order client b ch c :
  visits b order → subscribed (unsubscribe_all order client b) ch c ↔ subscribed b ch c ∧ c ≠ client.
Proof.
  intros Ho. unfold unsubscribe_all. rewrite unsubscribe_visits_subscribed. split; intros [H Hn]; (split; [done|]).
  - intros ->. apply Hn. split; [|done]. destruct H as (subs & Hs & _).
    rewrite Ho. apply list_elem_of_fmap. exists (ch, subs). split; [done|]. by apply elem_of_map_to_list.
  - naive_solver.
Qed.

Lemma subscribe_wf channel client b : broker_wf b → broker_wf (subscribe channel client b).
Proof.
  intros Hw ch subs. unfold subscribe. simpl. rewrite lookup_insert_Some. intros [[<- <-]|[_ H]]; [set_solver|].
  by eapply Hw.
Qed.

Lemma unsubscribe_wf channel client b : broker_wf b → broker_wf (unsubscribe channel client b).
Proof.
  intros Hw ch subs. unfold unsubscribe. destruct (channels_ b !! channel) as [s|]; [|apply Hw].
  simpl. case_bool_decide as He.
  - rewrite delete_insert_eq. intros [_ H]%lookup_delete_Some. by eapply Hw.
  - rewrite lookup_insert_Some. intros [[<- <-]|[_ H]]; [done|]. by eapply Hw.
Qed.

Lemma unsubscribe_visits_wf client l b : broker_wf b → broker_wf (foldl (unsubscribe_visit client) b l).
Proof.
  revert b. induction l as [|ch l IH]; intros b Hw; simpl; [done|]. apply IH.
  assert (unsubscribe_visit client b ch = unsubscribe ch client b) as ->; [|by apply unsubscribe_wf].
  unfold unsubscribe_visit, unsubscribe. destruct (channels_ b !! ch) as [s|]; [|done].
  case_bool_decide; [|done]. by rewrite delete_insert_eq.
Qed.

Lemma publish_loop_eq accepts text socks n sent :
  publish_loop accepts text socks n sent =
  (n + Z.of_nat (length (filter (λ s, accepts s = true) socks)), sent ++ map (λ s, (s, text)) socks).
Proof.
  revert n sent. induction socks as [|s socks IH]; intros n sent; simpl.
  - rewrite app_nil_r. f_equal. lia.
  - rewrite IH, <-app_assoc. f_equal. rewrite filter_cons.
    destruct (accepts s); [rewrite decide_True by done|rewrite decide_False by done]; simpl; lia.
Qed.

(** The text of a message is the RESP array it means to be. *)
Lemma format_message_encode channel message :
  format_message channel message = encode (RArray ["message"; channel; message]).
Proof. unfold format_message, encode, encode_bulk. simpl. by autorewrite with str. Qed.
