(* ===== verification/Instances.v ===== *)
(** * Executable instances of the library interfaces

    The shards are parametric in the memory-resource chain under the tracker
    ([ArenaChain]) and in the allocations of the [std::pmr] containers
    ([PmrLib]).  These are concrete ones, on which the model can be run: a chain
    that hands out addresses in increasing order from a buffer with nothing
    behind it, and containers whose strings keep up to 15 characters in place
    and whose map nodes are one block each.  The theorems hold for every
    instance; the examples are computed on these. *)

From stdpp Require Import gmap strings.
From S2P Require Import Prelude MachineInt Text Pmr Value Shard Router Aof Command WorkerPool.

Local Open Scope Z_scope.

(** ** A buffer with a bump pointer *)

Record Bump := MkBump { bump_next : Z; bump_end : Z }.

Definition align_up (x alignment : Z) : Z := (x + alignment - 1) / alignment * alignment.

#[export] Instance bump_resource : MemoryResource Bump := {
  up_allocate u bytes alignment :=
    let p := align_up (bump_next u) alignment in
    if (p + bytes <=? bump_end u) && (bytes <=? max_bytes) then Some (p, MkBump (p + bytes) (bump_end u)) else None;
  up_deallocate u p bytes alignment := u;
}.

#[export] Instance bump_bounded : BoundedResource Bump.
Proof. split. intros u bytes alignment p u'. simpl. case_test; [|done]. intros _. bool_to_prop. lia. Qed.

#[export] Instance bump_chain : ArenaChain Bump := { chain_init cap := MkBump 0 cap; chain_built _ := true }.

(** ** Containers *)

Record Containers := MkContainers {
  temporaries : list (Z * Z);     (* blocks of live local strings: address, size *)
  nodes : gmap string Z;          (* address of the map node of a key *)
}.

Definition node_size : Z := 192.

(** The block of a string, if its characters do not fit in the object. *)
Definition with_string_block (s : string) (k : Z → mem_prog Containers) (l : Containers)
    (small : mem_prog Containers) : mem_prog Containers :=
  if (String.length s <=? 15)%nat then small
  else Allocate (u64 (Z.of_nat (String.length s) + 1)) 1 k (Fails l).

Fixpoint free_all (ts : list (Z * Z)) (l : Containers) : mem_prog Containers :=
  match ts with
  | [] => Done l
  | (p, n) :: ts => Deallocate p (u64 n) 1 (free_all ts l)
  end.

#[export] Instance containers_lib : PmrLib Containers := {
  lib_init := Done (MkContainers [] ∅);
  lib_prog op l :=
    match op with
    | NewString s =>
      with_string_block s
        (λ p, Done (MkContainers ((p, Z.of_nat (String.length s) + 1) :: temporaries l) (nodes l))) l (Done l)
    | MapInsertOrAssign k _ =>
      match nodes l !! k with
      | Some _ => Done l
      | None => Allocate node_size 8 (λ p, Done (MkContainers (temporaries l) (<[k := p]> (nodes l)))) (Fails l)
      end
    | MapErase k =>
      match nodes l !! k with
      | Some p => Deallocate p node_size 8 (Done (MkContainers (temporaries l) (delete k (nodes l))))
      | None => Done l
      end
    | ListEmplaceBack _ v => with_string_block v (λ _, Done l) l (Done l)
    | HashSubscriptAssign _ _ _ => Allocate node_size 8 (λ _, Done l) (Fails l)
    | ScopeExit => free_all (temporaries l) (MkContainers [] (nodes l))
    end;
}.

Lemma with_string_block_wf s k l m :
  (∀ p, prog_wf (k p)) → prog_wf m → prog_wf (with_string_block s k l m).
Proof.
  intros Hk Hm. unfold with_string_block. case_test; [done|].
  constructor; [apply u64_range|done|intros; constructor].
Qed.

Lemma free_all_wf ts l : prog_wf (free_all ts l).
Proof. induction ts as [|[p n] ts IH]; simpl; constructor; [apply u64_range|done]. Qed.

Lemma node_size_u64 : is_u64 node_size.
Proof. done. Qed.

#[export] Instance containers_lib_ok : PmrLibOk Containers.
Proof.
  split; [constructor|]. intros [s|k e|k|l v|h f v|] l0; simpl.
  - apply with_string_block_wf; [intros; constructor|constructor].
  - destruct (nodes l0 !! k); repeat (constructor; try apply node_size_u64; intros).
  - destruct (nodes l0 !! k); repeat (constructor; try apply node_size_u64; intros).
  - apply with_string_block_wf; [intros; constructor|constructor].
  - repeat (constructor; try apply node_size_u64; intros).
  - apply free_all_wf.
Qed.

(** ** An engine and its command executor *)

Abbreviation engine_env := (Env Bump Containers).

(** The engine as the worker pool sees it. *)
#[export] Instance env_executor {U L} `{!ArenaChain U, !PmrLib L} : Executor ICommand (Env U L) :=
  λ now c e, noexcept EmptyString (execute now c) e.

(** A heap that serves everything. *)
Definition ample_heap : Heap := MkHeap (2 ^ 60 - 1) (λ _, true) (λ _, true) (λ _ _, true).

(** The empty router of one shard and [cap] bytes. *)
Definition one_shard (cap : Z) : ShardRouter Bump Containers := MkRouter 1 0 [shard_over cap].

Lemma one_shard_wf cap : is_u64 cap → router_wf (one_shard cap).
Proof.
  intros Hc. split; [split_and!|].
  - by exists 0.
  - done.
  - done.
  - constructor; [|done]. by apply shard_over_new.
Qed.
