(* ===== verification/EngineTheorems.v ===== *)
(** * The engine: what is proved of it

    Refinement of the key-value specification, the shards and their memory
    accounting, the router and its hash, expiry.  Each theorem with hypotheses
    is followed by an instance on the concrete engine of [Instances]. *)

From stdpp Require Import gmap strings.
From S2P Require Import Prelude MachineInt Text Resp Pmr Value Hasher KeyStore Shard Router Aof Command Codec Spec Refinement Recovery ServerBuilder Instances.

Local Open Scope Z_scope.

(** An engine of one shard of 100000 bytes, without a log. *)
Definition small_engine : engine_env := MkEnv (one_shard 100000) None.

Lemma small_engine_wf : env_wf small_engine.
Proof. by apply one_shard_wf. Qed.

Lemma small_engine_empty now : models now small_engine ∅.
Proof.
  intros k. rewrite lookup_empty. unfold find_live. simpl.
  by rewrite (router_find_make ample_heap 100000 1 (one_shard 100000) k).
Qed.

Section commands.
Context {U L : Type} `{!ArenaChain U, !PmrLib L, !PmrLibOk L}.

(** C1: executing a command implements the key-value specification.  On a
    well-formed engine [execute] returns normally; its reply is the encoding of a
    reply the specification allows on the map the readers see ([view]), the map
    they see afterwards is the one the specification leaves, the engine is still
    well formed, and the log gets the serialized command exactly when the reply
    reports a change. *)
Theorem execute_refines (now : Z) (c : ICommand) (e : Env U L) (Hwf : env_wf e) :
  ∃ r e',
    execute now c e = (Normal (encode r), e') ∧ wf_reply r = true ∧
    spec_step c (view now e) r (view now e') ∧ env_wf e' ∧
    aof e' = (if logged c r then aof_log (serialize c) (aof e) else aof e).
Proof.
  destruct (execute_simulates now c e (view now e) Hwf (models_view now e Hwf))
    as (r & e' & m' & Hx & Hr & Hs & Hm & Hw & Ha).
  exists r, e'. rewrite <-(models_is_view now e' m' Hw Hm). done.
Qed.
End commands.

Lemma execute_refines_witness :
  ∃ r e',
    execute 0 (SetCommand "k" "v" 60) small_engine = (Normal (encode r), e') ∧ wf_reply r = true ∧
    spec_step (SetCommand "k" "v" 60) (view 0 small_engine) r (view 0 e') ∧ env_wf e' ∧
    aof e' = (if logged (SetCommand "k" "v" 60) r
              then aof_log (serialize (SetCommand "k" "v" 60)) None else None).
Proof. exact (execute_refines 0 (SetCommand "k" "v" 60) small_engine small_engine_wf). Defined.

Section types.
Context {U L : Type} `{!ArenaChain U, !PmrLib L, !PmrLibOk L}.

(** The type of value a command works on; [SET] and the others take any. *)
Definition command_type (c : ICommand) : option ValueType :=
  match c with
  | LPushCommand _ _ _ | LRangeCommand _ _ _ => Some TList
  | HSetCommand _ _ _ _ | HGetCommand _ _ => Some THash
  | _ => None
  end.

(** C35: types.  A command on a live key answers WRONGTYPE only if it works on another
    type than the key's; if it does, it answers WRONGTYPE, or is refused memory,
    and the maps the readers see do not change; and no command but [SET] changes
    the type of a live key, whichever key it is on. *)
Theorem type_discipline (now : Z) (c : ICommand) (e : Env U L) (k : string) (x : CacheAlignedValue)
    (Hwf : env_wf e) (Hx : find_live now (router e) k = Some x) :
  ∃ r e', execute now c e = (Normal (encode r), e') ∧
    (command_key c = Some k →
     match command_type c with
     | Some t =>
       if decide (t = type x) then r ≠ RError wrongtype_text
       else (r = RError wrongtype_text ∨ r = RError oom_text) ∧ view now e' = view now e
     | None => r ≠ RError wrongtype_text
     end) ∧
    ∀ x', find_live now (router e') k = Some x' → type x' = type x ∨ ∃ v ttl, c = SetCommand k v ttl.
Proof.
  destruct (execute_view now c e Hwf) as (r & e' & He & _ & Hs & Hw'). exists r, e'. split; [done|].
  assert (Hm : view now e !! k = Some (data x)) by by rewrite (models_view now e Hwf k), Hx.
  assert (Hm' : ∀ x', find_live now (router e') k = Some x' → view now e' !! k = Some (data x')).
  { intros x' Hx'. by rewrite (models_view now e' Hw' k), Hx'. }
  set (m := view now e) in *. set (m' := view now e') in *. clearbody m m'. clear He Hx Hwf Hw'. unfold type. split.
  - intros Hk. destruct Hs; simpl in *; simplify_eq/=; try done; try case_decide; try done;
      try (by destruct (data x)); auto.
    destruct (command_type c); [case_decide|]; auto.
  - intros x' Hx'. specialize (Hm' x' Hx'). destruct (decide (command_key c = Some k)) as [Hk|Hk].
    + destruct Hs; simpl in *; try done; try injection Hk as ->; try (right; by eauto); left;
        rewrite ?lookup_insert_eq, ?lookup_delete_eq in Hm'; try congruence;
        destruct (data x), (data x'); try congruence; by simplify_option_eq.
    + left. rewrite (spec_frame _ _ _ _ k Hs Hk), Hm in Hm'. by injection Hm' as ->.
Qed.
End types.

Lemma type_discipline_witness :
  ∃ (e : engine_env) x, env_wf e ∧ find_live 0 (router e) "k" = Some x ∧
  ∃ r e', execute 0 (LPushCommand "k" "v" 60) e = (Normal (encode r), e') ∧
    (command_key (LPushCommand "k" "v" 60) = Some "k" →
     match command_type (LPushCommand "k" "v" 60) with
     | Some t =>
       if decide (t = type x) then r ≠ RError wrongtype_text
       else (r = RError wrongtype_text ∨ r = RError oom_text) ∧ view 0 e' = view 0 e
     | None => r ≠ RError wrongtype_text
     end) ∧
    ∀ x', find_live 0 (router e') "k" = Some x' →
      type x' = type x ∨ ∃ v ttl, LPushCommand "k" "v" 60 = SetCommand "k" v ttl.
Proof.
  set (e := (execute 0 (SetCommand "k" "s" 60) small_engine).2).
  assert (Hw : env_wf e).
  { destruct (execute_view 0 (SetCommand "k" "s" 60) small_engine small_engine_wf) as (r & e' & He & _ & _ & Hw).
    unfold e. by rewrite He. }
  assert (Hx : find_live 0 (router e) "k" = Some (CAV (VString "s") 0 0 60 false)) by (vm_compute; reflexivity).
  exists e, (CAV (VString "s") 0 0 60 false). split; [exact Hw|]. split; [exact Hx|].
  exact (type_discipline 0 (LPushCommand "k" "v" 60) e "k" _ Hw Hx).
Defined.

(** The model runs: a few commands on the small engine. *)
Definition run_script (cs : list ICommand) : list string :=
  (foldl (λ '(out, e) c,
     let '(r, e') := noexcept EmptyString (execute 0 c) e in (out ++ [r], e'))
    ([], small_engine) cs).1.

Example script_runs :
  run_script [SetCommand "k" "v" 60; GetCommand "k"; LPushCommand "l" "a" 60; LPushCommand "l" "b" 60;
              LRangeCommand "l" 0 (-1); DelCommand "k"; GetCommand "k"; GetCommand "l"; HGetCommand "l" "f"]
  = map encode [RSimple "OK"; RBulk (Some "v"); RInteger 1; RInteger 2; RArray ["a"; "b"]; RInteger 1;
                RBulk None; RBulk (Some "(list)"); RError wrongtype_text].
Proof. vm_compute. reflexivity. Qed.

(** ** Memory accounting *)

Section memory.
Context {U L : Type} `{!ArenaChain U, !PmrLib L, !PmrLibOk L}.

(** C10: no sequence of commands makes a shard use more than its arena.  On an
    engine that was built, after any commands at any times, every shard still has
    the arena it was built with, [total / n] bytes, and its byte count is between 0
    and that; the engine is still well formed. *)
Theorem memory_bounded (h : Heap) (total n : Z) (r0 : ShardRouter U L) (a : option AofLogger)
    (cmds : list (Z * ICommand))
    (Ht : is_u64 total) (Hn : is_u64 n) (Hr : ShardRouter_make h total n = Normal r0) :
  let e := (run_commands cmds (MkEnv r0 a)).2 in
  env_wf e ∧ Z.of_nat (length (shards_ (router e))) = n ∧
  Forall (λ s, Shard_memory_capacity s = Z.quot total n ∧ 0 <= Shard_memory_used s <= Z.quot total n) (shards_ (router e)).
Proof.
  cbv zeta. pose proof (ShardRouter_make_wf h total n r0 Ht Hn Hr) as Hw0.
  assert (Hw : env_wf (run_commands cmds (MkEnv r0 a)).2) by by apply run_commands_wf.
  pose proof (run_commands_capacities cmds (MkEnv r0 a) Hw0) as Hc. simpl in Hc.
  rewrite (capacities_make h total n r0 Hn Hr) in Hc. set (e := (run_commands cmds (MkEnv r0 a)).2) in *. clearbody e.
  split_and!; [done| |].
  - destruct Hn. apply (f_equal length) in Hc. unfold capacities in Hc. rewrite length_fmap, length_replicate in Hc. lia.
  - apply Forall_lookup. intros i s Hs. assert (Hi : capacities (router e) !! i = Some (Z.quot total n, Z.quot total n)).
    { rewrite Hc. apply lookup_replicate. split; [done|]. rewrite <-(length_replicate (Z.to_nat n) (Z.quot total n, Z.quot total n)), <-Hc.
      unfold capacities. rewrite length_fmap. by eapply lookup_lt_Some. }
    unfold capacities in Hi. rewrite list_lookup_fmap, Hs in Hi. simpl in Hi. injection Hi as Hi1 Hi2.
    pose proof (proj1 (Forall_lookup _ _) (proj2 Hw) i s Hs) as [Hb _]. by rewrite Hi2 in Hb.
Qed.

(** C11: accounting.  In an arena that was built, over a resource that serves no
    block of more than 2^63 - 1 bytes, after any sequence of requests, of any
    64-bit sizes, and returns of live blocks: the byte count is the sum of the
    sizes of the live blocks and at most the capacity; and a request for [bytes]
    more is served, adding exactly [bytes], when the sum stays within the capacity
    and the resource serves it; otherwise it throws and nothing changes.  So the
    wrap-around of the 64-bit sum in the test never admits a block. *)
Theorem allocations_accounted `{!BoundedResource U} (heap : Z → bool) (cap : Z) (a : PmrArena U)
    (rs : list request) (bytes alignment : Z)
    (Hcap : is_u64 cap) (Ha : PmrArena_make heap cap = Normal a)
    (Hrs : Forall request_ok rs) (Hb : is_u64 bytes) :
  let '(live, t) := serve rs (tracker_ a) in
  bytes_used_ t = live_bytes live ∧ 0 <= live_bytes live <= cap ∧ capacity_ t = cap ∧
  allocation bytes alignment t (do_allocate bytes alignment t).1 (do_allocate bytes alignment t).2.
Proof.
  unfold PmrArena_make in Ha. destruct (Z.ltb_spec max_bytes cap); [done|]. destruct (_ && _); [|done].
  injection Ha as <-. destruct Hcap as [Hc0 Hc].
  change (tracker_ (arena_over cap)) with (tracker_make (chain_init (U := U) cap) cap).
  pose proof (serve_accounts (U := U) cap rs (chain_init cap) ltac:(lia) Hrs) as Hacc.
  destruct (serve rs (tracker_make (chain_init (U := U) cap) cap)) as [live t].
  assert (Hw : tracker_wf t) by (by apply (accounts_wf cap (live, t))).
  destruct Hacc as (Hu & Hl & Ht & Hnn). simpl in *. pose proof (live_bytes_nonneg _ Hnn).
  split_and!; [done|done|lia|done|apply do_allocate_allocation; [done|lia|done]].
Qed.
End memory.

Lemma memory_bounded_witness :
  let e := (run_commands [(0, SetCommand "k" "a value that needs a block" 60)] (MkEnv (one_shard 100000) None)).2 in
  env_wf e ∧ Z.of_nat (length (shards_ (router e))) = 1 ∧
  Forall (λ s, Shard_memory_capacity s = Z.quot 100000 1 ∧ 0 <= Shard_memory_used s <= Z.quot 100000 1) (shards_ (router e)).
Proof.
  exact (memory_bounded ample_heap 100000 1 (one_shard 100000) None
    [(0, SetCommand "k" "a value that needs a block" 60)] ltac:(done) ltac:(done) ltac:(reflexivity)).
Defined.

Example memory_used_runs :
  map Shard_memory_used (shards_ (router
    (run_commands [(0, SetCommand "k" "a value that needs a block" 60)] (MkEnv (one_shard 100000) None)).2)) = [192].
Proof. vm_compute. reflexivity. Qed.

Lemma allocations_accounted_witness :
  let '(live, t) := serve [Ask 40 8; Ask (2 ^ 64 - 1) 8; Ask 16 8; GiveBack 0] (tracker_ (arena_over (U := Bump) 64)) in
  bytes_used_ t = live_bytes live ∧ 0 <= live_bytes live <= 64 ∧ capacity_ t = 64 ∧
  allocation 40 8 t (do_allocate 40 8 t).1 (do_allocate 40 8 t).2.
Proof.
  exact (allocations_accounted (λ _, true) 64 (arena_over 64) [Ask 40 8; Ask (2 ^ 64 - 1) 8; Ask 16 8; GiveBack 0] 40 8
    ltac:(done) ltac:(reflexivity) ltac:(repeat constructor; lia) ltac:(done)).
Defined.

(** The test of a request whose sum wraps around is passed; the buffer refuses. *)
Example allocations_run :
  let t := tracker_ (arena_over (U := Bump) 64) in
  (serve [Ask 40 8; Ask (2 ^ 64 - 1) 8; Ask 16 8; GiveBack 0] t).1 = [Block 40 16 8] ∧
  capacity_ t <? u64 (40 + (2 ^ 64 - 1)) = false.
Proof. vm_compute. done. Qed.

(** ** The key-store contract, for shards and for the router *)

Section set.
Context {U L : Type} `{!ArenaChain U, !PmrLib L, !PmrLibOk L}.

(** C13: last write wins.  [ShardRouter::set] does not throw, and says whether it
    stored the value.  If it did, every later read of the key returns the value
    just stored until its time to live has run out, and nothing from then on; reads
    of other keys, and every read after a [set] that was refused, give what they
    gave before.  At the hard limit a [set] is refused. *)
Theorem set_then_get (now now' : Z) (k v : string) (ttl : Z) (r : ShardRouter U L) (k' : string)
    (Hwf : router_wf r) (Hlive : now <= now') :
  ∃ ok r', ShardRouter_set now k v ttl r = (Normal ok, r') ∧
    ShardRouter_get now' k' r' =
      (if ok && bool_decide (k = k')
       then if decide (ttl < 0 ∨ now' < now + ttl * nanos_per_second) then Some v else None
       else ShardRouter_get now' k' r) ∧
    (arena_hard_limit (arena_ (shard_for_key r k)) = true → ok = false).
Proof.
  pose proof (Shard_set_cases now k v ttl (shard_for_key r k)) as (ok & s & Hs & Hd).
  exists ok, (set_shard k r s). unfold ShardRouter_set, with_shard. rewrite Hs. split; [done|]. split.
  - pose proof (law_set (S := ShardRouter U L) now k v ttl r k' Hwf) as Hf. simpl in Hf.
    unfold ShardRouter_set in Hf. rewrite noexcept_with_shard in Hf. unfold noexcept in Hf. rewrite Hs in Hf. simpl in Hf.
    change (ks_get now' k' (set_shard k r s) =
      (if ok && bool_decide (k = k')
       then if decide (ttl < 0 ∨ now' < now + ttl * nanos_per_second) then Some v else None else ks_get now' k' r)).
    rewrite !law_get. unfold find_live. simpl. rewrite Hf. destruct (ok && bool_decide (k = k')); [|done]. simpl.
    rewrite live_make_until by done. case_bool_decide; case_decide; done.
  - intros Hl. unfold Shard_set, mbind, SE_bind, get_state in Hs. rewrite Hl in Hs. by injection Hs as <- _.
Qed.
End set.

Section contract.
Context {S : Type} `{!KeyStore S, !KeyStoreLaws S}.

(** A deleted key is absent to GET and EXISTS, the live entry of every other
    key is unaffected, and a sweep of any key at any moment between the deletion
    and the read is invisible to the reader. *)
Lemma del_then_sweep (now now' : Z) (k swept : string) (s : S) (k' : string)
    (Hwf : ks_wf s) (Hnow : now <= now') :
  let s' := (ks_evict_expired now swept (ks_del k s).2).2 in
  let kept {A} (before : A) (gone : A) := if bool_decide (k = k') then gone else before in
  find_live now' s' k' = kept (find_live now' s k') None /\
  ks_get now' k' s' = kept (ks_get now' k' s) None /\
  ks_exists now' k' s' = kept (ks_exists now' k' s) false.
Proof.
  simpl. rewrite !law_get, !law_exists, !find_live_evict, !find_live_del by auto with db.
  by case_bool_decide.
Qed.
End contract.

Lemma set_then_get_witness :
  ∃ ok r', ShardRouter_set 0 "k" "v" 60 (one_shard 100000) = (Normal ok, r') ∧
    ShardRouter_get 5000000000 "k" r' =
      (if ok && bool_decide ("k" = "k")
       then if decide (60 < 0 ∨ 5000000000 < 0 + 60 * nanos_per_second) then Some "v" else None
       else ShardRouter_get 5000000000 "k" (one_shard 100000)) ∧
    (arena_hard_limit (arena_ (shard_for_key (one_shard 100000) "k")) = true → ok = false).
Proof. apply (set_then_get 0 5000000000 "k" "v" 60 (one_shard 100000) "k"); [by apply one_shard_wf|done]. Defined.

(** ** Expiry *)

(** An entry with a time to live is expired exactly from its expiration
    time on; one with a negative time to live never is.  (The clock is steady:
    it does not go behind the creation time.) *)
Lemma is_expired_iff (now : Z) (e : CacheAlignedValue) (Hnow : created_at e <= now) :
  is_expired now e = true ↔ 0 <= ttl_seconds e ∧ expiration_time e <= now.
Proof.
  unfold is_expired, expiration_time. destruct (Z.ltb_spec (ttl_seconds e) 0).
  - split; [done|]. intros [? _]. lia.
  - rewrite Z.leb_le, duration_seconds_ge by lia. lia.
Qed.


(** ** The router *)

Section router.
Context {U L : Type} `{!ArenaChain U, !PmrLib L, !PmrLibOk L}.


(** C17: on a router that was built, every key has a shard in range: the masked
    hash is the hash modulo the number of shards, and indexing never leaves the
    array. *)
Theorem shard_index_is_hash_mod (h : Heap) (total n : Z) (r : ShardRouter U L) (key : string)
    (Ht : is_u64 total) (Hn : is_u64 n) (Hr : ShardRouter_make h total n = Normal r) :
  shard_index r key = murmur_hash3 key 0 mod n ∧
  shards_ r !! Z.to_nat (shard_index r key) = Some (shard_for_key r key).
Proof.
  destruct (ShardRouter_make_wf h total n r Ht Hn Hr) as [Hs _]. split; [|by apply shard_for_key_lookup].
  rewrite shard_index_mod by done. by apply ShardRouter_make_Normal in Hr as [-> _].
Qed.
End router.


(** The five outcomes on small heaps. *)
Example router_construction_runs :
  (ShardRouter_make (U := Bump) (L := Containers) ample_heap 1000 48,
   ShardRouter_make (U := Bump) (L := Containers) ample_heap 1000 0,
   ShardRouter_make (U := Bump) (L := Containers) ample_heap 1000 (2 ^ 60),
   ShardRouter_make (U := Bump) (L := Containers) ample_heap (2 ^ 63) 1,
   ShardRouter_make (U := Bump) (L := Containers) (MkHeap (2 ^ 60 - 1) (λ _, true) (λ i, i <? 2) (λ _ _, true)) 1000 4,
   ShardRouter_make (U := Bump) (L := Containers) ample_heap 1000 1) =
  (Throw AssertionFails, Throw DividesByZero, Throw (AllocFails LengthError), Throw (AllocFails LengthError),
   Throw (AllocFails BadAlloc), Normal (one_shard 1000)).
Proof. vm_compute. reflexivity. Qed.

Lemma shard_index_is_hash_mod_witness :
  ∃ r : ShardRouter Bump Containers, ShardRouter_make ample_heap 1000 4 = Normal r ∧
    shard_index r "test" = murmur_hash3 "test" 0 mod 4 ∧
    shards_ r !! Z.to_nat (shard_index r "test") = Some (shard_for_key r "test").
Proof.
  eexists. split; [reflexivity|]. by eapply (shard_index_is_hash_mod ample_heap 1000 4).
Defined.

(** ** The hash *)

(** C18: [murmur_hash3] computes MurmurHash3 (x86, 32 bit): on keys shorter than
    2^31 bytes the code, which walks the buffer by index, rotates with shifts and
    mixes the tail by a fall-through switch, equals the reference on the list of
    bytes, which is written in arithmetic modulo 2^32 with the constants of the
    published algorithm and shares nothing with the code's definition. *)
Theorem murmur_is_reference (key : string) (seed : Z)
    (Hseed : is_u32 seed) (Hlen : Z.of_nat (String.length key) < 2 ^ 31) :
  murmur_hash3 key seed = murmur3_ref (bytes_of_string key) seed.
Proof. exact (murmur_hash3_eq_ref key seed Hseed Hlen). Qed.

Lemma murmur_is_reference_witness :
  murmur_hash3 "The quick brown fox jumps over the lazy dog" 0 = 0x2e4ff723 ∧
  murmur_hash3 "The quick brown fox jumps over the lazy dog" 0
  = murmur3_ref (bytes_of_string "The quick brown fox jumps over the lazy dog") 0.
Proof. split; [by vm_compute|]. by apply murmur_is_reference. Defined.

(** The final mixing step is injective on 32-bit words: it maps no two
    different states to one hash. *)
Lemma fmix32_injective (h h' : Z) (Hh : is_u32 h) (Hh' : is_u32 h') (Heq : fmix32 h = fmix32 h') : h = h'.
Proof. by rewrite <-(unfmix32_fmix32 h Hh), <-(unfmix32_fmix32 h' Hh'), Heq. Qed.


(** ** Configuration *)

(** C20: a memory limit written as a decimal number below 2^64 and a unit (GB,
    MB, KB in either case, or none) is read as the number times the unit modulo
    2^64: limits that do not fit wrap around instead of being refused. *)
Theorem parse_memory_limit_units (n : Z) (unit : string) (multiplier : Z)
    (Hn : 0 <= n < 2 ^ 64) (Hu : (unit, multiplier) ∈ units) :
  parse_memory_limit (to_string n +:+ unit) = Normal (u64 (n * multiplier)).
Proof.
  assert (Hd : string_forall is_digit (to_string n) = true).
  { rewrite to_string_nonneg by lia. apply nat_digits_digits. }
  assert (Hs : split_unit (to_upper (to_string n +:+ unit)) = (multiplier, to_string n)).
  { rewrite to_upper_app, to_upper_digits by done. unfold units in Hu.
    repeat (apply elem_of_cons in Hu as [[= -> ->]|Hu]; [simpl to_upper; unfold split_unit;
      rewrite ?string_app_nil_r, ?ends_with_digits by done;
      repeat (first [rewrite ends_with_app | rewrite ends_with_other by done]);
      rewrite ?drop_unit_app by done; reflexivity|]).
    by apply elem_of_nil in Hu. }
  unfold parse_memory_limit. by rewrite Hs, stoull_to_string.
Qed.

Lemma parse_memory_limit_units_witness :
  parse_memory_limit "1GB" = Normal 1073741824 ∧
  parse_memory_limit (to_string 17179869184 +:+ "GB") = Normal (u64 (17179869184 * 2 ^ 30)) ∧
  u64 (17179869184 * 2 ^ 30) = 0.
Proof.
  split; [by vm_compute|]. split; [|by vm_compute].
  apply parse_memory_limit_units; [done|]. by left.
Defined.
