(* ===== verification/PersistenceTheorems.v ===== *)
(** * Persistence and expiry sweeping: what is proved of them

    The text form of commands, the append-only file and its flush thread,
    recovery by replay, the boot sequence, and the timing wheel. *)

From stdpp Require Import gmap strings.
From S2P Require Import Prelude MachineInt Text Resp Pmr Value KeyStore Shard Router Aof Command Codec Spec Refinement ServerBuilder Recovery TimingWheel Instances.

Local Open Scope Z_scope.

(** ** Commands as text *)

(** C7: a command the factory can produce survives the log: its serialized form
    holds no line feed, and tokenizing and parsing it gives the command back. *)
Theorem parse_serialize_roundtrip (c : ICommand) (Hc : command_wf c = true) :
  has_no_LF (serialize c) = true ∧ CommandFactory_parse (tokenize (serialize c)) = Some c.
Proof. split; [by apply serialize_no_LF|by apply parse_serialize]. Qed.

Lemma parse_serialize_roundtrip_witness :
  has_no_LF (serialize (SetCommand "key" "value" (-3))) = true ∧
  CommandFactory_parse (tokenize (serialize (SetCommand "key" "value" (-3)))) = Some (SetCommand "key" "value" (-3)).
Proof. apply parse_serialize_roundtrip. vm_compute. reflexivity. Defined.

(** Whatever line a client sends, the command parsed from it, if any, is
    one whose text parses back: what reaches the log can be replayed. *)
Lemma parsed_commands_roundtrip (line : string) (c : ICommand)
    (Hp : CommandFactory_parse (tokenize line) = Some c) :
  CommandFactory_parse (tokenize (serialize c)) = Some c.
Proof. apply parse_serialize. by eapply parse_line_wf. Qed.

Lemma parsed_commands_roundtrip_witness :
  CommandFactory_parse (tokenize "  lrange  k 0 -1 junk") = Some (LRangeCommand "k" 0 (-1)) ∧
  CommandFactory_parse (tokenize (serialize (LRangeCommand "k" 0 (-1)))) = Some (LRangeCommand "k" 0 (-1)).
Proof.
  split; [vm_compute; reflexivity|].
  apply (parsed_commands_roundtrip "  lrange  k 0 -1 junk"). vm_compute. reflexivity.
Defined.

(** ** The append-only file *)

(** C8: at every moment of every interleaving of the logging threads, the flush
    thread, the shutdown and the output stream, the file holds what it held at the
    start, then the first of the commands accepted so far, one per line and in the
    order in which they were logged, and at most a part of the next one's line; every
    command whose line is not whole in the file is still in one of the two buffers.
    While no write is in progress there is no part, and the buffers hold exactly the
    rest.  So a crash loses the most recent commands only, and may cut one line. *)
Theorem aof_file_is_prefix (path contents : string) (st : aof_state)
    (Hr : rtc aof_step (aof_started path contents) st) : file_holds contents st.
Proof. exact (aof_file_holds contents st (aof_reachable_inv path contents st Hr)). Qed.

(** A completed shutdown loses nothing: the file then holds every command
    that was accepted. *)
Lemma aof_shutdown_complete (path contents : string) (st : aof_state)
    (Hr : rtc aof_step (aof_started path contents) st) (Hs : shutdown st = SClosed) :
  disk (logger st) = contents +:+ lines_text (accepted st).
Proof.
  pose proof (aof_reachable_inv path contents st Hr) as [Ht Hf _ Hj _ _ He]. rewrite Hs in *. rewrite Hj in Hf.
  apply lines_inv_idle in Ht as (_ & w & Ha & Hd); [|unfold idle; by rewrite Hs, Hj].
  unfold pending in Ha. rewrite He, Hf, app_nil_r in Ha. by rewrite Ha.
Qed.

(** A run in which one command is logged before the flush thread swaps, one
    after, and the logger is then shut down. *)
Definition aof_running : aof_state :=
  let l := set_running true (set_file "" "" true (AofLogger_make "f" "")) in
  let l := swap_buffers (log "SET a 1 60" l) in
  AofState (set_running false (log "DEL a" l)) FSwapped SExchanged ["SET a 1 60"; "DEL a"].

Lemma aof_running_reachable : rtc aof_step (aof_started "f" "") aof_running.
Proof.
  eapply rtc_l; [apply (step_log "SET a 1 60")|].
  eapply rtc_l; [apply step_test|]. eapply rtc_l; [apply step_swap|].
  eapply rtc_l; [apply (step_log "DEL a")|]. eapply rtc_l; [apply step_exchange|]. apply rtc_refl.
Qed.

Definition aof_final : aof_state :=
  AofState (close (flush (write_flush_buffer (logger aof_running)))) FDone SClosed ["SET a 1 60"; "DEL a"].

Lemma aof_final_reachable : rtc aof_step (aof_started "f" "") aof_final.
Proof.
  etrans; [apply aof_running_reachable|]. etrans; [apply write_steps|].
  eapply rtc_l; [apply step_test|]. eapply rtc_l; [apply step_join|].
  etrans; [apply final_steps|]. apply rtc_once, step_close.
Qed.

(** The stream has passed on four bytes of the line it was given. *)
Definition aof_torn : aof_state :=
  AofState (spill 4 (write_line (logger aof_running) "SET a 1 60")) (FWriting []) SExchanged ["SET a 1 60"; "DEL a"].

Lemma aof_torn_reachable : rtc aof_step (aof_started "f" "") aof_torn.
Proof.
  etrans; [apply aof_running_reachable|].
  eapply rtc_l; [apply step_write|]. eapply rtc_l; [apply step_write_line|]. apply rtc_once, step_spill.
Qed.

Lemma aof_file_is_prefix_witness :
  file_holds "" aof_torn ∧ disk (logger aof_torn) = "SET " ∧
  file_holds "" aof_final ∧ disk (logger aof_final) = lines_text ["SET a 1 60"; "DEL a"].
Proof.
  split; [exact (aof_file_is_prefix "f" "" aof_torn aof_torn_reachable)|]. split; [reflexivity|].
  split; [exact (aof_file_is_prefix "f" "" aof_final aof_final_reachable)|reflexivity].
Defined.


(** ** Recovery *)

Section recovery.
Context {U L : Type} `{!ArenaChain U, !PmrLib L, !PmrLibOk L}.

(** A server just started on an empty file, and one about to replay. *)
Definition running_env (path : string) (r : ShardRouter U L) : Env U L :=
  MkEnv r (Some (set_running true (set_file "" "" true (AofLogger_make path "")))).

Definition booting_env (path : string) (r : ShardRouter U L) : Env U L :=
  MkEnv r (Some (AofLogger_make path "")).

(** The lines a logger has for its file. *)
Definition log_text (a : option AofLogger) : string :=
  match a with Some l => lines_text (pending l) | None => "" end.

Definition log_commands (a : option AofLogger) : list ICommand :=
  omap (λ line, CommandFactory_parse (tokenize line)) (getlines (text_in (log_text a))).

Lemma empty_env_facts h total n r T a :
  is_u64 total → is_u64 n → ShardRouter_make h total n = Normal r →
  env_wf (MkEnv r a : Env U L) ∧ fresh T (MkEnv r a) ∧ models T (MkEnv r a) ∅.
Proof.
  intros Ht Hn Hr. split_and!.
  - by eapply (ShardRouter_make_wf h total n).
  - intros k x Hx. simpl in Hx. by rewrite (router_find_make h total n r k Hn Hr) in Hx.
  - intros k. rewrite lookup_empty. unfold find_live. simpl. by rewrite (router_find_make h total n r k Hn Hr).
Qed.

(** C4: recovery.  A server starts empty, executes any commands that come from
    the parser, and its log is replayed into an empty server, possibly with
    another memory size and shard count.  Unless an entry of the run expires by
    [T], or the replay is refused memory, or a command's text holds the byte 26, at
    which the file, opened in text mode, would end, the readers of both servers see
    the same value under every key at [T]. *)
Theorem replay_restores (h h' : Heap) (T total n total' n' : Z) (r0 r1 : ShardRouter U L) (path path' : string)
    (cmds : list (Z * ICommand)) (clock : nat → Z)
    (Ht : is_u64 total) (Hn : is_u64 n) (Hr0 : ShardRouter_make h total n = Normal r0)
    (Ht' : is_u64 total') (Hn' : is_u64 n') (Hr1 : ShardRouter_make h' total' n' = Normal r1)
    (Hcmds : Forall (λ p, ttl_ok T p.1 p.2 ∧ replayable p.2 ∧ ∀ i, ttl_ok T (clock i) p.2) cmds)
    (Hroom : oom_reply ∉
       (run_commands (timed clock 0 (log_commands (aof (run_commands cmds (running_env path r0)).2)))
          (env_set_replaying true (booting_env path' r1))).1) (k : string) :
  data <$> find_live T
    (router (replay clock (Some (log_text (aof (run_commands cmds (running_env path r0)).2)))
               (booting_env path' r1)).2) k
  = data <$> find_live T (router (run_commands cmds (running_env path r0)).2) k.
Proof.
  set (e0 := running_env path r0) in *. set (e1 := booting_env path' r1) in *.
  destruct (empty_env_facts h total n r0 T (aof e0) Ht Hn Hr0) as (Hw0 & Hf0 & Hm0).
  destruct (empty_env_facts h' total' n' r1 T (aof e1) Ht' Hn' Hr1) as (Hw1 & Hf1 & Hm1).
  assert (Hl : logging (aof e0) []) by (eexists; by split_and!).
  destruct (run_commands_spec T cmds e0 ∅ [] Hw0 Hf0 Hm0 Hl) as (ls & m & _ & _ & l & Hl' & _).
  { eapply Forall_impl; [exact Hcmds|]. by intros ? []. }
  unfold log_commands, log_text in *. rewrite Hl' in *.
  destruct (replay_same_map T cmds clock e0 e1 ∅ Hw0 Hf0 Hm0 Hl Hw1 Hf1 Hm1 Hcmds l Hl' Hroom) as (m' & H0 & H1).
  by rewrite <-(H0 k), <-(H1 k).
Qed.

(** Replaying writes nothing to the log, and keeps the engine well formed. *)
Lemma replay_loop_wf clock lines i n (e : Env U L) :
  env_wf e → (∀ l, aof e = Some l → is_replaying l = true) →
  let '(n', e') := replay_loop clock i lines n e in env_wf e' ∧ aof e' = aof e.
Proof.
  intros Hw Ha. revert i n e Hw Ha. induction lines as [|line lines IH]; intros i n e Hw Ha; [done|]. simpl.
  assert (H : env_wf (replay_line (clock i) line e).2 ∧ aof (replay_line (clock i) line e).2 = aof e).
  { unfold replay_line. destruct line; [done|]. destruct (CommandFactory_parse _) as [c|]; [|done]. simpl.
    destruct (execute_simulates (clock i) c e _ Hw (models_view _ e Hw)) as (r & e' & m' & Hx & _ & _ & _ & Hw' & Hl).
    rewrite Hx. simpl. split; [done|]. rewrite Hl. destruct (logged c r); [|done].
    unfold aof_log. destruct (aof e) as [l|] eqn:El; [|done]. by rewrite (Ha l eq_refl). }
  destruct (replay_line (clock i) line e) as [ran e']. simpl in H. destruct H as [Hw' Ha'].
  specialize (IH (S i) (if ran then n + 1 else n) e' Hw'). rewrite Ha' in IH. specialize (IH Ha).
  by destruct (replay_loop _ _ _ _ e').
Qed.

(** The server boots on any file.  When the router can be built, whatever bytes the
    append-only file holds (or none), the boot sequence gives a well-formed engine,
    and its logger is as newly made: replaying logged nothing, and replay mode is
    off again. *)
Lemma boot_runs (h : Heap) (b : ServerBuilder) (clock : nat → Z) (contents : option string) (r : ShardRouter U L) :
  is_u64 (max_memory_ b) → is_u64 (builder_shard_count_ b) →
  ShardRouter_make h (max_memory_ b) (builder_shard_count_ b) = Normal r →
  ∃ n e, boot (U := U) (L := L) h b clock contents = Normal (n, e) ∧ env_wf e ∧
    aof e = Some (AofLogger_make (aof_path_ b) (default EmptyString contents)).
Proof.
  intros Hm Hnu Hr. pose proof (ShardRouter_make_wf _ _ _ _ Hm Hnu Hr) as Hw. unfold boot. rewrite Hr.
  destruct contents as [text|]; simpl; [|by eexists _, _].
  pose proof (replay_loop_wf clock (getlines (text_in text)) 0 0
    (env_set_replaying true (MkEnv r (Some (AofLogger_make (aof_path_ b) text)))) Hw) as H.
  destruct (replay_loop _ _ _ _ _) as [n e]. destruct H as [Hw' Ha]; [by intros l [= <-]|].
  eexists _, _. split; [done|]. split; [done|]. unfold env_set_replaying. simpl. rewrite Ha. done.
Qed.

(** A [SET] that was not refused leaves the value until its time to live is over. *)
Lemma set_live (now now' : Z) (k v : string) (ttl : Z) (e : Env U L) :
  env_wf e → now <= now' → (execute now (SetCommand k v ttl) e).1 = Normal (encode (RSimple "OK")) →
  find_live now' (router (execute now (SetCommand k v ttl) e).2) k =
  if bool_decide (ttl < 0 ∨ now' < now + ttl * nanos_per_second)
  then Some (CacheAlignedValue_make now (VString v) ttl) else None.
Proof.
  intros Hw Hn. pose proof (find_live_set now now' k v ttl (router e) k Hw) as Hset. simpl in *.
  unfold noexcept, SetCommand_execute, on_router, mbind, SE_bind in *.
  destruct (ShardRouter_set now k v ttl (router e)) as [[[]|x] r']; simpl in *; [|done|done].
  intros _. rewrite Hset, bool_decide_eq_true_2 by done. cbv zeta. rewrite live_make_until by done.
  by destruct (bool_decide _).
Qed.

(** C14: a restart gives expired keys their time to live again.  A key set with a time
    to live is gone from its server once that has passed; but a server that
    replays the file, at whatever time, counts from the replay: it serves the key
    until the time to live has passed once more.  (The text of the command holds no
    byte 26, at which the replay would stop.) *)
Theorem replay_restarts_expiry (t0 t1 T : Z) (k v : string) (ttl : Z) (e0 e1 : Env U L)
    (Hw0 : env_wf e0) (Hw1 : env_wf e1) (Hc : replayable (SetCommand k v ttl))
    (H0 : (execute t0 (SetCommand k v ttl) e0).1 = Normal (encode (RSimple "OK")))
    (H1 : (execute t1 (SetCommand k v ttl) (env_set_replaying true e1)).1 = Normal (encode (RSimple "OK")))
    (Hexpired : 0 <= ttl ∧ t0 <= t0 + ttl * nanos_per_second <= T) (HT : t1 <= T < t1 + ttl * nanos_per_second) :
  let e0' := (execute t0 (SetCommand k v ttl) e0).2 in
  let e1' := (replay (λ _, t1) (Some (lines_text [serialize (SetCommand k v ttl)])) e1).2 in
  ks_get T k (router e0') = None ∧ ks_get T k (router e1') = Some v.
Proof.
  cbv zeta. destruct Hc as [Hc Hsub].
  assert (Hlines : getlines (text_in (lines_text [serialize (SetCommand k v ttl)])) = map serialize [SetCommand k v ttl]).
  { unfold lines_text. cbn [map]. pose proof (text_in_lines [SetCommand k v ttl]) as H. cbn [map] in H.
    rewrite H by (by constructor).
    apply (getlines_concat [serialize (SetCommand k v ttl)]). constructor; [by apply serialize_no_LF|constructor]. }
  unfold replay. rewrite Hlines, replay_loop_run by (by constructor). cbn [timed imap run_commands].
  rewrite !law_get. split.
  - rewrite set_live by (done || lia). rewrite bool_decide_eq_false_2 by lia. done.
  - pose proof (set_live t1 T k v ttl (env_set_replaying true e1) Hw1 ltac:(lia) H1) as Hl.
    cbn -[execute] in *.
    destruct (execute t1 (SetCommand k v ttl) (env_set_replaying true e1)) as [[r|x] e']; simpl in *; [|done].
    rewrite Hl, bool_decide_eq_true_2 by lia. done.
Qed.
End recovery.

(** Set for ten seconds; the server is restarted after nine and asked after fifteen. *)
Lemma replay_restarts_expiry_witness :
  let set_k := SetCommand "k" "v" 10 in
  let e := MkEnv (one_shard 100000) None in
  ks_get 15000000000 "k" (router (execute 0 set_k e).2) = None ∧
  ks_get 15000000000 "k" (router (replay (λ _, 9000000000) (Some (lines_text [serialize set_k])) e).2) = Some "v".
Proof.
  assert (Hw : env_wf (MkEnv (one_shard 100000) None)) by by apply one_shard_wf.
  assert (Hc : replayable (SetCommand "k" "v" 10)) by (split; vm_compute; reflexivity).
  assert (H0 : (execute 0 (SetCommand "k" "v" 10) (MkEnv (one_shard 100000) None)).1 = Normal (encode (RSimple "OK")))
    by (vm_compute; reflexivity).
  assert (H1 : (execute 9000000000 (SetCommand "k" "v" 10) (env_set_replaying true (MkEnv (one_shard 100000) None))).1
    = Normal (encode (RSimple "OK"))) by (vm_compute; reflexivity).
  exact (replay_restarts_expiry 0 9000000000 15000000000 "k" "v" 10 _ _ Hw Hw Hc H0 H1
    ltac:(unfold nanos_per_second; lia) ltac:(unfold nanos_per_second; lia)).
Defined.

(** A run of four commands, replayed into a server with other shards. *)
Definition demo_cmds : list (Z * ICommand) :=
  [(0, SetCommand "a" "1" 60); (1, LPushCommand "l" "x" default_ttl);
   (2, LPushCommand "l" "y" default_ttl); (3, DelCommand "a")].

Lemma demo_cmds_ok :
  Forall (λ p, ttl_ok 10 p.1 p.2 ∧ replayable p.2 ∧ ∀ i : nat, ttl_ok 10 ((λ _, 5) i) p.2) demo_cmds.
Proof.
  assert (H : ∀ now c, 0 <= now <= 5 → command_ttl c = 60 ∨ command_ttl c = default_ttl ∨ may_oom c = false → ttl_ok 10 now c).
  { intros now c Hn Hc. split; [lia|]. unfold duration_seconds, default_ttl, nanos_per_second in *.
    rewrite Z.quot_small by lia. destruct Hc as [->|[->| ->]]; try done; intros _; lia. }
  unfold demo_cmds. repeat (apply Forall_cons; split); try apply Forall_nil_2; cbn [fst snd];
    (split; [apply H; [lia|auto]|split; [split; vm_compute; reflexivity|intros i; apply H; [lia|auto]]]).
Qed.

Lemma replay_restores_witness :
  ∃ r0 r1 : ShardRouter Bump Containers,
    ShardRouter_make ample_heap 100000 1 = Normal r0 ∧ ShardRouter_make ample_heap 200000 2 = Normal r1 ∧
    data <$> find_live 10
      (router (replay (λ _, 5) (Some (log_text (aof (run_commands demo_cmds (running_env "f" r0)).2)))
                 (booting_env "f" r1)).2) "l"
    = data <$> find_live 10 (router (run_commands demo_cmds (running_env "f" r0)).2) "l".
Proof.
  eexists _, _. split; [reflexivity|]. split; [reflexivity|].
  apply (replay_restores ample_heap ample_heap 10 100000 1 200000 2); try done; [exact demo_cmds_ok|].
  vm_compute. intros H. repeat (apply elem_of_cons in H as [H|H]; [discriminate H|]). by apply elem_of_nil in H.
Defined.


(** A byte 26 in a value ends the replay.  A client can set such a value: the
    command parses and its line is logged.  Read in text mode the file ends there:
    the key gets the part in front, and what was logged after it is lost. *)
Definition value_with_SUB : string := "a" +:+ String (Ascii.ascii_of_nat 26) "b".

Lemma byte_26_ends_replay :
  CommandFactory_parse (tokenize ("SET k " +:+ value_with_SUB)) = Some (SetCommand "k" value_with_SUB default_ttl) ∧
  let e := (replay (λ _, 0) (Some (lines_text (map serialize
      [SetCommand "k" value_with_SUB default_ttl; SetCommand "j" "v" default_ttl]))) (booting_env "f" (one_shard 100000))).2 in
  ks_get 1 "k" (router e) = Some "a" ∧ ks_get 1 "j" (router e) = None.
Proof. split; [|cbv zeta; split]; vm_compute; reflexivity. Qed.

(** A crash can leave a line that is another command: one [SET] was logged, the
    stream has passed on a part of its line, and replaying the file stores a part of
    the value. *)
Lemma torn_line_replayed :
  ∃ st, rtc aof_step (aof_started "f" "") st ∧ Aof.accepted st = [serialize (SetCommand "k" "value" 60)] ∧
    disk (logger st) = "SET k val" ∧
    ks_get 1 "k" (router (replay (λ _, 0) (Some (disk (logger st))) (booting_env "f" (one_shard 100000))).2) = Some "val".
Proof.
  set (l := swap_buffers (log "SET k value 60" (logger (aof_started "f" "")))).
  exists (AofState (spill 9 (write_line l "SET k value 60")) (FWriting []) SNone ["SET k value 60"]).
  split.
  - eapply rtc_l; [apply (step_log "SET k value 60")|].
    eapply rtc_l; [apply step_test|]. eapply rtc_l; [apply step_swap|].
    eapply rtc_l; [apply step_write|]. eapply rtc_l; [apply step_write_line|]. apply rtc_once, step_spill.
  - split_and!; vm_compute; reflexivity.
Qed.

(** The configuration of [main] is one that boots, with 16 MiB a shard. *)
Example main_config_value hw :
  main_config hw = Normal (MkBuilder 8080 hw 1073741824 64 "appendonly.aof").
Proof. reflexivity. Qed.

(** ** The timing wheel *)

Section wheel.
Context {S : Type} `{!KeyStore S, !KeyStoreLaws S}.

(** C24: a scheduled key is swept on its second.  Schedule a key for a second of
    the coming day and let the wheel tick up to that second: what is stored under
    the key after that tick is exactly what was live under it at that moment, so
    an entry that has expired or was deleted is physically gone. *)
Theorem wheel_evicts_on_time (key : string) (idx expiry now : Z) (times : list Z) (w : TimingWheel)
    (st : S * option AofLogger)
    (Hwf : ks_wf st.1) (Hd : 0 <= expiry - start_time_ w < WHEEL_SIZE * nanos_per_second)
    (Htick : 0 <= current_tick_ w)
    (Ht : current_tick_ w + Z.of_nat (length times) = (expiry - start_time_ w) / nanos_per_second)
    (Hnow : Forall (λ t, t <= now) times) :
  ks_find (sweeper_loop (times ++ [now]) (schedule key idx expiry w) st).2.1 key = find_live now st.1 key.
Proof.
  rewrite <- (sweeper_loop_find_live (times ++ [now]) now (schedule key idx expiry w) st key)
    by (done || (apply Forall_app; split; [done|by repeat constructor])).
  unfold find_live. destruct (ks_find _ key) as [x|] eqn:Hx; [|done]. simpl.
  enough (live now x = true) as -> by done.
  pose proof (time_to_bucket_second w expiry Hd) as Hb.
  eapply (sweeper_loop_evicts times now (schedule key idx expiry w) st (time_to_bucket w expiry) (MkEntry key 0));
    [done| |done|simpl; lia|apply time_to_bucket_range|exact Hx].
  unfold schedule. rewrite bucket_insert, bool_decide_eq_true_2 by done. apply elem_of_app. right. by left.
Qed.

(** Sweeping is invisible to readers: whatever is scheduled and however
    often the wheel ticks up to [T], a reader at [T] or later finds what it
    would have found without the wheel. *)
Lemma wheel_invisible (times : list Z) (T : Z) (w : TimingWheel) (st : S * option AofLogger) (k : string)
    (Hwf : ks_wf st.1) (Ht : Forall (λ now, now <= T) times) :
  ks_get T k (sweeper_loop times w st).2.1 = ks_get T k st.1 ∧
  ks_exists T k (sweeper_loop times w st).2.1 = ks_exists T k st.1.
Proof. rewrite !law_get, !law_exists. by rewrite sweeper_loop_find_live. Qed.

(** As the program stands nothing is swept: no code calls [schedule], and
    the ticks of a wheel made and started, but never scheduled on, leave the
    store and the log as they are. *)
Lemma wheel_idle (now0 now1 : Z) (times : list Z) (st : S * option AofLogger) :
  (sweeper_loop times (wheel_start now1 (TimingWheel_make now0)) st).2 = st.
Proof. apply sweeper_loop_idle. intros i. unfold bucket. simpl. by rewrite lookup_empty. Qed.
End wheel.

(** A key set with a time to live of two seconds and scheduled for second 2 is
    gone from the store after the third tick. *)
Definition short_lived : ShardRouter Bump Containers * option AofLogger :=
  ((ks_set 0 "k" "v" 2 (one_shard 100000)).2, None).

Example short_lived_swept :
  (is_Some (ks_find short_lived.1 "k") ∧
   ks_find (sweeper_loop ([0; 1000000000] ++ [2000000000])
     (schedule "k" 0 2000000000 (TimingWheel_make 0)) short_lived).2.1 "k" = None).
Proof. split; [eexists|]; vm_compute; reflexivity. Qed.

Lemma wheel_evicts_on_time_witness :
  ks_find (sweeper_loop ([0; 1000000000] ++ [2000000000])
     (schedule "k" 0 2000000000 (TimingWheel_make 0)) short_lived).2.1 "k" = find_live 2000000000 short_lived.1 "k".
Proof.
  apply (wheel_evicts_on_time "k" 0 2000000000 2000000000 [0; 1000000000] (TimingWheel_make 0) short_lived).
  - apply law_wf_set. by apply one_shard_wf.
  - simpl. unfold WHEEL_SIZE, nanos_per_second. lia.
  - done.
  - done.
  - repeat constructor; lia.
Defined.

