(* ===== verification/NetworkTheorems.v ===== *)
(** * The network side: what is proved of it

    The worker pool, the request pipeline, the reactor, the running server that
    puts them together, and the publish/subscribe broker. *)

From Stdlib Require Import Relations.
From stdpp Require Import gmap strings.
From S2P Require Import Prelude MachineInt Text Resp Pmr Value KeyStore Shard Router Aof Command Spec Refinement Recovery WorkerPool RateLimiter Pipeline Reactor Server Responses Framing Scheduler PubSub Instances EngineTheorems.

Local Open Scope Z_scope.

(** ** The running server *)

Section server.
Context {St : Type} `{!Executor ICommand St}.

(** The bytes a client has been sent or is about to be sent. *)
Definition output (g : conn_ghost) (c : ConnectionState) : string := g_sent g +:+ write_buffer c.

(** What an open connection was sent or is about to be sent is one answer for
    each of its first [next_seq_expected] lines, in their order. *)
Lemma output_answers h (sv : server St) (f : Z) (c : ConnectionState)
    (Ht : tracked h sv) (Hc : connections_ (reactor sv) !! f = Some c) :
  ∃ g answers, ghost sv !! f = Some g ∧ output g c = string_concat answers ∧
    Z.of_nat (length answers) = next_seq_expected c ∧
    next_seq_expected c <= Z.of_nat (length (g_requests g)) ∧
    ∀ k a, answers !! k = Some a →
      ∃ line, g_requests g !! k = Some line ∧ answer_of h (f, Z.of_nat k) line a.
Proof.
  destruct Ht as [_ _ Hcs Hgs _ _].
  destruct (Hcs f c Hc) as (g & Hg & [Ho Hs Hi Hf Hcov]). destruct (Hgs f g Hg) as [_ [_ Ha]].
  exists g, (map (λ k, default EmptyString (g_delivered g !! k)) (seqZ 0 (next_seq_expected c))).
  pose proof (ok_expected _ _ _ Ho) as He. rewrite length_map, length_seqZ.
  split_and!; [done|exact (ok_stream _ _ _ Ho)|lia|lia|].
  intros i r Hx. apply list_lookup_fmap_Some in Hx as (k & -> & Hk). apply lookup_seqZ in Hk as [-> Hk].
  destruct (ok_prefix _ _ _ Ho (0 + Z.of_nat i)) as [r' Hr']; [lia|].
  destruct (Ha _ _ Hr') as (line & Hat & Hans). rewrite Hr'. simpl. exists line.
  unfold request_at in Hat. rewrite bool_decide_true in Hat by lia.
  rewrite Z.add_0_l, Nat2Z.id in *. done.
Qed.

(** C15: no request is lost and none is duplicated.  In every state reached by a run
    in which no socket number was accepted twice and no client issued 2^64 requests
    (the two conditions of [regular]; C32 shows what happens without the first), a
    request issued by an open connection has either been delivered to it or is
    at exactly one place: with the reactor, queued, with a worker, or on the
    completion queue.  When it is in none of these places every request of every
    open connection has been answered, and the output is complete. *)
Theorem requests_all_answered (listen : Z) (threads : nat) (max : Z) (s : St) (sv : server St)
    (f : Z) (c : ConnectionState)
    (Hr : rtc server_step (server_started listen threads max s) sv)
    (Honce : NoDup (accepted sv))
    (Hfew : ∀ f g, ghost sv !! f = Some g → Z.of_nat (length (g_requests g)) < 2 ^ 64)
    (Hc : connections_ (reactor sv) !! f = Some c) :
  NoDup (server_items sv).*1 ∧
  (∃ g, ghost sv !! f = Some g ∧ ∀ k, 0 <= k < next_seq_issue c →
     (is_Some (g_delivered g !! k) ∧ (f, k) ∉ (server_items sv).*1) ∨
     (g_delivered g !! k = None ∧ (f, k) ∈ (server_items sv).*1)) ∧
  ((∀ k, (f, k) ∉ (server_items sv).*1) →
   next_seq_expected c = next_seq_issue c ∧ in_flight_requests c = 0).
Proof.
  destruct (tracked_reachable _ _ _ _ _ (regular_run_started _ _ _ _ _ Hr (conj Honce Hfew))) as (h & _ & [Hn Hit Hcs Hgs _ _]).
  destruct (Hcs f c Hc) as (g & Hg & [Ho Hs Hi Hf Hcov]). split; [done|]. split.
  - exists g. split; [done|]. intros k Hk. destruct (decide ((f, k) ∈ (server_items sv).*1)) as [Hin|Hin].
    + right. split; [|done]. apply elem_of_ids in Hin as [it Hin].
      destruct (Hit _ _ _ Hin) as (g' & line & Hg' & _ & _ & Hnone). congruence.
    + left. split; [|done]. by destruct (Hcov k Hk).
  - intros Hout. assert (He : next_seq_expected c = next_seq_issue c).
    { eapply conn_all_delivered; [done|done|]. intros k Hk. destruct (Hcov k Hk) as [|Hin]; [done|].
      by destruct (Hout k). }
    split; [done|]. rewrite (ok_in_flight _ _ _ Ho). lia.
Qed.


(** C25: the reactor's limits hold in every reachable state in which its thread
    has not ended: the counter is the number of open connections, at most
    10000; no connection has more than 256 requests in flight; only open
    connections are paused; and a connection with bytes to write is one the
    next poll watches for writing. *)
Theorem reactor_limits (listen : Z) (threads : nat) (max : Z) (s : St) (sv : server St)
    (Hr : rtc server_step (server_started listen threads max s) sv) (Hrun : ctl sv ≠ Stopped) :
  total_connections_ (reactor sv) = Z.of_nat (size (connections_ (reactor sv))) ∧
  total_connections_ (reactor sv) <= MAX_CONNECTIONS ∧
  (∀ f, f ∈ paused_reads_ (reactor sv) → is_Some (connections_ (reactor sv) !! f)) ∧
  (∀ f c, connections_ (reactor sv) !! f = Some c →
     0 <= in_flight_requests c <= MAX_PIPELINE_DEPTH ∧ (write_buffer c ≠ "" → write_pending c = true)).
Proof.
  pose proof (control_reachable _ _ _ _ _ Hr) as [_ Hk].
  assert (Hinv : reactor_inv (reactor sv)) by (destruct (ctl sv); try done; by destruct Hk).
  destruct Hinv as [Ht Hl Hp Hd]. by split_and!.
Qed.
End server.

(** ** The server over the engine *)

(** The reply a line may get: the one its own task has in the history, or the
    error the pipeline answers with. *)
Definition reply_to (h : history) (id : request_id) (line : string) (r : reply) : Prop :=
  match classify line with
  | Reject text => r = RError text
  | Run c => executed_in h id c (encode r) ∨ r = RError "ERR server busy"
  end.

Lemma classify_reject line text : classify line = Reject text → wf_reply (RError text) = true.
Proof.
  unfold classify. destruct (tokenize line) as [|t ts]; [by intros [= <-]|].
  destruct (CommandFactory_parse (t :: ts)); [done|by intros [= <-]].
Qed.

Section over_engine.
Context {U L : Type} `{!ArenaChain U, !PmrLib L, !PmrLibOk L}.

(** A history that is a run of the specification on the maps the readers see. *)
Inductive spec_history (e : Env U L) : history → Env U L → Prop :=
| spec_history_nil : spec_history e [] e
| spec_history_snoc h e1 now t rep e2 :
    spec_history e h e1 → execute now (command t) e1 = (Normal (encode rep), e2) → wf_reply rep = true →
    spec_step (command t) (view now e1) rep (view now e2) →
    spec_history e (h ++ [(now, t, encode rep)]) e2.

Lemma exec_run_spec (e e' : Env U L) h : env_wf e → exec_run e h e' → spec_history e h e' ∧ env_wf e'.
Proof.
  intros Hw. induction 1 as [|h e1 now t r e2 _ [IH Hw1] Hx]; [by split; [constructor|]|].
  destruct (execute_view now (command t) e1 Hw1) as (rep & e' & He & Hr & Hs & Hw').
  unfold exec_command, env_executor, noexcept in Hx. rewrite He in Hx. injection Hx as [= <- <-].
  split; [by econstructor|done].
Qed.

Lemma spec_history_replies (e e' : Env U L) h now t r :
  spec_history e h e' → (now, t, r) ∈ h → ∃ rep, r = encode rep ∧ wf_reply rep = true.
Proof.
  induction 1 as [|h e1 now' t' rep e2 _ IH _ Hw _]; [by intros ?%elem_of_nil|].
  intros [Hin|Hin]%elem_of_app; [by apply IH|]. apply list_elem_of_singleton in Hin as [= -> -> ->]. eauto.
Qed.

Lemma answer_is_encoded (e e' : Env U L) h id line a :
  spec_history e h e' → answer_of h id line a → ∃ r, a = encode r ∧ wf_reply r = true.
Proof.
  intros Hh. unfold answer_of. destruct (classify line) as [c|text] eqn:Hc.
  - intros [[now Hin]| ->]; [by eapply spec_history_replies|]. by eexists.
  - intros ->. exists (RError text). split; [done|]. by eapply classify_reject.
Qed.

Lemma answer_is_reply h id line r :
  wf_reply r = true → answer_of h id line (encode r) → reply_to h id line r.
Proof.
  intros Hr. unfold answer_of, reply_to. destruct (classify line) as [c|text] eqn:Hc.
  - intros [H|H]; [by left|right]. by apply encode_inj in H.
  - intros H. apply encode_inj in H; [done|done|]. by eapply classify_reject.
Qed.

Lemma all_encoded answers :
  (∀ k a, answers !! k = Some a → ∃ r, a = encode r ∧ wf_reply r = true) →
  ∃ rs, answers = map encode rs ∧ forallb wf_reply rs = true.
Proof.
  induction answers as [|a answers IH]; intros H; [by exists []|].
  destruct (H 0%nat a eq_refl) as (r & -> & Hr).
  destruct IH as (rs & -> & Hrs); [intros k; exact (H (S k))|].
  exists (r :: rs). simpl. by rewrite Hr.
Qed.

(** What an open connection was sent so far, with what is about to be sent, decodes
    to one reply for each of the first [next_seq_expected] lines it issued, in the
    order of the lines: the reply in the history to that very request, or the
    error with which the pipeline answers its line. *)
Definition answered (h : history) (gs : ghosts) (f : Z) (c : ConnectionState) : Prop :=
  ∃ g rs, gs !! f = Some g ∧ output g c = string_concat (map encode rs) ∧
    decode_stream (length rs) (output g c) = rs ∧
    Z.of_nat (length rs) = next_seq_expected c ∧ next_seq_expected c <= Z.of_nat (length (g_requests g)) ∧
    ∀ k r, rs !! k = Some r → ∃ line, g_requests g !! k = Some line ∧ reply_to h (f, Z.of_nat k) line r.

Lemma tracked_answered {St} `{!Executor ICommand St} (e e' : Env U L) h (sv : server St) f c :
  spec_history e h e' → tracked h sv → connections_ (reactor sv) !! f = Some c → answered h (ghost sv) f c.
Proof.
  intros Hspec Ht Hc. destruct (output_answers h sv f c Ht Hc) as (g & answers & Hg & Ho & Hl & He & Ha).
  destruct (all_encoded answers) as (rs & -> & Hw).
  { intros k a Hk. destruct (Ha k a Hk) as (line & _ & H). by eapply answer_is_encoded. }
  rewrite length_map in *. exists g, rs. rewrite Ho.
  split_and!; [done|done|by apply decode_stream_encode|done|done|].
  intros k r Hk. destruct (Ha k (encode r)) as (line & Hline & H); [by rewrite list_lookup_fmap, Hk|].
  exists line. split; [done|]. apply answer_is_reply; [|done].
  eapply forallb_forall in Hw; [done|]. apply list_elem_of_In. by apply list_elem_of_lookup_2 in Hk.
Qed.

(** C2: end to end.  Run the server on a well-formed engine.  In every state reached
    by a run in which no socket number was accepted twice and no client issued 2^64
    requests (the two conditions of [regular]; C32 shows what happens without the
    first), whatever the interleaving of reactor and workers, there is one history
    of the tasks executed so far, which are requests of clients, each at most
    once; executing it one task after the other from the initial engine is a run
    of the key-value specification and gives the engine; and every open connection
    is [answered]: its bytes decode to the replies of that history to its lines, in
    the order of the lines. *)
Theorem responses_in_order (listen : Z) (threads : nat) (max : Z) (e : Env U L) (sv : server (Env U L))
    (Hwf : env_wf e) (Hr : rtc server_step (server_started listen threads max e) sv)
    (Honce : NoDup (accepted sv))
    (Hfew : ∀ f g, ghost sv !! f = Some g → Z.of_nat (length (g_requests g)) < 2 ^ 64) :
  ∃ h, spec_history e h (engine (back sv)) ∧ NoDup (history_ids h) ∧ history_ok h (ghost sv) ∧
    ∀ f c, connections_ (reactor sv) !! f = Some c → answered h (ghost sv) f c.
Proof.
  destruct (tracked_reachable _ _ _ _ _ (regular_run_started _ _ _ _ _ Hr (conj Honce Hfew))) as (h & Hrun & Ht).
  destruct (exec_run_spec _ _ _ Hwf Hrun) as [Hspec _].
  exists h. split; [done|]. split; [exact (t_once _ _ _ _ _ Ht)|]. split; [exact (t_history _ _ _ _ _ Ht)|].
  intros f c. by eapply tracked_answered.
Qed.
End over_engine.

(** ** A run of the server

    One client pipelines three lines; two workers; the GET overtakes the SET,
    and the rejected line is answered first, but the responses leave in order. *)

Definition no_event : revents := MkRevents false false false.
Definition readable : revents := MkRevents false true false.
Definition writable : revents := MkRevents false false true.

Definition demo_server : server engine_env := server_started 3 2 10 small_engine.

Definition demo_script : list label :=
  [LReactor; LReactor; LPoll [readable]; LAccept (Some (7, "10.0.0.1")); LReactor;
   LReactor; LReactor; LPoll [no_event; readable]; LReactor;
   LRecv ("SET k v" +:+ crlf +:+ "GET k" +:+ crlf +:+ "FOO" +:+ crlf);
   LReactor; LReactor; LReactor; LReactor; LReactor; LReactor; LReactor;
   LWorker 0 1; LWorker 1 1; LWorker 1 1; LWorker 1 1;
   LReactor; LReactor; LReactor; LPoll [no_event; no_event]; LReactor; LReactor; LReactor;
   LWorker 0 2; LWorker 0 2; LReactor].

Definition demo_result : server engine_env := default demo_server (run_labels demo_script demo_server).

Lemma demo_run : run_labels demo_script demo_server = Some demo_result.
Proof. vm_compute. reflexivity. Qed.

Lemma demo_reachable : rtc run_step demo_server demo_result.
Proof. exact (run_labels_sound _ _ _ demo_run). Qed.

Lemma demo_steps : rtc server_step demo_server demo_result.
Proof. refine (rtc_subrel _ _ _ _ _ demo_reachable). by intros ? ? []. Qed.

Lemma demo_regular : regular demo_result.
Proof. apply regular_b_sound. vm_compute. reflexivity. Qed.

Definition demo_conn : ConnectionState :=
  default (ConnectionState_make "") (connections_ (reactor demo_result) !! 7).

Lemma demo_conn_open : connections_ (reactor demo_result) !! 7 = Some demo_conn.
Proof. vm_compute. reflexivity. Qed.

Lemma responses_in_order_witness :
  ∃ h, spec_history small_engine h (engine (back demo_result)) ∧ NoDup (history_ids h) ∧
    history_ok h (ghost demo_result) ∧
    ∀ f c, connections_ (reactor demo_result) !! f = Some c → answered h (ghost demo_result) f c.
Proof. exact (responses_in_order 3 2 10 small_engine demo_result small_engine_wf demo_steps (proj1 demo_regular) (proj2 demo_regular)). Defined.

Lemma requests_all_answered_witness :
  NoDup (server_items demo_result).*1 ∧
  (∃ g, ghost demo_result !! 7 = Some g ∧ ∀ k, 0 <= k < next_seq_issue demo_conn →
     (is_Some (g_delivered g !! k) ∧ (7, k) ∉ (server_items demo_result).*1) ∨
     (g_delivered g !! k = None ∧ (7, k) ∈ (server_items demo_result).*1)) ∧
  ((∀ k, (7, k) ∉ (server_items demo_result).*1) →
   next_seq_expected demo_conn = next_seq_issue demo_conn ∧ in_flight_requests demo_conn = 0).
Proof. exact (requests_all_answered 3 2 10 small_engine demo_result 7 demo_conn demo_steps (proj1 demo_regular)
  (proj2 demo_regular) demo_conn_open). Defined.


Lemma reactor_limits_witness :
  total_connections_ (reactor demo_result) = Z.of_nat (size (connections_ (reactor demo_result))) ∧
  total_connections_ (reactor demo_result) <= MAX_CONNECTIONS ∧
  (∀ f, f ∈ paused_reads_ (reactor demo_result) → is_Some (connections_ (reactor demo_result) !! f)) ∧
  (∀ f c, connections_ (reactor demo_result) !! f = Some c →
     0 <= in_flight_requests c <= MAX_PIPELINE_DEPTH ∧ (write_buffer c ≠ "" → write_pending c = true)).
Proof.
  apply (reactor_limits 3 2 10 small_engine demo_result demo_steps). vm_compute. discriminate.
Defined.

(** C27: commands pipelined on one connection may execute out of order, though
    their responses arrive in order: the server reaches a state in which the
    client that sent [SET k v] and then [GET k] has the responses "OK" and "no
    such key". *)
Theorem pipelined_commands_reorder :
  ∃ sv c, rtc run_step demo_server sv ∧ connections_ (reactor sv) !! 7 = Some c ∧
    write_buffer c = string_concat (map encode [RSimple "OK"; RBulk None; RError "ERR unknown command"]) ∧
    g_requests <$> ghost sv !! 7 = Some ["SET k v"; "GET k"; "FOO"].
Proof.
  exists demo_result, demo_conn. split; [exact demo_reachable|]. split; [exact demo_conn_open|].
  split; vm_compute; reflexivity.
Qed.

(** ** The reassembly buffer *)

(** A connection that issued [n] requests and got no response yet. *)
Definition awaiting (n : nat) (buffer ip : string) : ConnectionState :=
  MkConn buffer "" false ip (Z.of_nat n) 0 ∅ (Z.of_nat n).

(** C28: reassembly.  Deliver to a connection that issued [n] requests the
    responses to all of them, in any order: the write buffer then holds them in
    the order of the requests, and nothing is left in the reassembly buffer. *)
Theorem reassembly_any_order (responses : list string) (rs : list (Z * string)) (buffer ip : string)
    (Hn : Z.of_nat (length responses) < 2 ^ 64)
    (Hrs : rs ≡ₚ imap (λ i r, (Z.of_nat i, r)) responses) :
  let c := awaiting (length responses) buffer ip in
  write_buffer (deliver_list rs c) = string_concat responses ∧
  out_of_order_buf (deliver_list rs c) = ∅ ∧
  next_seq_expected (deliver_list rs c) = Z.of_nat (length responses) ∧
  in_flight_requests (deliver_list rs c) = 0.
Proof.
  intros c. assert (Hok : conn_ok "" ∅ c).
  { split; simpl; try done; try lia.
    - intros k [? Hk]. by rewrite lookup_empty in Hk.
    - intros k. rewrite !lookup_empty. by case_bool_decide. }
  assert (Hissue : next_seq_issue c = Z.of_nat (length responses)) by done.
  assert (Hin : ∀ k r, (k, r) ∈ rs ↔ 0 <= k ∧ responses !! Z.to_nat k = Some r).
  { intros k r. rewrite Hrs, elem_of_lookup_imap. split.
    - intros (i & x & [= -> ->] & Hx). rewrite Nat2Z.id. split; [lia|done].
    - intros [Hk Hx]. exists (Z.to_nat k), r. rewrite Z2Nat.id by done. done. }
  destruct (deliver_list_ok "" rs ∅ c Hok) as (D & HD & Hset & (_ & _ & Hi) & Hall).
  - unfold conn_settled. apply lookup_empty.
  - rewrite Hrs. rewrite fmap_imap. apply NoDup_alt. intros i j x.
    rewrite !list_lookup_imap. intros (y & _ & Hy)%fmap_Some (z & _ & Hz)%fmap_Some. simpl in *. lia.
  - intros k ([k' r] & -> & Hk)%list_elem_of_fmap. apply Hin in Hk as [? Hx%lookup_lt_Some]. simpl.
    split; [apply lookup_empty|lia].
  - assert (HDk : ∀ k, 0 <= k → D !! k = responses !! Z.to_nat k).
    { intros k Hk. apply option_eq. intros r. rewrite Hall, lookup_empty, Hin. split; [by intros [?|[_ ?]]|auto]. }
    assert (He : next_seq_expected (deliver_list rs c) = Z.of_nat (length responses)).
    { rewrite <-Hissue, <-Hi. eapply conn_all_delivered; [done|done|]. intros k Hk. rewrite HDk by lia.
      apply lookup_lt_is_Some. lia. }
    split_and!; [| |done|rewrite (ok_in_flight _ _ _ HD); lia].
    + pose proof (ok_stream _ _ _ HD) as Hs. rewrite string_app_empty in Hs. rewrite Hs, He.
      unfold responses_upto. f_equal. apply list_eq. intros i. rewrite list_lookup_fmap.
      destruct (decide (i < length responses)%nat) as [Hlt|Hge].
      * rewrite (proj2 (lookup_seqZ _ _ _ (Z.of_nat i))) by lia. simpl. rewrite HDk, Nat2Z.id by lia.
        by destruct (lookup_lt_is_Some_2 responses i Hlt) as [r ->].
      * rewrite lookup_ge_None_2 by (rewrite length_seqZ; lia). by rewrite lookup_ge_None_2 by lia.
    + apply map_eq. intros k. rewrite lookup_empty, (ok_buffer _ _ _ HD). case_bool_decide; [|done].
      rewrite HDk by lia. apply lookup_ge_None. lia.
Qed.

Lemma reassembly_any_order_witness :
  let c := awaiting 3 "" "10.0.0.1" in
  let rs := [(2, "c"); (0, "a"); (1, "b")] in
  write_buffer (deliver_list rs c) = "abc" ∧ out_of_order_buf (deliver_list rs c) = ∅ ∧
  next_seq_expected (deliver_list rs c) = 3 ∧ in_flight_requests (deliver_list rs c) = 0.
Proof.
  apply (reassembly_any_order ["a"; "b"; "c"]); [done|].
  exact (Permutation_app_comm [(2, "c")] [(0, "a"); (1, "b")]).
Defined.

(** ** Reading and backpressure *)

(** C29: the read loop ends.  With the fuel the model gives it, [handle_read]
    runs to the end of the loop: afterwards the client is gone, or its reads are
    paused, or its buffer holds no complete line; more fuel changes nothing. *)
Theorem handle_read_terminates (client : Z) (r : Reactor) (p : WorkerPool ICommand) (fuel : nat)
    (Hfuel : (read_fuel client r ≤ fuel)%nat) :
  read_loop fuel client r p = read_loop (read_fuel client r) client r p ∧
  read_ended client (read_loop (read_fuel client r) client r p).1.
Proof. split; [by apply read_loop_fuel|by apply read_loop_ends]. Qed.

Definition demo_reactor : Reactor :=
  (handle_read_recv 7 ("PING" +:+ crlf +:+ crlf +:+ "GET") (accept_connection 7 "10.0.0.1" (Reactor_make 3)).2).2.

Lemma handle_read_terminates_witness :
  read_loop 100 7 demo_reactor (WorkerPool_make 10) =
  read_loop (read_fuel 7 demo_reactor) 7 demo_reactor (WorkerPool_make 10) ∧
  read_ended 7 (read_loop (read_fuel 7 demo_reactor) 7 demo_reactor (WorkerPool_make 10)).1.
Proof. apply handle_read_terminates. vm_compute. lia. Defined.

(** C30: a request line that meets backpressure is lost.  When the connection
    has 256 requests in flight, or the queue is more than 90% full, the next
    line has already been taken from the buffer: it is neither left there nor
    issued as a request. *)
Theorem paused_line_is_lost (client qsize qmax : Z) (r : Reactor) (c : ConnectionState) (raw rest : string)
    (Hc : connections_ r !! client = Some c) (Hraw : has_no_LF raw = true) (Hne : strip_CR raw ≠ "")
    (Hbuf : read_buffer c = raw +:+ String LF rest)
    (Hfull : MAX_PIPELINE_DEPTH <= in_flight_requests c ∨ qmax * 9 < qsize * 10) :
  let '(o, r') := read_iteration client qsize qmax r in
  o = LoopPaused ∧ client ∈ paused_reads_ r' ∧
  connections_ r' !! client = Some (set_read_buffer rest c).
Proof.
  pose proof (find_line_app raw rest Hraw) as Hl. rewrite <-Hbuf in Hl.
  pose proof (read_iteration_cases client qsize qmax c r Hc) as Hcase.
  destruct (read_iteration client qsize qmax r) as [o r']. simpl in Hcase.
  destruct Hcase as [He|raw' rest' He ?|raw' rest' He|raw' rest' He ? ? ?]; rewrite Hl in He; try done; injection He as [= <- <-]; [done| |lia].
  split_and!; [done|simpl; apply elem_of_union_r; by apply elem_of_singleton|simpl; by rewrite lookup_insert_eq].
Qed.

Definition full_conn : ConnectionState := MkConn ("GET k" +:+ crlf) "" false "10.0.0.1" 256 0 ∅ 256.

Lemma paused_line_is_lost_witness :
  let '(o, r') := read_iteration 7 0 10 (set_conn 7 full_conn (Reactor_make 3)) in
  o = LoopPaused ∧ 7 ∈ paused_reads_ r' ∧ connections_ r' !! 7 = Some (set_read_buffer "" full_conn).
Proof.
  apply (paused_line_is_lost 7 0 10 (set_conn 7 full_conn (Reactor_make 3)) full_conn ("GET k" +:+ String CR "") "");
    [reflexivity|reflexivity|discriminate|reflexivity|left; discriminate].
Defined.

(** Which pauses survive the top of the loop: those of connections with 256
    requests in flight, and those only while the queue is at least 70% full.  A
    connection paused for a full queue alone is resumed by the next iteration,
    however full the queue still is. *)
Lemma pause_survives_iff (qsz qmax : Z) (r : Reactor) (client : Z) :
  client ∈ paused_reads_ (update_backpressure qsz qmax r) ↔
  client ∈ paused_reads_ r ∧ qmax * 7 <= qsz * 10 ∧ has_room r client = false.
Proof.
  unfold update_backpressure. destruct (Z.ltb_spec (qsz * 10) (qmax * 7)); simpl.
  - split; [by intros ?%elem_of_empty|lia].
  - rewrite elem_of_filter. split; [intros [? ?]; auto|intros (? & _ & ?); auto].
Qed.

(** A client sends a request and leaves; its socket number goes to another
    client before the worker is done. *)
Definition reuse_script : list label :=
  [LReactor; LReactor; LPoll [readable]; LAccept (Some (7, "10.0.0.1")); LReactor;
   LReactor; LReactor; LPoll [no_event; readable]; LReactor; LRecv ("PING" +:+ crlf); LReactor; LReactor; LReactor; LReactor;
   LReactor; LReactor; LPoll [no_event; readable]; LReactor; LRecv ""; LReactor;
   LReactor; LReactor; LPoll [readable]; LAccept (Some (7, "10.0.0.2")); LReactor;
   LWorker 0 1; LWorker 0 1; LWorker 0 1; LReactor].

Definition reuse_result : server engine_env := default demo_server (run_any reuse_script demo_server).

Lemma reuse_run : run_any reuse_script demo_server = Some reuse_result.
Proof. vm_compute. reflexivity. Qed.

Definition reuse_conn : ConnectionState :=
  default (ConnectionState_make "") (connections_ (reactor reuse_result) !! 7).

(** C32: a socket number that the system hands out again receives the responses
    of its previous connection: the server reaches a state in which a client that
    has sent nothing has a response in its write buffer, and its expected
    sequence number is past the one its first request will get. *)
Theorem stale_response_on_reused_socket :
  ∃ sv c, rtc server_step demo_server sv ∧ connections_ (reactor sv) !! 7 = Some c ∧
    conn_ip c = "10.0.0.2" ∧ next_seq_issue c = 0 ∧ next_seq_expected c = 1 ∧
    write_buffer c = "+PONG" +:+ crlf.
Proof.
  exists reuse_result, reuse_conn. split; [exact (run_any_sound _ _ _ reuse_run)|].
  split_and!; vm_compute; reflexivity.
Qed.

(** ** The pipeline *)

(** Every request is dealt with exactly once.  Processing a line appends
    either one task, carrying the parsed command and the request's socket and
    sequence number, to the queue, or one error reply for that socket and
    sequence number to the completion queue, and nothing else changes.  It is
    the task exactly when the line parses and the pool accepts it. *)
Lemma pipeline_one_outcome (client : Z) (line : string) (seq : Z) (ip : string) (p : WorkerPool ICommand) :
  Pipeline_process Pipeline_make client line seq ip p =
  match classify line with
  | Reject text => push_result (MkResult client seq (encode (RError text))) p
  | Run c =>
    if pool_running_ p && (queue_size p <? max_queue_size_ p)
    then set_queue (queue_ p ++ [MkTask c client seq]) p
    else push_result (MkResult client seq (encode (RError "ERR server busy"))) p
  end.
Proof. rewrite Pipeline_process_spec. unfold process_spec. by destruct (classify line). Qed.

(** ** The worker pool *)

Section pool.
Context {C St : Type} `{!Executor C St}.

(** In every reachable state of the pool, whatever its clients and workers
    do, the queue is within its bound, tasks leave it in the order in which they
    were accepted, and every task taken from it is either still with exactly one
    worker or its result was posted exactly once. *)
Lemma pool_fifo_exactly_once (threads : nat) (max : Z) (s : St) (st : pool_state C St)
    (Hm : 0 <= max) (Hr : rtc pool_step (pool_started threads max s) st) :
  queue_size (pool st) <= max ∧
  accepted_tasks st = taken_tasks st ++ queue_ (pool st) ∧
  taken_tasks st ≡ₚ posted_tasks st ++ in_flight (workers st).
Proof. destruct (pool_reachable_inv threads max s st Hm Hr). done. Qed.

(** Shutdown drains.  Once [shutdown] was called on a pool with workers,
    the workers can run until all have returned, and every such run ends with
    the queue empty and the result of every task ever accepted posted exactly
    once. *)
Lemma pool_shutdown_drains (threads : nat) (max : Z) (s : St) (st : pool_state C St)
    (Hm : 0 <= max) (Ht : (0 < threads)%nat) (Hr : rtc pool_step (pool_started threads max s) st)
    (Hstop : pool_running_ (pool st) = false) :
  (∃ st', rtc worker_step st st' ∧ Forall (λ w, w = Exited) (workers st')) ∧
  ∀ st', rtc worker_step st st' → Forall (λ w, w = Exited) (workers st') →
    queue_ (pool st') = [] ∧ posted_tasks st' ≡ₚ accepted_tasks st'.
Proof.
  split; [by apply workers_finish|]. intros st' Hw He.
  assert (Hr' : rtc pool_step (pool_started threads max s) st').
  { etrans; [exact Hr|]. eapply (rtc_subrel _ _ _ _); [|exact Hw]. intros x y. apply step_worker. }
  destruct (pool_reachable_inv threads max s st' Hm Hr') as [_ _ Hf Ho Hn Hx].
  destruct (workers st') as [|w ws] eqn:Hws; [simpl in Hn; lia|].
  assert (Hq : queue_ (pool st') = []).
  { apply Hx. apply Forall_cons in He as [-> _]. by left. }
  split; [done|]. rewrite Hf, Hq, app_nil_r, Ho. rewrite all_exited_in_flight by done. by rewrite app_nil_r.
Qed.

(** Workers always make progress: every step of a worker uses up part of a
    finite amount of work, and as long as a task is queued or held a worker that
    has not returned can move. *)
Lemma pool_progress (st : pool_state C St) :
  (∀ st', worker_step st st' → (work_left st' < work_left st)%nat) ∧
  (∀ i w, workers st !! i = Some w → w ≠ Exited → queue_ (pool st) ≠ [] ∨ w ≠ Waiting →
     ∃ st', worker_step st st').
Proof.
  split; [intros st'; apply worker_step_work|]. intros i w Hi Hw Hq.
  eapply worker_can_move; [done|done|]. intros -> Hn. by destruct Hq.
Qed.
End pool.



(** C37: the pool inside the server behaves as the pool specified on its own:
    every run of the server projects to a run of the pool and its clients.  So
    the queue of the server stays within its bound, and tasks are taken in the
    order in which the pipeline submitted them. *)
Theorem server_refines_pool {St} `{!Executor ICommand St} (listen : Z) (threads : nat) (max : Z) (s : St)
    (sv : server St) (Hm : 0 <= max) (Hr : rtc server_step (server_started listen threads max s) sv) :
  rtc pool_step (pool_started threads max s) (back sv) ∧
  queue_size (pool (back sv)) <= max ∧
  accepted_tasks (back sv) = taken_tasks (back sv) ++ queue_ (pool (back sv)).
Proof.
  assert (Hp : rtc pool_step (pool_started threads max s) (back sv)).
  { change (pool_started threads max s) with (back (server_started listen threads max s)).
    exact (rtc_project _ _ back _ _ server_step_pool Hr). }
  destruct (pool_reachable_inv threads max s (back sv) Hm Hp). done.
Qed.

Lemma server_refines_pool_witness :
  rtc pool_step (pool_started 2 10 small_engine) (back reuse_result) ∧
  queue_size (pool (back reuse_result)) <= 10 ∧
  accepted_tasks (back reuse_result) = taken_tasks (back reuse_result) ++ queue_ (pool (back reuse_result)).
Proof.
  apply (server_refines_pool 3 2 10 small_engine reuse_result); [done|].
  exact (run_any_sound _ _ _ reuse_run).
Defined.

(** ** The rate limit *)

(** C22: the rate limit.  [allow] lets every request pass.  The token bucket behind its
    first statement would let each address make 1000 requests at one instant and
    no more, whatever other addresses request meanwhile and however the hash
    spreads them over the shards, and would give the next token 60 ms later, not
    a nanosecond earlier. *)
Theorem rate_limit_disabled (std_hash : string → Z) (now : Z) (ips : list string) (ip : string) :
  RateLimiter_allow ip = true ∧
  allowed_of ip ips (allow_all std_hash now ips RateLimiter_make).1 = Nat.min (requests_of ip ips) 1000 ∧
  (take_token (now + 60000000) (charged now 1000)).1 = true ∧
  (take_token (now + 59999999) (charged now 1000)).1 = false.
Proof.
  split; [done|]. split.
  - rewrite (allow_all_counts std_hash now (λ _, 0%nat)) by apply used_up_make. by rewrite Nat.sub_0_r.
  - unfold take_token. simpl. rewrite !Z.add_simpl_l. split; vm_compute; reflexivity.
Qed.

(** ** Publish/subscribe *)

(** C38: the broker is the relation between channels and sockets it means to be:
    subscribing adds one pair, unsubscribing removes one, and unsubscribing from
    everything removes the pairs of the socket, whatever order the iterator
    visits the channels in; no other pair changes. *)
Theorem broker_operations (channel ch : string) (client c : Z) (b : PubSubBroker) :
  (subscribed (subscribe channel client b) ch c ↔ subscribed b ch c ∨ ch = channel ∧ c = client) ∧
  (subscribed (unsubscribe channel client b) ch c ↔ subscribed b ch c ∧ ¬ (ch = channel ∧ c = client)) ∧
  (∀ order, order ≡ₚ (map_to_list (channels_ b)).*1 →
     (subscribed (unsubscribe_all order client b) ch c ↔ subscribed b ch c ∧ c ≠ client)).
Proof.
  split_and!; [apply subscribe_subscribed|apply unsubscribe_subscribed|].
  intros order. apply unsubscribe_all_subscribed.
Qed.

Lemma broker_step_wf b b' : broker_step b b' → broker_wf b → broker_wf b'.
Proof. intros [] ; [apply subscribe_wf|apply unsubscribe_wf|apply unsubscribe_visits_wf]. Qed.

(** C39: channels exist exactly as long as they have subscribers: after any
    operations on a new broker, the channels listed are, without repetition,
    those with a subscriber, and these are the ones whose subscriber count is
    positive. *)
Theorem channels_have_subscribers (b : PubSubBroker) (channel : string)
    (Hr : rtc broker_step PubSubBroker_make b) :
  NoDup (list_channels b) ∧
  (channel ∈ list_channels b ↔ ∃ client, subscribed b channel client) ∧
  (0 < subscriber_count channel b ↔ ∃ client, subscribed b channel client).
Proof.
  assert (Hw : broker_wf b).
  { refine (rtc_invariant _ broker_wf _ _ broker_step_wf Hr _). intros ? ? H. simpl in H. by rewrite lookup_empty in H. }
  split; [apply NoDup_fst_map_to_list|].
  assert (He : (∃ client, subscribed b channel client) ↔ is_Some (channels_ b !! channel)).
  { split.
    - intros (client & subs & -> & _). eauto.
    - intros [subs Hs]. destruct (set_choose_L subs (Hw channel subs Hs)) as [client Hc]. by exists client, subs. }
  rewrite He. split.
  - unfold list_channels. split.
    + intros ([ch subs] & -> & Hp)%list_elem_of_fmap. apply elem_of_map_to_list in Hp. eauto.
    + intros [subs Hs]. apply list_elem_of_fmap. exists (channel, subs). split; [done|]. by apply elem_of_map_to_list.
  - unfold subscriber_count. destruct (channels_ b !! channel) as [subs|] eqn:Hs; [|split; [lia|intros [? ?]; done]].
    split; [eauto|]. intros _. assert (size subs ≠ 0%nat); [|lia].
    intros H0%size_empty_inv. apply (Hw channel subs Hs). by apply leibniz_equiv.
Qed.

(** Two clients subscribe, one leaves everything. *)
Definition demo_broker : PubSubBroker :=
  unsubscribe_all ["news"; "chat"] 7 (subscribe "chat" 8 (subscribe "news" 7 (subscribe "chat" 7 PubSubBroker_make))).

Lemma demo_broker_reached : rtc broker_step PubSubBroker_make demo_broker.
Proof.
  eapply rtc_l; [apply (broker_subscribe "chat" 7)|]. eapply rtc_l; [apply (broker_subscribe "news" 7)|].
  eapply rtc_l; [apply (broker_subscribe "chat" 8)|]. apply rtc_once, broker_unsubscribe_all.
  unfold visits. assert (He : (map_to_list (channels_
    (subscribe "chat" 8 (subscribe "news" 7 (subscribe "chat" 7 PubSubBroker_make))))).*1 = ["chat"; "news"]
    ∨ (map_to_list (channels_
    (subscribe "chat" 8 (subscribe "news" 7 (subscribe "chat" 7 PubSubBroker_make))))).*1 = ["news"; "chat"])
    by (vm_compute; auto).
  destruct He as [-> | ->]; [constructor|done].
Qed.

Lemma channels_have_subscribers_witness :
  NoDup (list_channels demo_broker) ∧
  ("chat" ∈ list_channels demo_broker ↔ ∃ client, subscribed demo_broker "chat" client) ∧
  (0 < subscriber_count "chat" demo_broker ↔ ∃ client, subscribed demo_broker "chat" client).
Proof. exact (channels_have_subscribers demo_broker "chat" demo_broker_reached). Defined.

(** C40: publishing sends the message once to each subscriber of the channel and
    to nobody else, and returns how many took it, at most the subscriber count;
    the text sent decodes to the array ["message", channel, message], whatever
    bytes these hold. *)
Theorem publish_reaches_subscribers (accepts : Z → bool) (channel message : string) (b : PubSubBroker) :
  let '(delivered, sent) := publish accepts channel message b in
  NoDup sent.*1 ∧
  (∀ sock text, (sock, text) ∈ sent ↔
     subscribed b channel sock ∧ text = format_message channel message) ∧
  delivered = Z.of_nat (length (filter (λ s, accepts s = true) sent.*1)) ∧
  delivered <= subscriber_count channel b ∧
  ∀ rest, decode (format_message channel message +:+ rest) = Some (RArray ["message"; channel; message], rest).
Proof.
  assert (Hd : ∀ rest, decode (format_message channel message +:+ rest)
      = Some (RArray ["message"; channel; message], rest)).
  { intros rest. rewrite format_message_encode. by apply decode_encode_app. }
  unfold publish, subscriber_count. destruct (channels_ b !! channel) as [subs|] eqn:Hs.
  - rewrite publish_loop_eq. simpl. rewrite map_map, map_id. split_and!; [apply NoDup_elements| |done| |done].
    + intros sock text. rewrite list_elem_of_fmap. unfold subscribed. split.
      * intros (x & [= -> ->] & Hx%elem_of_elements). split; [|done]. eauto.
      * intros [(x & Hx & Hin) ->]. rewrite Hs in Hx. injection Hx as [= ->]. exists sock.
        split; [done|]. by apply elem_of_elements.
    + pose proof (length_filter (λ s, accepts s = true) (elements subs)). unfold size, set_size. simpl. lia.
  - simpl. split_and!; [constructor| |done|done|done]. intros sock text. split; [by intros ?%elem_of_nil|].
    intros [(x & Hx & _) _]. congruence.
Qed.
