(* ===== verification/ConcurrencyTheorems.v ===== *)
(** * Commands of several workers: what is proved of them

    Commands run by concurrent workers behave as if run one at a time in the
    order of their shard locks; the log holds the same lines as that sequential
    run would, but [SET] and [DEL] may be logged out of order, and a restart then
    ends in another state. *)

From stdpp Require Import gmap strings.
From S2P Require Import Prelude MachineInt Text Resp Pmr Value KeyStore Shard Router Aof Command Codec Spec Refinement ServerBuilder Recovery WorkerPool Concurrency Interleaving Instances EngineTheorems PersistenceTheorems.

Local Open Scope Z_scope.

Section theorems.
Context {U L : Type} `{!ArenaChain U, !PmrLib L, !PmrLibOk L}.

(** C9: concurrent commands are linearizable.  In every reachable state of the
    workers, their clients, the flush thread and the logger's shutdown, the
    router and the replies are those of executing the history, the commands in
    the order of their locks, one after the other; the history consists of the
    tasks executed so far, each once; and it only grows, so a
    command answered before another was taken comes before it. *)
Theorem commands_linearizable (threads : nat) (max : Z) (ro : ShardRouter U L) (path contents : string)
    (st st' : conc_state U L) (Hwf : router_wf ro)
    (Hr : rtc conc_step (conc_started threads max ro path contents) st) (Hr' : rtc conc_step st st') :
  (let '(replies, e) := sequential ro path contents (c_history st) in
   replies = (c_history st).*2 ∧ router e = c_router st ∧ env_wf e) ∧
  (λ x, x.1.2) <$> c_history st ≡ₚ c_posted st ++ executed (c_threads st) ∧
  c_history st `prefix_of` c_history st'.
Proof.
  destruct (conc_reachable_inv threads max ro path contents st Hwf Hr) as [Hw [H1 H2] _ _ _ _ _].
  destruct (conc_run_history _ _ Hr (history_tasks_started threads max ro path contents)) as [Ht _].
  split_and!; [|exact Ht|by apply (conc_run_history st st')].
  destruct (sequential _ _ _ _) as [rs e]. simpl in *. split_and!; [done..|].
  unfold env_wf. by rewrite H2.
Qed.

(** C12: what the log holds.  In every reachable state the lines logged, together
    with those that workers have still to log, are the lines the sequential run
    of the history logs, in some order; in the same order when the pool has one
    worker, or when no [SET] and no [DEL] was executed.  The file holds what it held
    at the start, a prefix of the lines logged and at most a part of the next one;
    the lines it does not hold whole are in the buffers. *)
Theorem log_of_history (threads : nat) (max : Z) (ro : ShardRouter U L) (path contents : string)
    (st : conc_state U L) (Hwf : router_wf ro)
    (Hr : rtc conc_step (conc_started threads max ro path contents) st) :
  ∃ lines, logging (aof (sequential ro path contents (c_history st)).2) lines ∧
    lines ≡ₚ accepted (c_aof st) ++ to_log (c_threads st) ∧
    ((threads <= 1)%nat → lines = accepted (c_aof st) ++ to_log (c_threads st)) ∧
    (none_late (c_history st) → lines = accepted (c_aof st)) ∧
    file_holds contents (c_aof st).
Proof.
  destruct (conc_reachable_inv threads max ro path contents st Hwf Hr) as [_ _ Ha _ _ Hn (lines & Hl & [Hp Ho Hlate])].
  exists lines. split_and!; [done|done|by rewrite <-Hn| |].
  - intros H. by destruct (Hlate H).
  - exact (aof_file_holds _ _ (aof_reachable_inv _ _ _ Ha)).
Qed.

(** Restart.  A server with one worker, or one that executed no [SET] and no
    [DEL], is shut down cleanly and its file is replayed into an empty server,
    possibly with another memory size and shard count.  Unless an entry expires
    by [T], the replay is refused memory or a command's text holds the byte 26, both
    give readers at [T] the same value under every key. *)
Lemma clean_restart_restores (h h' : Heap) (T total n total' n' : Z) (threads : nat) (max : Z) (r0 r1 : ShardRouter U L)
    (path path' : string) (clock : nat → Z) (st : conc_state U L)
    (Ht : is_u64 total) (Hn : is_u64 n) (Hr0 : ShardRouter_make h total n = Normal r0)
    (Ht' : is_u64 total') (Hn' : is_u64 n') (Hr1 : ShardRouter_make h' total' n' = Normal r1)
    (Hr : rtc conc_step (conc_started threads max r0 path "") st) (Hs : shutdown (c_aof st) = SClosed)
    (Horder : (threads <= 1)%nat ∨ none_late (c_history st))
    (Hcmds : Forall (λ p, ttl_ok T p.1 p.2 ∧ replayable p.2 ∧ ∀ i, ttl_ok T (clock i) p.2) (history_commands (c_history st)))
    (Hroom : oom_reply ∉
       (run_commands (timed clock 0 (omap (λ line, CommandFactory_parse (tokenize line))
          (getlines (text_in (disk (logger (c_aof st))))))) (env_set_replaying true (booting_env path' r1))).1) (k : string) :
  data <$> find_live T (router (replay clock (Some (disk (logger (c_aof st)))) (booting_env path' r1)).2) k
  = data <$> find_live T (c_router st) k.
Proof.
  set (e0 := MkEnv r0 (Some (logger (aof_started path "")))). set (e1 := booting_env path' r1) in *.
  destruct (empty_env_facts h total n r0 T (aof e0) Ht Hn Hr0) as (Hw0 & Hf0 & Hm0).
  destruct (empty_env_facts h' total' n' r1 T (aof e1) Ht' Hn' Hr1) as (Hw1 & Hf1 & Hm1).
  destruct (conc_reachable_inv threads max r0 path "" st Hw0 Hr)
    as [_ [_ Hro] Ha _ Hx Hlen (lines & (l & Hl & _ & _ & Hp) & [_ Ho Hlate])].
  assert (Hd : disk (logger (c_aof st)) = lines_text (pending l)).
  { assert (Hw : disk (logger (c_aof st)) = "" +:+ lines_text (accepted (c_aof st))) by by eapply aof_shutdown_complete.
    rewrite Hw, string_app_empty, Hp. f_equal. rewrite Hlen in Ho.
    rewrite all_exited_to_log, app_nil_r in Ho by (apply Hx; by rewrite Hs).
    destruct Horder as [H|H]; [by rewrite Ho|by destruct (Hlate H)]. }
  rewrite Hd in *.
  destruct (replay_same_map T (history_commands (c_history st)) clock e0 e1 ∅ Hw0 Hf0 Hm0) with (l := l)
    as (m' & H0 & H1); [by eexists|done..|].
  rewrite <-(H1 k), <-Hro. exact (H0 k).
Qed.

(** C31: the workers of this model are the worker pool: forgetting the log, every
    run is a run of [pool_step] over the router, so the queue is within its bound,
    tasks are taken in the order in which they were accepted, and every task taken
    is with one worker or was answered once. *)
Theorem workers_refine_pool (threads : nat) (max : Z) (ro : ShardRouter U L) (path contents : string)
    (st : conc_state U L) (Hm : 0 <= max)
    (Hr : rtc conc_step (conc_started threads max ro path contents) st) :
  rtc pool_step (pool_started threads max ro) (as_pool st) ∧
  queue_size (c_pool st) <= max ∧
  c_accepted st = c_taken st ++ queue_ (c_pool st) ∧
  c_taken st ≡ₚ c_posted st ++ in_flight (erase <$> c_threads st).
Proof.
  pose proof (conc_run_pool threads max ro path contents st Hr) as Hp. split; [done|].
  by destruct (pool_reachable_inv threads max ro (as_pool st) Hm Hp).
Qed.
End theorems.

(** ** A run with two workers

    Two clients set the same key; the worker that stored first logs second. *)

Definition set_task (v : string) (seq : Z) : Task ICommand := MkTask (SetCommand "k" v 60) 7 seq.

Definition race_start (threads : nat) : conc_state Bump Containers :=
  conc_started threads 10 (one_shard 100000) "f" "".

Definition race_script : list conc_label :=
  [CSubmit (set_task "1" 0); CSubmit (set_task "2" 1);
   CThread 0 0; CThread 1 0; CThread 0 0; CThread 1 1; CThread 1 1; CThread 0 1; CThread 0 1; CThread 1 1;
   CStop; CThread 0 1; CThread 1 1; CShutdown; CFlusher; CShutdown; CShutdown; CShutdown; CShutdown; CShutdown; CShutdown].

Definition race_result : conc_state Bump Containers := default (race_start 2) (run_conc race_script (race_start 2)).

Lemma race_run : run_conc race_script (race_start 2) = Some race_result.
Proof. vm_compute. reflexivity. Qed.

Lemma race_reachable : rtc conc_step (race_start 2) race_result.
Proof. exact (run_conc_sound _ _ _ race_run). Qed.

(** C26: with two workers a clean restart can end in another state.  The server
    reaches a state, shut down with everything written, in which a key holds the
    value stored last, and replaying its file leaves the value that was
    overwritten. *)
Theorem restart_reverts_value :
  ∃ st, rtc conc_step (race_start 2) st ∧ shutdown (c_aof st) = SClosed ∧
    (c_history st).*2 = ["+OK" +:+ crlf; "+OK" +:+ crlf] ∧
    ks_get 2 "k" (c_router st) = Some "2" ∧
    ks_get 2 "k" (router (replay (λ _, 2) (Some (disk (logger (c_aof st)))) (booting_env "f" (one_shard 100000))).2)
    = Some "1".
Proof. exists race_result. split; [exact race_reachable|]. split_and!; vm_compute; reflexivity. Qed.

Lemma commands_linearizable_witness :
  (let '(replies, e) := sequential (one_shard 100000) "f" "" (c_history race_result) in
   replies = (c_history race_result).*2 ∧ router e = c_router race_result ∧ env_wf e) ∧
  (λ x, x.1.2) <$> c_history race_result
    ≡ₚ c_posted race_result ++ executed (c_threads race_result) ∧
  c_history race_result `prefix_of` c_history race_result.
Proof.
  apply (commands_linearizable 2 10 (one_shard 100000) "f" "" race_result race_result);
    [by apply one_shard_wf|exact race_reachable|apply rtc_refl].
Defined.

Lemma log_of_history_witness :
  ∃ lines, logging (aof (sequential (one_shard 100000) "f" "" (c_history race_result)).2) lines ∧
    lines ≡ₚ accepted (c_aof race_result) ++ to_log (c_threads race_result) ∧
    ((2 <= 1)%nat → lines = accepted (c_aof race_result) ++ to_log (c_threads race_result)) ∧
    (none_late (c_history race_result) → lines = accepted (c_aof race_result)) ∧
    file_holds "" (c_aof race_result).
Proof.
  apply (log_of_history 2 10 (one_shard 100000) "f" "" race_result); [by apply one_shard_wf|exact race_reachable].
Defined.

Lemma workers_refine_pool_witness :
  rtc pool_step (pool_started 2 10 (one_shard 100000)) (as_pool race_result) ∧
  queue_size (c_pool race_result) <= 10 ∧
  c_accepted race_result = c_taken race_result ++ queue_ (c_pool race_result) ∧
  c_taken race_result ≡ₚ c_posted race_result ++ in_flight (erase <$> c_threads race_result).
Proof. apply (workers_refine_pool 2 10 (one_shard 100000) "f" "" race_result); [done|exact race_reachable]. Defined.
