(* ===== verification/ProgramTheorems.v ===== *)
(** * The whole program: what is proved of it

    From [launch] to the return of [main], over every interleaving of the main
    thread, the signal handler, the reactor thread, the workers, the flush thread
    and the sweeper. *)

From stdpp Require Import gmap.
From S2P Require Import Prelude MachineInt Text Resp Pmr Value KeyStore Shard Router Aof Command Codec Spec Refinement Recovery ServerBuilder TimingWheel WorkerPool Concurrency Interleaving Pipeline Reactor Startup Server Responses Framing Scheduler Program ProgramInv Shutdown ProgramScheduler Instances EngineTheorems PersistenceTheorems NetworkTheorems ConcurrencyTheorems.

Local Open Scope Z_scope.

Section launched.
Context {U L : Type} `{!ArenaChain U, !PmrLib L, !PmrLibOk L}.

(** The engine a program starts with. *)
Definition starting_env (p : program U L) : Env U L :=
  MkEnv (c_router (backend p)) (Some (logger (c_aof (backend p)))).

Lemma launch_boot heap b clock contents can_open now0 now1 (r : ShardRouter U L) :
  is_u64 (max_memory_ b) → is_u64 (builder_shard_count_ b) →
  ShardRouter_make heap (max_memory_ b) (builder_shard_count_ b) = Normal r →
  ∃ n e, boot heap b clock contents = Normal (n, e) ∧ env_wf e ∧
    launch heap b clock contents can_open now0 now1 =
    if can_open then
      Launched (program_started (Z.to_nat (worker_threads_ b)) default_max_queue_size (router e) (aof_path_ b)
        (default EmptyString contents) (wheel_start now1 (TimingWheel_make now0)))
    else Fatal (StartFails ("Failed to open AOF file: " +:+ aof_path_ b)) 1.
Proof.
  intros Hm Hn Hr. destruct (boot_runs heap b clock contents r Hm Hn Hr) as (k & e & Hb & Hw & Ha).
  exists k, e. split; [done|]. split; [done|]. unfold launch. rewrite Hb, Ha. by destruct can_open.
Qed.

Lemma launched_inv heap b clock contents can_open now0 now1 p :
  is_u64 (max_memory_ b) → is_u64 (builder_shard_count_ b) →
  launch heap b clock contents can_open now0 now1 = Launched p →
  ∃ ro w, p = program_started (Z.to_nat (worker_threads_ b)) default_max_queue_size ro (aof_path_ b)
    (default EmptyString contents) w ∧ router_wf ro ∧ ∀ i, bucket w i = [].
Proof.
  intros Hm Hn Hl.
  destruct (ShardRouter_make heap (max_memory_ b) (builder_shard_count_ b)) as [r|x] eqn:Hr.
  - destruct (launch_boot heap b clock contents can_open now0 now1 r Hm Hn Hr) as (k & e & _ & Hw & He).
    rewrite He in Hl. destruct can_open; [|done]. injection Hl as [= <-]. by eexists _, _.
  - unfold launch, boot in Hl. rewrite Hr in Hl. by destruct x.
Qed.

(** What a replay leaves in the router does not depend on the logger. *)
Lemma replay_router clock contents (r : ShardRouter U L) a a' :
  router (replay clock contents (MkEnv r a)).2 = router (replay clock contents (MkEnv r a')).2.
Proof.
  destruct contents as [text|]; [|done]. unfold replay.
  assert (H : ∀ lines i n e e', router e = router e' →
    router (replay_loop clock i lines n e).2 = router (replay_loop clock i lines n e').2).
  { induction lines as [|line lines IH]; intros i n [ro b] [ro' b'] He; simpl in He; subst ro'; [done|].
    cbn [replay_loop]. unfold replay_line. destruct line as [|ch line]; [by apply IH|].
    destruct (CommandFactory_parse _) as [c|]; [|by apply IH]. apply IH.
    apply (execute_oblivious (clock i) c ro b b'). }
  specialize (H (getlines (text_in text)) 0%nat 0 (env_set_replaying true (MkEnv r a)) (env_set_replaying true (MkEnv r a')) eq_refl).
  by destruct (replay_loop clock 0 (getlines (text_in text)) 0 (env_set_replaying true (MkEnv r a))),
    (replay_loop clock 0 (getlines (text_in text)) 0 (env_set_replaying true (MkEnv r a'))).
Qed.

Lemma launched_router heap b clock contents can_open now0 now1 (r : ShardRouter U L) p :
  is_u64 (max_memory_ b) → is_u64 (builder_shard_count_ b) →
  ShardRouter_make heap (max_memory_ b) (builder_shard_count_ b) = Normal r →
  launch heap b clock contents can_open now0 now1 = Launched p →
  c_router (backend p) = router (replay clock contents (booting_env (aof_path_ b) r)).2 ∧
  backend p = conc_started (Z.to_nat (worker_threads_ b)) default_max_queue_size (c_router (backend p)) (aof_path_ b)
    (default EmptyString contents).
Proof.
  intros Hm Hn Hr Hl. destruct (launch_boot heap b clock contents can_open now0 now1 r Hm Hn Hr) as (k & e & Hb & _ & He).
  rewrite He in Hl. destruct can_open; [|done]. injection Hl as [= <-]. split; [|done]. simpl.
  unfold boot in Hb. rewrite Hr in Hb. injection Hb as [= Hb].
  assert (e = (replay clock contents (MkEnv r (Some (AofLogger_make (aof_path_ b) (default EmptyString contents))))).2)
    as -> by (by rewrite Hb).
  apply replay_router.
Qed.

(** The history of the backend is a run of the specification. *)
Lemma replies_spec (h : history) (e : Env U L) :
  env_wf e → (run_commands (history_commands h) e).1 = h.*2 →
  spec_history e h (run_commands (history_commands h) e).2 ∧ env_wf (run_commands (history_commands h) e).2.
Proof.
  intros Hw Hrs. split; [|by apply run_commands_wf]. revert Hrs.
  induction h as [|[[now t] r] h IH] using rev_ind; [constructor|].
  unfold history_commands. rewrite map_app, fmap_app. simpl. fold (history_commands h). rewrite run_commands_snoc.
  pose proof (run_commands_wf (history_commands h) e Hw) as Hw1.
  destruct (run_commands (history_commands h) e) as [rs e1]. simpl in *.
  destruct (execute_view now (command t) e1 Hw1) as (rep & e2 & He & Hr & Hs & _). rewrite He. simpl.
  intros [Hrs <-]%app_inj_tail. econstructor; [by apply IH|done..].
Qed.

(** What a launched program has reached. *)
Section reached.
Context (heap : Heap) (b : ServerBuilder) (clock : nat → Z) (contents : option string) (now0 now1 : Z) (net : winsock).
Context (p0 p : program U L) (Hm : is_u64 (max_memory_ b)) (Hn : is_u64 (builder_shard_count_ b)).
Context (Hl : launch heap b clock contents true now0 now1 = Launched p0).
Abbreviation text := (default EmptyString contents).
Abbreviation inv := (prog_inv (Z.to_nat (worker_threads_ b)) default_max_queue_size).

Lemma reached_inv (Hr : rtc (prog_step net (port_ b)) (Alive p0) (Alive p)) :
  ∃ ro, router_wf ro ∧ inv ro (aof_path_ b) text p ∧
    starting_env p0 = MkEnv ro (Some (logger (aof_started (aof_path_ b) text))).
Proof.
  destruct (launched_inv _ _ _ _ _ _ _ _ Hm Hn Hl) as (ro & w & -> & Hw & Hb).
  exists ro. split_and!; [done| |done]. exact (prog_reachable_inv _ _ _ _ _ net (port_ b) w _ Hb Hr).
Qed.

Lemma reached_tracked (Hr : rtc (prog_step net (port_ b)) (Alive p0) (Alive p))
    (Hreg : regular (server_of (frontend p) (backend p))) : prog_tracked p.
Proof.
  destruct (launched_inv _ _ _ _ _ _ _ _ Hm Hn Hl) as (ro & w & -> & Hw & Hb).
  destruct (prog_regular_run net (port_ b) _ p Hr Hreg) as [Hr' _].
  { intros f g Hg. simpl in Hg. by rewrite lookup_empty in Hg. }
  exact (proj2 (prog_reachable_tracked _ _ _ _ _ net (port_ b) w _ Hb Hr')).
Qed.
End reached.

(** C3: the program, end to end.  Launch it on any configuration and any file and
    run all its threads.  In every state reached by a run in which no socket number
    was accepted twice and no client issued 2^64 requests (C32 shows what happens
    without the first), the tasks executed so far, each a request of a client and
    each executed once, make one history that is a run of the key-value
    specification from the engine the replayed file gave, and that gives the engine;
    every open connection is [answered] from this history; and the log is the
    history's: its lines, in some order, are those logged and those that workers
    have still to log, and the file holds what it held at the start, then a prefix
    of the lines logged and at most a part of the next one, the others being in the
    logger's buffers. *)
Theorem program_end_to_end (heap : Heap) (b : ServerBuilder) (clock : nat → Z) (contents : option string)
    (now0 now1 : Z) (net : winsock) (p0 p : program U L)
    (Hm : is_u64 (max_memory_ b)) (Hn : is_u64 (builder_shard_count_ b))
    (Hl : launch heap b clock contents true now0 now1 = Launched p0)
    (Hr : rtc (prog_step net (port_ b)) (Alive p0) (Alive p))
    (Honce : NoDup (f_accepted (frontend p)))
    (Hfew : ∀ f g, f_ghost (frontend p) !! f = Some g → Z.of_nat (length (g_requests g)) < 2 ^ 64) :
  let h := c_history (backend p) in
  let a := c_aof (backend p) in
  ∃ e lines, spec_history (starting_env p0) h e ∧ router e = c_router (backend p) ∧
    NoDup (history_ids h) ∧ history_ok h (f_ghost (frontend p)) ∧
    (∀ f c, connections_ (f_reactor (frontend p)) !! f = Some c → answered h (f_ghost (frontend p)) f c) ∧
    logging (aof e) lines ∧ lines ≡ₚ Aof.accepted a ++ to_log (c_threads (backend p)) ∧
    file_holds (default EmptyString contents) a.
Proof.
  intros h a. pose proof (reached_tracked _ _ _ _ _ _ _ _ _ Hm Hn Hl Hr (conj Honce Hfew)) as Ht.
  destruct (reached_inv _ _ _ _ _ _ _ _ _ Hm Hn Hl Hr) as (ro & Hw & Hi & ->).
  destruct (conc_reachable_inv _ _ _ _ _ _ Hw (pi_conc _ _ _ _ _ _ Hi)) as [_ [Hh Hro] Ha _ _ _ (lines & Hlog & Hok)].
  destruct (replies_spec h (MkEnv ro (Some (logger (aof_started (aof_path_ b) (default EmptyString contents)))))) as [Hs _]; [done..|].
  eexists _, lines. split_and!; [exact Hs|exact Hro| | | |exact Hlog|apply Hok|].
  - exact (t_once _ _ _ _ _ Ht).
  - exact (t_history _ _ _ _ _ Ht).
  - intros f c Hc. exact (tracked_answered _ _ h _ f c Hs Ht Hc).
  - exact (aof_file_holds _ _ (aof_reachable_inv _ _ _ Ha)).
Qed.

(** C5: shutdown loses nothing.  When [main] is about to return, with at least one
    worker: every connection is closed, every worker has returned, the queue is
    empty, and every task ever accepted was executed and its result posted, each
    once; the file is closed, and holds what it held at the start followed by all
    the lines of the history, in the order in which they were logged. *)
Theorem shutdown_loses_nothing (heap : Heap) (b : ServerBuilder) (clock : nat → Z) (contents : option string) (now0 now1 : Z)
    (net : winsock) (p0 p : program U L)
    (Hm : is_u64 (max_memory_ b)) (Hn : is_u64 (builder_shard_count_ b)) (Hk : 0 < worker_threads_ b)
    (Hl : launch heap b clock contents true now0 now1 = Launched p0)
    (Hr : rtc (prog_step net (port_ b)) (Alive p0) (Alive p)) (Hdone : main_at p = MDone) :
  let c := backend p in
  connections_ (f_reactor (frontend p)) = ∅ ∧ Forall (λ t, t = TExited) (c_threads c) ∧ queue_ (c_pool c) = [] ∧
  c_posted c ≡ₚ c_accepted c ∧ (λ x, x.1.2) <$> c_history c ≡ₚ c_accepted c ∧
  shutdown (c_aof c) = SClosed ∧
  ∃ lines, logging (aof (run_commands (history_commands (c_history c)) (starting_env p0)).2) lines ∧
    lines ≡ₚ Aof.accepted (c_aof c) ∧
    disk (logger (c_aof c)) = default EmptyString contents +:+ lines_text (Aof.accepted (c_aof c)).
Proof.
  intros c. destruct (reached_inv _ _ _ _ _ _ _ _ _ Hm Hn Hl Hr) as (ro & Hw & Hi & ->).
  destruct Hi as [_ _ Hc _ Hctl Hj _ Hx Hcl _ _ _ _]. rewrite Hdone in *. simpl in *.
  fold c in Hc. specialize (Hx ltac:(lia)). specialize (Hcl ltac:(lia)). destruct (Hj ltac:(lia)) as [_ Hst].
  rewrite Hst in Hctl. destruct Hctl as [_ Hctl].
  assert (Hmax : 0 <= default_max_queue_size) by done.
  destruct (pool_reachable_inv _ _ _ _ Hmax (conc_run_pool _ _ _ _ _ _ Hc)) as [_ _ Hf Ho Hlen He]. simpl in *.
  fold c in Hx, Hcl. rewrite length_fmap in Hlen.
  destruct (conc_run_history _ _ Hc (history_tasks_started _ _ _ _ _)) as [Hh _]. unfold history_tasks in Hh.
  destruct (conc_reachable_inv _ _ _ _ _ _ Hw Hc) as [_ _ Ha _ _ _ (lines & Hlog & [Hperm _ _])].
  assert (Hq : queue_ (c_pool c) = []).
  { apply He. destruct (c_threads c) as [|t ts]; [simpl in Hlen; lia|].
    apply Forall_cons in Hx as [-> _]. by left. }
  assert (Hpost : c_posted c ≡ₚ c_accepted c).
  { rewrite Hf, Hq, app_nil_r, Ho, all_exited_in_flight, app_nil_r; [done|].
    apply Forall_fmap. eapply Forall_impl; [exact Hx|]. by intros t ->. }
  split_and!; [done..| |done|].
  - by rewrite Hh, (all_exited_executed _ Hx), app_nil_r.
  - exists lines. split_and!; [exact Hlog|by rewrite Hperm, (all_exited_to_log _ Hx), app_nil_r|].
    by eapply aof_shutdown_complete.
Qed.

(** C21: restart.  A program that found no file, with one worker or without having
    executed a [SET] or a [DEL], is taken down, and started again on the file it
    left, possibly with another configuration.  Unless an entry expires by [T], the
    replay is refused memory, or the text of a command executed holds the byte 26,
    at which the file, opened in text mode, would end, readers find at [T] in the new
    program, under every key, what they would have found in the old one. *)
Theorem program_restart_restores (heap heap' : Heap) (T : Z) (b b' : ServerBuilder) (clock0 clock : nat → Z)
    (t0 t1 t0' t1' : Z) (net : winsock) (p0 p p1 : program U L) (r1 : ShardRouter U L)
    (Hm : is_u64 (max_memory_ b)) (Hn : is_u64 (builder_shard_count_ b))
    (Hm' : is_u64 (max_memory_ b')) (Hn' : is_u64 (builder_shard_count_ b'))
    (Hl : launch heap b clock0 None true t0 t1 = Launched p0)
    (Hr : rtc (prog_step net (port_ b)) (Alive p0) (Alive p)) (Hdone : main_at p = MDone)
    (Hl' : launch heap' b' clock (Some (disk (logger (c_aof (backend p))))) true t0' t1' = Launched p1)
    (Horder : worker_threads_ b <= 1 ∨ none_late (c_history (backend p)))
    (Hcmds : Forall (λ p, ttl_ok T p.1 p.2 ∧ replayable p.2 ∧ ∀ i, ttl_ok T (clock i) p.2)
       (history_commands (c_history (backend p))))
    (Hr1 : ShardRouter_make heap' (max_memory_ b') (builder_shard_count_ b') = Normal r1)
    (Hroom : oom_reply ∉
       (run_commands (timed clock 0 (omap (λ line, CommandFactory_parse (tokenize line))
          (getlines (text_in (disk (logger (c_aof (backend p))))))))
          (env_set_replaying true (booting_env (aof_path_ b') r1))).1) (k : string) :
  data <$> find_live T (c_router (backend p1)) k = data <$> find_live T (c_router (backend p)) k.
Proof.
  destruct (ShardRouter_make heap (max_memory_ b) (builder_shard_count_ b)) as [r0|x] eqn:Hr0.
  2:{ unfold launch, boot in Hl. rewrite Hr0 in Hl. by destruct x. }
  destruct (launched_router heap' b' clock _ _ _ _ r1 p1 Hm' Hn' Hr1 Hl') as [-> _].
  destruct (launched_inv _ _ _ _ _ _ _ _ Hm Hn Hl) as (ro & w & Hp0 & _ & Hb).
  destruct (launched_router heap b clock0 None _ _ _ r0 p0 Hm Hn Hr0 Hl) as [Hro _].
  subst p0. simpl in Hro. subst ro.
  pose proof (prog_reachable_inv _ _ _ _ _ net (port_ b) w _ Hb Hr) as Hi. simpl in Hi.
  apply (clean_restart_restores heap heap' T (max_memory_ b) (builder_shard_count_ b) (max_memory_ b')
    (builder_shard_count_ b') (Z.to_nat (worker_threads_ b)) default_max_queue_size r0 r1
    (aof_path_ b) (aof_path_ b') clock (backend p)); try done.
  - exact (pi_conc _ _ _ _ _ _ Hi).
  - apply (pi_closed _ _ _ _ _ _ Hi). rewrite Hdone. simpl. lia.
  - destruct Horder; [left; lia|by right].
Qed.

(** C6: when the program can be taken down.  If the socket can be opened, then from
    every reachable state there is a run on which [main] returns, unless
    [reactor.stop()] has already been called while the reactor thread had not yet
    set [running_]: no interleaving leads the shutdown into a deadlock, and the one
    race is the only one. *)
Theorem exit_reachable_iff (heap : Heap) (b : ServerBuilder) (clock : nat → Z) (contents : option string) (now0 now1 : Z)
    (net : winsock) (p0 p : program U L)
    (Hm : is_u64 (max_memory_ b)) (Hn : is_u64 (builder_shard_count_ b)) (Hok : all_ok net (port_ b))
    (Hl : launch heap b clock contents true now0 now1 = Launched p0)
    (Hr : rtc (prog_step net (port_ b)) (Alive p0) (Alive p)) :
  rtc (prog_step net (port_ b)) (Alive p) (Exited 0) ↔ ¬ stop_lost p.
Proof.
  destruct (reached_inv _ _ _ _ _ _ _ _ _ Hm Hn Hl Hr) as (ro & Hw & Hi & _). split.
  - intros He Hs. exact (hangs_forever _ _ _ _ _ _ _ _ _ Hi Hs He).
  - exact (can_exit_unless_lost _ _ _ _ _ _ _ Hw p Hok Hi).
Qed.

(** C33: a signal that comes early hangs the program.  There is a run from the
    launch to a state after the signal from which [main] never returns: it waits
    in [reactor_thread.join()] in every state that follows, while the reactor
    opens its socket, sets [running_] again and serves clients. *)
Theorem early_signal_hangs (heap : Heap) (b : ServerBuilder) (clock : nat → Z) (contents : option string) (now0 now1 : Z)
    (net : winsock) (p0 : program U L)
    (Hm : is_u64 (max_memory_ b)) (Hn : is_u64 (builder_shard_count_ b)) (Hok : all_ok net (port_ b))
    (Hl : launch heap b clock contents true now0 now1 = Launched p0) :
  ∃ p p', rtc (prog_step net (port_ b)) (Alive p0) (Alive p) ∧ g_running p = false ∧
    (∀ s, rtc (prog_step net (port_ b)) (Alive p) s → ∃ q, s = Alive q ∧ main_at q = MJoinReactor) ∧
    rtc (prog_step net (port_ b)) (Alive p) (Alive p') ∧ start_at p' = Looping ∧ f_running (frontend p') = true.
Proof.
  assert (∃ p, rtc (prog_step net (port_ b)) (Alive p0) (Alive p) ∧ g_running p = false ∧ main_at p = MJoinReactor ∧
    start_at p = Starting) as (p & Hr & Hg & Hj & Hs).
  { destruct (launched_inv _ _ _ _ _ _ _ _ Hm Hn Hl) as (ro & w & -> & _). unfold program_started.
    eexists. split; [|split; [|split]].
    - eapply rtc_l; [apply prog_signal|]. eapply rtc_l; [apply prog_wake|].
      eapply rtc_l; [apply prog_stop_reactor|]. apply rtc_refl.
    - done.
    - done.
    - done. }
  destruct (reached_inv _ _ _ _ _ _ _ _ _ Hm Hn Hl Hr) as (ro & Hw & Hi & _).
  destruct p as [g m s f c w sw]. simpl in *. subst.
  destruct (reaches_looping net (port_ b) false MJoinReactor Starting f c w sw Hok) as (f' & Hrl & _).
  assert (Hlost : stop_lost (Program false MJoinReactor Starting f c w sw)) by (split; [simpl; lia|done]).
  exists (Program false MJoinReactor Starting f c w sw), (Program false MJoinReactor Looping f' c w sw).
  split_and!; [done|done| |done|done|].
  - intros s Hs. pose proof (hangs_forever _ _ _ _ _ _ _ _ _ Hi Hlost Hs) as Hh.
    destruct s as [q| |]; simpl in Hh; [exists q; by destruct Hh|done|done].
  - destruct (hangs_forever _ _ _ _ _ _ _ _ _ Hi Hlost Hrl) as [[_ H] _]. exact (H eq_refl).
Qed.

(** C36: when the socket cannot be opened.  If a call of the start-up fails, the
    program never serves a client and never returns from [main]: in every
    reachable state no connection is open and no task was accepted, and the
    exception of the reactor thread can end the process at any moment.  The
    [catch] in [main] does not see it. *)
Theorem listen_failure_terminates (heap : Heap) (b : ServerBuilder) (clock : nat → Z) (contents : option string) (now0 now1 : Z)
    (net : winsock) (p0 : program U L) (s : process U L)
    (Hm : is_u64 (max_memory_ b)) (Hn : is_u64 (builder_shard_count_ b)) (Hbad : ¬ all_ok net (port_ b))
    (Hl : launch heap b clock contents true now0 now1 = Launched p0)
    (Hr : rtc (prog_step net (port_ b)) (Alive p0) s) :
  match s with
  | Alive p => connections_ (f_reactor (frontend p)) = ∅ ∧ c_accepted (backend p) = [] ∧
      ∃ what, prog_step net (port_ b) (Alive p) (Terminated what)
  | Terminated _ => True
  | Exited _ => False
  end.
Proof.
  destruct (launched_inv _ _ _ _ _ _ _ _ Hm Hn Hl) as (ro & w & -> & Hw & Hb).
  assert (H : unbound s) by (eapply unbound_reached; [exact Hbad|exact Hr|simpl; split_and!; [done|done|lia]]).
  pose proof (prog_reachable_inv _ _ _ _ _ net (port_ b) w _ Hb Hr) as Hi.
  destruct s as [p| |]; [|done|done]. destruct H as (Hs & Ha & _). simpl in Hi.
  destruct (pi_early _ _ _ _ _ _ Hi) as (l & run & Hf); [by rewrite Hs|].
  split_and!; [by rewrite Hf|done|]. destruct p as [g m s f c w' sw]. simpl in *. subst s.
  destruct (reactor_open net (port_ b) (f_reactor f)) as [[[]|[what]] r] eqn:Ho.
  - destruct Hbad. apply (reactor_open_normal net (port_ b) (f_reactor f)). by rewrite Ho.
  - exists what. by eapply prog_open_fails.
Qed.

(** C23: what a launch comes to, for every configuration of 64-bit numbers, every
    heap and whatever bytes the append-only file holds (or none).  When the router
    cannot be built ([router_construction], C16, says when) the program aborts at
    the assertion or the division, or [main] reports the allocation error and
    returns 1.  Otherwise the engine is the well-formed one that replaying the file
    gives, replaying logs nothing, and the threads start over it; when the file
    cannot be opened for appending, [main] reports that and returns 1.  (Assertions
    are on; the allocations after the router's, and the creation of the threads, are
    taken to succeed.) *)
Theorem launch_total (heap : Heap) (b : ServerBuilder) (clock : nat → Z) (contents : option string) (can_open : bool)
    (now0 now1 : Z) (Hm : is_u64 (max_memory_ b)) (Hn : is_u64 (builder_shard_count_ b)) :
  match ShardRouter_make (U := U) (L := L) heap (max_memory_ b) (builder_shard_count_ b) with
  | Throw (AllocFails x) => launch (U := U) (L := L) heap b clock contents can_open now0 now1 = Fatal (MemoryFails x) 1
  | Throw _ => launch (U := U) (L := L) heap b clock contents can_open now0 now1 = Aborted
  | Normal r =>
    ∃ e, e = (replay clock contents (MkEnv r (Some (AofLogger_make (aof_path_ b) (default EmptyString contents))))).2 ∧
      env_wf e ∧ aof e = Some (AofLogger_make (aof_path_ b) (default EmptyString contents)) ∧
      launch heap b clock contents can_open now0 now1 =
      if can_open then
        Launched (program_started (Z.to_nat (worker_threads_ b)) default_max_queue_size (router e) (aof_path_ b)
          (default EmptyString contents) (wheel_start now1 (TimingWheel_make now0)))
      else Fatal (StartFails ("Failed to open AOF file: " +:+ aof_path_ b)) 1
  end.
Proof.
  destruct (ShardRouter_make heap (max_memory_ b) (builder_shard_count_ b)) as [r|x] eqn:Hr.
  - destruct (boot_runs heap b clock contents r Hm Hn Hr) as (n & e & Hb & Hw & Ha).
    destruct (launch_boot heap b clock contents can_open now0 now1 r Hm Hn Hr) as (n' & e' & Hb' & _ & Hlaunch).
    rewrite Hb in Hb'. injection Hb' as [= <- <-]. exists e. split_and!; [|done..].
    unfold boot in Hb. rewrite Hr in Hb. injection Hb as [= Hb]. by rewrite Hb.
  - unfold launch, boot. rewrite Hr. by destruct x.
Qed.
End launched.

(** C34: a stopped reactor ends.  Once [running_] is false the reactor thread takes
    only finitely many steps, whatever the sockets give it and the other threads
    do: each of its steps goes down a well-founded order, no step of another
    thread touches its state or sets [running_], and until it has closed its
    connections it can always take a step. *)
Theorem stopped_reactor_ends {St} `{!Executor ICommand St} :
  well_founded lex_lt ∧
  ∀ sv : server St, running sv = false →
    (ctl sv ≠ Stopped → ∃ sv', reactor_step sv sv') ∧
    ∀ sv', server_step sv sv' →
      running sv' = false ∧
      (reactor_step sv sv' ∧ lex_lt (stop_measure sv') (stop_measure sv) ∨ stop_measure sv' = stop_measure sv).
Proof.
  split; [exact lex_lt_wf|]. intros sv Hrun. split; [apply reactor_can_move|].
  intros sv' Hs. destruct (reactor_undisturbed _ _ Hs) as [Hr|(Hre & Hc & Hf)].
  - split; [by destruct (reactor_step_frame _ _ Hr) as [-> _]|]. left. split; [done|by apply reactor_step_measure].
  - split; [auto|]. right. unfold stop_measure. by rewrite Hre, Hc.
Qed.

(** ** A run from launch to exit

    Two workers, one shard, a file with one line.  A client pipelines three lines;
    then a signal, and everything is taken down. *)

Definition small_builder : ServerBuilder := MkBuilder 8080 2 100000 1 "appendonly.aof".
Definition good_net : winsock := MkWinsock 0 3 (λ _ _, 0) (λ _, 0) 0.
Definition port_in_use : winsock := MkWinsock 0 3 (λ _ _, SOCKET_ERROR) (λ _, 0) 10048.
Definition old_log : string := "SET k old 60" +:+ String LF "".

Definition demo_launch : launched Bump Containers := launch ample_heap small_builder (λ _, 0) (Some old_log) true 0 0.

Definition alive_in (s : option (process Bump Containers)) : program Bump Containers :=
  match s with Some (Alive p) => p | _ => program_started 0 0 (one_shard 0) "" "" (TimingWheel_make 0) end.

Definition demo_program : program Bump Containers :=
  match demo_launch with Launched p => p | _ => alive_in None end.

Lemma demo_launched : launch ample_heap small_builder (λ _, 0) (Some old_log) true 0 0 = Launched demo_program.
Proof. vm_compute. reflexivity. Qed.

Definition serve_script : list prog_label :=
  map PReactor ([LReactor; LReactor] ++
    [LReactor; LReactor; LPoll [readable]; LAccept (Some (7, "10.0.0.1")); LReactor;
     LReactor; LReactor; LPoll [no_event; readable]; LReactor;
     LRecv ("SET k v" +:+ crlf +:+ "GET k" +:+ crlf +:+ "FOO" +:+ crlf);
     LReactor; LReactor; LReactor; LReactor; LReactor; LReactor; LReactor]) ++
  [PFlusher; PSweeper 1; PWorker 0 1; PWorker 1 1; PWorker 1 1; PWorker 1 1; PFlusher;
   PReactor LReactor; PReactor LReactor; PReactor LReactor; PWorker 0 2; PWorker 0 2; PFlusher;
   PFlusher; PFlusher; PFlusher; PFlusher; PSpill 5;
   PReactor LReactor; PReactor LReactor; PWorker 0 2; PReactor LReactor; PReactor LReactor; PReactor LReactor;
   PReactor LReactor].

Definition stop_script : list prog_label :=
  [PSignal; PMain; PMain; PReactor LReactor; PReactor LReactor; PMain; PMain; PWorker 0 3; PWorker 1 3; PMain;
   PMain; PFlusher; PFlusher; PMain; PMain; PMain; PMain; PMain; PSweeper 3; PMain].

Definition serving : program Bump Containers := alive_in (run_prog good_net 8080 serve_script (Alive demo_program)).
Definition stopped : program Bump Containers := alive_in (run_prog good_net 8080 stop_script (Alive serving)).

Lemma serving_reached : rtc (prog_run_step good_net 8080) (Alive demo_program) (Alive serving).
Proof. apply (run_prog_sound _ _ serve_script). vm_compute. reflexivity. Qed.

Lemma stopped_reached : rtc (prog_step good_net 8080) (Alive demo_program) (Alive stopped).
Proof.
  apply prog_run_steps. etrans; [exact serving_reached|].
  apply (run_prog_sound _ _ stop_script). vm_compute. reflexivity.
Qed.

Lemma good_net_ok : all_ok good_net 8080.
Proof. by split_and!. Qed.

(** What the client gets, and what the next start will find. *)
Example serving_output :
  write_buffer <$> connections_ (f_reactor (frontend serving)) !! 7
  = Some (string_concat (map encode [RSimple "OK"; RBulk (Some "old"); RError "ERR unknown command"])).
Proof. vm_compute. reflexivity. Qed.

(** At that moment the file ends in the middle of a line. *)
Example serving_file : disk (logger (c_aof (backend serving))) = old_log +:+ "SET k".
Proof. vm_compute. reflexivity. Qed.

Example stopped_file : disk (logger (c_aof (backend stopped))) = old_log +:+ lines_text ["SET k v 86400"].
Proof. vm_compute. reflexivity. Qed.

Lemma serving_regular : regular (server_of (frontend serving) (backend serving)).
Proof. apply regular_b_sound. vm_compute. reflexivity. Qed.

Lemma program_end_to_end_witness :
  ∃ e lines, spec_history (starting_env demo_program) (c_history (backend serving)) e ∧
    router e = c_router (backend serving) ∧
    NoDup (history_ids (c_history (backend serving))) ∧
    history_ok (c_history (backend serving)) (f_ghost (frontend serving)) ∧
    (∀ f c, connections_ (f_reactor (frontend serving)) !! f = Some c →
      answered (c_history (backend serving)) (f_ghost (frontend serving)) f c) ∧
    logging (aof e) lines ∧
    lines ≡ₚ Aof.accepted (c_aof (backend serving)) ++ to_log (c_threads (backend serving)) ∧
    file_holds old_log (c_aof (backend serving)).
Proof.
  exact (program_end_to_end ample_heap small_builder (λ _, 0) (Some old_log) 0 0 good_net demo_program serving
    ltac:(done) ltac:(done) demo_launched (prog_run_steps _ _ _ _ serving_reached)
    (proj1 serving_regular) (proj2 serving_regular)).
Defined.

Lemma stopped_done : main_at stopped = MDone.
Proof. vm_compute. reflexivity. Qed.

Lemma shutdown_loses_nothing_witness :
  connections_ (f_reactor (frontend stopped)) = ∅ ∧ Forall (λ t, t = TExited) (c_threads (backend stopped)) ∧
  queue_ (c_pool (backend stopped)) = [] ∧ c_posted (backend stopped) ≡ₚ c_accepted (backend stopped) ∧
  (λ x, x.1.2) <$> c_history (backend stopped) ≡ₚ c_accepted (backend stopped) ∧
  shutdown (c_aof (backend stopped)) = SClosed ∧
  ∃ lines, logging (aof (run_commands (history_commands (c_history (backend stopped))) (starting_env demo_program)).2) lines ∧
    lines ≡ₚ Aof.accepted (c_aof (backend stopped)) ∧
    disk (logger (c_aof (backend stopped))) = old_log +:+ lines_text (Aof.accepted (c_aof (backend stopped))).
Proof.
  exact (shutdown_loses_nothing ample_heap small_builder (λ _, 0) (Some old_log) 0 0 good_net demo_program stopped
    ltac:(done) ltac:(done) eq_refl demo_launched stopped_reached stopped_done).
Defined.

Lemma exit_reachable_iff_witness :
  rtc (prog_step good_net 8080) (Alive serving) (Exited 0) ↔ ¬ stop_lost serving.
Proof.
  exact (exit_reachable_iff ample_heap small_builder (λ _, 0) (Some old_log) 0 0 good_net demo_program serving
    ltac:(done) ltac:(done) good_net_ok demo_launched (prog_run_steps _ _ _ _ serving_reached)).
Defined.

Lemma early_signal_hangs_witness :
  ∃ p p', rtc (prog_step good_net 8080) (Alive demo_program) (Alive p) ∧ g_running p = false ∧
    (∀ s, rtc (prog_step good_net 8080) (Alive p) s → ∃ q, s = Alive q ∧ main_at q = MJoinReactor) ∧
    rtc (prog_step good_net 8080) (Alive p) (Alive p') ∧ start_at p' = Looping ∧ f_running (frontend p') = true.
Proof.
  exact (early_signal_hangs ample_heap small_builder (λ _, 0) (Some old_log) 0 0 good_net demo_program
    ltac:(done) ltac:(done) good_net_ok demo_launched).
Defined.

Lemma listen_failure_terminates_witness :
  connections_ (f_reactor (frontend demo_program)) = ∅ ∧ c_accepted (backend demo_program) = [] ∧
  ∃ what, prog_step port_in_use 8080 (Alive demo_program) (Terminated what).
Proof.
  refine (listen_failure_terminates ample_heap small_builder (λ _, 0) (Some old_log) 0 0 port_in_use demo_program
    (Alive demo_program) ltac:(done) ltac:(done) _ demo_launched (rtc_refl _ _)).
  by intros (_ & _ & H & _).
Defined.

Lemma launch_total_witness :
  match ShardRouter_make (U := Bump) (L := Containers) ample_heap 100000 1 with
  | Throw (AllocFails x) => demo_launch = Fatal (MemoryFails x) 1
  | Throw _ => demo_launch = Aborted
  | Normal r =>
    ∃ e, e = (replay (λ _, 0) (Some old_log) (MkEnv r (Some (AofLogger_make "appendonly.aof" old_log)))).2 ∧
      env_wf e ∧ aof e = Some (AofLogger_make "appendonly.aof" old_log) ∧
      demo_launch =
      Launched (program_started 2 default_max_queue_size (router e) "appendonly.aof" old_log
        (wheel_start 0 (TimingWheel_make 0)))
  end.
Proof.
  exact (launch_total ample_heap small_builder (λ _, 0) (Some old_log) true 0 0 ltac:(done) ltac:(done)).
Defined.

(** Launches that do not come to threads. *)
Example launch_failures :
  (launch (U := Bump) (L := Containers) ample_heap (setShardCount 48 small_builder) (λ _, 0) None true 0 0,
   launch (U := Bump) (L := Containers) ample_heap (setShardCount (2 ^ 60) small_builder) (λ _, 0) None true 0 0,
   launch (U := Bump) (L := Containers) (MkHeap (2 ^ 60 - 1) (λ _, true) (λ _, true) (λ _ _, false)) small_builder (λ _, 0) None true 0 0,
   launch (U := Bump) (L := Containers) ample_heap small_builder (λ _, 0) None false 0 0) =
  (Aborted, Fatal (MemoryFails LengthError) 1, Fatal (MemoryFails BadAlloc) 1,
   Fatal (StartFails "Failed to open AOF file: appendonly.aof") 1).
Proof. vm_compute. reflexivity. Qed.

(** The server of the run above, after [stop]. *)
Definition told_to_stop : server (ShardRouter Bump Containers) :=
  server_of (set_f_running false (frontend serving)) (backend serving).

Lemma stopped_reactor_ends_witness :
  (ctl told_to_stop ≠ Stopped → ∃ sv', reactor_step told_to_stop sv') ∧
  ∀ sv', server_step told_to_stop sv' →
    running sv' = false ∧
    (reactor_step told_to_stop sv' ∧ lex_lt (stop_measure sv') (stop_measure told_to_stop) ∨
     stop_measure sv' = stop_measure told_to_stop).
Proof. exact (proj2 stopped_reactor_ends told_to_stop eq_refl). Defined.

(** One worker and no file; a client sets a key twice, then the program is taken
    down and started again with two workers and more memory. *)
Definition single_builder : ServerBuilder := setWorkerThreads 1 small_builder.
Definition next_builder : ServerBuilder := MkBuilder 8080 2 200000 1 "appendonly.aof".

Definition launched_program (l : launched Bump Containers) : program Bump Containers :=
  match l with Launched p => p | _ => alive_in None end.

Definition single_program : program Bump Containers :=
  launched_program (launch ample_heap single_builder (λ _, 0) None true 0 0).

Definition single_script : list prog_label :=
  map PReactor [LReactor; LReactor; LReactor; LReactor; LPoll [readable]; LAccept (Some (7, "10.0.0.1")); LReactor;
     LReactor; LReactor; LPoll [no_event; readable]; LReactor;
     LRecv ("SET k v" +:+ crlf +:+ "SET k w" +:+ crlf);
     LReactor; LReactor; LReactor; LReactor; LReactor; LReactor] ++
  [PWorker 0 1; PWorker 0 1; PWorker 0 1; PWorker 0 1; PWorker 0 2; PWorker 0 2; PWorker 0 2; PWorker 0 2;
   PSignal; PMain; PMain; PReactor LReactor; PMain; PMain; PWorker 0 3; PMain;
   PMain; PFlusher; PMain; PMain; PMain; PMain; PMain; PMain; PMain; PMain; PSweeper 3; PMain].

Definition single_stopped : program Bump Containers :=
  alive_in (run_prog good_net 8080 single_script (Alive single_program)).

Definition next_program : program Bump Containers :=
  launched_program (launch ample_heap next_builder (λ _, 5) (Some (disk (logger (c_aof (backend single_stopped))))) true 0 0).

Lemma single_launched : launch ample_heap single_builder (λ _, 0) None true 0 0 = Launched single_program.
Proof. vm_compute. reflexivity. Qed.

Lemma single_reached : rtc (prog_step good_net 8080) (Alive single_program) (Alive single_stopped).
Proof. apply prog_run_steps, (run_prog_sound _ _ single_script). vm_compute. reflexivity. Qed.

Lemma single_done : main_at single_stopped = MDone.
Proof. vm_compute. reflexivity. Qed.

Lemma next_launched :
  launch ample_heap next_builder (λ _, 5) (Some (disk (logger (c_aof (backend single_stopped))))) true 0 0 = Launched next_program.
Proof. vm_compute. reflexivity. Qed.

Lemma single_history :
  history_commands (c_history (backend single_stopped)) = [(1, SetCommand "k" "v" 86400); (2, SetCommand "k" "w" 86400)].
Proof. vm_compute. reflexivity. Qed.

(** The router of one shard that the second launch builds. *)
Definition next_router : ShardRouter Bump Containers := MkRouter 1 0 [shard_over 200000].

Lemma program_restart_restores_witness :
  data <$> find_live 10 (c_router (backend next_program)) "k"
  = data <$> find_live 10 (c_router (backend single_stopped)) "k".
Proof.
  apply (program_restart_restores ample_heap ample_heap 10 single_builder next_builder (λ _, 0) (λ _, 5) 0 0 0 0 good_net single_program
    single_stopped next_program next_router);
    [done|done|done|done|exact single_launched|exact single_reached|exact single_done|exact next_launched|
     by left| |reflexivity|].
  - rewrite single_history. repeat constructor; simpl; try done; try (intros _; right; vm_compute; reflexivity); lia.
  - vm_compute. intros H. repeat (apply elem_of_cons in H as [H|H]; [discriminate H|]). by apply elem_of_nil in H.
Defined.
